(** * Matching engine of the Goquant trading venue

    A shallow embedding of [matching_engine/core] (models, order book,
    engine), [matching_engine/utils/fees.py] and
    [matching_engine/persistence/snapshot.py], with the properties the
    specification states about them.

    Conventions of the embedding.
    - A Python exception is a [Raise] result; the state reached at the
      moment of the exception is not observed.
    - Prices and quantities are [Decimal] values, given in units of one
      fixed exponent per venue: a value is the [Z] number of its units.
      Comparisons and [min] are exact.  A sum or a difference is the exact
      result rounded to the context precision (28 significant digits,
      round-half-even), whatever the exponents of the operands: [Dec.plus]
      and [Dec.minus].  Products and [quantize] (fees) follow the same
      context.  The exponent range of the context is not modelled, and the
      sort key of the bid side ([-price]) is taken as it is for prices of at
      most 28 digits.
    - An [Order] object is identified with the value of its fields.  Where
      the source holds one object in two places (the queue of a price level
      and [order_index]) both places are updated together.  An object
      submitted again while the engine still holds it is outside the
      embedding: the theorems about the states reached from a new engine
      that depend on it take every order to be submitted once
      ([unused_id]).
    - Loggers and publishers are unset ([None]), as after construction;
      wall-clock time stamps of trades and results are left out. *)

From Stdlib Require Import ZArith List Lia Bool String.
From stdpp Require Import base option list gmap strings.

Open Scope Z_scope.

(** ** Results of fallible code *)

Inductive exn :=
  | ValueError | TypeError | KeyError | InvalidOperation | OrderNotFoundError.

Inductive Res (A : Type) :=
  | Ok (a : A)
  | Raise (e : exn)
  | NoFuel.
Arguments Ok {A} a.
Arguments Raise {A} e.
Arguments NoFuel {A}.

#[global] Instance Res_ret : MRet Res := fun A a => Ok a.
#[global] Instance Res_bind : MBind Res := fun A B f m =>
  match m with
  | Ok a => f a
  | Raise e => Raise e
  | NoFuel => NoFuel
  end.

(** ** decimal.Decimal under the default context *)

Module Dec.

Record Decimal := mk { coef : Z; expo : Z }.

#[global] Instance Decimal_eq_dec : EqDecision Decimal.
Proof. solve_decision. Defined.

Definition prec : Z := 28.

(** Number of decimal digits of a non-negative coefficient; 1 for 0. *)
Fixpoint digits_aux (fuel : nat) (n : Z) : Z :=
  match fuel with
  | O => 1
  | S f => if n <? 10 then 1 else 1 + digits_aux f (n / 10)
  end.

Definition digits (n : Z) : Z := digits_aux (S (Z.to_nat (Z.log2 n))) n.

(** ROUND_HALF_EVEN of the quotient [n / d], for [0 <= n] and [0 < d]. *)
Definition round_half_even (n d : Z) : Z :=
  let q := n / d in
  let r := n mod d in
  if 2 * r <? d then q
  else if d <? 2 * r then q + 1
  else if Z.even q then q else q + 1.

(** [Decimal._fix]: round the coefficient to the context precision. *)
Definition fix_ (x : Decimal) : Decimal :=
  let m := Z.abs (coef x) in
  let n := digits m in
  if n <=? prec then x
  else
    let k := n - prec in
    let c := round_half_even m (10 ^ k) in
    if digits c <=? prec
    then mk (Z.sgn (coef x) * c) (expo x + k)
    else mk (Z.sgn (coef x) * (c / 10)) (expo x + k + 1).

(** [Decimal.__mul__]: exact product, then [_fix]. *)
Definition mul (x y : Decimal) : Decimal :=
  fix_ (mk (coef x * coef y) (expo x + expo y)).

(** [Decimal._rescale]: the same value at exponent [e], rounded. *)
Definition rescale (x : Decimal) (e : Z) : Decimal :=
  if e <=? expo x
  then mk (coef x * 10 ^ (expo x - e)) e
  else mk (Z.sgn (coef x) * round_half_even (Z.abs (coef x)) (10 ^ (e - expo x))) e.

(** [Decimal.quantize] to the exponent [e]. *)
Definition quantize (x : Decimal) (e : Z) : Res Decimal :=
  if coef x =? 0 then Ok (mk 0 e)
  else if prec <? digits (Z.abs (coef x)) + expo x - e then Raise InvalidOperation
  else
    let ans := rescale x e in
    if prec <? digits (Z.abs (coef ans)) then Raise InvalidOperation else Ok ans.

Definition zero : Decimal := mk 0 0.

(** [_normalize(op1, op2, prec)]: both operands at one exponent.  The
    operand of the larger exponent is padded; the other one, when it is
    too small to be seen at the precision, is replaced by one unit at the
    exponent where rounding decides. *)
Definition normalize (op1 op2 : Decimal) : Decimal * Decimal :=
  let swap := expo op1 <? expo op2 in
  let tmp := if swap then op2 else op1 in
  let other := if swap then op1 else op2 in
  let tmp_len := digits (Z.abs (coef tmp)) in
  let other_len := digits (Z.abs (coef other)) in
  let exp := expo tmp + Z.min (-1) (tmp_len - prec - 2) in
  let other :=
    if other_len + expo other - 1 <? exp then mk (Z.sgn (coef other)) exp
    else other in
  let tmp := mk (coef tmp * 10 ^ (expo tmp - expo other)) (expo other) in
  if swap then (other, tmp) else (tmp, other).

(** [Decimal.__add__]. *)
Definition add (x y : Decimal) : Decimal :=
  let exp := Z.min (expo x) (expo y) in
  if (coef x =? 0) && (coef y =? 0) then fix_ (mk 0 exp)
  else if coef x =? 0 then fix_ (rescale y (Z.max exp (expo y - prec - 1)))
  else if coef y =? 0 then fix_ (rescale x (Z.max exp (expo x - prec - 1)))
  else
    let '(op1, op2) := normalize x y in
    if coef op1 + coef op2 =? 0 then fix_ (mk 0 exp)
    else fix_ (mk (coef op1 + coef op2) (expo op1)).

(** [Decimal.__sub__]: [self + (-other)]. *)
Definition sub (x y : Decimal) : Decimal :=
  add x (mk (- coef y) (expo y)).

(** The value of [n] units after [_fix]: [n] rounded to the precision. *)
Definition round (n : Z) : Z :=
  let d := fix_ (mk n 0) in coef d * 10 ^ expo d.

(** [a + b] and [a - b] for two values given in units of one exponent:
    the exact result, rounded to the precision. *)
Definition plus (a b : Z) : Z := round (a + b).

Definition minus (a b : Z) : Z := round (a - b).

End Dec.

Abbreviation Decimal := Dec.Decimal.

(** ** utils/fees.py *)

Record FeeCalculator := {
  maker_fee_rate : Decimal;
  taker_fee_rate : Decimal
}.

(** [Decimal("0.00000001")] carries the exponent -8. *)
Definition fee_quantum_exp : Z := -8.

Definition calculate_fees (fc : FeeCalculator) (trade_value : Decimal)
  : Res (Decimal * Decimal) :=
  let maker_fee := Dec.mul trade_value (maker_fee_rate fc) in
  let taker_fee := Dec.mul trade_value (taker_fee_rate fc) in
  maker_fee ← Dec.quantize maker_fee fee_quantum_exp;
  taker_fee ← Dec.quantize taker_fee fee_quantum_exp;
  Ok (maker_fee, taker_fee).

Definition calculate_maker_fee (fc : FeeCalculator) (trade_value : Decimal)
  : Res Decimal :=
  let fee := Dec.mul trade_value (maker_fee_rate fc) in
  Dec.quantize fee fee_quantum_exp.

Definition calculate_taker_fee (fc : FeeCalculator) (trade_value : Decimal)
  : Res Decimal :=
  let fee := Dec.mul trade_value (taker_fee_rate fc) in
  Dec.quantize fee fee_quantum_exp.

Definition get_net_proceeds (fc : FeeCalculator) (trade_value : Decimal)
    (is_maker : bool) : Res Decimal :=
  fee ← (if is_maker then calculate_maker_fee fc trade_value
         else calculate_taker_fee fc trade_value);
  Ok (Dec.sub trade_value fee).




(** [default_fee_calculator = FeeCalculator()]: rates 0.001 and 0.002. *)
Definition default_fee_calculator : FeeCalculator :=
  {| maker_fee_rate := Dec.mk 1 (-3); taker_fee_rate := Dec.mk 2 (-3) |}.

(** ** core/models.py *)

Inductive OrderType :=
  | MARKET | LIMIT | IOC | FOK | STOP_LOSS | STOP_LIMIT | TAKE_PROFIT.

Inductive Side := BUY | SELL.

Inductive OrderStatus := NEW | PARTIAL | FILLED | CANCELLED | REJECTED.

#[global] Instance OrderType_eq_dec : EqDecision OrderType.
Proof. solve_decision. Defined.
#[global] Instance Side_eq_dec : EqDecision Side.
Proof. solve_decision. Defined.
#[global] Instance OrderStatus_eq_dec : EqDecision OrderStatus.
Proof. solve_decision. Defined.

Record Order := {
  order_id : string;
  symbol : string;
  order_type : OrderType;
  side : Side;
  quantity : Z;
  price : option Z;
  timestamp : Z;
  remaining_quantity : Z;
  status : OrderStatus;
  stop_price : option Z;
  is_triggered : bool
}.

#[global] Instance Order_eq_dec : EqDecision Order.
Proof. solve_decision. Defined.

Definition set_remaining_quantity (o : Order) (q : Z) : Order :=
  {| order_id := order_id o; symbol := symbol o; order_type := order_type o;
     side := side o; quantity := quantity o; price := price o;
     timestamp := timestamp o; remaining_quantity := q; status := status o;
     stop_price := stop_price o; is_triggered := is_triggered o |}.

Definition set_status (o : Order) (s : OrderStatus) : Order :=
  {| order_id := order_id o; symbol := symbol o; order_type := order_type o;
     side := side o; quantity := quantity o; price := price o;
     timestamp := timestamp o; remaining_quantity := remaining_quantity o;
     status := s; stop_price := stop_price o; is_triggered := is_triggered o |}.

Definition set_is_triggered (o : Order) (b : bool) : Order :=
  {| order_id := order_id o; symbol := symbol o; order_type := order_type o;
     side := side o; quantity := quantity o; price := price o;
     timestamp := timestamp o; remaining_quantity := remaining_quantity o;
     status := status o; stop_price := stop_price o; is_triggered := b |}.

Definition set_order_type (o : Order) (t : OrderType) : Order :=
  {| order_id := order_id o; symbol := symbol o; order_type := t;
     side := side o; quantity := quantity o; price := price o;
     timestamp := timestamp o; remaining_quantity := remaining_quantity o;
     status := status o; stop_price := stop_price o;
     is_triggered := is_triggered o |}.

Definition set_price (o : Order) (p : option Z) : Order :=
  {| order_id := order_id o; symbol := symbol o; order_type := order_type o;
     side := side o; quantity := quantity o; price := p;
     timestamp := timestamp o; remaining_quantity := remaining_quantity o;
     status := status o; stop_price := stop_price o;
     is_triggered := is_triggered o |}.

Definition is_priced_type (t : OrderType) : bool :=
  match t with LIMIT | IOC | FOK => true | _ => false end.

Definition is_stop_type (t : OrderType) : bool :=
  match t with STOP_LOSS | STOP_LIMIT | TAKE_PROFIT => true | _ => false end.

(** A required decimal field: present and strictly positive. *)
Definition required_positive (x : option Z) : bool :=
  match x with Some v => 0 <? v | None => false end.

(** [Order.__post_init__]: [true] when no [ValueError] is raised. *)
Definition Order_post_init (o : Order) : bool :=
  (0 <? quantity o)
  && (if is_priced_type (order_type o) then required_positive (price o) else true)
  && (if is_stop_type (order_type o) then required_positive (stop_price o) else true)
  && (if decide (order_type o = STOP_LIMIT) then required_positive (price o) else true)
  && (0 <=? remaining_quantity o)
  && (remaining_quantity o <=? quantity o).

(** The constructor call [Order(...)]. *)
Definition Order_new (o : Order) : Res Order :=
  if Order_post_init o then Ok o else Raise ValueError.

Definition can_rest_on_book (o : Order) : bool :=
  bool_decide (order_type o = LIMIT).

Definition is_filled (o : Order) : bool := remaining_quantity o =? 0.

Definition update_status (o : Order) : Order :=
  if remaining_quantity o =? 0 then set_status o FILLED
  else if remaining_quantity o <? quantity o then set_status o PARTIAL
  else o.

Record Trade := {
  trade_id : Z;
  trade_symbol : string;
  trade_price : Z;
  trade_quantity : Z;
  maker_order_id : string;
  taker_order_id : string;
  aggressor_side : Side;
  maker_fee : Decimal;
  taker_fee : Decimal;
  trade_maker_fee_rate : Decimal;
  trade_taker_fee_rate : Decimal
}.

(** [Trade.__post_init__]. *)
Definition Trade_post_init (t : Trade) : bool :=
  (0 <? trade_price t) && (0 <? trade_quantity t).

Definition Trade_new (t : Trade) : Res Trade :=
  if Trade_post_init t then Ok t else Raise ValueError.

Definition set_fees (t : Trade) (mf tf mr tr : Decimal) : Trade :=
  {| trade_id := trade_id t; trade_symbol := trade_symbol t;
     trade_price := trade_price t; trade_quantity := trade_quantity t;
     maker_order_id := maker_order_id t; taker_order_id := taker_order_id t;
     aggressor_side := aggressor_side t;
     maker_fee := mf; taker_fee := tf;
     trade_maker_fee_rate := mr; trade_taker_fee_rate := tr |}.

Record OrderResult := {
  result_order_id : string;
  result_status : string;
  result_trades : list Trade;
  result_remaining_quantity : Z
}.

(** [Order.is_marketable(best_bid, best_ask)].  The comparison is reached
    only with a best price on the opposite side; a missing limit price
    then raises [TypeError]. *)
Definition is_marketable (o : Order) (best_bid best_ask : option Z) : Res bool :=
  if decide (order_type o = MARKET) then Ok true
  else
    match side o with
    | BUY =>
        match best_ask with
        | None => Ok false
        | Some ask =>
            match price o with
            | None => Raise TypeError
            | Some p => Ok (ask <=? p)
            end
        end
    | SELL =>
        match best_bid with
        | None => Ok false
        | Some bid =>
            match price o with
            | None => Raise TypeError
            | Some p => Ok (p <=? bid)
            end
        end
    end.

Record BBO := {
  bbo_symbol : string;
  best_bid : option Z;
  best_bid_quantity : Z;
  best_ask : option Z;
  best_ask_quantity : Z
}.

(** The L2 snapshot of [models.py]: price and aggregate quantity of the
    top levels of each side. *)
Record OrderBookSnapshot := {
  snapshot_symbol : string;
  snapshot_bids : list (Z * Z);
  snapshot_asks : list (Z * Z)
}.

(** ** core/order_book.py *)

(** [list.remove] and [deque.remove]: drop the first element equal to [x];
    [None] stands for the [ValueError] of an absent element. *)
Fixpoint list_remove {A} `{EqDecision A} (x : A) (l : list A) : option (list A) :=
  match l with
  | [] => None
  | y :: l' => if decide (y = x) then Some l' else cons y <$> list_remove x l'
  end.

Module PriceLevel.

Record t := mk {
  price : Z;
  orders : list Order;
  total_quantity : Z
}.

Definition new (p : Z) : t := mk p [] 0.

Definition add_order (l : t) (o : Order) : t :=
  mk (price l) (orders l ++ [o]) (Dec.plus (total_quantity l) (remaining_quantity o)).

Definition remove_order (l : t) (o : Order) : Res t :=
  match list_remove o (orders l) with
  | Some os => Ok (mk (price l) os (Dec.minus (total_quantity l) (remaining_quantity o)))
  | None => Raise ValueError
  end.

Definition update_quantity (l : t) (old_qty new_qty : Z) : t :=
  mk (price l) (orders l) (Dec.plus (Dec.minus (total_quantity l) old_qty) new_qty).

Definition is_empty (l : t) : bool := bool_decide (length (orders l) = 0%nat).

End PriceLevel.

(** [sortedcontainers.SortedDict] keyed by price: an association list kept
    in increasing order of [key p]; the first entry is [keys()[0]]. *)
Module SortedDict.

Definition t := list (Z * PriceLevel.t).

Fixpoint get (p : Z) (d : t) : option PriceLevel.t :=
  match d with
  | [] => None
  | (q, l) :: d' => if p =? q then Some l else get p d'
  end.

(** [d[p] = l], for a new or an existing key. *)
Fixpoint set (key : Z -> Z) (p : Z) (l : PriceLevel.t) (d : t) : t :=
  match d with
  | [] => [(p, l)]
  | (q, m) :: d' =>
      if p =? q then (p, l) :: d'
      else if key p <? key q then (p, l) :: d
      else (q, m) :: set key p l d'
  end.

(** [del d[p]]. *)
Fixpoint del (p : Z) (d : t) : t :=
  match d with
  | [] => []
  | (q, m) :: d' => if p =? q then d' else (q, m) :: del p d'
  end.

End SortedDict.

Module OrderBook.

Record t := mk {
  symbol : string;
  bids : SortedDict.t;
  asks : SortedDict.t;
  order_index : gmap string (Order * Side)
}.

(** Key functions of the two sides: [SortedDict(lambda x: -x)] for the
    bids, the identity for the asks. *)
Definition key_of (s : Side) : Z -> Z :=
  match s with BUY => Z.opp | SELL => fun x => x end.

Definition levels (s : Side) (b : t) : SortedDict.t :=
  match s with BUY => bids b | SELL => asks b end.

Definition set_levels (s : Side) (d : SortedDict.t) (b : t) : t :=
  match s with
  | BUY => mk (symbol b) d (asks b) (order_index b)
  | SELL => mk (symbol b) (bids b) d (order_index b)
  end.

Definition set_order_index (i : gmap string (Order * Side)) (b : t) : t :=
  mk (symbol b) (bids b) (asks b) i.

Definition new (sym : string) : t := mk sym [] [] ∅.

(** An order that comes to rest has a price: the constructor gives one to
    a limit order, and the conversion of a triggered order keeps or sets
    one.  Without a price the source compares [None] with the resting
    keys, a [TypeError], except on an empty ask side, where it files the
    level under [None]; that case, which needs an order changed after its
    construction, is reported as [TypeError] too. *)
Definition add_order (b : t) (o : Order) : Res t :=
  match price o with
  | None => Raise TypeError
  | Some p =>
      let price_levels := levels (side o) b in
      let price_level :=
        match SortedDict.get p price_levels with
        | Some l => l
        | None => PriceLevel.new p
        end in
      let price_level := PriceLevel.add_order price_level o in
      let b := set_levels (side o)
                 (SortedDict.set (key_of (side o)) p price_level price_levels) b in
      Ok (set_order_index (<[order_id o := (o, side o)]> (order_index b)) b)
  end.

Definition remove_order (b : t) (oid : string) : Res (t * Order) :=
  match order_index b !! oid with
  | None => Raise OrderNotFoundError
  | Some (order, sd) =>
      let price_levels := levels sd b in
      match price order with
      | None => Raise KeyError
      | Some p =>
          match SortedDict.get p price_levels with
          | None => Raise KeyError
          | Some price_level =>
              price_level ← PriceLevel.remove_order price_level order;
              let price_levels :=
                if PriceLevel.is_empty price_level
                then SortedDict.del p price_levels
                else SortedDict.set (key_of sd) p price_level price_levels in
              let b := set_levels sd price_levels b in
              Ok (set_order_index (delete oid (order_index b)) b, order)
          end
      end
  end.

Definition get_best_bid (b : t) : option (Z * PriceLevel.t) := head (bids b).

Definition get_best_ask (b : t) : option (Z * PriceLevel.t) := head (asks b).

Definition has_order (b : t) (oid : string) : bool :=
  bool_decide (is_Some (order_index b !! oid)).

Definition get_order (b : t) (oid : string) : option Order :=
  fst <$> order_index b !! oid.

(** [update_order_quantity(order, old_qty)]: [order] is the resting object
    after its remaining quantity changed, so the queue holds it already;
    the aggregate of its level is brought in step.  A price without a
    level, or no price, leaves the book as it is. *)
Definition update_order_quantity (b : t) (o : Order) (old_qty : Z) : t :=
  let price_levels := levels (side o) b in
  match price o with
  | None => b
  | Some p =>
      match SortedDict.get p price_levels with
      | None => b
      | Some price_level =>
          let price_level :=
            PriceLevel.update_quantity price_level old_qty (remaining_quantity o) in
          if PriceLevel.is_empty price_level
          then set_levels (side o) (SortedDict.del p price_levels) b
          else set_levels (side o)
                 (SortedDict.set (key_of (side o)) p price_level price_levels) b
      end
  end.

(** One loop of [get_depth] over [price_levels.items()]; [i] is the index
    given by [enumerate].  Prices and quantities are kept as numbers, their
    [str] is left implicit. *)
Fixpoint depth_loop (i n : Z) (price_levels : SortedDict.t) : list (Z * Z) :=
  match price_levels with
  | [] => []
  | (p, level) :: rest =>
      if n <=? i then []
      else (p, PriceLevel.total_quantity level) :: depth_loop (i + 1) n rest
  end.

(** [get_depth(levels)]. *)
Definition get_depth (b : t) (n : Z) : list (Z * Z) * list (Z * Z) :=
  (depth_loop 0 n (bids b), depth_loop 0 n (asks b)).

Definition calculate_bbo (b : t) : BBO :=
  let '(bid, bid_qty) :=
    match get_best_bid b with
    | Some (p, best_bid_level) => (Some p, PriceLevel.total_quantity best_bid_level)
    | None => (None, 0)
    end in
  let '(ask, ask_qty) :=
    match get_best_ask b with
    | Some (p, best_ask_level) => (Some p, PriceLevel.total_quantity best_ask_level)
    | None => (None, 0)
    end in
  {| bbo_symbol := symbol b;
     best_bid := bid; best_bid_quantity := bid_qty;
     best_ask := ask; best_ask_quantity := ask_qty |}.

End OrderBook.

(** ** core/engine.py *)

Record MatchingEngine := {
  order_books : gmap string OrderBook.t;
  trade_id_counter : Z;
  order_id_counter : Z;
  stop_orders : gmap string (list Order);
  enable_fees : bool;
  fee_calculator : option FeeCalculator
}.

Definition set_order_books (e : MatchingEngine) (m : gmap string OrderBook.t)
  : MatchingEngine :=
  {| order_books := m; trade_id_counter := trade_id_counter e;
     order_id_counter := order_id_counter e; stop_orders := stop_orders e;
     enable_fees := enable_fees e; fee_calculator := fee_calculator e |}.

Definition set_trade_id_counter (e : MatchingEngine) (n : Z) : MatchingEngine :=
  {| order_books := order_books e; trade_id_counter := n;
     order_id_counter := order_id_counter e; stop_orders := stop_orders e;
     enable_fees := enable_fees e; fee_calculator := fee_calculator e |}.

Definition set_order_id_counter (e : MatchingEngine) (n : Z) : MatchingEngine :=
  {| order_books := order_books e; trade_id_counter := trade_id_counter e;
     order_id_counter := n; stop_orders := stop_orders e;
     enable_fees := enable_fees e; fee_calculator := fee_calculator e |}.

Definition set_stop_orders (e : MatchingEngine) (m : gmap string (list Order))
  : MatchingEngine :=
  {| order_books := order_books e; trade_id_counter := trade_id_counter e;
     order_id_counter := order_id_counter e; stop_orders := m;
     enable_fees := enable_fees e; fee_calculator := fee_calculator e |}.

(** [MatchingEngine(enable_fees, maker_fee_rate, taker_fee_rate)]. *)
Definition MatchingEngine_new (fees : bool) (maker taker : Decimal)
  : MatchingEngine :=
  {| order_books := ∅; trade_id_counter := 0; order_id_counter := 0;
     stop_orders := ∅; enable_fees := fees;
     fee_calculator :=
       if fees then Some {| maker_fee_rate := maker; taker_fee_rate := taker |}
       else None |}.

Definition get_or_create_order_book (e : MatchingEngine) (sym : string)
  : MatchingEngine * OrderBook.t :=
  match order_books e !! sym with
  | Some b => (e, b)
  | None =>
      let b := OrderBook.new sym in
      (set_order_books e (<[sym := b]> (order_books e)), b)
  end.

(** The counter behind [f"ORD-{n:010d}"] and [f"TRD-{n:010d}"]; an
    identifier is represented by its number. *)
Definition generate_order_id (e : MatchingEngine) : MatchingEngine * Z :=
  let n := order_id_counter e + 1 in (set_order_id_counter e n, n).

Definition generate_trade_id (e : MatchingEngine) : MatchingEngine * Z :=
  let n := trade_id_counter e + 1 in (set_trade_id_counter e n, n).

Definition _can_match (order : Order) (p : Z) : Res bool :=
  if decide (order_type order = MARKET) then Ok true
  else
    match price order with
    | None => Raise TypeError
    | Some limit =>
        match side order with
        | BUY => Ok (p <=? limit)
        | SELL => Ok (limit <=? p)
        end
    end.

Section Engine.

(** Decimal exponents of the prices and of the quantities of the venue. *)
Variables (price_exp quantity_exp : Z).

Definition _create_trade (e : MatchingEngine) (taker_order maker_order : Order)
    (p q : Z) : Res (MatchingEngine * Trade) :=
  let '(e, tid) := generate_trade_id e in
  trade ← Trade_new
    {| trade_id := tid; trade_symbol := symbol taker_order;
       trade_price := p; trade_quantity := q;
       maker_order_id := order_id maker_order;
       taker_order_id := order_id taker_order;
       aggressor_side := side taker_order;
       maker_fee := Dec.zero; taker_fee := Dec.zero;
       trade_maker_fee_rate := Dec.zero; trade_taker_fee_rate := Dec.zero |};
  match enable_fees e, fee_calculator e with
  | true, Some fc =>
      let trade_value := Dec.mul (Dec.mk p price_exp) (Dec.mk q quantity_exp) in
      '(mf, tf) ← calculate_fees fc trade_value;
      Ok (e, set_fees trade mf tf (maker_fee_rate fc) (taker_fee_rate fc))
  | _, _ => Ok (e, trade)
  end.

(** The queue and the index hold the same [Order] object: a change of the
    resting order is seen through its index entry. *)
Definition index_sync (old new : Order) (index : gmap string (Order * Side))
  : gmap string (Order * Side) :=
  match index !! order_id old with
  | Some (o, s) => if decide (o = old) then <[order_id old := (new, s)]> index else index
  | None => index
  end.

Definition LevelState : Type :=
  MatchingEngine * Order * list Order * Z * gmap string (Order * Side) * list Trade.

(** The inner loop of [match_order], over the queue [os] of the level at
    [best_price].  When the resting order is not filled the incoming order
    is (its remaining quantity is 0), and the loop condition fails. *)
Fixpoint match_level (e : MatchingEngine) (order : Order) (best_price : Z)
    (os : list Order) (total : Z) (index : gmap string (Order * Side))
    (trades : list Trade) : Res LevelState :=
  match os with
  | [] => Ok (e, order, [], total, index, trades)
  | resting_order :: rest =>
      if 0 <? remaining_quantity order then
        let fill_qty :=
          Z.min (remaining_quantity order) (remaining_quantity resting_order) in
        '(e, trade) ← _create_trade e order resting_order best_price fill_qty;
        let trades := trades ++ [trade] in
        let order :=
          update_status
            (set_remaining_quantity order
               (Dec.minus (remaining_quantity order) fill_qty)) in
        let old_maker_qty := remaining_quantity resting_order in
        let resting' :=
          update_status
            (set_remaining_quantity resting_order
               (Dec.minus old_maker_qty fill_qty)) in
        let index := index_sync resting_order resting' index in
        let total :=
          Dec.plus (Dec.minus total old_maker_qty) (remaining_quantity resting') in
        if is_filled resting' then
          match_level e order best_price rest total
            (delete (order_id resting') index) trades
        else Ok (e, order, resting' :: rest, total, index, trades)
      else Ok (e, order, os, total, index, trades)
  end.

Definition BookState : Type :=
  MatchingEngine * Order * SortedDict.t * gmap string (Order * Side) * list Trade.

(** The outer loop of [match_order], over the opposite side.  A level left
    non-empty by the inner loop means the incoming order is exhausted. *)
Fixpoint match_levels (e : MatchingEngine) (order : Order)
    (price_levels : SortedDict.t) (index : gmap string (Order * Side))
    (trades : list Trade) : Res BookState :=
  match price_levels with
  | [] => Ok (e, order, [], index, trades)
  | (best_price, price_level) :: rest =>
      if 0 <? remaining_quantity order then
        ok ← _can_match order best_price;
        if negb ok then Ok (e, order, price_levels, index, trades)
        else
          '(e, order, os, total, index, trades) ←
            match_level e order best_price (PriceLevel.orders price_level)
              (PriceLevel.total_quantity price_level) index trades;
          let price_level :=
            PriceLevel.mk (PriceLevel.price price_level) os total in
          if PriceLevel.is_empty price_level
          then match_levels e order rest index trades
          else Ok (e, order, (best_price, price_level) :: rest, index, trades)
      else Ok (e, order, price_levels, index, trades)
  end.

Definition opposite (s : Side) : Side :=
  match s with BUY => SELL | SELL => BUY end.

Definition add_to_book (e : MatchingEngine) (order : Order) (bk : string)
  : Res MatchingEngine :=
  match order_books e !! bk with
  | None => Raise KeyError
  | Some book =>
      book ← OrderBook.add_order book order;
      Ok (set_order_books e (<[bk := book]> (order_books e)))
  end.

(** The trigger condition evaluated by the first loop of
    [check_stop_orders]. *)
Definition should_trigger (stop_order : Order) (last_trade_price : Z) : Res bool :=
  if is_stop_type (order_type stop_order) then
    match stop_price stop_order with
    | None => Raise TypeError
    | Some sp =>
        match order_type stop_order, side stop_order with
        | TAKE_PROFIT, BUY => Ok (last_trade_price <=? sp)
        | TAKE_PROFIT, SELL => Ok (sp <=? last_trade_price)
        | _, BUY => Ok (sp <=? last_trade_price)
        | _, SELL => Ok (last_trade_price <=? sp)
        end
    end
  else Ok false.

(** First loop of [check_stop_orders]: [copy] is the slice
    [self.stop_orders[symbol][:]], [pending] the list being edited.  The
    marked order is the very object held by [pending]; on values it is
    found as the first element equal to the order before the mark. *)
Fixpoint scan_stop_orders (copy : list Order) (last_trade_price : Z)
    (pending triggered_orders : list Order) : Res (list Order * list Order) :=
  match copy with
  | [] => Ok (pending, triggered_orders)
  | stop_order :: copy' =>
      b ← should_trigger stop_order last_trade_price;
      if b : bool then
        match list_remove stop_order pending with
        | None => Raise ValueError
        | Some pending' =>
            scan_stop_orders copy' last_trade_price pending'
              (triggered_orders ++ [set_is_triggered stop_order true])
        end
      else scan_stop_orders copy' last_trade_price pending triggered_orders
  end.

(** Conversion of a triggered order, in place. *)
Definition convert_triggered (triggered_order : Order) : Order :=
  match order_type triggered_order with
  | STOP_LOSS => set_price (set_order_type triggered_order MARKET) None
  | STOP_LIMIT => set_order_type triggered_order LIMIT
  | TAKE_PROFIT =>
      let o := set_order_type triggered_order LIMIT in
      match price o with
      | None => set_price o (stop_price o)
      | Some _ => o
      end
  | _ => triggered_order
  end.

Definition Matcher : Type :=
  MatchingEngine -> Order -> string -> Res (MatchingEngine * Order * list Trade).

(** Second loop of [check_stop_orders]; [matcher] is [self.match_order],
    [bk] names the book fetched for the triggered order. *)
Fixpoint process_triggered (matcher : Matcher) (e : MatchingEngine)
    (triggered_orders : list Order) : Res MatchingEngine :=
  match triggered_orders with
  | [] => Ok e
  | triggered_order :: rest =>
      let triggered_order := convert_triggered triggered_order in
      let bk := symbol triggered_order in
      let '(e, _) := get_or_create_order_book e bk in
      '(e, triggered_order, _) ← matcher e triggered_order bk;
      e ← (if (0 <? remaining_quantity triggered_order)
              && can_rest_on_book triggered_order
           then add_to_book e triggered_order bk
           else Ok e);
      process_triggered matcher e rest
  end.

Definition check_stop_orders_with (matcher : Matcher) (e : MatchingEngine)
    (sym : string) (last_trade_price : Z) : Res MatchingEngine :=
  match stop_orders e !! sym with
  | None => Ok e
  | Some pending =>
      '(pending, triggered_orders) ←
        scan_stop_orders pending last_trade_price pending [];
      let e := set_stop_orders e (<[sym := pending]> (stop_orders e)) in
      process_triggered matcher e triggered_orders
  end.

(** [match_order(order, order_book)]: [bk] names the book passed by
    reference, an entry of [self.order_books].  The recursion through
    [check_stop_orders] is bounded by [fuel]. *)
Fixpoint match_order (fuel : nat) (e : MatchingEngine) (order : Order)
    (bk : string) : Res (MatchingEngine * Order * list Trade) :=
  match fuel with
  | O => NoFuel
  | S fuel =>
      match order_books e !! bk with
      | None => Raise KeyError
      | Some order_book =>
          let sd := opposite (side order) in
          '(e, order, price_levels, index, trades) ←
            match_levels e order (OrderBook.levels sd order_book)
              (OrderBook.order_index order_book) [];
          let order_book :=
            OrderBook.set_order_index index
              (OrderBook.set_levels sd price_levels order_book) in
          let e := set_order_books e (<[bk := order_book]> (order_books e)) in
          e ← match last trades with
              | Some t =>
                  check_stop_orders_with (match_order fuel) e (symbol order)
                    (trade_price t)
              | None => Ok e
              end;
          Ok (e, order, trades)
      end
  end.

Definition check_stop_orders (fuel : nat) : MatchingEngine -> string -> Z -> Res MatchingEngine :=
  check_stop_orders_with (match_order fuel).

(** The loop of [_can_fill_fok] over [price_levels.items()]. *)
Fixpoint can_fill_levels (order : Order) (price_levels : SortedDict.t)
    (remaining_to_fill : Z) : Res bool :=
  match price_levels with
  | [] => Ok (remaining_to_fill =? 0)
  | (p, level) :: rest =>
      ok ← _can_match order p;
      if negb ok then Ok (remaining_to_fill =? 0)
      else
        let fillable := Z.min remaining_to_fill (PriceLevel.total_quantity level) in
        let remaining_to_fill := Dec.minus remaining_to_fill fillable in
        if remaining_to_fill =? 0 then Ok true
        else can_fill_levels order rest remaining_to_fill
  end.

Definition _can_fill_fok (order : Order) (order_book : OrderBook.t) : Res bool :=
  can_fill_levels order (OrderBook.levels (opposite (side order)) order_book)
    (quantity order).

(** Enough fuel for the cascade of the stop orders pending on [sym]. *)
Definition stop_fuel (e : MatchingEngine) (sym : string) : nat :=
  S (length (default [] (stop_orders e !! sym))).

Definition process_order (e : MatchingEngine) (order : Order)
  : Res (MatchingEngine * Order * OrderResult) :=
  let bk := symbol order in
  let '(e, order_book) := get_or_create_order_book e bk in
  if is_stop_type (order_type order) then
    let pending := default [] (stop_orders e !! symbol order) in
    let e := set_stop_orders e
               (<[symbol order := pending ++ [order]]> (stop_orders e)) in
    Ok (e, order,
        {| result_order_id := order_id order; result_status := "pending";
           result_trades := []; result_remaining_quantity := 0 |})
  else
    fillable ← (if decide (order_type order = FOK)
                then _can_fill_fok order order_book else Ok true);
    if negb fillable then
      let order := set_status order CANCELLED in
      Ok (e, order,
          {| result_order_id := order_id order; result_status := "cancelled";
             result_trades := [];
             result_remaining_quantity := quantity order |})
    else
      '(e, order, trades) ← match_order (stop_fuel e bk) e order bk;
      let status : string :=
        if is_filled order then "filled"
        else if remaining_quantity order <? quantity order then "partial"
        else "new" in
      '(e, order, status) ←
        (if 0 <? remaining_quantity order then
           if decide (order_type order = LIMIT) then
             e ← add_to_book e order bk;
             Ok (e, order,
                 match trades with [] => "accepted" | _ => "partial" end : string)
           else Ok (e, set_status order CANCELLED, status)
         else Ok (e, order, status));
      Ok (e, order,
          {| result_order_id := order_id order; result_status := status;
             result_trades := trades;
             result_remaining_quantity := remaining_quantity order |}).

Definition cancel_order (e : MatchingEngine) (oid : string) (sym : string)
  : Res (MatchingEngine * bool) :=
  match order_books e !! sym with
  | None => Ok (e, false)
  | Some order_book =>
      if negb (OrderBook.has_order order_book oid) then Ok (e, false)
      else
        '(order_book, order) ← OrderBook.remove_order order_book oid;
        Ok (set_order_books e (<[sym := order_book]> (order_books e)), true)
  end.

End Engine.

Definition _bbo_changed (old_bbo new_bbo : BBO) : bool :=
  bool_decide (best_bid old_bbo <> best_bid new_bbo)
  || bool_decide (best_ask old_bbo <> best_ask new_bbo)
  || bool_decide (best_bid_quantity old_bbo <> best_bid_quantity new_bbo)
  || bool_decide (best_ask_quantity old_bbo <> best_ask_quantity new_bbo).

(** [get_order_book_snapshot(symbol, levels)]; [None] for a symbol without
    a book. *)
Definition get_order_book_snapshot (e : MatchingEngine) (sym : string) (n : Z)
  : option OrderBookSnapshot :=
  match order_books e !! sym with
  | None => None
  | Some order_book =>
      let '(bids, asks) := OrderBook.get_depth order_book n in
      Some {| snapshot_symbol := sym; snapshot_bids := bids;
              snapshot_asks := asks |}
  end.

(** ** persistence/snapshot.py

    The JSON document is modelled by records.  [str] and [Decimal(...)],
    [isoformat] and [fromisoformat], an enumeration and its [value] are
    inverse to each other and are left implicit; a JSON object is the list
    of its entries in file order. *)

Record OrderData := {
  data_order_id : string;
  data_symbol : string;
  data_order_type : OrderType;
  data_side : Side;
  data_quantity : Z;
  data_price : option Z;
  data_timestamp : Z;
  data_remaining_quantity : Z;
  data_status : OrderStatus;
  data_stop_price : option Z;
  data_is_triggered : bool
}.

Record BookData := {
  data_bids : list (Z * list OrderData);
  data_asks : list (Z * list OrderData);
  data_order_index : list (string * (OrderData * Side))
}.

Record StateData := {
  data_trade_id_counter : Z;
  data_order_id_counter : Z;
  data_order_books : list (string * BookData);
  data_stop_orders : list (string * list OrderData)
}.

(** [str(x) if x else None]: a zero decimal is falsy. *)
Definition str_if_truthy (x : option Z) : option Z :=
  match x with
  | Some v => if v =? 0 then None else Some v
  | None => None
  end.

Definition _serialize_order (o : Order) : OrderData :=
  {| data_order_id := order_id o; data_symbol := symbol o;
     data_order_type := order_type o; data_side := side o;
     data_quantity := quantity o; data_price := str_if_truthy (price o);
     data_timestamp := timestamp o;
     data_remaining_quantity := remaining_quantity o;
     data_status := status o; data_stop_price := str_if_truthy (stop_price o);
     data_is_triggered := is_triggered o |}.

Definition _deserialize_order (d : OrderData) : Res Order :=
  Order_new
    {| order_id := data_order_id d; symbol := data_symbol d;
       order_type := data_order_type d; side := data_side d;
       quantity := data_quantity d; price := data_price d;
       timestamp := data_timestamp d;
       remaining_quantity := data_remaining_quantity d;
       status := data_status d; stop_price := data_stop_price d;
       is_triggered := data_is_triggered d |}.

Definition _serialize_price_levels (price_levels : SortedDict.t)
  : list (Z * list OrderData) :=
  map (fun kv => (fst kv, map _serialize_order (PriceLevel.orders (snd kv))))
      price_levels.

Definition _serialize_order_index (index : gmap string (Order * Side))
  : list (string * (OrderData * Side)) :=
  map (fun kv => (fst kv, (_serialize_order (fst (snd kv)), snd (snd kv))))
      (map_to_list index).

Definition save_engine_state (e : MatchingEngine) : StateData :=
  {| data_trade_id_counter := trade_id_counter e;
     data_order_id_counter := order_id_counter e;
     data_order_books :=
       map (fun kv =>
              (fst kv,
               {| data_bids := _serialize_price_levels (OrderBook.bids (snd kv));
                  data_asks := _serialize_price_levels (OrderBook.asks (snd kv));
                  data_order_index :=
                    _serialize_order_index (OrderBook.order_index (snd kv)) |}))
           (map_to_list (order_books e));
     data_stop_orders :=
       map (fun kv => (fst kv, map _serialize_order (snd kv)))
           (map_to_list (stop_orders e)) |}.

(** [deserialize] every order of a list, stopping at the first error. *)
Fixpoint deserialize_orders (ds : list OrderData) : Res (list Order) :=
  match ds with
  | [] => Ok []
  | d :: ds' =>
      o ← _deserialize_order d;
      os ← deserialize_orders ds';
      Ok (o :: os)
  end.

(** [orders_to_restore.sort(key=lambda o: o.timestamp)]: a stable sort. *)
Fixpoint insert_by_timestamp (o : Order) (l : list Order) : list Order :=
  match l with
  | [] => [o]
  | x :: l' =>
      if timestamp o <=? timestamp x then o :: l
      else x :: insert_by_timestamp o l'
  end.

Definition sort_by_timestamp (l : list Order) : list Order :=
  foldr insert_by_timestamp [] l.

Fixpoint add_orders (b : OrderBook.t) (os : list Order) : Res OrderBook.t :=
  match os with
  | [] => Ok b
  | o :: os' => b ← OrderBook.add_order b o; add_orders b os'
  end.

Definition restore_order_book (sym : string) (book_data : BookData)
  : Res OrderBook.t :=
  let order_book := OrderBook.new sym in
  bid_orders ← deserialize_orders (concat (map snd (data_bids book_data)));
  ask_orders ← deserialize_orders (concat (map snd (data_asks book_data)));
  let orders_to_restore := sort_by_timestamp (bid_orders ++ ask_orders) in
  add_orders order_book orders_to_restore.

Fixpoint restore_order_books (books : list (string * BookData))
    (m : gmap string OrderBook.t) : Res (gmap string OrderBook.t) :=
  match books with
  | [] => Ok m
  | (sym, book_data) :: rest =>
      order_book ← restore_order_book sym book_data;
      restore_order_books rest (<[sym := order_book]> m)
  end.

Fixpoint restore_stop_orders (stops : list (string * list OrderData))
    (m : gmap string (list Order)) : Res (gmap string (list Order)) :=
  match stops with
  | [] => Ok m
  | (sym, ds) :: rest =>
      os ← deserialize_orders ds;
      restore_stop_orders rest (<[sym := os]> m)
  end.

Definition load_engine_state (e : MatchingEngine) (state_data : StateData)
  : Res MatchingEngine :=
  let e := set_trade_id_counter e (data_trade_id_counter state_data) in
  let e := set_order_id_counter e (data_order_id_counter state_data) in
  books ← restore_order_books (data_order_books state_data) ∅;
  let e := set_order_books e books in
  stops ← restore_stop_orders (data_stop_orders state_data) ∅;
  Ok (set_stop_orders e stops).

(** The document written by [save_order_book]. *)
Record SnapshotData := {
  snapshot_data_symbol : string;
  snapshot_data_bids : list (Z * list OrderData);
  snapshot_data_asks : list (Z * list OrderData);
  snapshot_data_order_index : list (string * (OrderData * Side))
}.

Definition save_order_book (order_book : OrderBook.t) : SnapshotData :=
  {| snapshot_data_symbol := OrderBook.symbol order_book;
     snapshot_data_bids := _serialize_price_levels (OrderBook.bids order_book);
     snapshot_data_asks := _serialize_price_levels (OrderBook.asks order_book);
     snapshot_data_order_index :=
       _serialize_order_index (OrderBook.order_index order_book) |}.

Definition load_order_book (snapshot_data : SnapshotData) : Res OrderBook.t :=
  let order_book := OrderBook.new (snapshot_data_symbol snapshot_data) in
  bid_orders ←
    deserialize_orders (concat (map snd (snapshot_data_bids snapshot_data)));
  ask_orders ←
    deserialize_orders (concat (map snd (snapshot_data_asks snapshot_data)));
  let orders_to_restore := sort_by_timestamp (bid_orders ++ ask_orders) in
  add_orders order_book orders_to_restore.

(** * Vocabulary of the specification *)

Definition sum_qty (ts : list Trade) : Z :=
  foldr (fun t s => trade_quantity t + s) 0 ts.

Definition sum_remaining (os : list Order) : Z :=
  foldr (fun o s => remaining_quantity o + s) 0 os.

(** The resting order [m] after a fill of [q]. *)
Definition filled_by (m : Order) (q : Z) : Order :=
  update_status (set_remaining_quantity m (Dec.minus (remaining_quantity m) q)).

(** [fifo_fills p os ts os']: the trades [ts], all at price [p], consume the
    queue [os] from its front and leave [os'].  Every trade fills its maker
    entirely, except possibly the last one, whose maker stays at the head
    of the queue. *)
Inductive fifo_fills (p : Z) : list Order -> list Trade -> list Order -> Prop :=
  | fifo_stop os : fifo_fills p os [] os
  | fifo_full m os t ts os' :
      trade_price t = p ->
      maker_order_id t = order_id m ->
      0 < trade_quantity t ->
      trade_quantity t = remaining_quantity m ->
      fifo_fills p os ts os' ->
      fifo_fills p (m :: os) (t :: ts) os'
  | fifo_part m os t :
      trade_price t = p ->
      maker_order_id t = order_id m ->
      0 < trade_quantity t < remaining_quantity m ->
      fifo_fills p (m :: os) [t] (filled_by m (trade_quantity t) :: os).

(** [book_fills d ts d']: the trades [ts] walk the side [d] from its first
    level on, emptying each level before the next one is touched. *)
Inductive book_fills : SortedDict.t -> list Trade -> SortedDict.t -> Prop :=
  | book_stop d : book_fills d [] d
  | book_level p l d ts1 ts2 d' :
      fifo_fills p (PriceLevel.orders l) ts1 [] ->
      book_fills d ts2 d' ->
      book_fills ((p, l) :: d) (ts1 ++ ts2) d'
  | book_part p l d ts os' total' :
      fifo_fills p (PriceLevel.orders l) ts os' ->
      os' <> [] ->
      book_fills ((p, l) :: d) ts
        ((p, PriceLevel.mk (PriceLevel.price l) os' total') :: d).

(** The book of a symbol as [get_or_create_order_book] sees it, and the
    pending stop orders of a symbol. *)
Definition book_of (e : MatchingEngine) (sym : string) : OrderBook.t :=
  default (OrderBook.new sym) (order_books e !! sym).

Definition pending_of (e : MatchingEngine) (sym : string) : list Order :=
  default [] (stop_orders e !! sym).

(** [total_quantity] of every level is the sum over its queue.  The
    aggregate is a rounded running total, so this is not kept by the
    engine: it is a hypothesis of the theorems that need it. *)
Definition levels_consistent (d : SortedDict.t) : bool :=
  forallb (fun kv =>
    PriceLevel.total_quantity (snd kv) =? sum_remaining (PriceLevel.orders (snd kv))) d.

(** Keys strictly increasing under the key function of the side. *)
Fixpoint sorted_keys (key : Z -> Z) (d : SortedDict.t) : bool :=
  match d with
  | [] => true
  | (p, _) :: d' =>
      forallb (fun kv => key p <? key (fst kv)) d' && sorted_keys key d'
  end.

(** Only limit orders rest in the levels. *)
Definition levels_all_limit (d : SortedDict.t) : bool :=
  forallb (fun kv =>
    forallb (fun o => bool_decide (order_type o = LIMIT)) (PriceLevel.orders (snd kv))) d.

Definition book_all_limit (b : OrderBook.t) : bool :=
  levels_all_limit (OrderBook.bids b) && levels_all_limit (OrderBook.asks b).

(** Every resting order has something left to fill. *)
Definition levels_positive (d : SortedDict.t) : bool :=
  forallb (fun kv =>
    forallb (fun o => 0 <? remaining_quantity o) (PriceLevel.orders (snd kv))) d.

(** The invariant of a side and of a book: keys in the order of the side,
    limit orders only, each with a positive remaining quantity. *)
Definition levels_ok (sd : Side) (d : SortedDict.t) : bool :=
  sorted_keys (OrderBook.key_of sd) d
  && levels_all_limit d && levels_positive d.

Definition book_ok (b : OrderBook.t) : bool :=
  levels_ok BUY (OrderBook.bids b) && levels_ok SELL (OrderBook.asks b).

(** The pending stop orders filed under [sym] carry the symbol [sym]. *)
Definition stops_keyed (e : MatchingEngine) : Prop :=
  forall sym pending o,
    stop_orders e !! sym = Some pending -> In o pending -> symbol o = sym.

(** The engine states differ at most in the trade counter. *)
Definition same_config (e e' : MatchingEngine) : Prop :=
  enable_fees e' = enable_fees e /\ fee_calculator e' = fee_calculator e /\
  order_id_counter e' = order_id_counter e.

(** [o'] is the order [o] after fills: only the remaining quantity and the
    status may differ. *)
Definition same_order (o o' : Order) : Prop :=
  order_id o' = order_id o /\ symbol o' = symbol o /\
  order_type o' = order_type o /\ side o' = side o /\
  quantity o' = quantity o /\ price o' = price o /\
  timestamp o' = timestamp o /\ stop_price o' = stop_price o /\
  is_triggered o' = is_triggered o.

(** [e'] is [e] up to the trade counter. *)
Definition only_counter (e e' : MatchingEngine) : Prop :=
  order_books e' = order_books e /\ stop_orders e' = stop_orders e /\
  enable_fees e' = enable_fees e /\ fee_calculator e' = fee_calculator e /\
  order_id_counter e' = order_id_counter e.

(** What a trade record says about the call [_create_trade] that made it. *)
Definition trade_of (taker maker : Order) (p q : Z) (t : Trade) : Prop :=
  trade_symbol t = symbol taker /\
  trade_price t = p /\ trade_quantity t = q /\
  maker_order_id t = order_id maker /\
  taker_order_id t = order_id taker /\
  aggressor_side t = side taker /\
  0 < p /\ 0 < q.

(** The fee fields of a trade, as [_create_trade] fills them under the fee
    configuration of [e], for prices of exponent [pe] and quantities of
    exponent [qe]. *)
Definition fees_computed (pe qe : Z) (e : MatchingEngine) (t : Trade) : Prop :=
  match enable_fees e, fee_calculator e with
  | true, Some fc =>
      calculate_fees fc
        (Dec.mul (Dec.mk (trade_price t) pe) (Dec.mk (trade_quantity t) qe))
      = Ok (maker_fee t, taker_fee t) /\
      trade_maker_fee_rate t = maker_fee_rate fc /\
      trade_taker_fee_rate t = taker_fee_rate fc
  | _, _ =>
      maker_fee t = Dec.zero /\ taker_fee t = Dec.zero /\
      trade_maker_fee_rate t = Dec.zero /\ trade_taker_fee_rate t = Dec.zero
  end.

(** The trades an incoming order [o] takes part in as taker. *)
Definition taken_by (o : Order) (t : Trade) : Prop :=
  taker_order_id t = order_id o /\ trade_symbol t = symbol o /\
  aggressor_side t = side o /\ 0 < trade_price t /\ 0 < trade_quantity t.


(** An order resting in a book: a member of the queue of one of its
    levels. *)
Definition rests_in (b : OrderBook.t) (o : Order) : Prop :=
  exists sd kv, In kv (OrderBook.levels sd b) /\ In o (PriceLevel.orders (snd kv)).

(** The engine after the matching loop of [match_order] wrote the side
    [d'] and the index [idx'] back into the book [bk]. *)
Definition write_back (e1 : MatchingEngine) (bk : string) (book : OrderBook.t)
    (sd : Side) (d' : SortedDict.t) (idx' : gmap string (Order * Side))
  : MatchingEngine :=
  set_order_books e1
    (<[bk := OrderBook.set_order_index idx' (OrderBook.set_levels sd d' book)]>
       (order_books e1)).

(** The status string computed by [process_order] right after matching. *)
Definition status_after_match (o : Order) : string :=
  if is_filled o then "filled"
  else if remaining_quantity o <? quantity o then "partial"
  else "new".


(** The trade price [p] respects the limit of the taker [o]. *)
Definition within_limit (o : Order) (p : Z) : Prop :=
  exists limit, price o = Some limit /\
    match side o with BUY => p <= limit | SELL => limit <= p end.

(** The trigger table of the specification: a pending stop order [o]
    triggers at the last trade price [last]. *)
Definition triggers (last : Z) (o : Order) : bool :=
  match stop_price o with
  | None => false
  | Some sp =>
      match order_type o, side o with
      | STOP_LOSS, BUY | STOP_LIMIT, BUY => sp <=? last
      | STOP_LOSS, SELL | STOP_LIMIT, SELL => last <=? sp
      | TAKE_PROFIT, BUY => last <=? sp
      | TAKE_PROFIT, SELL => sp <=? last
      | _, _ => false
      end
  end.

(** The conversion table of the specification. *)
Definition converted (o : Order) : Order :=
  match order_type o with
  | STOP_LOSS => set_price (set_order_type o MARKET) None
  | STOP_LIMIT => set_order_type o LIMIT
  | TAKE_PROFIT =>
      set_price (set_order_type o LIMIT)
        (match price o with Some p => Some p | None => stop_price o end)
  | _ => o
  end.

(** One triggered order [x] of the pending list, as the specification has
    it: marked, converted in place, matched by [matcher] against the book
    of its symbol; what remains of a limit order rests. *)
Definition run_triggered (matcher : Matcher) (e : MatchingEngine) (x : Order)
  : Res MatchingEngine :=
  let t := converted (set_is_triggered x true) in
  let e := fst (get_or_create_order_book e (symbol t)) in
  '(e, t', _) ← matcher e t (symbol t);
  if (0 <? remaining_quantity t') && bool_decide (order_type t' = LIMIT)
  then add_to_book e t' (symbol t)
  else Ok e.

Fixpoint run_each (step : MatchingEngine -> Order -> Res MatchingEngine)
    (e : MatchingEngine) (xs : list Order) : Res MatchingEngine :=
  match xs with
  | [] => Ok e
  | x :: xs' => e ← step e x; run_each step e xs'
  end.

(** The pending list of [sym] replaced by [pending]. *)
Definition with_pending (e : MatchingEngine) (sym : string) (pending : list Order)
  : MatchingEngine :=
  set_stop_orders e (<[sym := pending]> (stop_orders e)).

(** What a call of [match_order] may change, seen from the symbol [sym] of
    its order: other symbols are untouched, the pending list of [sym] only
    loses orders, limit orders alone come to rest, the configuration
    stays. *)
Definition cascade_ok (sym : string) (e e' : MatchingEngine) : Prop :=
  (forall s, s <> sym -> order_books e' !! s = order_books e !! s) /\
  (forall s, s <> sym -> stop_orders e' !! s = stop_orders e !! s) /\
  (forall x, In x (pending_of e' sym) -> In x (pending_of e sym)) /\
  (length (pending_of e' sym) <= length (pending_of e sym))%nat /\
  ((book_all_limit (book_of e sym) = true -> book_all_limit (book_of e' sym) = true) /\
   (book_ok (book_of e sym) = true -> book_ok (book_of e' sym) = true)) /\
  (is_Some (order_books e !! sym) -> is_Some (order_books e' !! sym)) /\
  same_config e e'.

(** The coefficient [n] fits the precision of the decimal context. *)
Definition within_precision (n : Z) : Prop := Dec.digits (Z.abs n) <= Dec.prec.

(** The fee of the specification: the exact product price * quantity *
    rate, quantized to 8 fractional digits. *)
Definition exact_fee (pe qe : Z) (p q : Z) (rate : Decimal) : Decimal :=
  Dec.rescale (Dec.mk (p * q * Dec.coef rate) (pe + qe + Dec.expo rate))
    fee_quantum_exp.

(** The invariant of the engine. *)
Definition engine_ok (e : MatchingEngine) : Prop :=
  stops_keyed e /\
  forall sym b, order_books e !! sym = Some b -> book_ok b = true.

(** [stops_keyed], as a test on the entries of [stop_orders]. *)
Definition stops_keyedb (e : MatchingEngine) : bool :=
  forallb (fun kv => forallb (fun o => bool_decide (symbol o = fst kv)) (snd kv))
    (map_to_list (stop_orders e)).

(** The book is not crossed: with both sides non-empty the best bid is
    strictly below the best ask. *)
Definition book_uncrossed (b : OrderBook.t) : Prop :=
  match OrderBook.get_best_bid b, OrderBook.get_best_ask b with
  | Some (bid, _), Some (ask, _) => bid < ask
  | _, _ => True
  end.

(** The first level of [d'] is no better than the first level of [d]. *)
Definition head_not_better (sd : Side) (d d' : SortedDict.t) : Prop :=
  forall kv', head d' = Some kv' ->
    exists kv, head d = Some kv /\
               OrderBook.key_of sd (fst kv) <= OrderBook.key_of sd (fst kv').

(** The price [p] of an order of side [sd] does not cross the opposite
    side of [b]. *)
Definition rests_uncrossed (sd : Side) (p : Z) (b : OrderBook.t) : Prop :=
  forall q l, head (OrderBook.levels (opposite sd) b) = Some (q, l) ->
    match sd with BUY => p < q | SELL => q < p end.

(** The order ids of the queue at price [p] of the side [sd]. *)
Definition queue_ids (b : OrderBook.t) (sd : Side) (p : Z) : list string :=
  match SortedDict.get p (OrderBook.levels sd b) with
  | Some l => map order_id (PriceLevel.orders l)
  | None => []
  end.

(** ** The structure of a book *)

(** A level filed under the price [fst kv] in the side [sd]: it carries
    that price, its queue is not empty, and the orders of the queue have
    that price and that side. *)
Definition level_keyed (sd : Side) (kv : Z * PriceLevel.t) : bool :=
  (PriceLevel.price (snd kv) =? fst kv)
  && negb (PriceLevel.is_empty (snd kv))
  && forallb (fun o => bool_decide (price o = Some (fst kv))
                       && bool_decide (side o = sd))
       (PriceLevel.orders (snd kv)).

Definition levels_keyed (sd : Side) (d : SortedDict.t) : bool :=
  forallb (level_keyed sd) d.

(** The queue at the price [p] of the side [sd]; empty without a level. *)
Definition queue_at (b : OrderBook.t) (sd : Side) (p : Z) : list Order :=
  match SortedDict.get p (OrderBook.levels sd b) with
  | Some l => PriceLevel.orders l
  | None => []
  end.

(** [x] is queued in one of the levels [d]. *)
Definition in_levels (d : SortedDict.t) (x : Order) : Prop :=
  exists kv, In kv d /\ In x (PriceLevel.orders (snd kv)).

(** [o] rests in the side [sd] of [b]. *)
Definition rests_on (b : OrderBook.t) (sd : Side) (o : Order) : Prop :=
  exists kv, In kv (OrderBook.levels sd b) /\ In o (PriceLevel.orders (snd kv)).

(** Every entry of [order_index] is filed under the id of its order, with
    the side of the order, and the order rests in that side of the book. *)
Definition index_rests (b : OrderBook.t) : Prop :=
  forall oid o sd, OrderBook.order_index b !! oid = Some (o, sd) ->
    order_id o = oid /\ side o = sd /\ rests_on b sd o.

(** The book filed under [sym] is well formed. *)
Definition book_wf (sym : string) (b : OrderBook.t) : Prop :=
  OrderBook.symbol b = sym /\
  book_ok b = true /\
  levels_keyed BUY (OrderBook.bids b) = true /\
  levels_keyed SELL (OrderBook.asks b) = true /\
  index_rests b.

Definition all_books_wf (e : MatchingEngine) : Prop :=
  forall sym b, order_books e !! sym = Some b -> book_wf sym b.

(** ** Market data *)

(** [best] with the quantity [qty] describes the best level of the side
    [sd] of [b]: no price and quantity 0 for an empty side; else a price
    that no level of the side improves on, with the aggregate of its
    level, whose queue holds a positive quantity. *)
Definition best_of (b : OrderBook.t) (sd : Side) (best : option Z) (qty : Z)
  : Prop :=
  match best with
  | None => OrderBook.levels sd b = [] /\ qty = 0
  | Some p =>
      (exists l, SortedDict.get p (OrderBook.levels sd b) = Some l /\
                 qty = PriceLevel.total_quantity l) /\
      0 < sum_remaining (queue_at b sd p) /\
      forall q l, In (q, l) (OrderBook.levels sd b) ->
        match sd with BUY => q <= p | SELL => p <= q end
  end.

(** [rows] are the first [n] levels of the side [sd] of [b], best price
    first, each with the aggregate of the level, whose queue holds a
    positive quantity. *)
Definition depth_of (b : OrderBook.t) (sd : Side) (n : Z) (rows : list (Z * Z))
  : Prop :=
  length rows = Nat.min (Z.to_nat n) (length (OrderBook.levels sd b)) /\
  (forall i p q, rows !! i = Some (p, q) ->
     (exists l, OrderBook.levels sd b !! i = Some (p, l) /\
                q = PriceLevel.total_quantity l) /\
     0 < sum_remaining (queue_at b sd p)) /\
  (forall i j p1 q1 p2 q2, (i < j)%nat ->
     rows !! i = Some (p1, q1) -> rows !! j = Some (p2, q2) ->
     match sd with BUY => p2 < p1 | SELL => p1 < p2 end).

(** The pending lists hold stop orders only, each under its symbol. *)
Definition pending_ok (e : MatchingEngine) : Prop :=
  forall sym pending o,
    stop_orders e !! sym = Some pending -> In o pending ->
    symbol o = sym /\ is_stop_type (order_type o) = true.

(** ** Orders and states handled without an exception *)

(** An order as the constructor accepts it; the limit price of a
    take-profit order, which the constructor does not look at, is positive
    when there is one. *)
Definition order_sound (o : Order) : bool :=
  Order_post_init o
  && match order_type o, price o with
     | TAKE_PROFIT, Some p => 0 <? p
     | _, _ => true
     end.



(** The prices and the aggregates of the levels [d] fit the precision of
    the decimal context. *)
Definition levels_fit (d : SortedDict.t) : bool :=
  forallb (fun kv =>
             (Dec.digits (Z.abs (fst kv)) <=? Dec.prec)
             && (Dec.digits (Z.abs (PriceLevel.total_quantity (snd kv))) <=? Dec.prec))
    d.

(** ** Liquidity *)

(** The quantity resting in the levels [d]: the sum of their aggregates. *)
Definition side_quantity (d : SortedDict.t) : Z :=
  foldr (fun kv s => PriceLevel.total_quantity (snd kv) + s) 0 d.

(** The price [p] of the opposite side is acceptable to [o]: any price for
    a market order, a price within the limit otherwise. *)
Definition accepts (o : Order) (p : Z) : bool :=
  match order_type o with
  | MARKET => true
  | _ =>
      match price o, side o with
      | Some limit, BUY => p <=? limit
      | Some limit, SELL => limit <=? p
      | None, _ => false
      end
  end.

(** The quantity resting in [d] at prices acceptable to [o]. *)
Definition liquidity_within (o : Order) (d : SortedDict.t) : Z :=
  foldr (fun kv s =>
           if accepts o (fst kv) then PriceLevel.total_quantity (snd kv) + s
           else s) 0 d.

(** ** Snapshots *)

(** A decimal field that [str(x) if x else None] writes as it is. *)
Definition nonzero (x : option Z) : bool :=
  match x with Some v => negb (v =? 0) | None => true end.

(** The order survives [_serialize_order] and [_deserialize_order]: the
    constructor accepts it, and its price and stop price, where present,
    are not zero. *)
Definition order_restorable (o : Order) : bool :=
  Order_post_init o && nonzero (price o) && nonzero (stop_price o).

(** The time stamps of the queue do not decrease. *)
Fixpoint timestamps_sorted (os : list Order) : bool :=
  match os with
  | [] => true
  | o :: os' =>
      forallb (fun x => timestamp o <=? timestamp x) os' && timestamps_sorted os'
  end.

(** The orders of the levels [d], level after level. *)
Definition all_orders (d : SortedDict.t) : list Order :=
  concat (map (fun kv => PriceLevel.orders (snd kv)) d).

(** The orders of [os] with the side [sd] and the price [p], in their
    order. *)
Definition queued (sd : Side) (p : Z) (os : list Order) : list Order :=
  List.filter (fun o => bool_decide (side o = sd) && bool_decide (price o = Some p)) os.

(** The level at [p] after the orders [q] were added to [old]. *)
Definition level_with (p : Z) (old : option PriceLevel.t) (q : list Order)
  : option PriceLevel.t :=
  match q with
  | [] => old
  | _ => Some (foldl PriceLevel.add_order (default (PriceLevel.new p) old) q)
  end.

(** The index after the orders [os] were added. *)
Definition index_with (os : list Order) (idx : gmap string (Order * Side))
  : gmap string (Order * Side) :=
  foldl (fun idx o => <[order_id o := (o, side o)]> idx) idx os.

(** A level that a snapshot restores as it is: the queue is in the order
    of its time stamps, every order survives serialization and is the one
    the index holds under its id. *)
Definition level_restorable (b : OrderBook.t) (sd : Side) (kv : Z * PriceLevel.t)
  : bool :=
  timestamps_sorted (PriceLevel.orders (snd kv))
  && forallb (fun o =>
       order_restorable o
       && bool_decide (OrderBook.order_index b !! order_id o = Some (o, sd)))
       (PriceLevel.orders (snd kv)).

Definition book_restorable (b : OrderBook.t) : bool :=
  forallb (level_restorable b BUY) (OrderBook.bids b)
  && forallb (level_restorable b SELL) (OrderBook.asks b).

(** The aggregates of [b] are in step with the queues and fit the
    precision, as the prices do: adding up a queue order by order rounds
    nowhere, and the sort keys are exact. *)
Definition book_exact (b : OrderBook.t) : bool :=
  levels_consistent (OrderBook.bids b) && levels_fit (OrderBook.bids b)
  && levels_consistent (OrderBook.asks b) && levels_fit (OrderBook.asks b).

Definition engine_exact (e : MatchingEngine) : bool :=
  forallb (fun kv => book_exact (snd kv)) (map_to_list (order_books e)).

(** Every book and every pending stop order of [e] is restorable. *)
Definition engine_restorable (e : MatchingEngine) : bool :=
  forallb (fun kv => book_restorable (snd kv)) (map_to_list (order_books e))
  && forallb (fun kv => forallb order_restorable (snd kv))
       (map_to_list (stop_orders e)).

(** The engine [e0] with the counters, the books and the pending stop
    orders of [e]: what [load_engine_state] restores. *)
Definition restored_into (e0 e : MatchingEngine) : MatchingEngine :=
  {| order_books := order_books e;
     trade_id_counter := trade_id_counter e;
     order_id_counter := order_id_counter e;
     stop_orders := stop_orders e;
     enable_fees := enable_fees e0;
     fee_calculator := fee_calculator e0 |}.

(** ** Scenarios *)

Module Scenario.

Definition sym : string := "BTC-USDT".

(** A new order, as the API builds it: nothing filled, status [NEW]. *)
Definition order (id : string) (ty : OrderType) (sd : Side) (q : Z)
    (p : option Z) (sp : option Z) (ts : Z) : Order :=
  {| order_id := id; symbol := sym; order_type := ty; side := sd;
     quantity := q; price := p; timestamp := ts; remaining_quantity := q;
     status := NEW; stop_price := sp; is_triggered := false |}.

(** [MatchingEngine()]: fees disabled. *)
Definition engine0 : MatchingEngine :=
  MatchingEngine_new false (Dec.mk 1 (-3)) (Dec.mk 2 (-3)).

(** [MatchingEngine(enable_fees=True)] with the default rates 0.001 and
    0.002. *)
Definition engine_fees : MatchingEngine :=
  MatchingEngine_new true (Dec.mk 1 (-3)) (Dec.mk 2 (-3)).

(** The orders [os] processed one after the other. *)
Definition run (pe qe : Z) (e : MatchingEngine) (os : list Order)
  : Res MatchingEngine :=
  foldl (fun r o => e ← r; '(e, _, _) ← process_order pe qe e o; Ok e) (Ok e) os.

Definition engine_after (pe qe : Z) (e : MatchingEngine) (os : list Order)
  : MatchingEngine :=
  match run pe qe e os with Ok e' => e' | _ => e end.

(** Two asks, 0.50 at 50000 and 0.50 at 50010 (prices in units, quantities
    in hundredths). *)
Definition two_asks : list Order :=
  [ order "S1" LIMIT SELL 50 (Some 50000) None 1;
    order "S2" LIMIT SELL 50 (Some 50010) None 2 ].

Definition fok_buy : Order := order "F1" FOK BUY 100 (Some 50010) None 3.

(** Two asks at one price, then a market buy across both. *)
Definition same_price_asks : list Order :=
  [ order "SA" LIMIT SELL 100 (Some 50000) None 1;
    order "SB" LIMIT SELL 100 (Some 50000) None 2 ].

Definition market_buy : Order := order "MB" MARKET BUY 150 None None 3.

(** A resting ask, a pending stop-limit sell below it, and a limit buy
    through the ask. *)
Definition ask_and_stop : list Order :=
  [ order "S1" LIMIT SELL 1 (Some 100) None 1;
    order "SL" STOP_LIMIT SELL 1 (Some 95) (Some 100) 2 ].

Definition crossing_buy : Order := order "B1" LIMIT BUY 3 (Some 105) None 3.

(** A take-profit sell with a negative limit price, triggered by a trade
    at 100 and left resting. *)
Definition negative_take_profit : list Order :=
  [ order "B1" LIMIT BUY 1 (Some 100) None 1;
    order "TP" TAKE_PROFIT SELL 2 (Some (-1)) (Some 100) 2;
    order "S1" LIMIT SELL 1 (Some 100) None 3 ].

Definition later_market_buy : Order := order "MB" MARKET BUY 1 None None 4.

(** A stop-limit buy admitted first, a limit buy admitted second at the
    same price, and the trade at 100 that triggers the stop order: it
    rests behind the limit order. *)
Definition stop_behind_limit : list Order :=
  [ order "SL" STOP_LIMIT BUY 1 (Some 90) (Some 100) 1;
    order "L" LIMIT BUY 1 (Some 90) None 2;
    order "S" LIMIT SELL 1 (Some 100) None 3;
    order "M" LIMIT BUY 1 (Some 100) None 4 ].

(** A price of 8 decimals and a quantity of 18 decimals:
    50000.00000001 and 499.999995000000000001. *)
Definition fine_ask : Order :=
  order "S1" LIMIT SELL 499999995000000000001 (Some 5000000000001) None 1.

Definition fine_buy : Order :=
  order "B1" MARKET BUY 499999995000000000001 None None 2.








End Scenario.

Module Scenario2.

Import Scenario.

Definition limit_buy : Order := order "L1" LIMIT BUY 100 (Some 50010) None 3.

(** An order of another symbol. *)
Definition eth_buy : Order :=
  {| order_id := "E1"; symbol := "ETH-USDT"; order_type := LIMIT; side := BUY;
     quantity := 10; price := Some 3000; timestamp := 5;
     remaining_quantity := 10; status := NEW; stop_price := None;
     is_triggered := false |}.

(** An ask of 1.00000000 at 50000.00 and the market buy that takes it. *)
Definition unit_ask : Order :=
  order "S1" LIMIT SELL 100000000 (Some 5000000) None 1.

Definition unit_buy : Order := order "B1" MARKET BUY 100000000 None None 2.

Definition default_fees : FeeCalculator :=
  {| maker_fee_rate := Dec.mk 1 (-3); taker_fee_rate := Dec.mk 2 (-3) |}.

End Scenario2.

Module Scenario3.

Import Scenario.

(** A third ask, at the price of the first one. *)
Definition added_ask : Order := order "S3" LIMIT SELL 25 (Some 50000) None 3.

(** A limit buy that takes both asks and rests with the remainder. *)
Definition big_limit_buy : Order := order "L2" LIMIT BUY 150 (Some 50010) None 3.

(** An IOC buy that takes the first ask only. *)
Definition ioc_buy : Order := order "I1" IOC BUY 150 (Some 50000) None 3.

(** A limit buy below the asks. *)
Definition resting_bid : Order := order "L3" LIMIT BUY 10 (Some 49990) None 3.

(** A market order that carries a price of zero. *)
Definition zero_priced : Order := order "M0" MARKET BUY 1 (Some 0) None 1.

(** An ask of 50 of which 20 were filled, in a book whose level still
    shows the aggregate 50. *)
Definition reduced_ask : Order :=
  {| order_id := "S1"; symbol := sym; order_type := LIMIT; side := SELL;
     quantity := 50; price := Some 50000; timestamp := 1;
     remaining_quantity := 30; status := PARTIAL; stop_price := None;
     is_triggered := false |}.

Definition stale_level : PriceLevel.t := PriceLevel.mk 50000 [reduced_ask] 50.

Definition stale_book : OrderBook.t :=
  OrderBook.mk sym [] [(50000, stale_level)] {[ "S1" := (reduced_ask, SELL) ]}.

(** A trade value of 123.456789 and one of 50000.00000000. *)
Definition odd_value : Dec.Decimal := Dec.mk 123456789 (-6).

Definition round_value : Dec.Decimal := Dec.mk 5000000000000 (-8).

End Scenario3.

(** The engine states reached from a new engine by [process_order] and
    [cancel_order]. *)
Inductive reachable (pe qe : Z) : MatchingEngine -> Prop :=
  | reach_new fees maker taker :
      reachable pe qe (MatchingEngine_new fees maker taker)
  | reach_process e o e' o' r :
      reachable pe qe e -> process_order pe qe e o = Ok (e', o', r) ->
      reachable pe qe e'
  | reach_cancel e oid sym e' b :
      reachable pe qe e -> cancel_order e oid sym = Ok (e', b) ->
      reachable pe qe e'.

(** The orders that the engine holds for the symbol [sym]: those resting
    in the book and the pending stop orders. *)
Definition held_orders (e : MatchingEngine) (sym : string) : list Order :=
  all_orders (OrderBook.bids (book_of e sym))
  ++ all_orders (OrderBook.asks (book_of e sym))
  ++ pending_of e sym.

(** No order that the engine holds has the id of [o]: the order is not
    one submitted before and still resting or pending. *)
Definition unused_id (e : MatchingEngine) (o : Order) : bool :=
  forallb (fun x => negb (String.eqb (order_id x) (order_id o)))
    (held_orders e (symbol o)).

(** The price and the stop price of [o], where it has them, fit the
    precision of the decimal context: the negation of the price at which
    the order may come to rest, the sort key of the bids, is exact. *)
Definition price_fits (o : Order) : bool :=
  match price o with
  | Some p => Dec.digits (Z.abs p) <=? Dec.prec
  | None => true
  end
  && match stop_price o with
     | Some p => Dec.digits (Z.abs p) <=? Dec.prec
     | None => true
     end.

(** An order as it is submitted to the engine [e]: the constructor
    accepted it, the engine does not hold an order of its id, and its
    prices fit the precision. *)
Definition admissible (e : MatchingEngine) (o : Order) : bool :=
  Order_post_init o && unused_id e o && price_fits o.

(** The engine states reached from a new engine by admissible orders:
    every order passed the constructor and is submitted once, under an id
    that the engine does not hold, with prices that fit the precision. *)
Inductive reachable_distinct (pe qe : Z) : MatchingEngine -> Prop :=
  | distinct_new fees maker taker :
      reachable_distinct pe qe (MatchingEngine_new fees maker taker)
  | distinct_process e o e' o' r :
      reachable_distinct pe qe e ->
      admissible e o = true ->
      process_order pe qe e o = Ok (e', o', r) ->
      reachable_distinct pe qe e'
  | distinct_cancel e oid sym e' b :
      reachable_distinct pe qe e -> cancel_order e oid sym = Ok (e', b) ->
      reachable_distinct pe qe e'.


(** The orders [os], processed one after the other from [e], are each
    admissible when they are submitted. *)
Fixpoint submitted_once (pe qe : Z) (e : MatchingEngine) (os : list Order) : bool :=
  match os with
  | [] => true
  | o :: os' =>
      admissible e o
      && match process_order pe qe e o with
         | Ok (e', _, _) => submitted_once pe qe e' os'
         | _ => false
         end
  end.


(** * Properties *)

Lemma bind_Ok {A B} (m : Res A) (f : A -> Res B) (b : B) :
  m ≫= f = Ok b -> exists a, m = Ok a /\ f a = Ok b.
Proof. destruct m; simpl; intros H; try discriminate; eauto. Qed.

Lemma bind_NoFuel {A B} (m : Res A) (f : A -> Res B) :
  m ≫= f = NoFuel -> m = NoFuel \/ exists a, m = Ok a /\ f a = NoFuel.
Proof. destruct m; simpl; intros H; try discriminate; eauto. Qed.

(** Inversion of a successful sequence of binds. *)
Ltac inv_ok H :=
  let a := fresh "a" in
  let Ha := fresh "Hstep" in
  apply bind_Ok in H; destruct H as (a & Ha & H).

Lemma sum_qty_app ts1 ts2 : sum_qty (ts1 ++ ts2) = sum_qty ts1 + sum_qty ts2.
Proof. induction ts1; simpl; lia. Qed.

Lemma sum_remaining_app os1 os2 :
  sum_remaining (os1 ++ os2) = sum_remaining os1 + sum_remaining os2.
Proof. induction os1; simpl; lia. Qed.

Lemma update_status_fields o :
  order_id (update_status o) = order_id o /\
  symbol (update_status o) = symbol o /\
  order_type (update_status o) = order_type o /\
  side (update_status o) = side o /\
  quantity (update_status o) = quantity o /\
  price (update_status o) = price o /\
  timestamp (update_status o) = timestamp o /\
  remaining_quantity (update_status o) = remaining_quantity o /\
  stop_price (update_status o) = stop_price o /\
  is_triggered (update_status o) = is_triggered o.
Proof.
  unfold update_status.
  destruct (remaining_quantity o =? 0); [|destruct (remaining_quantity o <? quantity o)];
    simpl; repeat split.
Qed.

Lemma filled_by_fields m q :
  order_id (filled_by m q) = order_id m /\
  symbol (filled_by m q) = symbol m /\
  order_type (filled_by m q) = order_type m /\
  side (filled_by m q) = side m /\
  quantity (filled_by m q) = quantity m /\
  price (filled_by m q) = price m /\
  timestamp (filled_by m q) = timestamp m /\
  remaining_quantity (filled_by m q) = Dec.minus (remaining_quantity m) q /\
  stop_price (filled_by m q) = stop_price m /\
  is_triggered (filled_by m q) = is_triggered m.
Proof.
  unfold filled_by.
  pose proof (update_status_fields
                (set_remaining_quantity m (Dec.minus (remaining_quantity m) q))) as H.
  simpl in H. exact H.
Qed.

Section Properties.

Variables (pe qe : Z).

Lemma same_order_refl o : same_order o o.
Proof. unfold same_order; repeat split. Qed.

Lemma same_order_trans o1 o2 o3 :
  same_order o1 o2 -> same_order o2 o3 -> same_order o1 o3.
Proof. unfold same_order; intuition congruence. Qed.

Lemma only_counter_refl e : only_counter e e.
Proof. unfold only_counter; repeat split. Qed.

Lemma only_counter_trans e1 e2 e3 :
  only_counter e1 e2 -> only_counter e2 e3 -> only_counter e1 e3.
Proof. unfold only_counter; intuition congruence. Qed.

Lemma create_trade_Ok e taker maker p q e' t :
  _create_trade pe qe e taker maker p q = Ok (e', t) ->
  e' = set_trade_id_counter e (trade_id_counter e + 1) /\
  trade_id t = trade_id_counter e + 1 /\
  trade_of taker maker p q t /\ fees_computed pe qe e t.
Proof.
  unfold _create_trade, generate_trade_id, Trade_new, Trade_post_init,
    fees_computed. simpl.
  destruct (0 <? p) eqn:Hp; simpl; [|discriminate].
  destruct (0 <? q) eqn:Hq; simpl; [|discriminate].
  apply Z.ltb_lt in Hp, Hq.
  destruct (enable_fees e); [destruct (fee_calculator e) as [fc|]|]; simpl.
  - intros H. inv_ok H. destruct a as [mf tf]. inversion H; subst; clear H.
    simpl. unfold trade_of; simpl. repeat split; assumption.
  - intros H; inversion H; subst.
    unfold trade_of; simpl; repeat split; assumption.
  - intros H; inversion H; subst.
    unfold trade_of; simpl; repeat split; assumption.
Qed.
Lemma create_trade_not_NoFuel e taker maker p q :
  _create_trade pe qe e taker maker p q <> NoFuel.
Proof.
  unfold _create_trade, generate_trade_id, Trade_new. simpl.
  destruct (Trade_post_init _); simpl; [|discriminate].
  destruct (enable_fees e); [destruct (fee_calculator e) as [fc|]|]; simpl;
    try discriminate.
  unfold calculate_fees, Dec.quantize.
  repeat (match goal with |- context [if ?c then _ else _] => destruct c end;
          simpl; try discriminate).
Qed.

(** ** Rounding to the context precision *)

Lemma digits_aux_spec f : forall n,
  0 < n -> n < 2 ^ Z.of_nat f ->
  10 ^ (Dec.digits_aux f n - 1) <= n < 10 ^ Dec.digits_aux f n.
Proof.
  induction f as [|f IH]; intros n Hn Hf.
  - simpl in Hf. lia.
  - cbn [Dec.digits_aux]. destruct (n <? 10) eqn:E.
    + apply Z.ltb_lt in E. simpl. lia.
    + apply Z.ltb_ge in E.
      assert (H0 : 0 < n / 10) by (apply Z.div_str_pos; lia).
      assert (Hf' : n / 10 < 2 ^ Z.of_nat f).
      { rewrite Nat2Z.inj_succ, Z.pow_succ_r in Hf by lia.
        apply Z.div_lt_upper_bound; lia. }
      specialize (IH _ H0 Hf'). set (d := Dec.digits_aux f (n / 10)) in *.
      assert (Hd : 1 <= d).
      { destruct (Z_lt_le_dec d 1) as [Hlt|]; [|assumption].
        assert (10 ^ d <= 10 ^ 0) by (apply Z.pow_le_mono_r; lia).
        simpl in *. lia. }
      replace (1 + d - 1) with (Z.succ (d - 1)) by lia.
      replace (1 + d) with (Z.succ d) by lia.
      rewrite !Z.pow_succ_r by lia.
      pose proof (Z.div_mod n 10 ltac:(lia)) as Hdm.
      pose proof (Z.mod_pos_bound n 10 ltac:(lia)) as Hr. lia.
Qed.

Lemma digits_spec n :
  0 < n -> 10 ^ (Dec.digits n - 1) <= n < 10 ^ Dec.digits n.
Proof.
  intros Hn. unfold Dec.digits. apply digits_aux_spec; [assumption|].
  rewrite Nat2Z.inj_succ, Z2Nat.id by apply Z.log2_nonneg.
  apply Z.log2_spec. assumption.
Qed.

Lemma digits_0 : Dec.digits 0 = 1.
Proof. reflexivity. Qed.

Lemma digits_le n k : 0 <= k -> 0 <= n < 10 ^ k -> 1 <= k -> Dec.digits n <= k.
Proof.
  intros Hk Hn H1. destruct (Z.eq_dec n 0) as [->|Hne]; [rewrite digits_0; lia|].
  pose proof (digits_spec n ltac:(lia)) as [Hlo _].
  destruct (Z_lt_le_dec k (Dec.digits n)) as [Hlt|]; [|assumption].
  assert (10 ^ k <= 10 ^ (Dec.digits n - 1)) by (apply Z.pow_le_mono_r; lia). lia.
Qed.

Lemma digits_gt n k : 0 <= k -> 0 < n -> k < Dec.digits n -> 10 ^ k <= n.
Proof.
  intros Hk Hn Hlt. pose proof (digits_spec n Hn) as [Hlo _].
  assert (10 ^ k <= 10 ^ (Dec.digits n - 1)) by (apply Z.pow_le_mono_r; lia). lia.
Qed.

(** A value fits the precision when it is below 10^28 in absolute value. *)
Lemma within_precision_lt n : within_precision n <-> Z.abs n < 10 ^ 28.
Proof.
  unfold within_precision, Dec.prec. split.
  - intros H. destruct (Z.eq_dec (Z.abs n) 0) as [->|Hne]; [reflexivity|].
    pose proof (digits_spec (Z.abs n) ltac:(lia)) as [_ Hhi].
    assert (10 ^ Dec.digits (Z.abs n) <= 10 ^ 28) by (apply Z.pow_le_mono_r; lia). lia.
  - intros H. apply digits_le; lia.
Qed.

Lemma round_exact n : within_precision n -> Dec.round n = n.
Proof.
  unfold within_precision, Dec.round, Dec.fix_. simpl. intros H.
  apply Z.leb_le in H. rewrite H. simpl. lia.
Qed.

Lemma round_0 : Dec.round 0 = 0.
Proof. reflexivity. Qed.

Lemma round_pos n : 0 < n -> 0 < Dec.round n.
Proof.
  intros Hn. unfold Dec.round, Dec.fix_. simpl.
  rewrite (Z.abs_eq n) by lia.
  destruct (Dec.digits n <=? Dec.prec) eqn:E; [simpl; lia|].
  apply Z.leb_gt in E. unfold Dec.prec in *.
  set (k := Dec.digits n - 28) in *.
  assert (Hk : 0 < k) by (subst k; lia).
  pose proof (digits_spec n Hn) as [Hlo _].
  assert (Hp : 0 < 10 ^ k) by (apply Z.pow_pos_nonneg; lia).
  assert (Hq : 10 ^ 27 <= n / 10 ^ k).
  { apply Z.div_le_lower_bound; [assumption|].
    rewrite Z.mul_comm, <- Z.pow_add_r by lia.
    replace (27 + k) with (Dec.digits n - 1) by (subst k; lia). assumption. }
  assert (Hc : 10 ^ 27 <= Dec.round_half_even n (10 ^ k)).
  { unfold Dec.round_half_even.
    destruct (2 * (n mod 10 ^ k) <? 10 ^ k); [lia|].
    destruct (10 ^ k <? 2 * (n mod 10 ^ k)); [lia|].
    destruct (Z.even (n / 10 ^ k)); lia. }
  set (c := Dec.round_half_even n (10 ^ k)) in *.
  rewrite (Z.sgn_pos n) by lia.
  destruct (Dec.digits c <=? 28) eqn:Ec; simpl.
  - assert (0 < 1 * c * 10 ^ k) by nia. lia.
  - assert (0 < c / 10) by (apply Z.div_str_pos; lia).
    assert (0 < 10 ^ (k + 1)) by (apply Z.pow_pos_nonneg; lia).
    assert (0 < 1 * (c / 10) * 10 ^ (k + 1)) by nia.
    replace (0 + k + 1) with (k + 1) by lia. lia.
Qed.

Lemma round_opp n : Dec.round (- n) = - Dec.round n.
Proof.
  unfold Dec.round, Dec.fix_. simpl. rewrite Z.abs_opp, Z.sgn_opp.
  destruct (Dec.digits (Z.abs n) <=? Dec.prec); simpl; [lia|].
  destruct (Dec.digits _ <=? Dec.prec); simpl; lia.
Qed.

Lemma round_nonneg n : 0 <= n -> 0 <= Dec.round n.
Proof.
  intros Hn. destruct (Z.eq_dec n 0) as [->|Hne]; [rewrite round_0; lia|].
  pose proof (round_pos n ltac:(lia)). lia.
Qed.

Lemma round_eq_0 n : Dec.round n = 0 -> n = 0.
Proof.
  intros H. destruct (Z.lt_trichotomy n 0) as [Hlt|[->|Hgt]]; [|reflexivity|].
  - pose proof (round_pos (- n) ltac:(lia)) as Hp. rewrite round_opp in Hp. lia.
  - pose proof (round_pos n Hgt). lia.
Qed.

(** A difference of two values that fit the precision, the smaller taken
    from the larger, is exact. *)
Lemma minus_exact a b :
  within_precision a -> 0 <= b <= a -> Dec.minus a b = a - b.
Proof.
  intros Ha Hb. apply round_exact. apply within_precision_lt.
  apply within_precision_lt in Ha. lia.
Qed.

Lemma plus_exact a b : within_precision (a + b) -> Dec.plus a b = a + b.
Proof. apply round_exact. Qed.

Lemma within_precision_le a b :
  within_precision a -> 0 <= b <= a -> within_precision b.
Proof.
  intros Ha Hb. apply within_precision_lt. apply within_precision_lt in Ha. lia.
Qed.

Lemma minus_self a : Dec.minus a a = 0.
Proof. unfold Dec.minus. rewrite Z.sub_diag. reflexivity. Qed.

Lemma minus_eq_0 a b : Dec.minus a b = 0 -> a = b.
Proof. intros H. apply round_eq_0 in H. lia. Qed.

Lemma minus_nonneg a b : b <= a -> 0 <= Dec.minus a b.
Proof. intros H. apply round_nonneg. lia. Qed.

Lemma minus_pos a b : b < a -> 0 < Dec.minus a b.
Proof. intros H. apply round_pos. lia. Qed.

(** ** The inner loop: one price level *)

Lemma match_level_Ok os : forall e o p total idx trades e' o' os' total' idx' trades',
  match_level pe qe e o p os total idx trades
    = Ok (e', o', os', total', idx', trades') ->
  exists new,
    trades' = trades ++ new /\
    fifo_fills p os new os' /\
    (within_precision (remaining_quantity o) ->
     remaining_quantity o' = remaining_quantity o - sum_qty new) /\
    (within_precision total ->
     Forall (fun m => 0 <= remaining_quantity m) os ->
     sum_remaining os <= total ->
     total' = total - sum_qty new) /\
    (os' <> [] -> remaining_quantity o' <= 0) /\
    (0 <= remaining_quantity o -> 0 <= remaining_quantity o') /\
    Forall (taken_by o) new /\
    Forall (fees_computed pe qe e) new /\
    same_order o o' /\
    only_counter e e' /\
    trade_id_counter e' = trade_id_counter e + Z.of_nat (length new).
Proof.
  induction os as [|m rest IH]; intros e o p total idx trades e' o' os' total' idx' trades' H.
  - simpl in H. inversion H; subst; clear H. exists []. rewrite app_nil_r.
    repeat split; try constructor; try (simpl; lia); try congruence.
  - simpl in H. destruct (0 <? remaining_quantity o) eqn:Hrem.
    2:{ inversion H; subst; clear H. exists []. rewrite app_nil_r.
        apply Z.ltb_ge in Hrem.
        repeat split; try constructor; try (simpl; lia); try congruence. }
    apply Z.ltb_lt in Hrem.
    inv_ok H. destruct a as [e1 t].
    apply create_trade_Ok in Hstep. destruct Hstep as (He1 & Htid & Htr & Hfee).
    destruct Htr as (Hsym & Hp & Hq & Hmk & Htk & Hag & Hpp & Hqp).
    set (fill := Z.min (remaining_quantity o) (remaining_quantity m)) in *.
    assert (Htaken : taken_by o t).
    { unfold taken_by. rewrite Hp, Hq. repeat split; assumption. }
    pose proof (update_status_fields
      (set_remaining_quantity o (Dec.minus (remaining_quantity o) fill))) as Ho1.
    pose proof (filled_by_fields m fill) as Hm1. fold (filled_by m fill) in H.
    simpl in Ho1.
    unfold is_filled in H.
    destruct Hm1 as (_&_&_&_&_&_&_&Hmrem&_).
    rewrite Hmrem in H.
    assert (Hexact : within_precision (remaining_quantity o) ->
                     Dec.minus (remaining_quantity o) fill = remaining_quantity o - fill
                     /\ within_precision (remaining_quantity o - fill)).
    { intros Hw. split; [apply minus_exact; [assumption|lia]|].
      eapply within_precision_le; [exact Hw|lia]. }
    destruct (Dec.minus (remaining_quantity m) fill =? 0) eqn:Hfilled.
    + apply Z.eqb_eq in Hfilled. pose proof Hfilled as Hmf.
      apply minus_eq_0 in Hmf.
      apply IH in H. destruct H as (new & -> & Hff & Hr & Htot & Hne & Hnn & Htk' & Hfees & Hso & Hoc & Hctr).
      exists (t :: new). rewrite <- app_assoc. simpl.
      destruct Ho1 as (Hoid&Hosym&Hoty&Hosd&Hoq&Hopr&Hots&Horem&Hosp&Hotr).
      rewrite Horem in Hr, Hnn.
      split; [reflexivity|]. split.
      { apply fifo_full; try assumption; lia. }
      split.
      { intros Hw. destruct (Hexact Hw) as [Hx Hw']. rewrite Hx in Hr.
        rewrite (Hr Hw'). lia. }
      split.
      { intros Hw Hall Hsum. apply Forall_cons in Hall. destruct Hall as [Hm0 Hall].
        simpl in Hsum.
        assert (Hrest : 0 <= sum_remaining rest).
        { clear -Hall. induction Hall; simpl; lia. }
        rewrite Hfilled in Htot.
        assert (Hx : Dec.minus total (remaining_quantity m) = total - remaining_quantity m).
        { apply minus_exact; [assumption|lia]. }
        rewrite Hx in Htot.
        assert (Hw1 : within_precision (total - remaining_quantity m))
          by (eapply within_precision_le; [exact Hw|lia]).
        unfold Dec.plus in Htot. rewrite Z.add_0_r in Htot.
        rewrite (round_exact _ Hw1) in Htot.
        rewrite (Htot Hw1 Hall) by lia. lia. }
      split; [assumption|].
      split; [intros; apply Hnn; apply minus_nonneg; lia|].
      split.
      { constructor; [assumption|].
        eapply Forall_impl; [exact Htk'|].
        intros t' (A&B&C&D&E). unfold taken_by.
        rewrite A, B, C, Hoid, Hosym, Hosd. repeat split; assumption. }
      split.
      { constructor; [assumption|].
        eapply Forall_impl; [exact Hfees|].
        intros t'. subst e1. unfold fees_computed. simpl. tauto. }
      split.
      { eapply same_order_trans; [|exact Hso].
        unfold same_order. repeat split; assumption. }
      split.
      { eapply only_counter_trans; [|exact Hoc]. subst e1.
        unfold only_counter; simpl; repeat split. }
      rewrite Hctr. subst e1. simpl. lia.
    + apply Z.eqb_neq in Hfilled.
      assert (Hmf : remaining_quantity m <> fill).
      { intros E. apply Hfilled. rewrite E. apply minus_self. }
      assert (Hfo : fill = remaining_quantity o) by lia.
      inversion H; subst e' o' os' total' idx' trades'; clear H.
      rewrite He1. exists [t]. simpl.
      destruct Ho1 as (Hoid&Hosym&Hoty&Hosd&Hoq&Hopr&Hots&Horem&Hosp&Hotr).
      assert (Hzero : Dec.minus (remaining_quantity o) fill = 0)
        by (rewrite Hfo; apply minus_self).
      rewrite Horem, Hzero.
      split; [reflexivity|]. split.
      { assert (Hlt : 0 < trade_quantity t < remaining_quantity m) by (rewrite Hq; lia).
        rewrite <- Hq. apply fifo_part; [exact Hp|exact Hmk|exact Hlt]. }
      split; [intros _; lia|]. split.
      { intros Hw Hall Hsum. apply Forall_cons in Hall. destruct Hall as [Hm0 Hall].
        simpl in Hsum.
        assert (Hrest : 0 <= sum_remaining rest).
        { clear -Hall. induction Hall; simpl; lia. }
        assert (Hwm : within_precision (remaining_quantity m))
          by (eapply within_precision_le; [exact Hw|lia]).
        rewrite (minus_exact total) by (assumption || lia).
        rewrite (minus_exact (remaining_quantity m)) by (assumption || lia).
        rewrite plus_exact; [lia|].
        eapply within_precision_le; [exact Hw|lia]. }
      split; [intros _; lia|]. split; [intros _; lia|].
      split; [constructor; [assumption|constructor]|].
      split; [constructor; [assumption|constructor]|].
      split; [unfold same_order; repeat split; assumption|].
      split; [unfold only_counter; simpl; repeat split|].
      simpl. lia.
Qed.

Lemma match_level_not_NoFuel os : forall e o p total idx trades,
  match_level pe qe e o p os total idx trades <> NoFuel.
Proof.
  induction os as [|m rest IH]; intros e o p total idx trades; simpl; [discriminate|].
  destruct (0 <? remaining_quantity o); [|discriminate].
  intros H. apply bind_NoFuel in H. destruct H as [H|(a & Ha & H)].
  - exact (create_trade_not_NoFuel _ _ _ _ _ H).
  - destruct a as [e1 t]. destruct (is_filled _); [|discriminate].
    exact (IH _ _ _ _ _ _ H).
Qed.

(** ** The outer loop: the opposite side of the book *)

Lemma can_match_same_order o o' p :
  same_order o o' -> _can_match o' p = _can_match o p.
Proof.
  intros (_&_&Hty&Hsd&_&Hpr&_). unfold _can_match. rewrite Hty, Hsd, Hpr. reflexivity.
Qed.

Lemma taken_by_same_order o o' t :
  same_order o o' -> taken_by o' t -> taken_by o t.
Proof.
  intros (Hid&Hsym&_&Hsd&_) (A&B&C&D&E). unfold taken_by.
  rewrite A, B, C, Hid, Hsym, Hsd. repeat split; assumption.
Qed.

Lemma fees_computed_only_counter e e' t :
  only_counter e e' -> fees_computed pe qe e' t -> fees_computed pe qe e t.
Proof.
  intros (_&_&Hf&Hc&_). unfold fees_computed. rewrite Hf, Hc. tauto.
Qed.

Lemma fifo_fills_price p os ts os' :
  fifo_fills p os ts os' -> Forall (fun t => trade_price t = p) ts.
Proof. induction 1; repeat constructor; assumption. Qed.

Lemma taken_by_sum_nonneg o ts : Forall (taken_by o) ts -> 0 <= sum_qty ts.
Proof. induction 1 as [|t ts (_&_&_&_&Hq) _ IH]; simpl; lia. Qed.

Ltac no_new_trades :=
  exists []; rewrite app_nil_r;
  split; [reflexivity|]; split; [apply book_stop|];
  split; [intros _; simpl; lia|];
  split; [intros; assumption|]; split; [constructor|]; split; [constructor|];
  split; [constructor|]; split; [apply same_order_refl|];
  split; [apply only_counter_refl|]; split; [simpl; lia|].

Lemma match_levels_Ok d : forall e o idx trades e' o' d' idx' trades',
  match_levels pe qe e o d idx trades = Ok (e', o', d', idx', trades') ->
  exists new,
    trades' = trades ++ new /\
    book_fills d new d' /\
    (within_precision (remaining_quantity o) ->
     remaining_quantity o' = remaining_quantity o - sum_qty new) /\
    (0 <= remaining_quantity o -> 0 <= remaining_quantity o') /\
    Forall (taken_by o) new /\
    Forall (fees_computed pe qe e) new /\
    Forall (fun t => _can_match o (trade_price t) = Ok true) new /\
    same_order o o' /\
    only_counter e e' /\
    trade_id_counter e' = trade_id_counter e + Z.of_nat (length new) /\
    (0 < remaining_quantity o' ->
       d' = [] \/ exists p l rest, d' = (p, l) :: rest /\ _can_match o p = Ok false).
Proof.
  induction d as [|[p l] rest IH]; intros e o idx trades e' o' d' idx' trades' H.
  - simpl in H. inversion H; subst; clear H. no_new_trades. intros _; left; reflexivity.
  - simpl in H. destruct (0 <? remaining_quantity o) eqn:Hrem.
    2:{ inversion H; subst; clear H. apply Z.ltb_ge in Hrem. no_new_trades. lia. }
    apply Z.ltb_lt in Hrem.
    inv_ok H. rename a into ok. destruct ok; simpl in H.
    2:{ inversion H; subst; clear H. no_new_trades. intros _. right. eauto. }
    inv_ok H. destruct a as [[[[[e1 o1] os1] total1] idx1] trades1].
    apply match_level_Ok in Hstep0.
    destruct Hstep0 as (new1 & -> & Hff & Hr1 & Htot1 & Hne1 & Hnn1 & Htk1 & Hfee1 & Hso1 & Hoc1 & Hctr1).
    unfold PriceLevel.is_empty in H. simpl in H.
    destruct os1 as [|m1 os1]; simpl in H.
    + apply IH in H.
      destruct H as (new2 & -> & Hbf & Hr2 & Hnn2 & Htk2 & Hfee2 & Hcm2 & Hso2 & Hoc2 & Hctr2 & Hstop).
      exists (new1 ++ new2). rewrite app_assoc.
      split; [reflexivity|]. split; [apply book_level; assumption|].
      rewrite sum_qty_app, length_app, Nat2Z.inj_add.
      split.
      { intros Hw. specialize (Hr1 Hw).
        pose proof (taken_by_sum_nonneg _ _ Htk1) as Hs1.
        assert (Hw1 : within_precision (remaining_quantity o1)).
        { eapply within_precision_le; [exact Hw|]. specialize (Hnn1 ltac:(lia)). lia. }
        rewrite (Hr2 Hw1). lia. }
      split; [intros; apply Hnn2, Hnn1; lia|].
      split.
      { apply Forall_app; split; [assumption|].
        eapply Forall_impl; [exact Htk2|]. intros t. apply taken_by_same_order; assumption. }
      split.
      { apply Forall_app; split; [assumption|].
        eapply Forall_impl; [exact Hfee2|]. intros t. apply fees_computed_only_counter; assumption. }
      split.
      { apply Forall_app; split.
        - eapply Forall_impl; [exact (fifo_fills_price _ _ _ _ Hff)|].
          intros t ->. assumption.
        - eapply Forall_impl; [exact Hcm2|]. intros t Ht.
          rewrite <- Ht. symmetry. apply can_match_same_order; assumption. }
      split; [eapply same_order_trans; eassumption|].
      split; [eapply only_counter_trans; eassumption|].
      split; [lia|].
      intros Hpos. destruct (Hstop Hpos) as [->|(p2 & l2 & r2 & -> & Hcm)]; [left; reflexivity|].
      right. exists p2, l2, r2. split; [reflexivity|].
      rewrite <- Hcm. symmetry. apply can_match_same_order; assumption.
    + inversion H; subst e' o' d' idx' trades'; clear H.
      exists new1. split; [reflexivity|]. split.
      { apply book_part; [assumption|discriminate]. }
      split; [assumption|]. split; [assumption|]. split; [assumption|].
      split; [assumption|]. split.
      { eapply Forall_impl; [exact (fifo_fills_price _ _ _ _ Hff)|].
        intros t ->. assumption. }
      split; [assumption|]. split; [assumption|]. split; [assumption|].
      intros Hpos. exfalso. assert (remaining_quantity o1 <= 0) by (apply Hne1; discriminate). lia.
Qed.

Lemma can_match_not_NoFuel o p : _can_match o p <> NoFuel.
Proof.
  unfold _can_match. destruct (decide _); [discriminate|].
  destruct (price o); [destruct (side o)|]; discriminate.
Qed.

Lemma match_levels_not_NoFuel d : forall e o idx trades,
  match_levels pe qe e o d idx trades <> NoFuel.
Proof.
  induction d as [|[p l] rest IH]; intros e o idx trades; simpl; [discriminate|].
  destruct (0 <? remaining_quantity o); [|discriminate].
  intros H. apply bind_NoFuel in H. destruct H as [H|(ok & Hok & H)].
  - exact (can_match_not_NoFuel _ _ H).
  - destruct ok; simpl in H; [|discriminate].
    apply bind_NoFuel in H. destruct H as [H|(a & Ha & H)].
    + exact (match_level_not_NoFuel _ _ _ _ _ _ _ H).
    + destruct a as [[[[[e1 o1] os1] total1] idx1] trades1].
      destruct (PriceLevel.is_empty _); [|discriminate].
      exact (IH _ _ _ _ H).
Qed.

(** ** Shape of the fills of one level *)

Lemma fifo_fills_lookup p os ts os' :
  fifo_fills p os ts os' ->
  forall k t, ts !! k = Some t ->
    exists m, os !! k = Some m /\ maker_order_id t = order_id m /\
              trade_price t = p /\ 0 < trade_quantity t <= remaining_quantity m.
Proof.
  induction 1 as [os|m os t ts os' Hp Hm Hq Hfull Hff IH|m os t Hp Hm Hq];
    intros k t' Hk.
  - discriminate.
  - destruct k as [|k]; simpl in Hk.
    + inversion Hk; subst t'. exists m. simpl. repeat split; try assumption; lia.
    + destruct (IH k t' Hk) as (m' & ? & ?). exists m'. simpl. auto.
  - destruct k as [|k]; simpl in Hk; [|destruct k; discriminate].
    inversion Hk; subst t'. exists m. simpl. repeat split; try assumption; lia.
Qed.

Lemma fifo_fills_full_before_last p os ts os' :
  fifo_fills p os ts os' ->
  forall k t m, ts !! k = Some t -> os !! k = Some m ->
    (S k < length ts)%nat -> trade_quantity t = remaining_quantity m.
Proof.
  induction 1 as [os|m os t ts os' Hp Hm Hq Hfull Hff IH|m os t Hp Hm Hq];
    intros k t' m' Hk Hm' Hlt.
  - discriminate.
  - destruct k as [|k]; simpl in *.
    + inversion Hk; inversion Hm'; subst. assumption.
    + eapply IH; eauto. lia.
  - simpl in Hlt. lia.
Qed.

Lemma fifo_fills_rest p os ts os' :
  fifo_fills p os ts os' ->
  os' = drop (length ts) os \/
  exists m', (0 < length ts)%nat /\ os' = m' :: drop (length ts) os.
Proof.
  induction 1 as [os|m os t ts os' Hp Hm Hq Hfull Hff IH|m os t Hp Hm Hq].
  - left. reflexivity.
  - simpl. destruct IH as [->|(m' & Hlen & ->)]; [left; reflexivity|].
    right. exists m'. split; [lia|reflexivity].
  - right. eexists. simpl. split; [lia|]. rewrite drop_0. reflexivity.
Qed.

Lemma fifo_fills_sum_emptied p os ts :
  fifo_fills p os ts [] -> sum_qty ts = sum_remaining os.
Proof.
  remember [] as os' eqn:E. induction 1; simpl; try discriminate.
  - subst. reflexivity.
  - rewrite IHfifo_fills by assumption. lia.
Qed.

Lemma fifo_fills_sum_nonneg p os ts os' :
  fifo_fills p os ts os' -> 0 <= sum_qty ts.
Proof. induction 1; simpl; lia. Qed.

(** C5. FIFO within a level: the trades of the inner loop of [match_order]
    fill the queue front to back, the k-th trade filling the k-th resting
    order.  When a later order [b] of the queue receives a fill, every
    order [a] queued before it has been consumed entirely, by a trade
    executed earlier, and is no longer in the queue. *)
Theorem fifo_within_level e o p os total idx trades e' o' os' total' idx' trades' :
  match_level pe qe e o p os total idx trades
    = Ok (e', o', os', total', idx', trades') ->
  exists new,
    trades' = trades ++ new /\
    (forall k t, new !! k = Some t ->
       exists m, os !! k = Some m /\ maker_order_id t = order_id m /\
                 trade_price t = p /\ 0 < trade_quantity t <= remaining_quantity m) /\
    (forall i j a b tb,
       (i < j)%nat -> os !! i = Some a -> os !! j = Some b -> new !! j = Some tb ->
       exists ta,
         new !! i = Some ta /\ maker_order_id ta = order_id a /\
         trade_quantity ta = remaining_quantity a /\
         exists n, (S i < n)%nat /\
           (os' = drop n os \/ exists b', os' = b' :: drop n os)).
Proof.
  intros H. apply match_level_Ok in H.
  destruct H as (new & -> & Hff & _). exists new.
  split; [reflexivity|]. split; [exact (fifo_fills_lookup _ _ _ _ Hff)|].
  intros i j a b tb Hij Ha Hb Htb.
  assert (Hj : (j < length new)%nat) by (eapply lookup_lt_Some; eassumption).
  destruct (lookup_lt_is_Some_2 new i) as [ta Hta]; [lia|].
  exists ta. split; [assumption|].
  destruct (fifo_fills_lookup _ _ _ _ Hff i ta Hta) as (m & Hm & Hid & _).
  rewrite Ha in Hm. inversion Hm; subst m. split; [assumption|].
  split; [eapply fifo_fills_full_before_last; eauto; lia|].
  exists (length new). split; [lia|].
  destruct (fifo_fills_rest _ _ _ _ Hff) as [->|(m' & _ & ->)]; eauto.
Qed.

(** [PriceLevel.add_order] queues behind the orders admitted earlier. *)
Lemma add_order_appends l a :
  PriceLevel.orders (PriceLevel.add_order l a) = PriceLevel.orders l ++ [a] /\
  forall i x, PriceLevel.orders l !! i = Some x ->
              PriceLevel.orders (PriceLevel.add_order l a) !! i = Some x.
Proof.
  split; [reflexivity|]. intros i x Hx. simpl. apply lookup_app_l_Some. assumption.
Qed.

(** ** Decomposition of [match_order] and [process_order] *)

Lemma match_order_Ok f e o bk e' o' trades :
  match_order pe qe f e o bk = Ok (e', o', trades) ->
  exists f' book e1 d' idx',
    f = S f' /\
    order_books e !! bk = Some book /\
    match_levels pe qe e o (OrderBook.levels (opposite (side o)) book)
      (OrderBook.order_index book) [] = Ok (e1, o', d', idx', trades) /\
    match last trades with
    | Some t =>
        check_stop_orders pe qe f' (write_back e1 bk book (opposite (side o)) d' idx')
          (symbol o') (trade_price t)
    | None => Ok (write_back e1 bk book (opposite (side o)) d' idx')
    end = Ok e'.
Proof.
  destruct f as [|f']; simpl; [discriminate|].
  destruct (order_books e !! bk) as [book|] eqn:Hb; [|discriminate].
  intros H. inv_ok H. destruct a as [[[[e1 o1] d'] idx'] trades1].
  inv_ok H. inversion H; subst; clear H.
  exists f', book, e1, d', idx'.
  split; [reflexivity|]. split; [reflexivity|]. split; [assumption|].
  unfold check_stop_orders, write_back. exact Hstep0.
Qed.

Lemma match_order_same_order f e o bk e' o' trades :
  match_order pe qe f e o bk = Ok (e', o', trades) -> same_order o o'.
Proof.
  intros H. apply match_order_Ok in H.
  destruct H as (f' & book & e1 & d' & idx' & _ & _ & H & _).
  apply match_levels_Ok in H. destruct H as (new & _ & _ & _ & _ & _ & _ & _ & Hso & _).
  exact Hso.
Qed.

Lemma get_or_create_spec e sym :
  order_books (fst (get_or_create_order_book e sym))
    = <[sym := book_of e sym]> (order_books e) /\
  snd (get_or_create_order_book e sym) = book_of e sym /\
  stop_orders (fst (get_or_create_order_book e sym)) = stop_orders e /\
  trade_id_counter (fst (get_or_create_order_book e sym)) = trade_id_counter e /\
  same_config e (fst (get_or_create_order_book e sym)).
Proof.
  unfold get_or_create_order_book, book_of, same_config.
  destruct (order_books e !! sym) as [b|] eqn:Hb; simpl.
  - rewrite insert_id by assumption. repeat split.
  - repeat split.
Qed.

Lemma process_order_Ok e o e' o' r :
  process_order pe qe e o = Ok (e', o', r) ->
  let sym := symbol o in
  let e0 := fst (get_or_create_order_book e sym) in
  (is_stop_type (order_type o) = true /\
   e' = set_stop_orders e0 (<[sym := pending_of e sym ++ [o]]> (stop_orders e0)) /\
   o' = o /\ result_status r = "pending" /\ result_trades r = [])
  \/
  (is_stop_type (order_type o) = false /\ order_type o = FOK /\
   _can_fill_fok o (book_of e sym) = Ok false /\
   e' = e0 /\ o' = set_status o CANCELLED /\
   result_status r = "cancelled" /\ result_trades r = [] /\
   result_remaining_quantity r = quantity o)
  \/
  (is_stop_type (order_type o) = false /\
   (order_type o = FOK -> _can_fill_fok o (book_of e sym) = Ok true) /\
   exists e1 o1,
     match_order pe qe (stop_fuel e0 sym) e0 o sym = Ok (e1, o1, result_trades r) /\
     result_remaining_quantity r = remaining_quantity o1 /\
     same_order o o1 /\
     ((remaining_quantity o1 <= 0 /\ e' = e1 /\ o' = o1 /\
       result_status r = status_after_match o1)
      \/
      (0 < remaining_quantity o1 /\ order_type o1 = LIMIT /\
       add_to_book e1 o1 sym = Ok e' /\ o' = o1 /\
       result_status r =
         match result_trades r with [] => "accepted" | _ => "partial" end)
      \/
      (0 < remaining_quantity o1 /\ order_type o1 <> LIMIT /\
       e' = e1 /\ o' = set_status o1 CANCELLED /\
       result_status r = status_after_match o1))).
Proof.
  unfold process_order. intros H. cbv zeta.
  pose proof (get_or_create_spec e (symbol o)) as (Hbooks & Hsnd & Hstops & _).
  destruct (get_or_create_order_book e (symbol o)) as [e0 book] eqn:Hgc.
  cbn [fst snd] in *. subst book.
  destruct (is_stop_type (order_type o)) eqn:Hstop.
  { inversion H; subst; clear H. left. unfold pending_of. rewrite Hstops.
    simpl. repeat split. }
  right.
  inv_ok H. rename a into fillable.
  destruct fillable; cbn [negb] in H.
  2:{ inversion H; subst; clear H. left.
      destruct (decide (order_type o = FOK)) as [Hf|Hf]; [|discriminate].
      simpl. repeat split; assumption. }
  right. split; [reflexivity|]. split.
  { intros Hf. destruct (decide (order_type o = FOK)); [assumption|contradiction]. }
  inv_ok H. destruct a as [[e1 o1] trades].
  exists e1, o1.
  cbv zeta in H. fold (status_after_match o1) in H.
  inv_ok H. destruct a as [[e2 o2] st]. simpl in H.
  inversion H; subst e' o' r; clear H. simpl.
  assert (Hso : same_order o o1) by exact (match_order_same_order _ _ _ _ _ _ _ Hstep0).
  assert (Hsym1 : symbol o1 = symbol o) by (apply Hso).
  split; [assumption|]. split; [|split; [assumption|]].
  { destruct (0 <? remaining_quantity o1); [destruct (decide (order_type o1 = LIMIT))|].
    - inv_ok Hstep1. inversion Hstep1; reflexivity.
    - inversion Hstep1; reflexivity.
    - inversion Hstep1; reflexivity. }
  destruct (0 <? remaining_quantity o1) eqn:Hrem.
  - apply Z.ltb_lt in Hrem.
    destruct (decide (order_type o1 = LIMIT)) as [Hl|Hl].
    + inv_ok Hstep1. inversion Hstep1; subst; clear Hstep1.
      right. left. repeat split; assumption.
    + inversion Hstep1; subst; clear Hstep1.
      right. right. repeat split; assumption.
  - apply Z.ltb_ge in Hrem. inversion Hstep1; subst; clear Hstep1.
    left. repeat split; assumption.
Qed.

(** ** Price priority *)





Lemma sorted_keys_cons key p l d :
  sorted_keys key ((p, l) :: d) = true ->
  (forall q lq, In (q, lq) d -> key p < key q) /\ sorted_keys key d = true.
Proof.
  simpl. intros H. apply andb_true_iff in H. destruct H as [Hall Hs].
  split; [|assumption]. intros q lq Hin.
  rewrite forallb_forall in Hall. specialize (Hall _ Hin). simpl in Hall. lia.
Qed.


Lemma book_of_get_or_create e sym :
  order_books (fst (get_or_create_order_book e sym)) !! sym = Some (book_of e sym).
Proof.
  destruct (get_or_create_spec e sym) as (-> & _). apply lookup_insert_eq.
Qed.

(** The trades returned by [process_order] are those of the matching loop
    run on the opposite side of the book of the symbol. *)
Lemma process_order_matching e o e' o' r :
  process_order pe qe e o = Ok (e', o', r) ->
  result_trades r = [] \/
  exists ea o1 d' idx',
    match_levels pe qe (fst (get_or_create_order_book e (symbol o))) o
      (OrderBook.levels (opposite (side o)) (book_of e (symbol o)))
      (OrderBook.order_index (book_of e (symbol o))) []
    = Ok (ea, o1, d', idx', result_trades r) /\
    result_remaining_quantity r = remaining_quantity o1.
Proof.
  intros H. apply process_order_Ok in H. cbv zeta in H.
  destruct H as [(_&_&_&_&Ht)|[(_&_&_&_&_&_&Ht&_)|(_&_&e1&o1&Hm&Hrem&_)]];
    [left; assumption|left; assumption|].
  right. apply match_order_Ok in Hm.
  destruct Hm as (f' & book & ea & d' & idx' & _ & Hb & Hm & _).
  rewrite book_of_get_or_create in Hb. inversion Hb; subst book.
  exists ea, o1, d', idx'. split; assumption.
Qed.


(** ** The stop orders *)

Lemma should_trigger_triggers o last b :
  should_trigger o last = Ok b -> b = triggers last o.
Proof.
  unfold should_trigger, triggers.
  destruct (order_type o), (stop_price o), (side o); simpl; intros H;
    inversion H; reflexivity.
Qed.

Lemma list_remove_middle {A} `{EqDecision A} (x : A) (kept rest : list A) :
  ~ In x kept -> list_remove x (kept ++ x :: rest) = Some (kept ++ rest).
Proof.
  induction kept as [|y kept IH]; simpl; intros Hn.
  - destruct (decide (x = x)); [reflexivity|contradiction].
  - destruct (decide (y = x)) as [->|_]; [exfalso; auto|].
    rewrite IH by auto. reflexivity.
Qed.

(** The first loop of [check_stop_orders] splits the pending list: the
    orders that trigger leave it, marked, in their order; the others stay,
    in their order. *)
Lemma scan_stop_orders_Ok last copy : forall kept trig pending' trig',
  Forall (fun y => triggers last y = false) kept ->
  scan_stop_orders copy last (kept ++ copy) trig = Ok (pending', trig') ->
  pending' = kept ++ List.filter (fun o => negb (triggers last o)) copy /\
  trig' = trig ++ map (fun o => set_is_triggered o true)
                      (List.filter (triggers last) copy).
Proof.
  induction copy as [|o copy IH]; intros kept trig pending' trig' Hkept H.
  - simpl in H. inversion H; subst. simpl. rewrite !app_nil_r. split; reflexivity.
  - simpl in H. inv_ok H. rename a into b.
    apply should_trigger_triggers in Hstep. subst b. simpl.
    destruct (triggers last o) eqn:Ht; simpl.
    + rewrite list_remove_middle in H.
      2:{ intros Hin. rewrite Forall_forall in Hkept.
          apply list_elem_of_In in Hin. specialize (Hkept _ Hin). congruence. }
      apply IH in H; [|assumption]. destruct H as [-> ->].
      split; [reflexivity|]. rewrite <- app_assoc. reflexivity.
    + replace (kept ++ o :: copy) with ((kept ++ [o]) ++ copy) in H
        by (rewrite <- app_assoc; reflexivity).
      apply IH in H.
      2:{ apply Forall_app; split; [assumption|]. constructor; [assumption|constructor]. }
      destruct H as [-> ->]. rewrite <- app_assoc. split; reflexivity.
Qed.

Lemma convert_triggered_converted o : convert_triggered o = converted o.
Proof.
  destruct o as [oid sym ty sd q pr ts rem st sp tr].
  unfold convert_triggered, converted. simpl.
  destruct ty; try reflexivity. destruct pr; reflexivity.
Qed.

(** ** Resting orders *)

Lemma levels_all_limit_spec d :
  levels_all_limit d = true <->
  forall kv o, In kv d -> In o (PriceLevel.orders (snd kv)) -> order_type o = LIMIT.
Proof.
  unfold levels_all_limit. rewrite forallb_forall. split.
  - intros H kv o Hkv Ho. specialize (H kv Hkv). rewrite forallb_forall in H.
    specialize (H o Ho). apply bool_decide_eq_true in H. exact H.
  - intros H kv Hkv. apply forallb_forall. intros o Ho.
    apply bool_decide_eq_true. eapply H; eassumption.
Qed.

Lemma fifo_fills_In p os ts os' :
  fifo_fills p os ts os' ->
  forall x, In x os' -> exists m, In m os /\ same_order m x.
Proof.
  induction 1 as [os|m os t ts os' Hp Hm Hq Hfull Hff IH|m os t Hp Hm Hq]; intros x Hx.
  - exists x. split; [assumption|apply same_order_refl].
  - destruct (IH x Hx) as (m' & Hin & Hso). exists m'. split; [right; assumption|assumption].
  - destruct Hx as [<-|Hx].
    + exists m. split; [left; reflexivity|].
      pose proof (filled_by_fields m (trade_quantity t)) as F.
      unfold same_order. intuition.
    + exists x. split; [right; assumption|apply same_order_refl].
Qed.

Lemma book_fills_In d ts d' :
  book_fills d ts d' ->
  forall kv x, In kv d' -> In x (PriceLevel.orders (snd kv)) ->
    exists kv0 m, In kv0 d /\ fst kv0 = fst kv /\
                  In m (PriceLevel.orders (snd kv0)) /\ same_order m x.
Proof.
  induction 1 as [d|p l d ts1 ts2 d' Hff Hbf IH|p l d ts os' total' Hff Hne]; intros kv x Hkv Hx.
  - exists kv, x. repeat split; try assumption.
  - destruct (IH kv x Hkv Hx) as (kv0 & m & Hin & Hk & Hm & Hso).
    exists kv0, m. split; [right; assumption|]. auto.
  - destruct Hkv as [<-|Hkv].
    + simpl in Hx. destruct (fifo_fills_In _ _ _ _ Hff x Hx) as (m & Hm & Hso).
      exists (p, l), m. split; [left; reflexivity|]. auto.
    + exists kv, x. split; [right; assumption|]. repeat split; try assumption.
Qed.

Lemma book_fills_all_limit d ts d' :
  book_fills d ts d' -> levels_all_limit d = true -> levels_all_limit d' = true.
Proof.
  intros Hbf Hd. rewrite levels_all_limit_spec in *. intros kv x Hkv Hx.
  destruct (book_fills_In _ _ _ Hbf kv x Hkv Hx) as (kv0 & m & Hin & _ & Hm & Hso).
  destruct Hso as (_&_&Hty&_). rewrite Hty. eapply Hd; eassumption.
Qed.

Lemma SortedDict_set_In key p l d kv :
  In kv (SortedDict.set key p l d) -> kv = (p, l) \/ In kv d.
Proof.
  induction d as [|[q m] d IH]; simpl.
  - intros [<-|[]]. left; reflexivity.
  - destruct (p =? q).
    + intros [<-|H]; [left; reflexivity|right; right; assumption].
    + destruct (key p <? key q).
      * intros [<-|H]; [left; reflexivity|right; assumption].
      * intros [<-|H]; [right; left; reflexivity|].
        destruct (IH H) as [->|H']; [left; reflexivity|right; right; assumption].
Qed.

Lemma SortedDict_get_In p d l : SortedDict.get p d = Some l -> In (p, l) d.
Proof.
  induction d as [|[q m] d IH]; simpl; [discriminate|].
  destruct (p =? q) eqn:E.
  - apply Z.eqb_eq in E. subst q. intros H; inversion H; subst. left; reflexivity.
  - intros H. right. auto.
Qed.

Lemma book_all_limit_spec b :
  book_all_limit b = true <-> forall x, rests_in b x -> order_type x = LIMIT.
Proof.
  unfold book_all_limit, rests_in. rewrite andb_true_iff, !levels_all_limit_spec. split.
  - intros [Hb Ha] x ([|] & kv & Hkv & Hx); simpl in Hkv; eauto.
  - intros H. split; intros kv o Hkv Ho; apply H.
    + exists BUY, kv. auto.
    + exists SELL, kv. auto.
Qed.

Lemma add_order_all_limit b o b' :
  OrderBook.add_order b o = Ok b' -> order_type o = LIMIT ->
  book_all_limit b = true -> book_all_limit b' = true.
Proof.
  unfold OrderBook.add_order. destruct (price o) as [p|]; [|discriminate].
  intros H Hty Hb. inversion H; subst b'; clear H.
  rewrite book_all_limit_spec in *. intros x (sd & kv & Hkv & Hx).
  destruct (decide (sd = side o)) as [->|Hsd].
  - assert (Hkv' : In kv (SortedDict.set (OrderBook.key_of (side o)) p
               (PriceLevel.add_order
                  match SortedDict.get p (OrderBook.levels (side o) b) with
                  | Some l => l | None => PriceLevel.new p end o)
               (OrderBook.levels (side o) b))).
    { destruct (side o); exact Hkv. }
    clear Hkv. apply SortedDict_set_In in Hkv'. destruct Hkv' as [->|Hkv'].
    + simpl in Hx. apply in_app_or in Hx. destruct Hx as [Hx|[<-|[]]]; [|assumption].
      destruct (SortedDict.get p (OrderBook.levels (side o) b)) as [l|] eqn:El; [|destruct Hx].
      apply Hb. exists (side o), (p, l). split; [apply SortedDict_get_In; assumption|assumption].
    + apply Hb. exists (side o), kv. auto.
  - apply Hb. exists sd, kv. split; [|assumption].
    destruct sd, (side o); try contradiction; exact Hkv.
Qed.

(** ** The invariant of a book *)

Lemma levels_consistent_cons p l d :
  levels_consistent ((p, l) :: d) = true ->
  PriceLevel.total_quantity l = sum_remaining (PriceLevel.orders l) /\
  levels_consistent d = true.
Proof.
  unfold levels_consistent. simpl. intros H. apply andb_true_iff in H.
  destruct H as [H1 H2]. apply Z.eqb_eq in H1. auto.
Qed.

Lemma levels_consistent_spec d :
  levels_consistent d = true <->
  forall kv, In kv d ->
    PriceLevel.total_quantity (snd kv) = sum_remaining (PriceLevel.orders (snd kv)).
Proof.
  unfold levels_consistent. rewrite forallb_forall. split.
  - intros H kv Hkv. apply Z.eqb_eq. auto.
  - intros H kv Hkv. apply Z.eqb_eq. auto.
Qed.

Lemma sorted_keys_spec key d :
  sorted_keys key d = true <->
  forall i j kv1 kv2, (i < j)%nat -> d !! i = Some kv1 -> d !! j = Some kv2 ->
    key (fst kv1) < key (fst kv2).
Proof.
  induction d as [|[p l] d IH]; simpl.
  - split; [intros _ i j kv1 kv2 _ H; discriminate|reflexivity].
  - rewrite andb_true_iff, forallb_forall, IH. split.
    + intros [Hhd Htl] i j kv1 kv2 Hij H1 H2.
      destruct j as [|j]; [lia|]. simpl in H2.
      destruct i as [|i]; simpl in H1.
      * inversion H1; subst kv1. simpl.
        assert (Hin : In kv2 d).
        { apply list_elem_of_In, list_elem_of_lookup. eauto. }
        specialize (Hhd _ Hin). lia.
      * eapply Htl; [|eassumption..]. lia.
    + intros H. split.
      * intros kv Hin. apply list_elem_of_In, list_elem_of_lookup in Hin.
        destruct Hin as [j Hj]. apply Z.ltb_lt.
        exact (H 0%nat (S j) (p, l) kv ltac:(lia) eq_refl Hj).
      * intros i j kv1 kv2 Hij H1 H2.
        exact (H (S i) (S j) kv1 kv2 ltac:(lia) H1 H2).
Qed.

(** What is left in a queue whose orders fit the precision. *)
Lemma fifo_fills_sum_rest p os ts os' :
  fifo_fills p os ts os' ->
  Forall (fun m => within_precision (remaining_quantity m)) os ->
  sum_remaining os' = sum_remaining os - sum_qty ts.
Proof.
  induction 1 as [os|m os t ts os' Hp Hm Hq Hfull Hff IH|m os t Hp Hm Hq];
    intros Hw; simpl.
  - lia.
  - apply Forall_cons in Hw. destruct Hw as [_ Hw]. specialize (IH Hw). lia.
  - apply Forall_cons in Hw. destruct Hw as [Hw _].
    pose proof (filled_by_fields m (trade_quantity t)) as F.
    destruct F as (_&_&_&_&_&_&_&Hr&_). rewrite Hr.
    rewrite minus_exact by (assumption || lia). lia.
Qed.

Lemma book_fills_sorted key d ts d' :
  book_fills d ts d' -> sorted_keys key d = true -> sorted_keys key d' = true.
Proof.
  induction 1 as [d|p l d ts1 ts2 d' Hff Hbf IH|p l d ts os' total' Hff Hne]; intros H.
  - exact H.
  - simpl in H. apply andb_true_iff in H. destruct H as [_ H]. auto.
  - exact H.
Qed.

Lemma levels_positive_spec d :
  levels_positive d = true <->
  forall kv o, In kv d -> In o (PriceLevel.orders (snd kv)) -> 0 < remaining_quantity o.
Proof.
  unfold levels_positive. rewrite forallb_forall. split.
  - intros H kv o Hkv Ho. specialize (H kv Hkv). rewrite forallb_forall in H.
    apply Z.ltb_lt. auto.
  - intros H kv Hkv. apply forallb_forall. intros o Ho.
    apply Z.ltb_lt. eapply H; eassumption.
Qed.

Lemma fifo_fills_positive p os ts os' :
  fifo_fills p os ts os' ->
  Forall (fun o => 0 < remaining_quantity o) os ->
  Forall (fun o => 0 < remaining_quantity o) os'.
Proof.
  induction 1 as [os|m os t ts os' Hp Hm Hq Hfull Hff IH|m os t Hp Hm Hq]; intros H.
  - exact H.
  - apply Forall_cons in H. destruct H as [_ H]. auto.
  - apply Forall_cons in H. destruct H as [_ H]. constructor; [|exact H].
    pose proof (filled_by_fields m (trade_quantity t)) as F.
    destruct F as (_&_&_&_&_&_&_&Hr&_). rewrite Hr. apply minus_pos. lia.
Qed.

Lemma book_fills_positive d ts d' :
  book_fills d ts d' -> levels_positive d = true -> levels_positive d' = true.
Proof.
  induction 1 as [d|p l d ts1 ts2 d' Hff Hbf IH|p l d ts os' total' Hff Hne]; intros H.
  - exact H.
  - unfold levels_positive in H. simpl in H. apply andb_true_iff in H.
    destruct H as [_ H]. auto.
  - unfold levels_positive in *. simpl in *. apply andb_true_iff in H.
    destruct H as [Hl H]. rewrite H, andb_true_r.
    rewrite forallb_forall in Hl. apply forallb_forall. intros x Hx.
    assert (HF : Forall (fun o => 0 < remaining_quantity o) (PriceLevel.orders l)).
    { apply Forall_forall. intros y Hy. apply list_elem_of_In in Hy.
      apply Z.ltb_lt. auto. }
    pose proof (fifo_fills_positive _ _ _ _ Hff HF) as HF'.
    rewrite Forall_forall in HF'. apply Z.ltb_lt. apply HF'.
    apply list_elem_of_In. exact Hx.
Qed.

Lemma book_fills_levels_ok sd d ts d' :
  book_fills d ts d' -> levels_ok sd d = true -> levels_ok sd d' = true.
Proof.
  unfold levels_ok. rewrite !andb_true_iff. intros Hbf [[H2 H3] H4].
  split; [split|].
  - eapply book_fills_sorted; eassumption.
  - eapply book_fills_all_limit; eassumption.
  - eapply book_fills_positive; eassumption.
Qed.

Lemma key_of_inj sd a b : OrderBook.key_of sd a = OrderBook.key_of sd b -> a = b.
Proof. destruct sd; simpl; lia. Qed.

Lemma SortedDict_set_sorted sd p l d :
  sorted_keys (OrderBook.key_of sd) d = true ->
  sorted_keys (OrderBook.key_of sd) (SortedDict.set (OrderBook.key_of sd) p l d) = true.
Proof.
  set (key := OrderBook.key_of sd).
  induction d as [|[q m] d IH]; simpl; [reflexivity|].
  intros H. apply andb_true_iff in H. destruct H as [Hhd Htl].
  rewrite forallb_forall in Hhd.
  destruct (p =? q) eqn:Epq.
  - apply Z.eqb_eq in Epq. subst q. simpl. rewrite Htl, andb_true_r.
    apply forallb_forall. exact Hhd.
  - apply Z.eqb_neq in Epq. destruct (key p <? key q) eqn:Elt.
    + apply Z.ltb_lt in Elt. simpl. rewrite Htl, andb_true_r.
      rewrite andb_true_iff. split; [|apply forallb_forall; exact Hhd].
      rewrite andb_true_iff. split; [apply Z.ltb_lt; exact Elt|].
      apply forallb_forall. intros kv Hin. specialize (Hhd _ Hin).
      apply Z.ltb_lt in Hhd. apply Z.ltb_lt. lia.
    + apply Z.ltb_ge in Elt.
      assert (Hqp : key q < key p).
      { destruct (Z.eq_dec (key q) (key p)) as [E|E]; [|lia].
        apply key_of_inj in E. congruence. }
      simpl. rewrite (IH Htl), andb_true_r.
      apply forallb_forall. intros kv Hin.
      apply SortedDict_set_In in Hin. destruct Hin as [->|Hin].
      * simpl. apply Z.ltb_lt. exact Hqp.
      * apply Hhd. exact Hin.
Qed.

Lemma SortedDict_del_In p d kv : In kv (SortedDict.del p d) -> In kv d.
Proof.
  induction d as [|[q m] d IH]; simpl; [tauto|].
  destruct (p =? q); [auto|]. intros [<-|H]; auto.
Qed.

Lemma SortedDict_del_sorted key p d :
  sorted_keys key d = true -> sorted_keys key (SortedDict.del p d) = true.
Proof.
  induction d as [|[q m] d IH]; simpl; [reflexivity|].
  intros H. apply andb_true_iff in H. destruct H as [Hhd Htl].
  destruct (p =? q); [exact Htl|]. simpl. rewrite (IH Htl), andb_true_r.
  rewrite forallb_forall in *. intros kv Hin. apply Hhd.
  eapply SortedDict_del_In; eassumption.
Qed.

Lemma levels_ok_spec sd d :
  levels_ok sd d = true <->
  sorted_keys (OrderBook.key_of sd) d = true /\
  forall kv, In kv d ->
    forall o, In o (PriceLevel.orders (snd kv)) ->
              order_type o = LIMIT /\ 0 < remaining_quantity o.
Proof.
  unfold levels_ok.
  rewrite !andb_true_iff, levels_all_limit_spec, levels_positive_spec.
  split.
  - intros [[H2 H3] H4]. split; [assumption|]. intros kv Hkv o Ho. split; eauto.
  - intros [H2 H]. split; [split|]; [assumption| |].
    + intros kv o Hkv Ho. eapply H; eassumption.
    + intros kv o Hkv Ho. eapply H; eassumption.
Qed.

Lemma SortedDict_set_levels_ok sd p l d :
  levels_ok sd d = true ->
  (forall o, In o (PriceLevel.orders l) ->
             order_type o = LIMIT /\ 0 < remaining_quantity o) ->
  levels_ok sd (SortedDict.set (OrderBook.key_of sd) p l d) = true.
Proof.
  rewrite !levels_ok_spec. intros [Hs H] Hl2. split.
  - apply SortedDict_set_sorted. assumption.
  - intros kv Hkv. apply SortedDict_set_In in Hkv.
    destruct Hkv as [->|Hkv]; [exact Hl2|apply H; assumption].
Qed.

Lemma SortedDict_del_levels_ok sd p d :
  levels_ok sd d = true -> levels_ok sd (SortedDict.del p d) = true.
Proof.
  rewrite !levels_ok_spec. intros [Hs H]. split.
  - apply SortedDict_del_sorted. assumption.
  - intros kv Hkv. apply H. eapply SortedDict_del_In; eassumption.
Qed.

Lemma levels_ok_get sd d p l :
  levels_ok sd d = true -> SortedDict.get p d = Some l ->
  forall o, In o (PriceLevel.orders l) ->
            order_type o = LIMIT /\ 0 < remaining_quantity o.
Proof.
  rewrite levels_ok_spec. intros [_ H] Hg. apply SortedDict_get_In in Hg.
  exact (H _ Hg).
Qed.

Lemma set_levels_book_ok sd d b :
  book_ok b = true -> levels_ok sd d = true ->
  book_ok (OrderBook.set_levels sd d b) = true.
Proof.
  unfold book_ok. rewrite !andb_true_iff. intros [HB HA] Hd.
  destruct sd; simpl; auto.
Qed.

Lemma book_ok_levels sd b : book_ok b = true -> levels_ok sd (OrderBook.levels sd b) = true.
Proof.
  unfold book_ok. rewrite andb_true_iff. intros [HB HA]. destruct sd; assumption.
Qed.

Lemma add_order_book_ok b o b' :
  OrderBook.add_order b o = Ok b' -> order_type o = LIMIT ->
  0 < remaining_quantity o ->
  book_ok b = true -> book_ok b' = true.
Proof.
  unfold OrderBook.add_order. destruct (price o) as [p|]; [|discriminate].
  intros H Hty Hpos Hb. inversion H; subst b'; clear H.
  change (book_ok (OrderBook.set_levels (side o)
            (SortedDict.set (OrderBook.key_of (side o)) p
               (PriceLevel.add_order
                  match SortedDict.get p (OrderBook.levels (side o) b) with
                  | Some l => l | None => PriceLevel.new p end o)
               (OrderBook.levels (side o) b)) b) = true).
  apply set_levels_book_ok; [assumption|].
  pose proof (book_ok_levels (side o) b Hb) as Hl.
  apply SortedDict_set_levels_ok; [assumption|].
  simpl. intros x Hx. apply in_app_or in Hx.
  destruct Hx as [Hx|[<-|[]]]; [|split; assumption].
  destruct (SortedDict.get p (OrderBook.levels (side o) b)) as [l|] eqn:El; [|destruct Hx].
  exact (levels_ok_get _ _ _ _ Hl El _ Hx).
Qed.

Lemma list_remove_Some {A} `{EqDecision A} (x : A) l l' :
  list_remove x l = Some l' ->
  exists l1 l2, l = l1 ++ x :: l2 /\ l' = l1 ++ l2.
Proof.
  revert l'. induction l as [|y l IH]; simpl; intros l' H; [discriminate|].
  destruct (decide (y = x)) as [->|Hne].
  - inversion H; subst. exists [], l'. split; reflexivity.
  - destruct (list_remove x l) as [l0|]; [|discriminate]. simpl in H.
    inversion H; subst l'. destruct (IH l0 eq_refl) as (l1 & l2 & -> & ->).
    exists (y :: l1), l2. split; reflexivity.
Qed.

Lemma remove_order_book_ok b oid b' o :
  OrderBook.remove_order b oid = Ok (b', o) ->
  book_ok b = true -> book_ok b' = true.
Proof.
  unfold OrderBook.remove_order.
  destruct (OrderBook.order_index b !! oid) as [[order sd]|]; [|discriminate].
  destruct (price order) as [p|]; [|discriminate].
  destruct (SortedDict.get p (OrderBook.levels sd b)) as [l|] eqn:El; [|discriminate].
  intros H Hb. inv_ok H. rename a into l'. inversion H; subst b' o; clear H.
  pose proof (book_ok_levels sd b Hb) as Hl.
  pose proof (levels_ok_get _ _ _ _ Hl El) as Hlim.
  unfold PriceLevel.remove_order in Hstep.
  destruct (list_remove order (PriceLevel.orders l)) as [os|] eqn:Er; [|discriminate].
  inversion Hstep; subst l'; clear Hstep.
  apply list_remove_Some in Er. destruct Er as (l1 & l2 & E1 & ->).
  match goal with
  | |- book_ok (OrderBook.set_order_index _ (OrderBook.set_levels sd ?d b)) = true =>
      change (book_ok (OrderBook.set_levels sd d b) = true)
  end.
  apply set_levels_book_ok; [assumption|].
  destruct (PriceLevel.is_empty _).
  - apply SortedDict_del_levels_ok. assumption.
  - apply SortedDict_set_levels_ok; [assumption|]; simpl.
    intros x Hx. apply Hlim. rewrite E1. apply in_app_or in Hx.
    apply in_or_app. destruct Hx; [left|right; right]; assumption.
Qed.

(** ** What a cascade may change *)


Lemma cascade_ok_refl sym e : cascade_ok sym e e.
Proof. unfold cascade_ok, same_config. repeat split; auto. Qed.

Lemma cascade_ok_trans sym e1 e2 e3 :
  cascade_ok sym e1 e2 -> cascade_ok sym e2 e3 -> cascade_ok sym e1 e3.
Proof.
  intros (A1&B1&C1&D1&(E1&E1')&F1&G1&H1&I1) (A2&B2&C2&D2&(E2&E2')&F2&G2&H2&I2).
  unfold cascade_ok, same_config. repeat split; intros; try congruence; auto.
  - rewrite A2, A1; auto.
  - rewrite B2, B1; auto.
  - lia.
Qed.

Lemma cascade_ok_keyed sym e e' :
  stops_keyed e -> cascade_ok sym e e' -> stops_keyed e'.
Proof.
  intros Hk (_&B&C&_) s pending x Hs Hin.
  destruct (decide (s = sym)) as [->|Hne].
  - assert (Hx : In x (pending_of e sym)).
    { apply C. unfold pending_of. rewrite Hs. exact Hin. }
    unfold pending_of in Hx.
    destruct (stop_orders e !! sym) as [p0|] eqn:E0; [|destruct Hx].
    eapply Hk; eassumption.
  - rewrite B in Hs by assumption. eapply Hk; eassumption.
Qed.


Lemma book_of_insert e sym b m :
  order_books e = <[sym := b]> m -> book_of e sym = b.
Proof. intros H. unfold book_of. rewrite H, lookup_insert_eq. reflexivity. Qed.

Lemma write_back_cascade e e1 bk book sd ts d' idx' :
  only_counter e e1 ->
  order_books e !! bk = Some book ->
  book_fills (OrderBook.levels sd book) ts d' ->
  cascade_ok bk e (write_back e1 bk book sd d' idx').
Proof.
  intros (Hb & Hs & Hf & Hc & Hi) Hbook Hbf.
  unfold cascade_ok, write_back, same_config, pending_of. simpl.
  rewrite Hs. split; [|split; [|split; [|split; [|split; [|split]]]]]; auto.
  - intros s Hne. rewrite lookup_insert_ne by congruence. rewrite Hb. reflexivity.
  - unfold book_of. simpl. rewrite lookup_insert_eq, Hbook. simpl. split.
    + unfold book_all_limit. rewrite !andb_true_iff. intros [HB HA].
      destruct sd; simpl in *; split; try assumption;
        eapply book_fills_all_limit; eassumption.
    + intros Hok.
      change (book_ok (OrderBook.set_levels sd d' book) = true).
      apply set_levels_book_ok; [assumption|].
      eapply book_fills_levels_ok; [eassumption|]. apply book_ok_levels. assumption.
  - intros _. rewrite lookup_insert_eq. eauto.
Qed.

Lemma with_pending_cascade e sym pending' :
  (forall x, In x pending' -> In x (pending_of e sym)) ->
  (length pending' <= length (pending_of e sym))%nat ->
  cascade_ok sym e (with_pending e sym pending').
Proof.
  intros Hsub Hlen. unfold cascade_ok, with_pending, same_config, pending_of, book_of.
  simpl. rewrite lookup_insert_eq. simpl.
  split; [|split; [|split; [|split; [|split; [|split]]]]]; auto.
  intros s Hne. rewrite lookup_insert_ne by congruence. reflexivity.
Qed.

Lemma get_or_create_cascade e sym :
  cascade_ok sym e (fst (get_or_create_order_book e sym)) /\
  is_Some (order_books (fst (get_or_create_order_book e sym)) !! sym).
Proof.
  destruct (get_or_create_spec e sym) as (Hb & _ & Hs & _ & Hc).
  split; [|rewrite book_of_get_or_create; eauto].
  unfold cascade_ok, pending_of. rewrite Hs.
  split; [|split; [|split; [|split; [|split; [|split]]]]]; auto.
  - intros s Hne. rewrite Hb, lookup_insert_ne by congruence. reflexivity.
  - rewrite (book_of_insert _ _ _ _ Hb). auto.
  - intros _. rewrite book_of_get_or_create. eauto.
Qed.

Lemma add_to_book_cascade e o sym e' :
  add_to_book e o sym = Ok e' -> order_type o = LIMIT -> 0 < remaining_quantity o ->
  cascade_ok sym e e'.
Proof.
  unfold add_to_book. destruct (order_books e !! sym) as [book|] eqn:Hb; [|discriminate].
  intros H Hty Hpos. inv_ok H. rename a into book'. inversion H; subst e'; clear H.
  unfold cascade_ok, same_config, pending_of, book_of. simpl.
  rewrite lookup_insert_eq, Hb. simpl.
  split; [|split; [|split; [|split; [|split; [|split]]]]]; auto.
  - intros s Hne. rewrite lookup_insert_ne by congruence. reflexivity.
  - split; intros Hall;
      [eapply add_order_all_limit|eapply add_order_book_ok]; eassumption.
Qed.

Lemma convert_triggered_symbol t : symbol (convert_triggered t) = symbol t.
Proof.
  unfold convert_triggered. destruct (order_type t); try reflexivity.
  simpl. destruct (price t); reflexivity.
Qed.

Lemma process_triggered_cascade (matcher : Matcher) sym :
  (forall e o e' o' ts,
     stops_keyed e -> symbol o = sym -> matcher e o sym = Ok (e', o', ts) ->
     cascade_ok sym e e' /\ same_order o o') ->
  forall trig e e',
    stops_keyed e -> Forall (fun t => symbol t = sym) trig ->
    process_triggered matcher e trig = Ok e' -> cascade_ok sym e e'.
Proof.
  intros Hm. induction trig as [|t trig IH]; intros e e' Hk Hsym H.
  - simpl in H. inversion H; subst. apply cascade_ok_refl.
  - simpl in H. apply Forall_cons in Hsym. destruct Hsym as [Ht Hsym].
    rewrite convert_triggered_symbol, Ht in H.
    destruct (get_or_create_cascade e sym) as [Hgc _].
    destruct (get_or_create_order_book e sym) as [e0 b0]. simpl in Hgc.
    inv_ok H. destruct a as [[e1 t1] ts1].
    assert (Hk0 : stops_keyed e0) by (eapply cascade_ok_keyed; eassumption).
    destruct (Hm _ _ _ _ _ Hk0 (eq_trans (convert_triggered_symbol t) Ht) Hstep)
      as [Hc1 Hso1].
    assert (Hk1 : stops_keyed e1) by (eapply cascade_ok_keyed; eassumption).
    inv_ok H. rename a into e2.
    assert (Hc2 : cascade_ok sym e1 e2).
    { destruct ((0 <? remaining_quantity t1) && can_rest_on_book t1) eqn:Hrest.
      - apply andb_true_iff in Hrest. destruct Hrest as [Hp Hl].
        apply bool_decide_eq_true in Hl. apply Z.ltb_lt in Hp.
        eapply add_to_book_cascade; eassumption.
      - inversion Hstep0; subst. apply cascade_ok_refl. }
    assert (Hk2 : stops_keyed e2) by (eapply cascade_ok_keyed; eassumption).
    specialize (IH _ _ Hk2 Hsym H).
    eapply cascade_ok_trans; [exact Hgc|].
    eapply cascade_ok_trans; [exact Hc1|].
    eapply cascade_ok_trans; [exact Hc2|exact IH].
Qed.

Lemma filter_length_le {A} (f : A -> bool) (l : list A) :
  (length (List.filter f l) <= length l)%nat.
Proof. induction l as [|x l IH]; simpl; [lia|]. destruct (f x); simpl; lia. Qed.

Lemma check_stop_orders_cascade (matcher : Matcher) sym e last e' :
  (forall e o e' o' ts,
     stops_keyed e -> symbol o = sym -> matcher e o sym = Ok (e', o', ts) ->
     cascade_ok sym e e' /\ same_order o o') ->
  stops_keyed e ->
  check_stop_orders_with matcher e sym last = Ok e' ->
  cascade_ok sym e e'.
Proof.
  intros Hm Hk H. unfold check_stop_orders_with in H.
  destruct (stop_orders e !! sym) as [pending|] eqn:Hp.
  2:{ inversion H; subst. apply cascade_ok_refl. }
  inv_ok H. destruct a as [pending' trig].
  apply (scan_stop_orders_Ok last pending [] []) in Hstep; [|constructor].
  simpl in Hstep. destruct Hstep as [-> ->].
  fold (with_pending e sym (List.filter (fun o => negb (triggers last o)) pending)) in H.
  assert (Hc : cascade_ok sym e
            (with_pending e sym (List.filter (fun o => negb (triggers last o)) pending))).
  { apply with_pending_cascade; unfold pending_of; rewrite Hp; simpl.
    - intros x Hx. apply filter_In in Hx. apply Hx.
    - apply filter_length_le. }
  eapply cascade_ok_trans; [exact Hc|].
  eapply process_triggered_cascade; [exact Hm| |  |exact H].
  - eapply cascade_ok_keyed; eassumption.
  - apply Forall_forall. intros x Hx. apply list_elem_of_In in Hx.
    apply in_map_iff in Hx. destruct Hx as (y & <- & Hy). simpl.
    apply filter_In in Hy. destruct Hy as [Hy _]. eapply Hk; eassumption.
Qed.

(** A call of [match_order] stays within the symbol of its order. *)
Lemma match_order_cascade f : forall e o e' o' ts,
  stops_keyed e ->
  match_order pe qe f e o (symbol o) = Ok (e', o', ts) ->
  cascade_ok (symbol o) e e'.
Proof.
  induction f as [|f IH]; intros e o e' o' ts Hk H.
  - discriminate.
  - pose proof (match_order_same_order _ _ _ _ _ _ _ H) as Hso.
    apply match_order_Ok in H.
    destruct H as (f' & book & e1 & d' & idx' & Hf & Hb & Hm & Hc).
    inversion Hf; subst f'; clear Hf.
    apply match_levels_Ok in Hm.
    destruct Hm as (new & _ & Hbf & _ & _ & _ & _ & _ & _ & Hoc & _).
    pose proof (write_back_cascade _ _ _ _ _ _ _ idx' Hoc Hb Hbf) as Hwb.
    destruct (last ts) as [t|].
    + eapply cascade_ok_trans; [exact Hwb|].
      destruct Hso as (_&Hsym&_). rewrite Hsym in Hc.
      eapply check_stop_orders_cascade; [| |exact Hc].
      * intros e2 o2 e2' o2' ts2 Hk2 Hs2 H2. rewrite <- Hs2 in H2. split.
        -- rewrite <- Hs2. eapply IH; eassumption.
        -- eapply match_order_same_order; eassumption.
      * eapply cascade_ok_keyed; eassumption.
    + inversion Hc; subst. exact Hwb.
Qed.

(** ** Frame and termination *)

Lemma process_order_cascade e o e' o' r :
  stops_keyed e ->
  process_order pe qe e o = Ok (e', o', r) ->
  (forall s, s <> symbol o ->
     order_books e' !! s = order_books e !! s /\
     stop_orders e' !! s = stop_orders e !! s) /\
  stops_keyed e' /\
  (is_stop_type (order_type o) = false ->
     cascade_ok (symbol o) (fst (get_or_create_order_book e (symbol o))) e').
Proof.
  intros Hk H. apply process_order_Ok in H. cbv zeta in H.
  destruct (get_or_create_cascade e (symbol o)) as [Hgc _].
  set (e0 := fst (get_or_create_order_book e (symbol o))) in *.
  assert (Hk0 : stops_keyed e0) by (eapply cascade_ok_keyed; eassumption).
  destruct H as [(Hst&->&_)|[(Hst&_&_&->&_)|(Hst&_&e1&o1&Hm&_&Hso&Hcases)]].
  - split; [|split; [|congruence]].
    + intros s Hne. destruct Hgc as (A&B&_). simpl.
      rewrite lookup_insert_ne by congruence. split; [apply A|apply B]; assumption.
    + intros s pending x Hs Hin. simpl in Hs.
      destruct (decide (s = symbol o)) as [->|Hne].
      * rewrite lookup_insert_eq in Hs. inversion Hs; subst pending.
        apply in_app_or in Hin. destruct Hin as [Hin|[<-|[]]]; [|reflexivity].
        unfold pending_of in Hin.
        destruct (stop_orders e !! symbol o) as [p0|] eqn:E0; [|destruct Hin].
        eapply Hk; eassumption.
      * rewrite lookup_insert_ne in Hs by congruence. eapply Hk0; eassumption.
  - split; [|split; [assumption|intros _; apply cascade_ok_refl]].
    intros s Hne. destruct Hgc as (A&B&_). split; [apply A|apply B]; assumption.
  - assert (Hc1 : cascade_ok (symbol o) e0 e1) by (eapply match_order_cascade; eassumption).
    assert (Hc : cascade_ok (symbol o) e0 e').
    { destruct Hcases as [(_&->&_)|[(Hpos&Hl&Hadd&_)|(_&_&->&_)]]; try assumption.
      eapply cascade_ok_trans; [exact Hc1|].
      eapply add_to_book_cascade; eassumption. }
    pose proof (cascade_ok_trans _ _ _ _ Hgc Hc) as Hc'.
    split; [|split; [eapply cascade_ok_keyed; eassumption|intros _; assumption]].
    intros s Hne. destruct Hc' as (A&B&_). split; [apply A|apply B]; assumption.
Qed.

(** C9. Frame: [process_order] on an order of symbol S and
    [cancel_order(order_id, S)] leave the order book and the pending stop
    list of every other symbol as they were. *)
Theorem other_symbols_unchanged e :
  stops_keyed e ->
  (forall o e' o' r,
     process_order pe qe e o = Ok (e', o', r) ->
     forall s, s <> symbol o ->
       order_books e' !! s = order_books e !! s /\
       stop_orders e' !! s = stop_orders e !! s) /\
  (forall oid sym e' b,
     cancel_order e oid sym = Ok (e', b) ->
     forall s, s <> sym ->
       order_books e' !! s = order_books e !! s /\
       stop_orders e' !! s = stop_orders e !! s).
Proof.
  intros Hk. split.
  - intros o e' o' r H. exact (proj1 (process_order_cascade _ _ _ _ _ Hk H)).
  - intros oid sym e' b H s Hne. unfold cancel_order in H.
    destruct (order_books e !! sym) as [book|]; [|inversion H; subst; auto].
    destruct (negb (OrderBook.has_order book oid)); [inversion H; subst; auto|].
    inv_ok H. destruct a as [book' order]. inversion H; subst; clear H. simpl.
    rewrite lookup_insert_ne by congruence. auto.
Qed.

Lemma should_trigger_not_NoFuel o last : should_trigger o last <> NoFuel.
Proof.
  unfold should_trigger. destruct (is_stop_type _); [|discriminate].
  destruct (stop_price o); [|discriminate].
  destruct (order_type o), (side o); discriminate.
Qed.

Lemma scan_stop_orders_not_NoFuel last copy : forall pending trig,
  scan_stop_orders copy last pending trig <> NoFuel.
Proof.
  induction copy as [|o copy IH]; intros pending trig; simpl; [discriminate|].
  intros H. apply bind_NoFuel in H. destruct H as [H|(b & _ & H)].
  - exact (should_trigger_not_NoFuel _ _ H).
  - destruct b; [|exact (IH _ _ H)].
    destruct (list_remove o pending); [exact (IH _ _ H)|discriminate].
Qed.

Lemma add_to_book_not_NoFuel e o sym : add_to_book e o sym <> NoFuel.
Proof.
  unfold add_to_book, OrderBook.add_order.
  destruct (order_books e !! sym); [|discriminate].
  destruct (price o); simpl; discriminate.
Qed.

Lemma filter_split_length {A} (f : A -> bool) (l : list A) :
  (length (List.filter (fun x => negb (f x)) l) + length (List.filter f l)
   = length l)%nat.
Proof. induction l as [|x l IH]; simpl; [lia|]. destruct (f x); simpl; lia. Qed.

Lemma process_triggered_not_NoFuel f sym :
  (forall e o, stops_keyed e -> (length (pending_of e (symbol o)) < f)%nat ->
               match_order pe qe f e o (symbol o) <> NoFuel) ->
  forall trig e,
    stops_keyed e -> Forall (fun t => symbol t = sym) trig ->
    (length (pending_of e sym) < f)%nat ->
    process_triggered (match_order pe qe f) e trig <> NoFuel.
Proof.
  intros Hm. induction trig as [|t trig IH]; intros e Hk Hsym Hlen; simpl; [discriminate|].
  apply Forall_cons in Hsym. destruct Hsym as [Ht Hsym].
  pose proof (convert_triggered_symbol t) as Hcs.
  destruct (get_or_create_cascade e (symbol (convert_triggered t))) as [Hgc _].
  destruct (get_or_create_order_book e (symbol (convert_triggered t))) as [e0 b0].
  simpl in Hgc. rewrite Hcs, Ht in Hgc.
  assert (Hk0 : stops_keyed e0) by (eapply cascade_ok_keyed; eassumption).
  assert (Hl0 : (length (pending_of e0 sym) < f)%nat).
  { destruct Hgc as (_&_&_&D&_). lia. }
  intros H. apply bind_NoFuel in H. destruct H as [H|(a & Ha & H)].
  - revert H. apply Hm; [assumption|]. rewrite Hcs, Ht. assumption.
  - destruct a as [[e1 t1] ts1].
    pose proof (match_order_same_order _ _ _ _ _ _ _ Ha) as Hso.
    pose proof (match_order_cascade _ _ _ _ _ _ Hk0 Ha) as Hc1.
    rewrite Hcs, Ht in Hc1.
    assert (Hk1 : stops_keyed e1) by (eapply cascade_ok_keyed; eassumption).
    apply bind_NoFuel in H. destruct H as [H|(e2 & He2 & H)].
    + destruct (_ && _); [exact (add_to_book_not_NoFuel _ _ _ H)|discriminate].
    + assert (Hc2 : cascade_ok sym e1 e2).
      { destruct ((0 <? remaining_quantity t1) && can_rest_on_book t1) eqn:Hrest.
        - apply andb_true_iff in Hrest. destruct Hrest as [Hp Hl].
          apply bool_decide_eq_true in Hl. apply Z.ltb_lt in Hp.
          rewrite Hcs, Ht in He2.
          eapply add_to_book_cascade; eassumption.
        - inversion He2; subst. apply cascade_ok_refl. }
      revert H. apply IH; [eapply cascade_ok_keyed; eassumption|assumption|].
      destruct Hc1 as (_&_&_&D1&_). destruct Hc2 as (_&_&_&D2&_). lia.
Qed.

Lemma match_order_not_NoFuel f : forall e o,
  stops_keyed e -> (length (pending_of e (symbol o)) < f)%nat ->
  match_order pe qe f e o (symbol o) <> NoFuel.
Proof.
  induction f as [|f IH]; intros e o Hk Hlen; [lia|].
  simpl. destruct (order_books e !! symbol o) as [book|] eqn:Hb; [|discriminate].
  intros H. apply bind_NoFuel in H. destruct H as [H|(a & Ha & H)].
  { exact (match_levels_not_NoFuel _ _ _ _ _ H). }
  destruct a as [[[[e1 o1] d'] idx'] ts].
  apply bind_NoFuel in H. destruct H as [H|(e2 & _ & H)]; [|discriminate].
  apply match_levels_Ok in Ha.
  destruct Ha as (new & _ & Hbf & _ & _ & _ & _ & _ & Hso & Hoc & _).
  pose proof (write_back_cascade _ _ _ _ _ _ _ idx' Hoc Hb Hbf) as Hwb.
  fold (write_back e1 (symbol o) book (opposite (side o)) d' idx') in H.
  set (e2 := write_back e1 (symbol o) book (opposite (side o)) d' idx') in *.
  destruct (last ts) as [t|]; [|discriminate].
  destruct Hso as (_&Hsym&_). rewrite Hsym in H.
  unfold check_stop_orders_with in H.
  destruct (stop_orders e2 !! symbol o) as [pending|] eqn:Hp; [|discriminate].
  apply bind_NoFuel in H. destruct H as [H|(a & Ha & H)].
  { exact (scan_stop_orders_not_NoFuel _ _ _ _ H). }
  destruct a as [pending' trig].
  apply (scan_stop_orders_Ok (trade_price t) pending [] []) in Ha; [|constructor].
  simpl in Ha. destruct Ha as [-> ->].
  assert (Hk2 : stops_keyed e2) by (eapply cascade_ok_keyed; eassumption).
  assert (Hlen2 : (length pending < S f)%nat).
  { destruct Hwb as (_&_&_&D&_). unfold pending_of in D at 1. rewrite Hp in D.
    simpl in D. lia. }
  fold (with_pending e2 (symbol o)
          (List.filter (fun o0 => negb (triggers (trade_price t) o0)) pending)) in H.
  pose proof (filter_split_length (triggers (trade_price t)) pending) as Hsplit.
  destruct (List.filter (triggers (trade_price t)) pending) as [|t0 trig0] eqn:Htrig.
  { simpl in H. discriminate. }
  revert H. apply (process_triggered_not_NoFuel f (symbol o)).
  - exact IH.
  - eapply cascade_ok_keyed; [exact Hk2|].
    apply with_pending_cascade; unfold pending_of; rewrite Hp; simpl.
    + intros x Hx. apply filter_In in Hx. apply Hx.
    + apply filter_length_le.
  - apply Forall_forall. intros x Hx. apply list_elem_of_In in Hx.
    apply in_map_iff in Hx. destruct Hx as (y & <- & Hy). simpl.
    rewrite <- Htrig in Hy. apply filter_In in Hy. destruct Hy as [Hy _].
    eapply Hk2; eassumption.
  - unfold pending_of, with_pending. simpl. rewrite lookup_insert_eq. simpl.
    simpl in Hsplit. lia.
Qed.

(** X24. [process_order] terminates: on an engine whose pending stop
    orders are filed under their own symbol, the recursion through
    [match_order] and [check_stop_orders] is bounded by the number of
    pending stop orders, so the call returns or raises. *)
Theorem process_order_fuel_enough e o :
  stops_keyed e -> process_order pe qe e o <> NoFuel.
Proof.
  intros Hk. unfold process_order.
  destruct (get_or_create_cascade e (symbol o)) as [Hgc _].
  destruct (get_or_create_order_book e (symbol o)) as [e0 book]. simpl in Hgc.
  destruct (is_stop_type _); [discriminate|].
  intros H. apply bind_NoFuel in H. destruct H as [H|(fillable & _ & H)].
  { destruct (decide _); [|discriminate].
    unfold _can_fill_fok in H. revert H.
    generalize (quantity o).
    induction (OrderBook.levels (opposite (side o)) book) as [|[p l] d IH];
      intros q H; simpl in H; [discriminate|].
    apply bind_NoFuel in H. destruct H as [H|(ok & _ & H)].
    - exact (can_match_not_NoFuel _ _ H).
    - destruct (negb ok); [discriminate|].
      destruct (_ =? 0); [discriminate|]. exact (IH _ H). }
  destruct (negb fillable); [discriminate|].
  apply bind_NoFuel in H. destruct H as [H|(a & _ & H)].
  - revert H. apply match_order_not_NoFuel.
    + eapply cascade_ok_keyed; eassumption.
    + unfold stop_fuel, pending_of. lia.
  - destruct a as [[e1 o1] ts]. cbv zeta in H.
    apply bind_NoFuel in H. destruct H as [H|(a & _ & H)].
    + destruct (0 <? remaining_quantity o1); [|discriminate].
      destruct (decide _); [|discriminate].
      apply bind_NoFuel in H. destruct H as [H|(a & _ & H)]; [|discriminate].
      exact (add_to_book_not_NoFuel _ _ _ H).
    + destruct a as [[? ?] ?]. discriminate.
Qed.

(** ** The invariant of the engine *)

Lemma engine_ok_new fees maker taker : engine_ok (MatchingEngine_new fees maker taker).
Proof.
  split.
  - intros s pending o H. simpl in H. rewrite lookup_empty in H. discriminate.
  - intros s b H. simpl in H. rewrite lookup_empty in H. discriminate.
Qed.

Lemma engine_ok_book_of e sym : engine_ok e -> book_ok (book_of e sym) = true.
Proof.
  intros [_ H]. unfold book_of. destruct (order_books e !! sym) as [b|] eqn:E; simpl.
  - eapply H; eassumption.
  - reflexivity.
Qed.

Lemma process_order_engine_ok e o e' o' r :
  engine_ok e -> process_order pe qe e o = Ok (e', o', r) -> engine_ok e'.
Proof.
  intros Hok H. pose proof Hok as [Hk Hb].
  destruct (process_order_cascade _ _ _ _ _ Hk H) as (Hframe & Hk' & Hc).
  split; [exact Hk'|]. intros s b Hs.
  destruct (decide (s = symbol o)) as [->|Hne].
  2:{ destruct (Hframe s Hne) as [E _]. rewrite E in Hs. eapply Hb; eassumption. }
  assert (Hbo : book_of e' (symbol o) = b) by (unfold book_of; rewrite Hs; reflexivity).
  rewrite <- Hbo.
  destruct (get_or_create_spec e (symbol o)) as (Hb0 & _).
  pose proof (book_of_insert _ _ _ _ Hb0) as Hbo0.
  destruct (is_stop_type (order_type o)) eqn:Hst.
  - apply process_order_Ok in H. cbv zeta in H.
    destruct H as [(_&->&_)|[(Hst'&_)|(Hst'&_)]]; try congruence.
    unfold book_of in *. simpl. rewrite Hb0, lookup_insert_eq. simpl.
    rewrite Hb0, lookup_insert_eq in Hbo0. simpl in Hbo0.
    apply engine_ok_book_of. exact Hok.
  - destruct (Hc eq_refl) as (_&_&_&_&(_&Hbk)&_). apply Hbk. rewrite Hbo0.
    apply engine_ok_book_of. exact Hok.
Qed.

Lemma cancel_order_engine_ok e oid sym e' b :
  engine_ok e -> cancel_order e oid sym = Ok (e', b) -> engine_ok e'.
Proof.
  intros [Hk Hb] H. unfold cancel_order in H.
  destruct (order_books e !! sym) as [book|] eqn:Hbook;
    [|inversion H; subst; split; assumption].
  destruct (negb (OrderBook.has_order book oid));
    [inversion H; subst; split; assumption|].
  inv_ok H. destruct a as [book' order]. inversion H; subst e' b; clear H.
  split; [exact Hk|]. intros s b0 Hs. simpl in Hs.
  destruct (decide (s = sym)) as [->|Hne].
  - rewrite lookup_insert_eq in Hs. inversion Hs; subst b0.
    eapply remove_order_book_ok; [eassumption|]. eapply Hb; eassumption.
  - rewrite lookup_insert_ne in Hs by congruence. eapply Hb; eassumption.
Qed.

(** Every state reached from a new engine satisfies the invariant: the
    levels of a side are in its order, only limit orders rest, each with
    a positive remaining quantity, and the pending stop orders are filed
    under their symbol. *)
Theorem reachable_engine_ok e : reachable pe qe e -> engine_ok e.
Proof.
  induction 1 as [fees maker taker|e o e' o' r _ IH H|e oid sym e' b _ IH H].
  - apply engine_ok_new.
  - eapply process_order_engine_ok; eassumption.
  - eapply cancel_order_engine_ok; eassumption.
Qed.

Lemma engine_ok_hypotheses e sym sd :
  engine_ok e ->
  stops_keyed e /\
  sorted_keys (OrderBook.key_of sd) (OrderBook.levels sd (book_of e sym)) = true /\
  book_all_limit (book_of e sym) = true.
Proof.
  intros Hok. pose proof (engine_ok_book_of e sym Hok) as Hb.
  split; [apply Hok|].
  pose proof (book_ok_levels sd _ Hb) as Hl.
  unfold levels_ok in Hl. rewrite !andb_true_iff in Hl. destruct Hl as [[H2 _] _].
  split; [exact H2|].
  unfold book_all_limit. rewrite andb_true_iff.
  pose proof (book_ok_levels BUY _ Hb) as HB. pose proof (book_ok_levels SELL _ Hb) as HS.
  unfold levels_ok in HB, HS. rewrite !andb_true_iff in HB, HS. tauto.
Qed.

(** ** Fill-or-kill *)




(** ** Market orders *)

Lemma sum_qty_pos o ts : Forall (taken_by o) ts -> ts <> [] -> 0 < sum_qty ts.
Proof.
  intros H Hne. destruct ts as [|t ts]; [contradiction|].
  apply Forall_cons in H. destruct H as [(_&_&_&_&Hq) H]. simpl.
  assert (0 <= sum_qty ts); [|lia].
  clear -H. induction H as [|t' ts' (_&_&_&_&Hq') _ IH]; simpl; lia.
Qed.

(** X25. What [process_order] does with a market order whose quantity fits
    the precision of the decimal context: it walks the opposite side from
    the best price until the order is filled or the side is empty; the
    remainder is cancelled and the order does not rest.  The status
    returned is "filled" for a full fill, "partial" for a partial fill,
    and "new" when nothing was filled. *)
Theorem market_order_outcome e o e' o' r :
  process_order pe qe e o = Ok (e', o', r) ->
  order_type o = MARKET ->
  0 < quantity o ->
  remaining_quantity o = quantity o ->
  within_precision (quantity o) ->
  exists d',
    book_fills (OrderBook.levels (opposite (side o)) (book_of e (symbol o)))
      (result_trades r) d' /\
    result_remaining_quantity r = quantity o - sum_qty (result_trades r) /\
    0 <= result_remaining_quantity r /\
    (0 < result_remaining_quantity r -> d' = []) /\
    (result_remaining_quantity r = 0 -> result_status r = "filled") /\
    (0 < result_remaining_quantity r ->
       status o' = CANCELLED /\
       result_status r =
         match result_trades r with [] => "new" | _ => "partial" end).
Proof.
  intros H Hty Hq Hfresh Hwp.
  apply process_order_Ok in H. cbv zeta in H.
  destruct H as [(Hst&_)|[(_&Hf&_)|(_&_&e1&o1&Hm&Hrem&Hso&Hcases)]];
    [rewrite Hty in Hst; discriminate|congruence|].
  apply match_order_Ok in Hm.
  destruct Hm as (f' & book & ea & d' & idx' & _ & Hb & Hm & _).
  rewrite book_of_get_or_create in Hb. inversion Hb; subst book; clear Hb.
  apply match_levels_Ok in Hm. simpl in Hm.
  destruct Hm as (new & Hnew & Hbf & Hr & Hnn & Htk & _ & _ & _ & _ & _ & Hstop).
  rewrite Hfresh in Hr, Hnn. specialize (Hr Hwp). exists d'. rewrite Hnew, Hrem.
  split; [exact Hbf|]. split; [exact Hr|]. split; [apply Hnn; lia|].
  assert (Hty1 : order_type o1 = MARKET) by (destruct Hso as (_&_&E&_); congruence).
  assert (Hq1 : quantity o1 = quantity o) by (destruct Hso as (_&_&_&_&E&_); exact E).
  split.
  { intros Hpos. destruct (Hstop Hpos) as [E|(p & l & rest & _ & Hno)]; [exact E|].
    unfold _can_match in Hno. destruct (decide (order_type o = MARKET)); [discriminate|contradiction]. }
  destruct Hcases as [(Hle&->&->&Hstat)|[(Hpos&Hl&_)|(Hpos&_&->&->&Hstat)]].
  - split.
    + intros Hz. rewrite Hstat. unfold status_after_match, is_filled. rewrite Hz. reflexivity.
    + intros Hpos. lia.
  - congruence.
  - split; [intros Hz; lia|]. intros _. split; [reflexivity|].
    rewrite Hstat. unfold status_after_match, is_filled.
    destruct (remaining_quantity o1 =? 0) eqn:E0; [apply Z.eqb_eq in E0; lia|].
    rewrite Hq1. destruct new as [|t new].
    + simpl in Hr. destruct (remaining_quantity o1 <? quantity o) eqn:E1;
        [apply Z.ltb_lt in E1; lia|reflexivity].
    + pose proof (sum_qty_pos o (t :: new) Htk ltac:(discriminate)) as Hs.
      destruct (remaining_quantity o1 <? quantity o) eqn:E1;
        [reflexivity|apply Z.ltb_ge in E1; lia].
Qed.

(** ** Validation of trades *)

Lemma create_trade_no_ValueError e taker maker p q :
  0 < p -> 0 < q -> _create_trade pe qe e taker maker p q <> Raise ValueError.
Proof.
  intros Hp Hq. unfold _create_trade, generate_trade_id, Trade_new, Trade_post_init.
  simpl. apply Z.ltb_lt in Hp, Hq. rewrite Hp, Hq. simpl.
  destruct (enable_fees e); [destruct (fee_calculator e) as [fc|]|]; simpl;
    try discriminate.
  unfold calculate_fees, Dec.quantize.
  repeat (match goal with |- context [if ?c then _ else _] => destruct c end;
          simpl; try discriminate).
Qed.

Lemma bind_Raise {A B} (m : Res A) (f : A -> Res B) x :
  m ≫= f = Raise x -> m = Raise x \/ exists a, m = Ok a /\ f a = Raise x.
Proof.
  destruct m; simpl; intros H; try discriminate; [right; eauto|left; congruence].
Qed.

Lemma match_level_no_ValueError os : forall e o p total idx trades,
  0 < p -> Forall (fun m => 0 < remaining_quantity m) os ->
  match_level pe qe e o p os total idx trades <> Raise ValueError.
Proof.
  induction os as [|m rest IH]; intros e o p total idx trades Hp Hpos; simpl;
    [discriminate|].
  apply Forall_cons in Hpos. destruct Hpos as [Hm Hrest].
  destruct (0 <? remaining_quantity o) eqn:Hrem; [|discriminate].
  apply Z.ltb_lt in Hrem. intros H. apply bind_Raise in H.
  destruct H as [H|([e1 t] & _ & H)].
  - revert H. apply create_trade_no_ValueError; lia.
  - destruct (is_filled _); [|discriminate]. revert H. apply IH; assumption.
Qed.

Lemma can_match_no_ValueError o p : _can_match o p <> Raise ValueError.
Proof.
  unfold _can_match. destruct (decide _); [discriminate|].
  destruct (price o); [destruct (side o)|]; discriminate.
Qed.

(** X26. The matching loop raises no [ValueError] when the prices of the
    levels it walks are positive and the resting orders have a positive
    remaining quantity: the checks of the [Trade] constructor pass. *)
Theorem match_levels_no_ValueError d : forall e o idx trades,
  Forall (fun kv => 0 < fst kv) d ->
  levels_positive d = true ->
  match_levels pe qe e o d idx trades <> Raise ValueError.
Proof.
  induction d as [|[p l] d IH]; intros e o idx trades Hprices Hpos; simpl;
    [discriminate|].
  apply Forall_cons in Hprices. destruct Hprices as [Hp Hprices]. simpl in Hp.
  unfold levels_positive in Hpos. simpl in Hpos. apply andb_true_iff in Hpos.
  destruct Hpos as [Hl Hpos].
  destruct (0 <? remaining_quantity o); [|discriminate].
  intros H. apply bind_Raise in H. destruct H as [H|(ok & _ & H)].
  { exact (can_match_no_ValueError _ _ H). }
  destruct ok; simpl in H; [|discriminate].
  apply bind_Raise in H. destruct H as [H|(a & _ & H)].
  - revert H. apply match_level_no_ValueError; [assumption|].
    apply Forall_forall. intros x Hx. apply list_elem_of_In in Hx.
    rewrite forallb_forall in Hl. apply Z.ltb_lt. auto.
  - destruct a as [[[[[e1 o1] os1] total1] idx1] trades1].
    destruct (PriceLevel.is_empty _); [|discriminate].
    revert H. apply IH; assumption.
Qed.

(** ** The crossed book *)

Lemma book_fills_head sd d ts d' :
  book_fills d ts d' -> sorted_keys (OrderBook.key_of sd) d = true ->
  head_not_better sd d d'.
Proof.
  induction 1 as [d|p l d ts1 ts2 d' Hff Hbf IH|p l d ts os' total' Hff Hne]; intros Hs kv' Hkv'.
  - exists kv'. split; [assumption|lia].
  - apply sorted_keys_cons in Hs. destruct Hs as [Hmin Hs].
    destruct (IH Hs kv' Hkv') as (kv & Hkv & Hle).
    exists (p, l). split; [reflexivity|]. simpl.
    destruct d as [|kv0 d0]; [discriminate|]. simpl in Hkv. inversion Hkv; subst kv0.
    destruct kv as [q m]. specialize (Hmin q m (or_introl eq_refl)). simpl in Hle. lia.
  - simpl in Hkv'. inversion Hkv'; subst kv'. exists (p, l). split; [reflexivity|].
    simpl. lia.
Qed.

Lemma SortedDict_del_head sd p d :
  sorted_keys (OrderBook.key_of sd) d = true ->
  head_not_better sd d (SortedDict.del p d).
Proof.
  intros Hs kv' Hkv'. destruct d as [|[q m] d]; [discriminate|].
  exists (q, m). split; [reflexivity|].
  apply sorted_keys_cons in Hs. destruct Hs as [Hmin _]. simpl in *.
  destruct (p =? q).
  - 
    destruct d as [|kv0 d0]; [discriminate|]. simpl in Hkv'. inversion Hkv'; subst kv0.
    destruct kv' as [q' m']. specialize (Hmin q' m' (or_introl eq_refl)). simpl. lia.
  - simpl in Hkv'. inversion Hkv'; subst kv'. simpl. lia.
Qed.

Lemma SortedDict_set_head key p l d kv :
  head (SortedDict.set key p l d) = Some kv ->
  fst kv = p \/ exists kv0, head d = Some kv0 /\ fst kv0 = fst kv.
Proof.
  destruct d as [|[q m] d]; simpl.
  - intros H; inversion H; subst. left; reflexivity.
  - destruct (p =? q); [intros H; inversion H; subst; left; reflexivity|].
    destruct (key p <? key q); intros H; inversion H; subst.
    + left; reflexivity.
    + right. exists (q, m). split; reflexivity.
Qed.

Lemma uncrossed_weaker sd d' b idx :
  book_uncrossed b ->
  head_not_better sd (OrderBook.levels sd b) d' ->
  book_uncrossed (OrderBook.set_order_index idx (OrderBook.set_levels sd d' b)).
Proof.
  unfold book_uncrossed, OrderBook.get_best_bid, OrderBook.get_best_ask, head_not_better.
  intros Hu Hh. destruct sd; simpl in *.
  - destruct (head d') as [[bid' lb']|] eqn:E; [|exact I].
    destruct (Hh _ eq_refl) as ([bid lb] & Hb & Hle). rewrite Hb in Hu. simpl in Hle.
    destruct (head (OrderBook.asks b)) as [[ask la]|]; [lia|exact I].
  - destruct (head (OrderBook.bids b)) as [[bid lb]|]; [|exact I].
    destruct (head d') as [[ask' la']|] eqn:E; [|exact I].
    destruct (Hh _ eq_refl) as ([ask la] & Ha & Hle). rewrite Ha in Hu. simpl in Hle. lia.
Qed.

Lemma add_order_uncrossed b o p b' :
  OrderBook.add_order b o = Ok b' -> price o = Some p ->
  book_uncrossed b -> rests_uncrossed (side o) p b -> book_uncrossed b'.
Proof.
  unfold OrderBook.add_order. intros H Hp Hu Hr. rewrite Hp in H.
  inversion H; subst b'; clear H.
  unfold book_uncrossed, OrderBook.get_best_bid, OrderBook.get_best_ask,
    rests_uncrossed in *.
  destruct (side o); simpl in *.
  - match goal with |- context [head (SortedDict.set ?k ?p ?l ?d)] =>
      destruct (head (SortedDict.set k p l d)) as [[bid' lb']|] eqn:E; [|exact I];
      apply SortedDict_set_head in E end.
    destruct (head (OrderBook.asks b)) as [[ask la]|] eqn:Ea; [|exact I].
    destruct E as [E|([bid lb] & Hb & E)]; simpl in E; subst.
    + exact (Hr _ _ eq_refl).
    + rewrite Hb in Hu. exact Hu.
  - destruct (head (OrderBook.bids b)) as [[bid lb]|] eqn:Eb; [|exact I].
    match goal with |- context [head (SortedDict.set ?k ?p ?l ?d)] =>
      destruct (head (SortedDict.set k p l d)) as [[ask' la']|] eqn:E; [|exact I];
      apply SortedDict_set_head in E end.
    destruct E as [E|([ask la] & Ha & E)]; simpl in E; subst.
    + exact (Hr _ _ eq_refl).
    + rewrite Ha in Hu. exact Hu.
Qed.

Lemma sorted_head_min sd d kv0 kv :
  sorted_keys (OrderBook.key_of sd) d = true -> head d = Some kv0 -> In kv d ->
  OrderBook.key_of sd (fst kv0) <= OrderBook.key_of sd (fst kv).
Proof.
  intros Hs Hh Hin. destruct d as [|[q m] d]; [discriminate|].
  simpl in Hh. inversion Hh; subst kv0. simpl.
  apply sorted_keys_cons in Hs. destruct Hs as [Hmin _].
  destruct Hin as [<-|Hin]; [simpl; lia|].
  destruct kv as [p l]. specialize (Hmin _ _ Hin). simpl. lia.
Qed.

Lemma SortedDict_set_existing_head sd p l l0 d :
  sorted_keys (OrderBook.key_of sd) d = true ->
  SortedDict.get p d = Some l0 ->
  head_not_better sd d (SortedDict.set (OrderBook.key_of sd) p l d).
Proof.
  intros Hs Hg kv' Hkv'. apply SortedDict_get_In in Hg.
  destruct d as [|kv0 d0] eqn:Ed; [destruct Hg|]. rewrite <- Ed in *.
  exists kv0. split; [rewrite Ed; reflexivity|].
  apply SortedDict_set_head in Hkv'. destruct Hkv' as [E|(kv1 & H1 & E)].
  - rewrite E. apply (sorted_head_min sd d kv0 (p, l0) Hs); [rewrite Ed; reflexivity|exact Hg].
  - rewrite Ed in H1. simpl in H1. inversion H1; subst kv1. rewrite E. lia.
Qed.

Lemma match_order_no_pending f e o bk e' o' ts :
  pending_of e (symbol o) = [] ->
  match_order pe qe f e o bk = Ok (e', o', ts) ->
  exists book e1 d' idx',
    order_books e !! bk = Some book /\
    match_levels pe qe e o (OrderBook.levels (opposite (side o)) book)
      (OrderBook.order_index book) [] = Ok (e1, o', d', idx', ts) /\
    order_books e'
    = <[bk := OrderBook.set_order_index idx'
                (OrderBook.set_levels (opposite (side o)) d' book)]> (order_books e).
Proof.
  intros Hnone H.
  pose proof (match_order_same_order _ _ _ _ _ _ _ H) as (_&Hsym&_).
  apply match_order_Ok in H.
  destruct H as (f' & book & e1 & d' & idx' & _ & Hb & Hm & Hc).
  exists book, e1, d', idx'. split; [exact Hb|]. split; [exact Hm|].
  apply match_levels_Ok in Hm.
  destruct Hm as (new & _ & _ & _ & _ & _ & _ & _ & _ & (Hbk & Hs & _) & _).
  assert (Hwb : order_books (write_back e1 bk book (opposite (side o)) d' idx')
                = <[bk := OrderBook.set_order_index idx'
                            (OrderBook.set_levels (opposite (side o)) d' book)]>
                    (order_books e)).
  { unfold write_back. simpl. rewrite Hbk. reflexivity. }
  destruct (last ts) as [t|]; [|inversion Hc; subst; exact Hwb].
  rewrite Hsym in Hc. unfold check_stop_orders, check_stop_orders_with in Hc.
  replace (stop_orders (write_back e1 bk book (opposite (side o)) d' idx'))
    with (stop_orders e) in Hc by (symmetry; exact Hs).
  unfold pending_of in Hnone.
  destruct (stop_orders e !! symbol o) as [pending|];
    [|inversion Hc; subst; exact Hwb].
  simpl in Hnone. subst pending. simpl in Hc. inversion Hc; subst e'. exact Hwb.
Qed.

(** X27. A call of [process_order] on a symbol without pending stop orders
    leaves an uncrossed book uncrossed. *)
Theorem process_order_uncrossed_without_stops e o e' o' r :
  engine_ok e ->
  book_uncrossed (book_of e (symbol o)) ->
  pending_of e (symbol o) = [] ->
  process_order pe qe e o = Ok (e', o', r) ->
  book_uncrossed (book_of e' (symbol o)).
Proof.
  intros Hok Hu Hnone H.
  destruct (get_or_create_spec e (symbol o)) as (Hb0 & _ & Hs0 & _).
  apply process_order_Ok in H. cbv zeta in H.
  destruct H as [(_&->&_)|[(_&_&_&->&_)|(_&_&e1&o1&Hm&_&Hso&Hcases)]].
  - unfold book_of in *. simpl. rewrite Hb0, lookup_insert_eq. exact Hu.
  - unfold book_of in *. rewrite Hb0, lookup_insert_eq. exact Hu.
  - apply match_order_no_pending in Hm; [|unfold pending_of; rewrite Hs0; exact Hnone].
    destruct Hm as (book & ea & d' & idx' & Hb & Hm & Hbooks).
    rewrite book_of_get_or_create in Hb. inversion Hb; subst book; clear Hb.
    apply match_levels_Ok in Hm.
    destruct Hm as (new & _ & Hbf & _ & _ & _ & _ & _ & _ & _ & _ & Hstop).
    destruct (engine_ok_hypotheses e (symbol o) (opposite (side o)) Hok)
      as (_ & Hsorted & _).
    set (B1 := OrderBook.set_order_index idx'
                 (OrderBook.set_levels (opposite (side o)) d' (book_of e (symbol o)))) in *.
    assert (Hu1 : book_uncrossed B1).
    { apply uncrossed_weaker; [exact Hu|]. eapply book_fills_head; eassumption. }
    assert (Hbo1 : book_of e1 (symbol o) = B1).
    { unfold book_of. rewrite Hbooks, lookup_insert_eq. reflexivity. }
    destruct Hcases as [(_&->&_)|[(Hpos&Hl&Hadd&_)|(_&_&->&_)]];
      try (rewrite Hbo1; exact Hu1).
    unfold add_to_book in Hadd. rewrite Hbooks, lookup_insert_eq in Hadd.
    inv_ok Hadd. rename a into b'. inversion Hadd; subst e'; clear Hadd.
    unfold book_of. simpl. rewrite lookup_insert_eq. simpl.
    destruct (price o1) as [P|] eqn:HP;
      [|unfold OrderBook.add_order in Hstep; rewrite HP in Hstep; discriminate].
    eapply add_order_uncrossed; [exact Hstep|exact HP|exact Hu1|].
    intros q l Hq.
    destruct Hso as (_&_&Hty&Hsd&_&Hpr&_).
    assert (Hd' : head d' = Some (q, l)).
    { rewrite Hsd in Hq. unfold B1 in Hq.
      destruct (side o); simpl in Hq; exact Hq. }
    destruct (Hstop Hpos) as [E|(p & l0 & rest & E & Hno)]; [rewrite E in Hd'; discriminate|].
    rewrite E in Hd'. simpl in Hd'. inversion Hd'; subst p l0.
    unfold _can_match in Hno. rewrite <- Hty, <- Hpr, <- Hsd in Hno.
    destruct (decide (order_type o1 = MARKET)); [discriminate|].
    rewrite HP in Hno.
    destruct (side o1); inversion Hno as [Hf]; apply Z.leb_gt in Hf; exact Hf.
Qed.

(** X28. [cancel_order] leaves an uncrossed book uncrossed. *)
Theorem cancel_order_uncrossed e oid sym e' b :
  engine_ok e ->
  book_uncrossed (book_of e sym) ->
  cancel_order e oid sym = Ok (e', b) ->
  book_uncrossed (book_of e' sym).
Proof.
  intros Hok Hu H. unfold cancel_order in H.
  destruct (order_books e !! sym) as [book|] eqn:Hbook; [|inversion H; subst; exact Hu].
  destruct (negb (OrderBook.has_order book oid)); [inversion H; subst; exact Hu|].
  inv_ok H. destruct a as [book' order]. inversion H; subst e' b; clear H.
  unfold book_of in *. simpl. rewrite lookup_insert_eq. rewrite Hbook in Hu. simpl in *.
  assert (Hbk : book_ok book = true) by (destruct Hok as [_ Hb]; eapply Hb; eassumption).
  unfold OrderBook.remove_order in Hstep.
  destruct (OrderBook.order_index book !! oid) as [[ord sd]|]; [|discriminate].
  destruct (price ord) as [p|]; [|discriminate].
  destruct (SortedDict.get p (OrderBook.levels sd book)) as [l|] eqn:El; [|discriminate].
  inv_ok Hstep. rename a into l'. inversion Hstep; subst book' order; clear Hstep.
  pose proof (book_ok_levels sd book Hbk) as Hl.
  unfold levels_ok in Hl. rewrite !andb_true_iff in Hl. destruct Hl as [[Hsorted _] _].
  apply uncrossed_weaker; [exact Hu|].
  destruct (PriceLevel.is_empty l').
  - apply SortedDict_del_head. exact Hsorted.
  - eapply SortedDict_set_existing_head; eassumption.
Qed.

(** ** FIFO, seen from [process_order] *)






(** ** Stop orders: trigger, conversion, matching *)

Lemma process_triggered_run (matcher : Matcher) xs : forall e,
  process_triggered matcher e (map (fun o => set_is_triggered o true) xs)
  = run_each (run_triggered matcher) e xs.
Proof.
  induction xs as [|x xs IH]; intros e; [reflexivity|].
  simpl. unfold run_triggered. rewrite convert_triggered_converted.
  destruct (get_or_create_order_book e
              (symbol (converted (set_is_triggered x true)))) as [e0 b0].
  simpl. destruct (matcher e0 _ _) as [[[e1 t1] ts1]| |]; simpl; try reflexivity.
  unfold can_rest_on_book.
  destruct ((0 <? remaining_quantity t1) && bool_decide (order_type t1 = LIMIT)).
  - destruct (add_to_book e1 t1 _); simpl; auto.
  - simpl. apply IH.
Qed.

(** C6. After the trades of a call of [match_order], the pending stop
    orders of the symbol are scanned with the price of the last trade:
    those that satisfy the trigger table leave the pending list and are,
    in their order, marked, converted by the conversion table and matched
    by [match_order]; the others stay pending.  Without a trade, or without
    pending orders, nothing is triggered. *)
Theorem stop_orders_trigger f e o bk e' o' trades :
  match_order pe qe (S f) e o bk = Ok (e', o', trades) ->
  exists e2,
    stop_orders e2 = stop_orders e /\
    match last trades, stop_orders e !! symbol o with
    | Some t, Some pending =>
        run_each (run_triggered (match_order pe qe f))
          (with_pending e2 (symbol o)
             (List.filter (fun x => negb (triggers (trade_price t) x)) pending))
          (List.filter (triggers (trade_price t)) pending)
        = Ok e'
    | _, _ => e' = e2
    end.
Proof.
  intros H.
  pose proof (match_order_same_order _ _ _ _ _ _ _ H) as (_&Hsym&_).
  apply match_order_Ok in H.
  destruct H as (f' & book & e1 & d' & idx' & Hf & Hb & Hm & Hc).
  inversion Hf; subst f'; clear Hf.
  apply match_levels_Ok in Hm.
  destruct Hm as (new & _ & _ & _ & _ & _ & _ & _ & _ & (_ & Hs & _) & _).
  exists (write_back e1 bk book (opposite (side o)) d' idx').
  split; [exact Hs|].
  destruct (last trades) as [t|]; [|inversion Hc; reflexivity].
  rewrite Hsym in Hc. unfold check_stop_orders, check_stop_orders_with in Hc.
  replace (stop_orders (write_back e1 bk book (opposite (side o)) d' idx'))
    with (stop_orders e) in Hc by (symmetry; exact Hs).
  destruct (stop_orders e !! symbol o) as [pending|]; [|inversion Hc; reflexivity].
  inv_ok Hc. destruct a as [pending' trig].
  apply (scan_stop_orders_Ok (trade_price t) pending [] []) in Hstep; [|constructor].
  simpl in Hstep. destruct Hstep as [-> ->].
  rewrite process_triggered_run in Hc. unfold with_pending.
  replace (stop_orders (write_back e1 bk book (opposite (side o)) d' idx'))
    with (stop_orders e) by (symmetry; exact Hs).
  exact Hc.
Qed.

(** ** Fees *)

Lemma round_half_even_spec n d :
  0 <= n -> 0 < d ->
  let c := Dec.round_half_even n d in
  2 * Z.abs (n - c * d) <= d /\
  (2 * Z.abs (n - c * d) = d -> Z.even c = true).
Proof.
  intros Hn Hd. unfold Dec.round_half_even.
  pose proof (Z.div_mod n d ltac:(lia)) as Hdm.
  pose proof (Z.mod_pos_bound n d Hd) as Hr.
  set (q := n / d) in *. set (r := n mod d) in *.
  destruct (2 * r <? d) eqn:E1; [apply Z.ltb_lt in E1|apply Z.ltb_ge in E1].
  { split; [|intros E]; nia. }
  destruct (d <? 2 * r) eqn:E2; [apply Z.ltb_lt in E2|apply Z.ltb_ge in E2].
  { split; [|intros E]; nia. }
  destruct (Z.even q) eqn:E3.
  - split; [nia|intros _; exact E3].
  - split; [nia|intros _]. rewrite Z.even_add, E3. reflexivity.
Qed.

Lemma fix_within_precision x :
  within_precision (Dec.coef x) -> Dec.fix_ x = x.
Proof.
  unfold within_precision, Dec.fix_. intros H.
  apply Z.leb_le in H. rewrite H. reflexivity.
Qed.

Lemma quantize_Ok x e y :
  Dec.quantize x e = Ok y -> y = Dec.rescale x e /\ Dec.expo y = e.
Proof.
  unfold Dec.quantize. destruct (Dec.coef x =? 0) eqn:E0.
  - apply Z.eqb_eq in E0. intros H; inversion H; subst y; clear H.
    split; [|reflexivity]. unfold Dec.rescale. rewrite E0.
    destruct (e <=? Dec.expo x); simpl; reflexivity.
  - destruct (Dec.prec <? _); [discriminate|].
    destruct (Dec.prec <? _); [discriminate|].
    intros H; inversion H; subst y. split; [reflexivity|].
    unfold Dec.rescale. destruct (e <=? Dec.expo x); reflexivity.
Qed.

Lemma calculate_fees_Ok fc v mf tf :
  calculate_fees fc v = Ok (mf, tf) ->
  mf = Dec.rescale (Dec.mul v (maker_fee_rate fc)) fee_quantum_exp /\
  tf = Dec.rescale (Dec.mul v (taker_fee_rate fc)) fee_quantum_exp /\
  Dec.expo mf = fee_quantum_exp /\ Dec.expo tf = fee_quantum_exp.
Proof.
  unfold calculate_fees. intros H. inv_ok H. inv_ok H. inversion H; subst; clear H.
  apply quantize_Ok in Hstep, Hstep0. intuition.
Qed.

Lemma mul_exact x y :
  within_precision (Dec.coef x * Dec.coef y) ->
  Dec.mul x y = Dec.mk (Dec.coef x * Dec.coef y) (Dec.expo x + Dec.expo y).
Proof. intros H. unfold Dec.mul. apply fix_within_precision. exact H. Qed.

Lemma fee_exact p q rate :
  within_precision (p * q) ->
  within_precision (p * q * Dec.coef rate) ->
  Dec.rescale (Dec.mul (Dec.mul (Dec.mk p pe) (Dec.mk q qe)) rate) fee_quantum_exp
  = exact_fee pe qe p q rate.
Proof.
  intros H1 H2. rewrite (mul_exact (Dec.mk p pe) (Dec.mk q qe)) by exact H1.
  rewrite mul_exact by exact H2. reflexivity.
Qed.

(** C8, as the code has it.  With fees enabled every trade returned by
    [process_order] carries a maker and a taker fee of exactly 8
    fractional digits.  Each is the exact product price * quantity * rate
    rounded half-even to 8 digits, provided the coefficients of
    price * quantity and of price * quantity * rate have at most 28 digits,
    the precision of the decimal context in which the code multiplies. *)
Theorem fees_quantized e o e' o' r fc :
  process_order pe qe e o = Ok (e', o', r) ->
  enable_fees e = true ->
  fee_calculator e = Some fc ->
  forall t, In t (result_trades r) ->
    Dec.expo (maker_fee t) = -8 /\ Dec.expo (taker_fee t) = -8 /\
    (within_precision (trade_price t * trade_quantity t) ->
     within_precision (trade_price t * trade_quantity t * Dec.coef (maker_fee_rate fc)) ->
     maker_fee t = exact_fee pe qe (trade_price t) (trade_quantity t) (maker_fee_rate fc)) /\
    (within_precision (trade_price t * trade_quantity t) ->
     within_precision (trade_price t * trade_quantity t * Dec.coef (taker_fee_rate fc)) ->
     taker_fee t = exact_fee pe qe (trade_price t) (trade_quantity t) (taker_fee_rate fc)).
Proof.
  intros H Hen Hfc t Hin.
  destruct (process_order_matching _ _ _ _ _ H) as [Hnil|(ea & o1 & d' & idx' & Hm & _)].
  { rewrite Hnil in Hin. destruct Hin. }
  apply match_levels_Ok in Hm. simpl in Hm.
  destruct Hm as (new & Hnew & _ & _ & _ & _ & Hfees & _).
  rewrite Hnew in Hin.
  rewrite Forall_forall in Hfees. apply list_elem_of_In in Hin.
  specialize (Hfees _ Hin). unfold fees_computed in Hfees.
  destruct (get_or_create_spec e (symbol o)) as (_ & _ & _ & _ & (He & Hc & _)).
  rewrite He, Hc, Hen, Hfc in Hfees. destruct Hfees as (Hcalc & _ & _).
  apply calculate_fees_Ok in Hcalc. destruct Hcalc as (Hm & Ht & Hem & Het).
  split; [exact Hem|]. split; [exact Het|]. split.
  - intros H1 H2. rewrite Hm. apply fee_exact; assumption.
  - intros H1 H2. rewrite Ht. apply fee_exact; assumption.
Qed.

End Properties.

Lemma stops_keyedb_keyed e : stops_keyedb e = true -> stops_keyed e.
Proof.
  unfold stops_keyedb, stops_keyed. intros H s pending o Hs Hin.
  rewrite forallb_forall in H.
  assert (Hel : In (s, pending) (map_to_list (stop_orders e))).
  { apply list_elem_of_In, elem_of_map_to_list. exact Hs. }
  specialize (H _ Hel). simpl in H. rewrite forallb_forall in H.
  specialize (H _ Hin). apply bool_decide_eq_true in H. exact H.
Qed.

(** * The code on concrete inputs *)

Import Scenario.

(** C3 on the code: a market buy on an empty book gets no fill; the order
    is cancelled and does not rest, but the status returned is "new", not
    "cancelled" nor "partial". *)
Theorem market_order_without_fill_returns_new :
  Order_post_init (order "MB" MARKET BUY 1 None None 1) = true /\
  match process_order 0 0 engine0 (order "MB" MARKET BUY 1 None None 1) with
  | Ok (e', o', r) =>
      result_status r = "new" /\ result_trades r = [] /\
      result_remaining_quantity r = 1 /\ status o' = CANCELLED /\
      OrderBook.bids (book_of e' sym) = [] /\ OrderBook.asks (book_of e' sym) = []
  | _ => False
  end.
Proof. vm_compute. repeat split. Qed.

(** C7 on the code: a limit buy trades with the resting ask at 100; the
    trade triggers the pending stop-limit sell, which comes to rest at 95
    before the remainder of the buy rests at 105.  The book is crossed. *)
Theorem stop_cascade_crosses_book :
  forallb Order_post_init (ask_and_stop ++ [crossing_buy]) = true /\
  match process_order 0 0 (engine_after 0 0 engine0 ask_and_stop) crossing_buy with
  | Ok (e', o', r) =>
      fst <$> OrderBook.get_best_bid (book_of e' sym) = Some 105 /\
      fst <$> OrderBook.get_best_ask (book_of e' sym) = Some 95 /\
      ~ book_uncrossed (book_of e' sym)
  | _ => False
  end.
Proof. vm_compute. repeat split. intros H; discriminate H. Qed.

(** C10 on the code: a take-profit order passes [Order.__post_init__] with
    a negative limit price, is triggered and rests at that price; the next
    market buy reaches it and the [Trade] constructor raises
    [ValueError] from [match_order]. *)
Theorem trade_validation_error_reachable :
  forallb Order_post_init (negative_take_profit ++ [later_market_buy]) = true /\
  (fst <$> OrderBook.get_best_ask
             (book_of (engine_after 0 0 engine0 negative_take_profit) sym)) = Some (-1) /\
  process_order 0 0 (engine_after 0 0 engine0 negative_take_profit) later_market_buy
  = Raise ValueError.
Proof. vm_compute. repeat split. Qed.

(** C2 on the code: the stop-limit buy admitted first rests behind the
    limit buy admitted second; saving and loading sorts the orders by time
    stamp and puts it in front. *)
Theorem snapshot_reorders_queue :
  forallb Order_post_init stop_behind_limit = true /\
  let e := engine_after 0 0 engine0 stop_behind_limit in
  queue_ids (book_of e sym) BUY 90 = ["L"; "SL"]%string /\
  match load_engine_state e (save_engine_state e) with
  | Ok e' => queue_ids (book_of e' sym) BUY 90 = ["SL"; "L"]%string /\ e' <> e
  | _ => False
  end.
Proof.
  split; [vm_compute; reflexivity|]. cbv zeta.
  split; [vm_compute; reflexivity|].
  destruct (load_engine_state _ _) as [e'| |] eqn:H;
    [|vm_compute in H; discriminate H ..].
  assert (Hq : queue_ids (book_of e' sym) BUY 90 = ["SL"; "L"]%string).
  { vm_compute in H. inversion H; subst e'. vm_compute. reflexivity. }
  split; [exact Hq|]. intros Heq. rewrite Heq in Hq. vm_compute in Hq. discriminate Hq.
Qed.

(** C8 as stated fails: the product price * quantity has 34 digits and is
    rounded to 28 before the rate is applied; the maker fee is
    24999.99975000 where the exact product quantizes to 24999.99975001. *)
Lemma fee_not_exact_beyond_precision :
  forallb Order_post_init [fine_ask; fine_buy] = true /\
  match process_order (-8) (-18)
          (engine_after (-8) (-18) engine_fees [fine_ask]) fine_buy with
  | Ok (_, _, r) =>
      match result_trades r with
      | [t] =>
          maker_fee t = Dec.mk 2499999975000 (-8) /\
          exact_fee (-8) (-18) (trade_price t) (trade_quantity t) (Dec.mk 1 (-3))
            = Dec.mk 2499999975001 (-8) /\
          maker_fee t <>
            exact_fee (-8) (-18) (trade_price t) (trade_quantity t) (Dec.mk 1 (-3))
      | _ => False
      end
  | _ => False
  end.
Proof. vm_compute. repeat split. intros H; discriminate H. Qed.


(** * The theorems at concrete inputs *)


Import Scenario2.


(** Two asks of 1.00 at one price, SA queued before SB, and a buy of
    1.50. *)
Lemma fifo_within_level_witness :
  exists e' o' os' total' idx' trades',
    match_level 0 0 engine0 market_buy 50000 same_price_asks 200 ∅ []
      = Ok (e', o', os', total', idx', trades') /\
    exists new,
      trades' = [] ++ new /\
      (forall k t, new !! k = Some t ->
         exists m, same_price_asks !! k = Some m /\ maker_order_id t = order_id m /\
                   trade_price t = 50000 /\
                   0 < trade_quantity t <= remaining_quantity m) /\
      (forall i j a b tb,
         (i < j)%nat -> same_price_asks !! i = Some a -> same_price_asks !! j = Some b ->
         new !! j = Some tb ->
         exists ta,
           new !! i = Some ta /\ maker_order_id ta = order_id a /\
           trade_quantity ta = remaining_quantity a /\
           exists n, (S i < n)%nat /\
             (os' = drop n same_price_asks \/ exists b', os' = b' :: drop n same_price_asks)).
Proof.
  destruct (match_level 0 0 engine0 market_buy 50000 same_price_asks 200 ∅ [])
    as [[[[[[e' o'] os'] total'] idx'] trades']| |] eqn:H;
    [|vm_compute in H; discriminate H ..].
  exists e', o', os', total', idx', trades'.
  split; [reflexivity|].
  exact (fifo_within_level 0 0 _ _ _ _ _ _ _ _ _ _ _ _ _ H).
Defined.

(** The limit buy through the ask at 100, with a stop-limit sell
    pending. *)
Lemma stop_orders_trigger_witness :
  let e := engine_after 0 0 engine0 ask_and_stop in
  exists e' o' trades,
    match_order 0 0 2 e crossing_buy sym = Ok (e', o', trades) /\
    exists e2,
      stop_orders e2 = stop_orders e /\
      match last trades, stop_orders e !! symbol crossing_buy with
      | Some t, Some pending =>
          run_each (run_triggered (match_order 0 0 1))
            (with_pending e2 (symbol crossing_buy)
               (List.filter (fun x => negb (triggers (trade_price t) x)) pending))
            (List.filter (triggers (trade_price t)) pending)
          = Ok e'
      | _, _ => e' = e2
      end.
Proof.
  cbv zeta.
  destruct (match_order 0 0 2 (engine_after 0 0 engine0 ask_and_stop) crossing_buy sym)
    as [[[e' o'] trades]| |] eqn:H; [|vm_compute in H; discriminate H ..].
  exists e', o', trades. split; [reflexivity|].
  exact (stop_orders_trigger 0 0 _ _ _ _ _ _ _ H).
Defined.

(** A trade of 1.00000000 at 50000.00 with the default fee rates. *)
Lemma fees_quantized_witness :
  let e := engine_after (-2) (-8) engine_fees [unit_ask] in
  exists e' o' r t,
    process_order (-2) (-8) e unit_buy = Ok (e', o', r) /\
    enable_fees e = true /\
    fee_calculator e = Some default_fees /\
    In t (result_trades r) /\
    Dec.expo (maker_fee t) = -8 /\ Dec.expo (taker_fee t) = -8 /\
    (within_precision (trade_price t * trade_quantity t) ->
     within_precision
       (trade_price t * trade_quantity t * Dec.coef (maker_fee_rate default_fees)) ->
     maker_fee t
     = exact_fee (-2) (-8) (trade_price t) (trade_quantity t)
         (maker_fee_rate default_fees)) /\
    (within_precision (trade_price t * trade_quantity t) ->
     within_precision
       (trade_price t * trade_quantity t * Dec.coef (taker_fee_rate default_fees)) ->
     taker_fee t
     = exact_fee (-2) (-8) (trade_price t) (trade_quantity t)
         (taker_fee_rate default_fees)).
Proof.
  cbv zeta.
  destruct (process_order (-2) (-8) (engine_after (-2) (-8) engine_fees [unit_ask]) unit_buy)
    as [[[e' o'] r]| |] eqn:H; [|vm_compute in H; discriminate H ..].
  assert (Hin : exists t, In t (result_trades r)).
  { pose proof H as Hc. vm_compute in Hc. inversion Hc; subst r.
    eexists. left. reflexivity. }
  destruct Hin as [t Hin].
  assert (Hen : enable_fees (engine_after (-2) (-8) engine_fees [unit_ask]) = true)
    by (vm_compute; reflexivity).
  assert (Hfc : fee_calculator (engine_after (-2) (-8) engine_fees [unit_ask])
                = Some default_fees) by (vm_compute; reflexivity).
  exists e', o', r, t.
  split; [reflexivity|]. split; [exact Hen|]. split; [exact Hfc|]. split; [exact Hin|].
  exact (fees_quantized (-2) (-8) _ _ _ _ _ _ H Hen Hfc t Hin).
Defined.

(** An order for ETH-USDT, and a cancellation on BTC-USDT, on an engine
    that holds a BTC-USDT book. *)
Lemma other_symbols_unchanged_witness :
  let e := engine_after 0 0 engine0 two_asks in
  stops_keyed e /\
  (exists e' o' r,
     process_order 0 0 e eth_buy = Ok (e', o', r) /\
     order_books e' !! sym = order_books e !! sym /\
     stop_orders e' !! sym = stop_orders e !! sym) /\
  (exists e' b,
     cancel_order e "S1" sym = Ok (e', b) /\
     order_books e' !! "ETH-USDT" = order_books e !! "ETH-USDT" /\
     stop_orders e' !! "ETH-USDT" = stop_orders e !! "ETH-USDT").
Proof.
  cbv zeta.
  assert (Hk : stops_keyed (engine_after 0 0 engine0 two_asks))
    by (apply stops_keyedb_keyed; vm_compute; reflexivity).
  destruct (other_symbols_unchanged 0 0 _ Hk) as [Hp Hc].
  split; [exact Hk|]. split.
  - destruct (process_order 0 0 (engine_after 0 0 engine0 two_asks) eth_buy)
      as [[[e' o'] r]| |] eqn:H; [|vm_compute in H; discriminate H ..].
    exists e', o', r. split; [reflexivity|].
    apply (Hp _ _ _ _ H). discriminate.
  - destruct (cancel_order (engine_after 0 0 engine0 two_asks) "S1" sym)
      as [[e' b]| |] eqn:H; [|vm_compute in H; discriminate H ..].
    exists e', b. split; [reflexivity|].
    apply (Hc _ _ _ _ H). discriminate.
Defined.

(** * Further properties of the engine *)

Section Coverage.

Variables (pe qe : Z).

(** ** A principle for the effects of a call

    A relation between engine states that holds across the elementary
    steps of [match_order] holds across the call, whatever stop orders it
    triggers. *)

Section Cascade.

Variable R : MatchingEngine -> MatchingEngine -> Prop.

Hypothesis R_refl : forall e, R e e.
Hypothesis R_trans : forall e1 e2 e3, R e1 e2 -> R e2 e3 -> R e1 e3.
Hypothesis R_create : forall e sym, R e (fst (get_or_create_order_book e sym)).
Hypothesis R_match : forall e o bk book e1 o1 d' idx' ts,
  order_books e !! bk = Some book ->
  match_levels pe qe e o (OrderBook.levels (opposite (side o)) book)
    (OrderBook.order_index book) [] = Ok (e1, o1, d', idx', ts) ->
  R e (write_back e1 bk book (opposite (side o)) d' idx').
Hypothesis R_pending : forall e sym pending last,
  stop_orders e !! sym = Some pending ->
  R e (with_pending e sym (List.filter (fun x => negb (triggers last x)) pending)).
Hypothesis R_add : forall e o bk e',
  add_to_book e o bk = Ok e' -> order_type o = LIMIT -> 0 < remaining_quantity o ->
  R e e'.

Lemma process_triggered_rel (matcher : Matcher) :
  (forall e o bk e' o' ts, matcher e o bk = Ok (e', o', ts) -> R e e') ->
  forall trig e e', process_triggered matcher e trig = Ok e' -> R e e'.
Proof.
  intros Hm. induction trig as [|t trig IH]; intros e e' H.
  - simpl in H. inversion H; subst. apply R_refl.
  - simpl in H.
    pose proof (R_create e (symbol (convert_triggered t))) as Hgc.
    destruct (get_or_create_order_book e (symbol (convert_triggered t))) as [e0 b0].
    simpl in Hgc. inv_ok H. destruct a as [[e1 t1] ts1].
    apply Hm in Hstep. inv_ok H. rename a into e2.
    assert (Hc2 : R e1 e2).
    { destruct ((0 <? remaining_quantity t1) && can_rest_on_book t1) eqn:Hrest.
      - apply andb_true_iff in Hrest. destruct Hrest as [Hp Hl].
        apply bool_decide_eq_true in Hl. apply Z.ltb_lt in Hp.
        eapply R_add; eassumption.
      - inversion Hstep0; subst. apply R_refl. }
    eapply R_trans; [exact Hgc|]. eapply R_trans; [exact Hstep|].
    eapply R_trans; [exact Hc2|]. apply IH. exact H.
Qed.

Lemma match_order_rel f : forall e o bk e' o' ts,
  match_order pe qe f e o bk = Ok (e', o', ts) -> R e e'.
Proof.
  induction f as [|f IH]; intros e o bk e' o' ts H; [discriminate|].
  apply match_order_Ok in H.
  destruct H as (f' & book & e1 & d' & idx' & Hf & Hb & Hm & Hc).
  inversion Hf; subst f'; clear Hf.
  pose proof (R_match _ _ _ _ _ _ _ _ _ Hb Hm) as Hwb.
  destruct (last ts) as [t|]; [|inversion Hc; subst; exact Hwb].
  eapply R_trans; [exact Hwb|].
  unfold check_stop_orders, check_stop_orders_with in Hc.
  destruct (stop_orders _ !! symbol o') as [pending|] eqn:Hp;
    [|inversion Hc; subst; apply R_refl].
  inv_ok Hc. destruct a as [pending' trig].
  apply (scan_stop_orders_Ok (trade_price t) pending [] []) in Hstep; [|constructor].
  simpl in Hstep. destruct Hstep as [-> ->].
  eapply R_trans; [exact (R_pending _ _ _ (trade_price t) Hp)|].
  eapply process_triggered_rel; [|exact Hc]. exact IH.
Qed.

Hypothesis R_stop : forall e o,
  is_stop_type (order_type o) = true ->
  R e (set_stop_orders e
         (<[symbol o := pending_of e (symbol o) ++ [o]]> (stop_orders e))).

Lemma process_order_rel e o e' o' r :
  process_order pe qe e o = Ok (e', o', r) -> R e e'.
Proof.
  intros H. apply process_order_Ok in H. cbv zeta in H.
  pose proof (R_create e (symbol o)) as Hgc.
  destruct (get_or_create_spec e (symbol o)) as (_ & _ & Hs0 & _).
  destruct H as [(Hst&->&_)|[(_&_&_&->&_)|(_&_&e1&o1&Hm&_&_&Hcases)]].
  - eapply R_trans; [exact Hgc|].
    assert (E : pending_of e (symbol o)
                = pending_of (fst (get_or_create_order_book e (symbol o))) (symbol o))
      by (unfold pending_of; rewrite Hs0; reflexivity).
    rewrite E. apply R_stop. exact Hst.
  - exact Hgc.
  - apply match_order_rel in Hm.
    eapply R_trans; [exact Hgc|]. eapply R_trans; [exact Hm|].
    destruct Hcases as [(_&->&_)|[(Hpos&Hl&Hadd&_)|(_&_&->&_)]];
      [apply R_refl|eapply R_add; eassumption|apply R_refl].
Qed.

Hypothesis R_cancel : forall e sym book oid book' o,
  order_books e !! sym = Some book ->
  OrderBook.remove_order book oid = Ok (book', o) ->
  R e (set_order_books e (<[sym := book']> (order_books e))).

Lemma cancel_order_rel e oid sym e' b :
  cancel_order e oid sym = Ok (e', b) -> R e e'.
Proof.
  unfold cancel_order. destruct (order_books e !! sym) as [book|] eqn:Hb.
  2:{ intros H; inversion H; subst. apply R_refl. }
  destruct (negb (OrderBook.has_order book oid)).
  { intros H; inversion H; subst. apply R_refl. }
  intros H. inv_ok H. destruct a as [book' o]. inversion H; subst. 
  eapply R_cancel; eassumption.
Qed.

Lemma reachable_rel e :
  reachable pe qe e -> exists fees maker taker, R (MatchingEngine_new fees maker taker) e.
Proof.
  induction 1 as [fees maker taker|e o e' o' r _ (f & m & t & IH) H
                 |e oid sym e' b _ (f & m & t & IH) H].
  - exists fees, maker, taker. apply R_refl.
  - exists f, m, t. eapply R_trans; [exact IH|]. eapply process_order_rel; exact H.
  - exists f, m, t. eapply R_trans; [exact IH|]. eapply cancel_order_rel; exact H.
Qed.

End Cascade.

(** ** The structure of the books of a reachable state *)

Lemma levels_keyed_spec sd d :
  levels_keyed sd d = true <->
  forall kv, In kv d ->
    PriceLevel.price (snd kv) = fst kv /\
    PriceLevel.orders (snd kv) <> [] /\
    forall o, In o (PriceLevel.orders (snd kv)) ->
              price o = Some (fst kv) /\ side o = sd.
Proof.
  unfold levels_keyed, level_keyed, PriceLevel.is_empty. rewrite forallb_forall. split.
  - intros H kv Hkv. specialize (H _ Hkv). rewrite !andb_true_iff in H.
    destruct H as [[H1 H2] H3]. apply Z.eqb_eq in H1. split; [assumption|]. split.
    + apply negb_true_iff, bool_decide_eq_false in H2.
      intros E. apply H2. rewrite E. reflexivity.
    + intros o Ho. rewrite forallb_forall in H3. specialize (H3 _ Ho).
      rewrite andb_true_iff in H3. destruct H3 as [A B].
      apply bool_decide_eq_true in A, B. auto.
  - intros H kv Hkv. destruct (H _ Hkv) as (H1 & H2 & H3).
    rewrite !andb_true_iff. split; [split|].
    + apply Z.eqb_eq. assumption.
    + apply negb_true_iff, bool_decide_eq_false.
      destruct (PriceLevel.orders (snd kv)); [contradiction|discriminate].
    + apply forallb_forall. intros o Ho. destruct (H3 _ Ho) as [A B].
      rewrite andb_true_iff. split; apply bool_decide_eq_true; assumption.
Qed.

Lemma levels_keyed_set sd p l d :
  levels_keyed sd d = true ->
  PriceLevel.price l = p -> PriceLevel.orders l <> [] ->
  (forall o, In o (PriceLevel.orders l) -> price o = Some p /\ side o = sd) ->
  levels_keyed sd (SortedDict.set (OrderBook.key_of sd) p l d) = true.
Proof.
  rewrite !levels_keyed_spec. intros H H1 H2 H3 kv Hkv.
  apply SortedDict_set_In in Hkv. destruct Hkv as [->|Hkv]; auto.
Qed.

Lemma levels_keyed_del sd p d :
  levels_keyed sd d = true -> levels_keyed sd (SortedDict.del p d) = true.
Proof.
  rewrite !levels_keyed_spec. intros H kv Hkv. apply H.
  eapply SortedDict_del_In; eassumption.
Qed.

Lemma levels_keyed_get sd d p l :
  levels_keyed sd d = true -> SortedDict.get p d = Some l ->
  PriceLevel.price l = p /\ PriceLevel.orders l <> [] /\
  forall o, In o (PriceLevel.orders l) -> price o = Some p /\ side o = sd.
Proof.
  rewrite levels_keyed_spec. intros H Hg. apply SortedDict_get_In in Hg.
  exact (H _ Hg).
Qed.

Lemma book_fills_keyed sd d ts d' :
  book_fills d ts d' -> levels_keyed sd d = true -> levels_keyed sd d' = true.
Proof.
  induction 1 as [d|p l d ts1 ts2 d' Hff Hbf IH|p l d ts os' total' Hff Hne]; intros Hk.
  - assumption.
  - apply IH. simpl in Hk. apply andb_true_iff in Hk. apply Hk.
  - rewrite levels_keyed_spec in *. intros kv [<-|Hkv].
    + destruct (Hk (p, l) (or_introl eq_refl)) as (H1 & _ & H3). simpl in *.
      split; [assumption|]. split; [assumption|]. intros o Ho.
      destruct (fifo_fills_In _ _ _ _ Hff o Ho) as (m & Hm & Hso).
      destruct (H3 _ Hm) as [A B]. destruct Hso as (_&_&_&Hsd&_&Hpr&_).
      rewrite Hsd, Hpr. auto.
    + apply Hk. right. assumption.
Qed.

(** A key occurs once in a sorted side. *)
Lemma sorted_get_In sd d p l :
  sorted_keys (OrderBook.key_of sd) d = true -> In (p, l) d ->
  SortedDict.get p d = Some l.
Proof.
  induction d as [|[q m] d IH]; simpl; [tauto|].
  intros Hs Hin. apply andb_true_iff in Hs. destruct Hs as [Hhd Htl].
  destruct Hin as [E|Hin].
  - inversion E; subst. rewrite Z.eqb_refl. reflexivity.
  - destruct (p =? q) eqn:Epq; [|auto].
    apply Z.eqb_eq in Epq. subst q. rewrite forallb_forall in Hhd.
    specialize (Hhd _ Hin). simpl in Hhd. apply Z.ltb_lt in Hhd. lia.
Qed.

Lemma index_sync_lookup old new idx oid x s :
  index_sync old new idx !! oid = Some (x, s) ->
  (oid = order_id old /\ idx !! oid = Some (old, s) /\ x = new) \/
  (idx !! oid = Some (x, s) /\ (oid = order_id old -> x <> old)).
Proof.
  unfold index_sync.
  destruct (idx !! order_id old) as [[o s0]|] eqn:E.
  - destruct (decide (o = old)) as [->|Hne].
    + destruct (decide (oid = order_id old)) as [->|Hoid].
      * rewrite lookup_insert_eq. intros H. inversion H; subst. left. auto.
      * rewrite lookup_insert_ne by congruence. intros H. right. split; [assumption|].
        intros; contradiction.
    + intros H. right. split; [assumption|]. intros ->. rewrite E in H.
      inversion H; subst. assumption.
  - intros H. right. split; [assumption|]. intros ->. congruence.
Qed.

(** The index across the inner loop: its entries stay with the orders of
    the queue, or with the orders [F] resting elsewhere. *)
Lemma match_level_index (F : Order -> Prop) os :
  forall e o p total idx trades e' o' os' total' idx' trades',
  match_level pe qe e o p os total idx trades
    = Ok (e', o', os', total', idx', trades') ->
  (forall oid x s, idx !! oid = Some (x, s) ->
     order_id x = oid /\ side x = s /\ (In x os \/ F x)) ->
  forall oid x s, idx' !! oid = Some (x, s) ->
    order_id x = oid /\ side x = s /\ (In x os' \/ F x).
Proof.
  induction os as [|m rest IH];
    intros e o p total idx trades e' o' os' total' idx' trades' H J.
  - simpl in H. inversion H; subst. exact J.
  - simpl in H. destruct (0 <? remaining_quantity o).
    2:{ inversion H; subst. exact J. }
    inv_ok H. destruct a as [e1 t].
    set (fill := Z.min (remaining_quantity o) (remaining_quantity m)) in *.
    fold (filled_by m fill) in H.
    pose proof (filled_by_fields m fill) as (Fid&_&_&Fsd&_).
    destruct (is_filled (filled_by m fill)).
    + eapply IH; [exact H|]. intros oid x s Hl.
      destruct (decide (oid = order_id (filled_by m fill))) as [->|Hne].
      { rewrite lookup_delete_eq in Hl. discriminate. }
      rewrite lookup_delete_ne in Hl by congruence.
      apply index_sync_lookup in Hl.
      destruct Hl as [(-> & _)|(Hl & _)]; [congruence|].
      destruct (J _ _ _ Hl) as (A & B & [[<-|C]|C]); auto. congruence.
    + inversion H; subst e' o' os' total' idx' trades'; clear H.
      intros oid x s Hl. apply index_sync_lookup in Hl.
      destruct Hl as [(-> & Hl & ->)|(Hl & Hx)].
      * destruct (J _ _ _ Hl) as (A & B & _).
        split; [assumption|]. split; [congruence|]. left. left. reflexivity.
      * destruct (J _ _ _ Hl) as (A & B & [[<-|C]|C]); auto.
        -- exfalso. apply Hx; [symmetry; exact A|reflexivity].
        -- split; [assumption|]. split; [assumption|]. left. right. assumption.
Qed.

Lemma match_levels_index (F : Order -> Prop) d :
  forall e o idx trades e' o' d' idx' trades',
  match_levels pe qe e o d idx trades = Ok (e', o', d', idx', trades') ->
  (forall oid x s, idx !! oid = Some (x, s) ->
     order_id x = oid /\ side x = s /\ (in_levels d x \/ F x)) ->
  forall oid x s, idx' !! oid = Some (x, s) ->
    order_id x = oid /\ side x = s /\ (in_levels d' x \/ F x).
Proof.
  induction d as [|[p l] rest IH]; intros e o idx trades e' o' d' idx' trades' H J.
  - simpl in H. inversion H; subst. exact J.
  - simpl in H. destruct (0 <? remaining_quantity o).
    2:{ inversion H; subst. exact J. }
    inv_ok H. rename a into ok. destruct ok; simpl in H.
    2:{ inversion H; subst. exact J. }
    inv_ok H. destruct a as [[[[[e1 o1] os1] total1] idx1] trades1].
    pose proof (match_level_index (fun x => in_levels rest x \/ F x) _ _ _ _ _ _ _
                  _ _ _ _ _ _ Hstep0) as Hl.
    assert (J1 : forall oid x s, idx1 !! oid = Some (x, s) ->
              order_id x = oid /\ side x = s /\
              (In x os1 \/ in_levels rest x \/ F x)).
    { apply Hl. intros oid x s Hx. destruct (J _ _ _ Hx) as (A & B & [C|C]); auto.
      destruct C as (kv & [<-|Hkv] & Hin); [auto|].
      split; [assumption|]. split; [assumption|]. right. left. exists kv. auto. }
    unfold PriceLevel.is_empty in H. simpl in H.
    destruct os1 as [|m1 os1]; simpl in H.
    + eapply IH; [exact H|]. intros oid x s Hx.
      destruct (J1 _ _ _ Hx) as (A & B & [[]|C]). auto.
    + inversion H; subst e' o' d' idx' trades'; clear H.
      intros oid x s Hx. destruct (J1 _ _ _ Hx) as (A & B & [C|[C|C]]); auto.
      * split; [assumption|]. split; [assumption|]. left.
        exists (p, PriceLevel.mk (PriceLevel.price l) (m1 :: os1) total1).
        split; [left; reflexivity|exact C].
      * split; [assumption|]. split; [assumption|]. left.
        destruct C as (kv & Hkv & Hin). exists kv. split; [right; assumption|assumption].
Qed.

Lemma levels_set_levels sd sd' d b :
  OrderBook.levels sd' (OrderBook.set_levels sd d b)
  = if decide (sd' = sd) then d else OrderBook.levels sd' b.
Proof. destruct sd, sd'; reflexivity. Qed.

Lemma levels_set_order_index sd idx b :
  OrderBook.levels sd (OrderBook.set_order_index idx b) = OrderBook.levels sd b.
Proof. destruct sd; reflexivity. Qed.

Lemma symbol_set_levels sd d b :
  OrderBook.symbol (OrderBook.set_levels sd d b) = OrderBook.symbol b.
Proof. destruct sd; reflexivity. Qed.

Lemma order_index_set_levels sd d b :
  OrderBook.order_index (OrderBook.set_levels sd d b) = OrderBook.order_index b.
Proof. destruct sd; reflexivity. Qed.

(** What [OrderBook.add_order] changes. *)
Lemma add_order_Ok b o b' :
  OrderBook.add_order b o = Ok b' ->
  exists p,
    price o = Some p /\
    OrderBook.symbol b' = OrderBook.symbol b /\
    OrderBook.order_index b' = <[order_id o := (o, side o)]> (OrderBook.order_index b) /\
    OrderBook.levels (side o) b'
      = SortedDict.set (OrderBook.key_of (side o)) p
          (PriceLevel.add_order
             (default (PriceLevel.new p)
                (SortedDict.get p (OrderBook.levels (side o) b))) o)
          (OrderBook.levels (side o) b) /\
    OrderBook.levels (opposite (side o)) b' = OrderBook.levels (opposite (side o)) b.
Proof.
  unfold OrderBook.add_order. destruct (price o) as [p|]; [|discriminate].
  intros H. inversion H; subst b'; clear H. exists p.
  split; [reflexivity|]. simpl.
  rewrite symbol_set_levels, order_index_set_levels.
  split; [reflexivity|]. split; [reflexivity|].
  rewrite !levels_set_order_index, !levels_set_levels.
  destruct (decide (side o = side o)); [|contradiction].
  split.
  - destruct (SortedDict.get p (OrderBook.levels (side o) b)); reflexivity.
  - destruct (decide (opposite (side o) = side o)) as [E|_]; [|reflexivity].
    destruct (side o); discriminate.
Qed.

(** What [OrderBook.remove_order] changes. *)
Lemma remove_order_Ok b oid b' o :
  OrderBook.remove_order b oid = Ok (b', o) ->
  exists sd p l os1 os2,
    OrderBook.order_index b !! oid = Some (o, sd) /\
    price o = Some p /\
    SortedDict.get p (OrderBook.levels sd b) = Some l /\
    PriceLevel.orders l = os1 ++ o :: os2 /\ ~ In o os1 /\
    OrderBook.symbol b' = OrderBook.symbol b /\
    OrderBook.order_index b' = delete oid (OrderBook.order_index b) /\
    OrderBook.levels sd b'
      = (if decide (os1 ++ os2 = [])
         then SortedDict.del p (OrderBook.levels sd b)
         else SortedDict.set (OrderBook.key_of sd) p
                (PriceLevel.mk (PriceLevel.price l) (os1 ++ os2)
                   (Dec.minus (PriceLevel.total_quantity l) (remaining_quantity o)))
                (OrderBook.levels sd b)) /\
    OrderBook.levels (opposite sd) b' = OrderBook.levels (opposite sd) b.
Proof.
  unfold OrderBook.remove_order.
  destruct (OrderBook.order_index b !! oid) as [[order sd]|] eqn:Ei; [|discriminate].
  destruct (price order) as [p|] eqn:Ep; [|discriminate].
  destruct (SortedDict.get p (OrderBook.levels sd b)) as [l|] eqn:El; [|discriminate].
  intros H. inv_ok H. rename a into l'. inversion H; subst b' o; clear H.
  unfold PriceLevel.remove_order in Hstep.
  destruct (list_remove order (PriceLevel.orders l)) as [os|] eqn:Er; [|discriminate].
  inversion Hstep; subst l'; clear Hstep.
  assert (Hsplit : exists os1 os2,
            PriceLevel.orders l = os1 ++ order :: os2 /\ os = os1 ++ os2 /\ ~ In order os1).
  { clear -Er. revert os Er. induction (PriceLevel.orders l) as [|y q IH]; simpl; intros os Er;
      [discriminate|].
    destruct (decide (y = order)) as [->|Hne].
    - inversion Er; subst. exists [], os. simpl. auto.
    - destruct (list_remove order q) as [q'|]; [|discriminate]. simpl in Er.
      inversion Er; subst os. destruct (IH q' eq_refl) as (os1 & os2 & -> & -> & Hn).
      exists (y :: os1), os2. simpl. split; [reflexivity|]. split; [reflexivity|].
      intros [E|E]; [congruence|contradiction]. }
  destruct Hsplit as (os1 & os2 & E1 & -> & Hn).
  exists sd, p, l, os1, os2.
  split; [reflexivity|]. split; [assumption|]. split; [assumption|].
  split; [assumption|]. split; [assumption|]. simpl.
  rewrite symbol_set_levels, order_index_set_levels.
  split; [reflexivity|]. split; [reflexivity|].
  rewrite !levels_set_order_index, !levels_set_levels.
  destruct (decide (sd = sd)); [|contradiction]. split.
  - unfold PriceLevel.is_empty. simpl.
    destruct (decide (os1 ++ os2 = [])) as [E|E].
    + rewrite E. reflexivity.
    + destruct (os1 ++ os2); [contradiction|reflexivity].
  - destruct (decide (opposite sd = sd)) as [E|_]; [|reflexivity].
    destruct sd; discriminate.
Qed.

Lemma SortedDict_set_In_new key p l d : In (p, l) (SortedDict.set key p l d).
Proof.
  induction d as [|[q m] d IH]; simpl; [auto|].
  destruct (p =? q); [left; reflexivity|].
  destruct (key p <? key q); [left; reflexivity|right; exact IH].
Qed.

Lemma SortedDict_set_In_other key p l d kv :
  In kv d -> fst kv <> p -> In kv (SortedDict.set key p l d).
Proof.
  induction d as [|[q m] d IH]; simpl; [tauto|].
  intros Hin Hne. destruct (p =? q) eqn:E.
  - apply Z.eqb_eq in E. subst q. destruct Hin as [<-|Hin]; [contradiction|].
    right. assumption.
  - destruct (key p <? key q); [right; assumption|].
    destruct Hin as [<-|Hin]; [left; reflexivity|right; auto].
Qed.

Lemma SortedDict_del_In_other p d kv :
  In kv d -> fst kv <> p -> In kv (SortedDict.del p d).
Proof.
  induction d as [|[q m] d IH]; simpl; [tauto|].
  intros Hin Hne. destruct (p =? q) eqn:E.
  - apply Z.eqb_eq in E. subst q. destruct Hin as [<-|Hin]; [contradiction|assumption].
  - destruct Hin as [<-|Hin]; [left; reflexivity|right; auto].
Qed.

Lemma levels_keyed_side sd b :
  levels_keyed BUY (OrderBook.bids b) = true ->
  levels_keyed SELL (OrderBook.asks b) = true ->
  levels_keyed sd (OrderBook.levels sd b) = true.
Proof. destruct sd; auto. Qed.

Lemma book_wf_intro sym b :
  OrderBook.symbol b = sym ->
  book_ok b = true ->
  (forall sd, levels_keyed sd (OrderBook.levels sd b) = true) ->
  index_rests b ->
  book_wf sym b.
Proof.
  intros H1 H2 H3 H4. split; [assumption|]. split; [assumption|].
  split; [exact (H3 BUY)|]. split; [exact (H3 SELL)|assumption].
Qed.

Lemma book_wf_keyed sym b sd :
  book_wf sym b -> levels_keyed sd (OrderBook.levels sd b) = true.
Proof. intros (_&_&H1&H2&_). apply levels_keyed_side; assumption. Qed.

Lemma side_cases sd sd' : sd' = sd \/ sd' = opposite sd.
Proof. destruct sd, sd'; auto. Qed.

Lemma add_order_wf sym b o b' :
  OrderBook.add_order b o = Ok b' -> order_type o = LIMIT ->
  0 < remaining_quantity o ->
  book_wf sym b -> book_wf sym b'.
Proof.
  intros H Hty Hpos Hwf.
  pose proof (add_order_book_ok _ _ _ H Hty Hpos) as Hok.
  apply add_order_Ok in H. destruct H as (p & Hp & Hsym & Hidx & Hl & Hopp).
  pose proof Hwf as (Hs & Hbok & _ & _ & Hir).
  apply book_wf_intro.
  - congruence.
  - auto.
  - intros sd. destruct (side_cases (side o) sd) as [->| ->].
    + rewrite Hl. apply levels_keyed_set.
      * eapply book_wf_keyed; eassumption.
      * destruct (SortedDict.get p _) as [l|] eqn:El; simpl; [|reflexivity].
        eapply levels_keyed_get; [eapply book_wf_keyed; eassumption|exact El].
      * simpl. intros E. apply app_eq_nil in E. destruct E; discriminate.
      * simpl. intros x Hx. apply in_app_or in Hx. destruct Hx as [Hx|[<-|[]]]; [|auto].
        destruct (SortedDict.get p _) as [l|] eqn:El; simpl in Hx; [|destruct Hx].
        eapply levels_keyed_get; [eapply book_wf_keyed; eassumption|exact El|exact Hx].
    + rewrite Hopp. eapply book_wf_keyed; eassumption.
  - assert (Hsorted : sorted_keys (OrderBook.key_of (side o))
                         (OrderBook.levels (side o) b) = true).
    { pose proof (book_ok_levels (side o) b Hbok) as Hl0.
      apply levels_ok_spec in Hl0. apply Hl0. }
    intros oid x s Hx. rewrite Hidx in Hx.
    destruct (decide (oid = order_id o)) as [->|Hne].
    + rewrite lookup_insert_eq in Hx. inversion Hx; subst x s.
      split; [reflexivity|]. split; [reflexivity|].
      unfold rests_on. rewrite Hl.
      eexists. split; [apply SortedDict_set_In_new|].
      simpl. apply in_or_app. right. left. reflexivity.
    + rewrite lookup_insert_ne in Hx by congruence.
      destruct (Hir _ _ _ Hx) as (A & B & kv & Hkv & Hin).
      split; [assumption|]. split; [assumption|].
      unfold rests_on. destruct (side_cases (side o) s) as [->| ->].
      * rewrite Hl. destruct kv as [q m]. destruct (decide (q = p)) as [->|Hq].
        -- rewrite (sorted_get_In _ _ _ _ Hsorted Hkv). simpl.
           eexists. split; [apply SortedDict_set_In_new|].
           simpl. apply in_or_app. left. exact Hin.
        -- exists (q, m). split; [|exact Hin].
           apply SortedDict_set_In_other; assumption.
      * rewrite Hopp. exists kv. auto.
Qed.

Lemma remove_order_wf sym b oid b' o :
  OrderBook.remove_order b oid = Ok (b', o) ->
  book_wf sym b -> book_wf sym b'.
Proof.
  intros H Hwf.
  pose proof Hwf as (Hs & Hbok & _ & _ & Hir).
  pose proof (remove_order_book_ok _ _ _ _ H Hbok) as Hok.
  apply remove_order_Ok in H.
  destruct H as (sd & p & l & os1 & os2 & Hi & Hp & Hg & Hos & Hn & Hsym & Hidx & Hl & Hopp).
  assert (Hsorted : sorted_keys (OrderBook.key_of sd) (OrderBook.levels sd b) = true).
  { pose proof (book_ok_levels sd b Hbok) as Hl0. apply levels_ok_spec in Hl0. apply Hl0. }
  destruct (levels_keyed_get _ _ _ _ (book_wf_keyed _ _ sd Hwf) Hg) as (Hlp & _ & Hlo).
  apply book_wf_intro.
  - congruence.
  - assumption.
  - intros sd'. destruct (side_cases sd sd') as [->| ->].
    + rewrite Hl. destruct (decide (os1 ++ os2 = [])) as [E|E].
      * apply levels_keyed_del. eapply book_wf_keyed; eassumption.
      * apply levels_keyed_set; [eapply book_wf_keyed; eassumption|assumption|assumption|].
        simpl. intros x Hx. apply Hlo. rewrite Hos.
        apply in_app_or in Hx. apply in_or_app. destruct Hx; [left|right; right]; assumption.
    + rewrite Hopp. eapply book_wf_keyed; eassumption.
  - intros oid' x s Hx. rewrite Hidx in Hx.
    destruct (decide (oid' = oid)) as [->|Hne].
    { rewrite lookup_delete_eq in Hx. discriminate. }
    rewrite lookup_delete_ne in Hx by congruence.
    destruct (Hir _ _ _ Hx) as (A & B & kv & Hkv & Hin).
    destruct (Hir _ _ _ Hi) as (A0 & _).
    assert (Hxo : x <> o) by congruence.
    split; [assumption|]. split; [assumption|].
    unfold rests_on. destruct (side_cases sd s) as [->| ->].
    + rewrite Hl. destruct kv as [q m]. destruct (decide (q = p)) as [->|Hq].
      * rewrite (sorted_get_In _ _ _ _ Hsorted Hkv) in Hg. inversion Hg; subst m.
        simpl in Hin. rewrite Hos in Hin.
        assert (Hin' : In x (os1 ++ os2)).
        { apply in_app_or in Hin. apply in_or_app.
          destruct Hin as [Hin|[Hin|Hin]]; [left; assumption|congruence|right; assumption]. }
        destruct (decide (os1 ++ os2 = [])) as [E|E]; [rewrite E in Hin'; destruct Hin'|].
        eexists. split; [apply SortedDict_set_In_new|exact Hin'].
      * exists (q, m). split; [|exact Hin].
        destruct (decide (os1 ++ os2 = []));
          [apply SortedDict_del_In_other|apply SortedDict_set_In_other]; assumption.
    + rewrite Hopp. exists kv. auto.
Qed.

Lemma match_levels_wf sym e o book e1 o1 d' idx' ts :
  match_levels pe qe e o (OrderBook.levels (opposite (side o)) book)
    (OrderBook.order_index book) [] = Ok (e1, o1, d', idx', ts) ->
  book_wf sym book ->
  book_wf sym (OrderBook.set_order_index idx'
                 (OrderBook.set_levels (opposite (side o)) d' book)).
Proof.
  intros Hm Hwf. pose proof Hwf as (Hs & Hbok & _ & _ & Hir).
  pose proof (match_levels_index (rests_on book (side o)) _ _ _ _ _ _ _ _ _ _ Hm) as Hidx.
  apply match_levels_Ok in Hm. destruct Hm as (new & _ & Hbf & _).
  set (sd := opposite (side o)) in *.
  assert (Hside : side o = opposite sd) by (subst sd; destruct (side o); reflexivity).
  assert (Hk' : levels_keyed sd d' = true).
  { eapply book_fills_keyed; [exact Hbf|]. eapply book_wf_keyed; eassumption. }
  apply book_wf_intro.
  - simpl. rewrite symbol_set_levels. assumption.
  - change (book_ok (OrderBook.set_levels sd d' book) = true).
    apply set_levels_book_ok; [assumption|].
    eapply book_fills_levels_ok; [exact Hbf|]. apply book_ok_levels. assumption.
  - intros sd'. rewrite levels_set_order_index, levels_set_levels.
    destruct (decide (sd' = sd)) as [->|_]; [assumption|].
    eapply book_wf_keyed; eassumption.
  - intros oid x s Hx. simpl in Hx.
    assert (J : forall (oid0 : string) (x0 : Order) (s0 : Side),
              OrderBook.order_index book !! oid0 = Some (x0, s0) ->
              order_id x0 = oid0 /\ side x0 = s0 /\
              (in_levels (OrderBook.levels sd book) x0 \/ rests_on book (side o) x0)).
    { intros oid0 x0 s0 H0. destruct (Hir _ _ _ H0) as (A & B & C).
      split; [assumption|]. split; [assumption|].
      destruct (side_cases sd s0) as [->| ->]; [left; exact C|].
      right. rewrite Hside. exact C. }
    destruct (Hidx J _ _ _ Hx) as (A & B & C).
    split; [assumption|]. split; [assumption|].
    unfold rests_on. rewrite levels_set_order_index, levels_set_levels.
    destruct C as [(kv & Hkv & Hin)|(kv & Hkv & Hin)].
    + rewrite levels_keyed_spec in Hk'. destruct (Hk' _ Hkv) as (_ & _ & Hso).
      destruct (Hso _ Hin) as [_ Hsx]. rewrite B in Hsx.
      destruct (decide (s = sd)); [|contradiction]. exists kv. auto.
    + pose proof (book_wf_keyed _ _ (side o) Hwf) as Hko.
      rewrite levels_keyed_spec in Hko. destruct (Hko _ Hkv) as (_ & _ & Hso).
      destruct (Hso _ Hin) as [_ Hsx]. rewrite B in Hsx.
      destruct (decide (s = sd)) as [E|_].
      { exfalso. rewrite Hsx, Hside in E. destruct sd; discriminate. }
      rewrite Hsx. exists kv. auto.
Qed.

Lemma book_wf_new sym : book_wf sym (OrderBook.new sym).
Proof.
  apply book_wf_intro; try reflexivity.
  - intros []; reflexivity.
  - intros oid o sd H. simpl in H. rewrite lookup_empty in H. discriminate.
Qed.

Lemma all_books_wf_insert e e' sym b :
  all_books_wf e -> book_wf sym b ->
  order_books e' = <[sym := b]> (order_books e) -> all_books_wf e'.
Proof.
  intros Hall Hb He' s b0 Hs. rewrite He' in Hs.
  destruct (decide (s = sym)) as [->|Hne].
  - rewrite lookup_insert_eq in Hs. inversion Hs; subst. assumption.
  - rewrite lookup_insert_ne in Hs by congruence. apply Hall. assumption.
Qed.

Lemma all_books_wf_same e e' :
  all_books_wf e -> order_books e' = order_books e -> all_books_wf e'.
Proof. intros Hall He' s b Hs. rewrite He' in Hs. apply Hall. assumption. Qed.

Lemma process_order_wf : forall e o e' o' r,
  process_order pe qe e o = Ok (e', o', r) -> all_books_wf e -> all_books_wf e'.
Proof.
  apply (process_order_rel (fun e0 e1 => all_books_wf e0 -> all_books_wf e1)).
  - auto.
  - auto.
  - intros e sym Hall. destruct (get_or_create_spec e sym) as (Hb & _).
    eapply all_books_wf_insert; [exact Hall| |exact Hb].
    unfold book_of. destruct (order_books e !! sym) as [b|] eqn:E; simpl.
    + apply Hall. assumption.
    + apply book_wf_new.
  - intros e o bk book e1 o1 d' idx' ts Hb Hm Hall.
    pose proof (match_levels_wf bk _ _ _ _ _ _ _ _ Hm (Hall _ _ Hb)) as Hwf.
    apply match_levels_Ok in Hm.
    destruct Hm as (new & _ & _ & _ & _ & _ & _ & _ & _ & (Hob & _) & _).
    eapply all_books_wf_insert; [exact Hall|exact Hwf|].
    unfold write_back. simpl. rewrite Hob. reflexivity.
  - intros e sym pending last _ Hall. eapply all_books_wf_same; [exact Hall|reflexivity].
  - intros e o bk e' Hadd Hty Hpos Hall. unfold add_to_book in Hadd.
    destruct (order_books e !! bk) as [book|] eqn:Hb; [|discriminate].
    inv_ok Hadd. rename a into book'. inversion Hadd; subst e'; clear Hadd.
    eapply all_books_wf_insert; [exact Hall| |reflexivity].
    eapply add_order_wf; eauto.
  - intros e o _ Hall. eapply all_books_wf_same; [exact Hall|reflexivity].
Qed.

Lemma cancel_order_wf : forall e oid sym e' b,
  cancel_order e oid sym = Ok (e', b) -> all_books_wf e -> all_books_wf e'.
Proof.
  apply (cancel_order_rel (fun e0 e1 => all_books_wf e0 -> all_books_wf e1)).
  - auto.
  - intros e sym book oid book' o Hb Hr Hall.
    eapply all_books_wf_insert; [exact Hall| |reflexivity].
    eapply remove_order_wf; eauto.
Qed.

Lemma reachable_all_books_wf e : reachable pe qe e -> all_books_wf e.
Proof.
  induction 1 as [fees maker taker|e o e' o' r _ IH H|e oid sym e' b _ IH H].
  - intros sym b Hb. simpl in Hb. rewrite lookup_empty in Hb. discriminate.
  - eapply process_order_wf; eassumption.
  - eapply cancel_order_wf; eassumption.
Qed.

Lemma reachable_distinct_reachable e :
  reachable_distinct pe qe e -> reachable pe qe e.
Proof.
  induction 1 as [fees maker taker|e o e' o' r _ IH _ H|e oid sym e' b _ IH H].
  - apply reach_new.
  - eapply reach_process; eassumption.
  - eapply reach_cancel; eassumption.
Qed.

(** X1. In every state reached from a new engine by [process_order] and
    [cancel_order], each order accepted by the constructor and submitted
    once, under an id that the engine does not hold and with prices that
    fit the precision, the book filed under a symbol
    carries that symbol; on each side the price levels are strictly
    ordered from the best price on, no level is empty, and every queued
    order is a limit order with a positive remaining quantity, queued at
    its own price on its own side; every entry of the order index is
    filed under the id of an order that rests in the book.  Nothing is
    said of the aggregate of a level, the rounded running total. *)
Theorem reachable_book_wf e sym b :
  reachable_distinct pe qe e -> order_books e !! sym = Some b ->
  OrderBook.symbol b = sym /\
  index_rests b /\
  forall sd,
    sorted_keys (OrderBook.key_of sd) (OrderBook.levels sd b) = true /\
    forall p l, In (p, l) (OrderBook.levels sd b) ->
      SortedDict.get p (OrderBook.levels sd b) = Some l /\
      PriceLevel.price l = p /\
      PriceLevel.orders l <> [] /\
      forall o, In o (PriceLevel.orders l) ->
        order_type o = LIMIT /\ 0 < remaining_quantity o /\
        price o = Some p /\ side o = sd.
Proof.
  intros Hr Hb. apply reachable_distinct_reachable in Hr.
  pose proof (reachable_all_books_wf _ Hr _ _ Hb) as Hwf.
  pose proof Hwf as (Hs & Hok & _ & _ & Hir).
  split; [assumption|]. split; [assumption|]. intros sd.
  pose proof (book_ok_levels sd b Hok) as Hl. apply levels_ok_spec in Hl.
  destruct Hl as [Hsorted Hl]. split; [assumption|]. intros p l Hin.
  pose proof (book_wf_keyed _ _ sd Hwf) as Hk. rewrite levels_keyed_spec in Hk.
  destruct (Hk _ Hin) as (K1 & K2 & K3). pose proof (Hl _ Hin) as L2. simpl in *.
  split; [eapply sorted_get_In; eassumption|].
  split; [assumption|]. split; [assumption|].
  intros o Ho. destruct (L2 _ Ho) as [A B]. destruct (K3 _ Ho) as [C D]. auto.
Qed.

(** ** Lookup in a side after an update *)

Lemma SortedDict_get_set_eq key p l d :
  SortedDict.get p (SortedDict.set key p l d) = Some l.
Proof.
  induction d as [|[q m] d IH]; simpl.
  - rewrite Z.eqb_refl. reflexivity.
  - destruct (p =? q) eqn:E; simpl.
    + rewrite Z.eqb_refl. reflexivity.
    + destruct (key p <? key q); simpl.
      * rewrite Z.eqb_refl. reflexivity.
      * rewrite E. exact IH.
Qed.

Lemma SortedDict_get_set_ne key p q l d :
  q <> p -> SortedDict.get q (SortedDict.set key p l d) = SortedDict.get q d.
Proof.
  intros Hne. assert (Eqp : (q =? p) = false) by (apply Z.eqb_neq; assumption).
  induction d as [|[q0 m] d IH]; simpl.
  - rewrite Eqp. reflexivity.
  - destruct (p =? q0) eqn:E; simpl.
    + apply Z.eqb_eq in E. subst q0. rewrite Eqp. reflexivity.
    + destruct (key p <? key q0); simpl.
      * rewrite Eqp. reflexivity.
      * rewrite IH. reflexivity.
Qed.

Lemma SortedDict_get_del_ne p q d :
  q <> p -> SortedDict.get q (SortedDict.del p d) = SortedDict.get q d.
Proof.
  intros Hne. assert (Eqp : (q =? p) = false) by (apply Z.eqb_neq; assumption).
  induction d as [|[q0 m] d IH]; simpl; [reflexivity|].
  destruct (p =? q0) eqn:E; simpl.
  - apply Z.eqb_eq in E. subst q0. rewrite Eqp. reflexivity.
  - rewrite IH. reflexivity.
Qed.

Lemma SortedDict_get_None p d :
  (forall l, ~ In (p, l) d) -> SortedDict.get p d = None.
Proof.
  intros H. destruct (SortedDict.get p d) as [l|] eqn:E; [|reflexivity].
  apply SortedDict_get_In in E. exfalso. eapply H; eassumption.
Qed.

Lemma SortedDict_get_del_eq sd p d :
  sorted_keys (OrderBook.key_of sd) d = true ->
  SortedDict.get p (SortedDict.del p d) = None.
Proof.
  induction d as [|[q m] d IH]; simpl; [reflexivity|].
  intros Hs. apply andb_true_iff in Hs. destruct Hs as [Hhd Htl].
  destruct (p =? q) eqn:E; simpl.
  - apply Z.eqb_eq in E. subst q. apply SortedDict_get_None. intros l Hin.
    rewrite forallb_forall in Hhd. specialize (Hhd _ Hin). simpl in Hhd.
    apply Z.ltb_lt in Hhd. lia.
  - rewrite E. auto.
Qed.

(** The first occurrence of an element of a list. *)
Lemma list_remove_In {A} `{EqDecision A} (x : A) l :
  In x l ->
  exists l1 l2, l = l1 ++ x :: l2 /\ ~ In x l1 /\ list_remove x l = Some (l1 ++ l2).
Proof.
  induction l as [|y l IH]; simpl; [tauto|].
  intros Hin. destruct (decide (y = x)) as [->|Hne].
  - exists [], l. simpl. auto.
  - destruct Hin as [E|Hin]; [contradiction|].
    destruct (IH Hin) as (l1 & l2 & -> & Hn & Hr). rewrite Hr.
    exists (y :: l1), l2. simpl. split; [reflexivity|]. split; [|reflexivity].
    intros [E|E]; [contradiction|auto].
Qed.

(** ** Cancellation *)

(** X2. In a reachable state [cancel_order] raises no error.  For an id
    that the book of the symbol does not hold (or a symbol without book)
    it returns [False] and changes nothing.  For the id of a resting order
    it returns [True]: the order leaves its place in the queue of its
    price level, the orders before and behind it keep theirs, every other
    level of the book is as before, and the id is no longer known to the
    book while every other id is. *)
Theorem cancel_order_spec e oid sym :
  reachable pe qe e ->
  match OrderBook.get_order (book_of e sym) oid with
  | None => cancel_order e oid sym = Ok (e, false)
  | Some o =>
      exists b' p os1 os2,
        cancel_order e oid sym
          = Ok (set_order_books e (<[sym := b']> (order_books e)), true) /\
        order_id o = oid /\ price o = Some p /\
        queue_at (book_of e sym) (side o) p = os1 ++ o :: os2 /\
        ~ In o os1 /\
        queue_at b' (side o) p = os1 ++ os2 /\
        (forall sd q, (sd, q) <> (side o, p) ->
           SortedDict.get q (OrderBook.levels sd b')
           = SortedDict.get q (OrderBook.levels sd (book_of e sym))) /\
        OrderBook.has_order b' oid = false /\
        (forall oid', oid' <> oid ->
           OrderBook.get_order b' oid' = OrderBook.get_order (book_of e sym) oid')
  end.
Proof.
  intros Hr. unfold book_of, cancel_order.
  destruct (order_books e !! sym) as [b|] eqn:Hb; simpl.
  2:{ unfold OrderBook.get_order. simpl. rewrite lookup_empty. reflexivity. }
  pose proof (reachable_all_books_wf _ Hr _ _ Hb) as Hwf.
  pose proof Hwf as (_ & Hok & _ & _ & Hir).
  unfold OrderBook.get_order, OrderBook.has_order.
  destruct (OrderBook.order_index b !! oid) as [[o sd]|] eqn:Hi; simpl.
  2:{ reflexivity. }
  destruct (Hir _ _ _ Hi) as (Hid & Hsd & [p l] & Hkv & Hin). subst sd.
  pose proof (book_wf_keyed _ _ (side o) Hwf) as Hk.
  rewrite levels_keyed_spec in Hk. destruct (Hk _ Hkv) as (_ & _ & Hko).
  destruct (Hko _ Hin) as [Hp _]. simpl in Hp, Hin.
  assert (Hsorted : sorted_keys (OrderBook.key_of (side o))
                      (OrderBook.levels (side o) b) = true).
  { pose proof (book_ok_levels (side o) b Hok) as Hl0.
    apply levels_ok_spec in Hl0. apply Hl0. }
  pose proof (sorted_get_In _ _ _ _ Hsorted Hkv) as Hg.
  destruct (list_remove_In _ _ Hin) as (os1 & os2 & Hos & Hn & Hrm).
  unfold OrderBook.remove_order. rewrite Hi, Hp, Hg.
  unfold PriceLevel.remove_order. rewrite Hrm. simpl.
  eexists _, p, os1, os2. split; [reflexivity|].
  split; [assumption|]. split; [reflexivity|].
  unfold queue_at. rewrite Hg.
  split; [assumption|]. split; [assumption|].
  rewrite !levels_set_order_index, !levels_set_levels.
  destruct (decide (side o = side o)); [|contradiction].
  unfold PriceLevel.is_empty. simpl.
  split; [|split; [|split]].
  - destruct (os1 ++ os2) eqn:E; simpl.
    + erewrite SortedDict_get_del_eq by eassumption. reflexivity.
    + rewrite SortedDict_get_set_eq. reflexivity.
  - intros sd q Hne. rewrite levels_set_order_index, levels_set_levels.
    destruct (decide (sd = side o)) as [->|Hsd]; [|reflexivity].
    assert (Hq : q <> p) by congruence.
    destruct (bool_decide (length (os1 ++ os2) = 0%nat)).
    + apply SortedDict_get_del_ne. assumption.
    + apply SortedDict_get_set_ne. assumption.
  - rewrite order_index_set_levels.
    apply bool_decide_eq_false_2. rewrite lookup_delete_eq. intros [x Hx]. discriminate.
  - intros oid' Hne. rewrite order_index_set_levels.
    rewrite lookup_delete_ne by congruence. reflexivity.
Qed.

(** ** Market data: best bid and offer, depth *)

Lemma sum_remaining_pos os :
  os <> [] -> (forall o, In o os -> 0 < remaining_quantity o) -> 0 < sum_remaining os.
Proof.
  destruct os as [|m os]; [contradiction|]. intros _ H. simpl.
  assert (0 < remaining_quantity m) by (apply H; left; reflexivity).
  assert (0 <= sum_remaining os); [|lia].
  clear -H. induction os as [|x os IH]; simpl; [lia|].
  assert (0 < remaining_quantity x) by (apply H; right; left; reflexivity).
  assert (0 <= sum_remaining os); [|lia].
  apply IH. intros o [<-|Ho]; apply H; [left|right; right]; auto.
Qed.

(** The queue of a level of a well-formed book. *)
Lemma book_wf_level sym b sd p l :
  book_wf sym b -> In (p, l) (OrderBook.levels sd b) ->
  SortedDict.get p (OrderBook.levels sd b) = Some l /\
  queue_at b sd p = PriceLevel.orders l /\
  PriceLevel.orders l <> [] /\
  0 < sum_remaining (PriceLevel.orders l).
Proof.
  intros Hwf Hin. pose proof Hwf as (_ & Hok & _).
  pose proof (book_ok_levels sd b Hok) as Hl. apply levels_ok_spec in Hl.
  destruct Hl as [Hsorted Hl]. pose proof (Hl _ Hin) as L2. simpl in *.
  pose proof (book_wf_keyed _ _ sd Hwf) as Hk. rewrite levels_keyed_spec in Hk.
  destruct (Hk _ Hin) as (_ & K2 & _). simpl in *.
  unfold queue_at. rewrite (sorted_get_In _ _ _ _ Hsorted Hin).
  split; [reflexivity|]. split; [reflexivity|]. split; [assumption|].
  apply sum_remaining_pos; [assumption|]. intros o Ho. apply L2. assumption.
Qed.

Lemma book_wf_sorted sym b sd :
  book_wf sym b -> sorted_keys (OrderBook.key_of sd) (OrderBook.levels sd b) = true.
Proof.
  intros (_ & Hok & _). pose proof (book_ok_levels sd b Hok) as Hl.
  apply levels_ok_spec in Hl. apply Hl.
Qed.

Lemma best_of_head sym b sd :
  book_wf sym b ->
  best_of b sd (fst <$> head (OrderBook.levels sd b))
    (match head (OrderBook.levels sd b) with
     | Some (_, l) => PriceLevel.total_quantity l
     | None => 0
     end).
Proof.
  intros Hwf. pose proof (book_wf_sorted _ _ sd Hwf) as Hs.
  destruct (OrderBook.levels sd b) as [|[p l] d] eqn:E; simpl; [auto|].
  assert (Hin : In (p, l) (OrderBook.levels sd b)) by (rewrite E; left; reflexivity).
  destruct (book_wf_level _ _ _ _ _ Hwf Hin) as (Hg & Hq & Hne & Hpos).
  rewrite Hq. split; [exists l; split; [exact Hg|reflexivity]|].
  split; [assumption|].
  intros q lq Hq'. rewrite <- E in Hs.
  assert (Hh : head (OrderBook.levels sd b) = Some (p, l)) by (rewrite E; reflexivity).
  pose proof (sorted_head_min _ _ _ _ Hs Hh Hq') as Hmin.
  destruct sd; simpl in Hmin; lia.
Qed.

(** X3. In a state reached by admissible orders (accepted by the
    constructor, submitted once, prices within the precision) the BBO of a book names its symbol; on each side
    it gives no price and quantity 0 when the side is empty, and
    otherwise the best price of the side (the highest bid, the lowest
    ask) with the aggregate of the level at that price, the rounded
    running total; the orders queued there hold a positive quantity. *)
Theorem calculate_bbo_best e sym b :
  reachable_distinct pe qe e -> order_books e !! sym = Some b ->
  let bbo := OrderBook.calculate_bbo b in
  bbo_symbol bbo = sym /\
  best_of b BUY (best_bid bbo) (best_bid_quantity bbo) /\
  best_of b SELL (best_ask bbo) (best_ask_quantity bbo).
Proof.
  intros Hr Hb. apply reachable_distinct_reachable in Hr.
  pose proof (reachable_all_books_wf _ Hr _ _ Hb) as Hwf.
  pose proof (best_of_head _ _ BUY Hwf) as HB.
  pose proof (best_of_head _ _ SELL Hwf) as HA.
  cbv zeta. unfold OrderBook.calculate_bbo, OrderBook.get_best_bid, OrderBook.get_best_ask.
  simpl in HB, HA.
  destruct (head (OrderBook.bids b)) as [[pb lb]|];
    destruct (head (OrderBook.asks b)) as [[pa la]|]; simpl;
    (split; [apply Hwf|split; assumption]).
Qed.

Lemma depth_loop_take d : forall i n,
  OrderBook.depth_loop i n d
  = map (fun kv => (fst kv, PriceLevel.total_quantity (snd kv)))
        (take (Z.to_nat (n - i)) d).
Proof.
  induction d as [|[p l] d IH]; intros i n; simpl.
  - rewrite take_nil. reflexivity.
  - destruct (n <=? i) eqn:E.
    + apply Z.leb_le in E. replace (Z.to_nat (n - i)) with 0%nat by lia. reflexivity.
    + apply Z.leb_gt in E.
      replace (Z.to_nat (n - i)) with (S (Z.to_nat (n - (i + 1)))) by lia.
      simpl. rewrite IH. reflexivity.
Qed.

Lemma depth_of_loop sym b sd n :
  book_wf sym b -> depth_of b sd n (OrderBook.depth_loop 0 n (OrderBook.levels sd b)).
Proof.
  intros Hwf. rewrite depth_loop_take, Z.sub_0_r.
  set (d := OrderBook.levels sd b).
  assert (Hlk : forall i p q,
            map (fun kv => (fst kv, PriceLevel.total_quantity (snd kv)))
              (take (Z.to_nat n) d) !! i = Some (p, q) ->
            exists l, d !! i = Some (p, l) /\ q = PriceLevel.total_quantity l).
  { intros i p q H. rewrite list_lookup_fmap in H.
    destruct (take (Z.to_nat n) d !! i) as [[p0 l]|] eqn:E; [|discriminate].
    simpl in H. inversion H; subst. apply lookup_take_Some in E.
    exists l. split; [apply E|reflexivity]. }
  split; [|split].
  - rewrite length_map, length_take. reflexivity.
  - intros i p q H. destruct (Hlk _ _ _ H) as (l & Hl & ->).
    split; [eauto|].
    assert (Hin : In (p, l) (OrderBook.levels sd b)).
    { apply list_elem_of_In. eapply list_elem_of_lookup_2. exact Hl. }
    destruct (book_wf_level _ _ _ _ _ Hwf Hin) as (_ & Hq & _ & Hpos).
    rewrite Hq. exact Hpos.
  - intros i j p1 q1 p2 q2 Hij H1 H2.
    destruct (Hlk _ _ _ H1) as (l1 & Hl1 & _). destruct (Hlk _ _ _ H2) as (l2 & Hl2 & _).
    pose proof (book_wf_sorted _ _ sd Hwf) as Hs. rewrite sorted_keys_spec in Hs.
    specialize (Hs _ _ _ _ Hij Hl1 Hl2). destruct sd; simpl in Hs; lia.
Qed.

(** X4. In a state reached by admissible orders (accepted by the
    constructor, submitted once, prices within the precision)
    [get_order_book_snapshot(symbol, levels)] is
    [None] exactly for a symbol without book.  Otherwise it names the
    symbol and lists, for each side, the first [levels] price levels of
    the book (all of them if there are fewer, none for [levels <= 0]),
    best price first, each with the aggregate of the level, the rounded
    running total; the orders queued there hold a positive quantity. *)
Theorem get_order_book_snapshot_spec e sym n :
  reachable_distinct pe qe e ->
  match get_order_book_snapshot e sym n with
  | None => order_books e !! sym = None
  | Some s =>
      exists b, order_books e !! sym = Some b /\
        snapshot_symbol s = sym /\
        (snapshot_bids s, snapshot_asks s) = OrderBook.get_depth b n /\
        depth_of b BUY n (snapshot_bids s) /\
        depth_of b SELL n (snapshot_asks s)
  end.
Proof.
  intros Hr. apply reachable_distinct_reachable in Hr. unfold get_order_book_snapshot.
  destruct (order_books e !! sym) as [b|] eqn:Hb; [|reflexivity].
  pose proof (reachable_all_books_wf _ Hr _ _ Hb) as Hwf.
  unfold OrderBook.get_depth. simpl. exists b.
  split; [reflexivity|]. split; [reflexivity|]. split; [reflexivity|].
  split; [exact (depth_of_loop _ _ BUY n Hwf)|exact (depth_of_loop _ _ SELL n Hwf)].
Qed.

(** ** The order book: adding and removing an order *)

Lemma SortedDict_del_set key p l d :
  SortedDict.get p d = None -> SortedDict.del p (SortedDict.set key p l d) = d.
Proof.
  induction d as [|[q m] d IH]; simpl.
  - rewrite Z.eqb_refl. reflexivity.
  - destruct (p =? q) eqn:E; [discriminate|]. intros Hg.
    destruct (key p <? key q); simpl.
    + rewrite Z.eqb_refl. reflexivity.
    + rewrite E, IH by assumption. reflexivity.
Qed.

Lemma SortedDict_set_set key p l1 l2 d :
  SortedDict.set key p l2 (SortedDict.set key p l1 d) = SortedDict.set key p l2 d.
Proof.
  induction d as [|[q m] d IH]; simpl.
  - rewrite Z.eqb_refl. reflexivity.
  - destruct (p =? q) eqn:E; simpl.
    + rewrite Z.eqb_refl. reflexivity.
    + destruct (key p <? key q) eqn:E'; simpl.
      * rewrite Z.eqb_refl. reflexivity.
      * rewrite E, E', IH. reflexivity.
Qed.

Lemma SortedDict_set_id sd p l d :
  sorted_keys (OrderBook.key_of sd) d = true ->
  SortedDict.get p d = Some l -> SortedDict.set (OrderBook.key_of sd) p l d = d.
Proof.
  induction d as [|[q m] d IH]; simpl; [discriminate|].
  intros Hs Hg. apply andb_true_iff in Hs. destruct Hs as [Hhd Htl].
  destruct (p =? q) eqn:E.
  - apply Z.eqb_eq in E. inversion Hg; subst. reflexivity.
  - apply SortedDict_get_In in Hg as Hin. rewrite forallb_forall in Hhd.
    specialize (Hhd _ Hin). simpl in Hhd. apply Z.ltb_lt in Hhd.
    destruct (OrderBook.key_of sd p <? OrderBook.key_of sd q) eqn:E'.
    + apply Z.ltb_lt in E'. lia.
    + rewrite IH by assumption. reflexivity.
Qed.

Lemma book_ext b1 b2 :
  OrderBook.symbol b1 = OrderBook.symbol b2 ->
  (forall sd, OrderBook.levels sd b1 = OrderBook.levels sd b2) ->
  OrderBook.order_index b1 = OrderBook.order_index b2 ->
  b1 = b2.
Proof.
  destruct b1, b2. simpl. intros -> H ->.
  pose proof (H BUY) as HB. pose proof (H SELL) as HA. simpl in *. subst. reflexivity.
Qed.

(** What [OrderBook.add_order] does to the queues and to the index. *)
Lemma add_order_effect b o p b' :
  price o = Some p ->
  OrderBook.add_order b o = Ok b' ->
  queue_at b' (side o) p = queue_at b (side o) p ++ [o] /\
  (forall sd q, (sd, q) <> (side o, p) ->
     SortedDict.get q (OrderBook.levels sd b')
     = SortedDict.get q (OrderBook.levels sd b)) /\
  OrderBook.get_order b' (order_id o) = Some o /\
  OrderBook.has_order b' (order_id o) = true /\
  (forall oid, oid <> order_id o ->
     OrderBook.get_order b' oid = OrderBook.get_order b oid).
Proof.
  intros Hp H. apply add_order_Ok in H.
  destruct H as (p' & Hp' & _ & Hidx & Hl & Hopp).
  rewrite Hp in Hp'. inversion Hp'; subst p'; clear Hp'.
  unfold queue_at, OrderBook.get_order, OrderBook.has_order.
  rewrite Hl, Hidx, SortedDict_get_set_eq, lookup_insert_eq. simpl.
  split; [destruct (SortedDict.get p _); reflexivity|].
  split; [|split; [reflexivity|split; [reflexivity|]]].
  - intros sd q Hne. destruct (side_cases (side o) sd) as [->| ->].
    + rewrite Hl. apply SortedDict_get_set_ne. congruence.
    + rewrite Hopp. reflexivity.
  - intros oid Hne. rewrite lookup_insert_ne by congruence. reflexivity.
Qed.

(** X5. [OrderBook.add_order] of an order with a price puts the order at
    the back of the queue of its price on its side, creating the level if
    there is none; the other levels are untouched, the order is found
    under its id, and the other ids are found as before. *)
Theorem add_order_queues_last b o p b' :
  price o = Some p ->
  OrderBook.add_order b o = Ok b' ->
  queue_at b' (side o) p = queue_at b (side o) p ++ [o] /\
  (forall sd q, (sd, q) <> (side o, p) ->
     SortedDict.get q (OrderBook.levels sd b')
     = SortedDict.get q (OrderBook.levels sd b)) /\
  OrderBook.get_order b' (order_id o) = Some o /\
  OrderBook.has_order b' (order_id o) = true /\
  (forall oid, oid <> order_id o ->
     OrderBook.get_order b' oid = OrderBook.get_order b oid).
Proof. exact (add_order_effect b o p b'). Qed.

(** X6. Adding an order to a well-formed book and removing it again by
    its id gives the book back, provided the id is new to the book, the
    order is not already queued at its price, and the aggregate of the
    level at its price fits the precision before and after the order is
    added, so that neither the addition nor the subtraction rounds. *)
Theorem add_remove_round_trip sym b o p b' :
  book_wf sym b ->
  price o = Some p ->
  OrderBook.has_order b (order_id o) = false ->
  ~ In o (queue_at b (side o) p) ->
  (forall l, SortedDict.get p (OrderBook.levels (side o) b) = Some l ->
     within_precision (PriceLevel.total_quantity l) /\
     within_precision (PriceLevel.total_quantity l + remaining_quantity o)) ->
  OrderBook.add_order b o = Ok b' ->
  OrderBook.remove_order b' (order_id o) = Ok (b, o).
Proof.
  intros Hwf Hp Hfresh Hnot Hfit H.
  unfold OrderBook.has_order in Hfresh. apply bool_decide_eq_false in Hfresh.
  assert (Hnone : OrderBook.order_index b !! order_id o = None).
  { destruct (OrderBook.order_index b !! order_id o) eqn:E; [|reflexivity].
    exfalso. apply Hfresh. eauto. }
  pose proof (book_wf_sorted _ _ (side o) Hwf) as Hs.
  unfold OrderBook.add_order in H. rewrite Hp in H. inversion H; subst b'; clear H.
  unfold OrderBook.remove_order. simpl.
  rewrite order_index_set_levels, lookup_insert_eq, Hp.
  rewrite levels_set_order_index, levels_set_levels.
  destruct (decide (side o = side o)); [|contradiction].
  rewrite SortedDict_get_set_eq.
  unfold PriceLevel.remove_order, PriceLevel.add_order. cbn [PriceLevel.orders].
  unfold queue_at in Hnot.
  destruct (SortedDict.get p (OrderBook.levels (side o) b)) as [l|] eqn:Hg.
  - rewrite list_remove_middle by assumption. rewrite app_nil_r. simpl.
    destruct (levels_keyed_get _ _ _ _ (book_wf_keyed _ _ (side o) Hwf) Hg) as (_ & Hne & _).
    unfold PriceLevel.is_empty. simpl.
    destruct (PriceLevel.orders l) as [|x os] eqn:El; [contradiction|]. simpl.
    f_equal. f_equal. apply book_ext.
    + simpl. rewrite symbol_set_levels. simpl. rewrite symbol_set_levels. reflexivity.
    + intros sd. rewrite levels_set_order_index, levels_set_levels.
      destruct (decide (sd = side o)) as [->|Hsd].
      * rewrite SortedDict_set_set.
        destruct (Hfit l eq_refl) as [Hw1 Hw2].
        rewrite (plus_exact _ _ Hw2). unfold Dec.minus.
        replace (PriceLevel.total_quantity l + remaining_quantity o - remaining_quantity o)
          with (PriceLevel.total_quantity l) by lia.
        rewrite (round_exact _ Hw1).
        rewrite <- El.
        replace {| PriceLevel.price := PriceLevel.price l;
                   PriceLevel.orders := PriceLevel.orders l;
                   PriceLevel.total_quantity := PriceLevel.total_quantity l |}
          with l by (destruct l; reflexivity).
        apply SortedDict_set_id; assumption.
      * rewrite levels_set_order_index, levels_set_levels.
        destruct (decide (sd = side o)); [contradiction|reflexivity].
    + simpl. rewrite order_index_set_levels. simpl.
      apply delete_insert_id. assumption.
  - simpl. destruct (decide (o = o)); [|contradiction]. simpl.
    f_equal. f_equal. apply book_ext.
    + simpl. rewrite symbol_set_levels. simpl. rewrite symbol_set_levels. reflexivity.
    + intros sd. rewrite levels_set_order_index, levels_set_levels.
      destruct (decide (sd = side o)) as [->|Hsd].
      * apply SortedDict_del_set. assumption.
      * rewrite levels_set_order_index, levels_set_levels.
        destruct (decide (sd = side o)); [contradiction|reflexivity].
    + simpl. rewrite order_index_set_levels. simpl.
      apply delete_insert_id. assumption.
Qed.

(** X7. [update_order_quantity] brings the aggregate of a level in step
    after the remaining quantity of one of its orders changed from
    [old_qty]: when the sum of the remaining quantities of the queue fits
    the precision, with and without the order, the aggregate becomes that
    sum; the queue, the other levels, the index and the symbol stay. *)
Theorem update_order_quantity_spec b o old_qty p l :
  price o = Some p ->
  SortedDict.get p (OrderBook.levels (side o) b) = Some l ->
  In o (PriceLevel.orders l) ->
  PriceLevel.total_quantity l
    = sum_remaining (PriceLevel.orders l) - remaining_quantity o + old_qty ->
  within_precision (sum_remaining (PriceLevel.orders l) - remaining_quantity o) ->
  within_precision (sum_remaining (PriceLevel.orders l)) ->
  let b' := OrderBook.update_order_quantity b o old_qty in
  SortedDict.get p (OrderBook.levels (side o) b')
    = Some (PriceLevel.mk (PriceLevel.price l) (PriceLevel.orders l)
              (sum_remaining (PriceLevel.orders l))) /\
  (forall sd q, (sd, q) <> (side o, p) ->
     SortedDict.get q (OrderBook.levels sd b')
     = SortedDict.get q (OrderBook.levels sd b)) /\
  OrderBook.order_index b' = OrderBook.order_index b /\
  OrderBook.symbol b' = OrderBook.symbol b.
Proof.
  intros Hp Hg Hin Ht Hw1 Hw2. cbv zeta. unfold OrderBook.update_order_quantity.
  rewrite Hp, Hg. unfold PriceLevel.is_empty, PriceLevel.update_quantity. simpl.
  destruct (PriceLevel.orders l) as [|x os] eqn:El; [destruct Hin|]. simpl.
  rewrite symbol_set_levels, order_index_set_levels, levels_set_levels.
  destruct (decide (side o = side o)); [|contradiction].
  rewrite SortedDict_get_set_eq.
  split; [|split; [|split; reflexivity]].
  - f_equal. f_equal. rewrite Ht. unfold Dec.plus, Dec.minus.
    replace (sum_remaining (x :: os) - remaining_quantity o + old_qty - old_qty)
      with (sum_remaining (x :: os) - remaining_quantity o) by lia.
    rewrite (round_exact _ Hw1).
    replace (sum_remaining (x :: os) - remaining_quantity o + remaining_quantity o)
      with (sum_remaining (x :: os)) by lia.
    exact (round_exact _ Hw2).
  - intros sd q Hne. rewrite levels_set_levels.
    destruct (decide (sd = side o)) as [->|_]; [|reflexivity].
    apply SortedDict_get_set_ne. congruence.
Qed.

(** ** Outcome of a limit order and of an IOC order *)

Lemma add_to_book_Ok e o bk e' :
  add_to_book e o bk = Ok e' ->
  exists book book',
    order_books e !! bk = Some book /\
    OrderBook.add_order book o = Ok book' /\
    e' = set_order_books e (<[bk := book']> (order_books e)).
Proof.
  unfold add_to_book. destruct (order_books e !! bk) as [book|]; [|discriminate].
  intros H. inv_ok H. rename a into book'. inversion H; subst.
  exists book, book'. auto.
Qed.

(** The matching phase of [process_order], for an order that is neither a
    stop order nor a rejected FOK order. *)
Lemma process_order_match e o e' o' r :
  process_order pe qe e o = Ok (e', o', r) ->
  is_stop_type (order_type o) = false ->
  order_type o <> FOK ->
  exists ea o1 d' idx',
    match_levels pe qe (fst (get_or_create_order_book e (symbol o))) o
      (OrderBook.levels (opposite (side o)) (book_of e (symbol o)))
      (OrderBook.order_index (book_of e (symbol o))) []
    = Ok (ea, o1, d', idx', result_trades r) /\
    result_remaining_quantity r = remaining_quantity o1 /\
    same_order o o1 /\
    ((remaining_quantity o1 <= 0 /\ o' = o1 /\
      result_status r = status_after_match o1)
     \/
     (0 < remaining_quantity o1 /\ order_type o1 = LIMIT /\ o' = o1 /\
      (exists e1, add_to_book e1 o1 (symbol o) = Ok e') /\
      result_status r =
        match result_trades r with [] => "accepted" | _ => "partial" end)
     \/
     (0 < remaining_quantity o1 /\ order_type o1 <> LIMIT /\
      o' = set_status o1 CANCELLED /\
      result_status r = status_after_match o1)).
Proof.
  intros H Hst Hfok. apply process_order_Ok in H. cbv zeta in H.
  destruct H as [(Hs&_)|[(_&Hf&_)|(_&_&e1&o1&Hm&Hrem&Hso&Hcases)]];
    [congruence|contradiction|].
  apply match_order_Ok in Hm.
  destruct Hm as (f' & book & ea & d' & idx' & _ & Hb & Hm & _).
  rewrite book_of_get_or_create in Hb. inversion Hb; subst book; clear Hb.
  exists ea, o1, d', idx'. split; [assumption|]. split; [assumption|].
  split; [assumption|].
  destruct Hcases as [(A&_&B&C)|[(A&B&C&D&E)|(A&B&_&C&D)]].
  - left. auto.
  - right. left. split; [assumption|]. split; [assumption|]. split; [assumption|].
    split; [eauto|assumption].
  - right. right. auto.
Qed.

(** X8. A new limit order whose quantity fits the precision of the
    decimal context is matched and what remains of it rests: the order
    ends with its quantity less the quantities of its trades; with
    nothing left the status returned is "filled"; otherwise the order
    stands at the back of the queue of its price on its side, is found
    under its id, and the status returned is "accepted" without a trade
    and "partial" with one. *)
Theorem limit_order_outcome e o e' o' r :
  process_order pe qe e o = Ok (e', o', r) ->
  order_type o = LIMIT ->
  0 < quantity o ->
  remaining_quantity o = quantity o ->
  within_precision (quantity o) ->
  same_order o o' /\
  remaining_quantity o' = quantity o - sum_qty (result_trades r) /\
  result_remaining_quantity r = remaining_quantity o' /\
  0 <= remaining_quantity o' /\
  (remaining_quantity o' = 0 -> result_status r = "filled") /\
  (0 < remaining_quantity o' ->
     result_status r
       = match result_trades r with [] => "accepted" | _ => "partial" end /\
     exists p os,
       price o = Some p /\
       queue_at (book_of e' (symbol o)) (side o) p = os ++ [o'] /\
       OrderBook.get_order (book_of e' (symbol o)) (order_id o) = Some o').
Proof.
  intros H Hty Hq Hfresh Hwp.
  destruct (process_order_match _ _ _ _ _ H) as (ea & o1 & d' & idx' & Hm & Hrem & Hso & Hcases);
    [rewrite Hty; reflexivity|congruence|].
  apply match_levels_Ok in Hm. simpl in Hm.
  destruct Hm as (new & Hnew & _ & Hr & Hnn & _).
  rewrite Hfresh in Hr, Hnn. specialize (Hr Hwp). rewrite Hnew.
  assert (Hty1 : order_type o1 = LIMIT) by (destruct Hso as (_&_&E&_); congruence).
  destruct Hcases as [(Hle&->&Hstat)|[(Hpos&_&->&(e1&Hadd)&Hstat)|(_&Hn&_)]];
    [| |contradiction].
  - split; [assumption|]. split; [assumption|]. split; [assumption|].
    split; [apply Hnn; lia|]. split; [|intros; lia].
    intros Hz. rewrite Hstat. unfold status_after_match, is_filled. rewrite Hz. reflexivity.
  - split; [assumption|]. split; [assumption|]. split; [assumption|].
    split; [lia|]. split; [intros; lia|]. intros _.
    split; [rewrite <- Hnew; exact Hstat|].
    apply add_to_book_Ok in Hadd. destruct Hadd as (book & book' & Hb & Hadd & ->).
    assert (Hbk : book_of (set_order_books e1 (<[symbol o := book']> (order_books e1)))
                    (symbol o) = book').
    { unfold book_of. simpl. rewrite lookup_insert_eq. reflexivity. }
    rewrite Hbk.
    pose proof (add_order_Ok _ _ _ Hadd) as (p & Hp & _).
    destruct (add_order_effect _ _ _ _ Hp Hadd) as (Hqueue & _ & Hget & _).
    destruct Hso as (Hid&_&_&Hsd&_&Hpr&_).
    exists p, (queue_at book (side o1) p).
    rewrite <- Hpr, <- Hsd, <- Hid. auto.
Qed.

Lemma can_match_false_limit o p :
  _can_match o p = Ok false -> ~ within_limit o p.
Proof.
  unfold _can_match, within_limit.
  destruct (decide (order_type o = MARKET)); [discriminate|].
  destruct (price o) as [limit|]; [|discriminate].
  intros H (l' & E & Hl). inversion E; subst l'.
  destruct (side o); inversion H as [Hb]; apply Z.leb_gt in Hb; lia.
Qed.

Lemma can_match_true_limit o p :
  order_type o <> MARKET -> _can_match o p = Ok true -> within_limit o p.
Proof.
  unfold _can_match, within_limit. intros Hty.
  destruct (decide (order_type o = MARKET)); [contradiction|].
  destruct (price o) as [limit|]; [|discriminate].
  intros H. exists limit. split; [reflexivity|].
  destruct (side o); inversion H as [Hb]; apply Z.leb_le in Hb; lia.
Qed.

(** X9. A new IOC order whose quantity fits the precision of the decimal
    context, in a state reached by admissible orders: its trades walk the opposite side from
    the best price on, each within the limit; what is
    left when the side is empty or its best price is beyond the limit is
    cancelled.  The order never rests in the book.  The status returned is
    "filled" when nothing is left, "partial" after a partial fill, and
    "new" when nothing was filled. *)
Theorem ioc_order_outcome e o e' o' r :
  reachable_distinct pe qe e ->
  process_order pe qe e o = Ok (e', o', r) ->
  order_type o = IOC ->
  0 < quantity o ->
  remaining_quantity o = quantity o ->
  within_precision (quantity o) ->
  (exists d',
     book_fills (OrderBook.levels (opposite (side o)) (book_of e (symbol o)))
       (result_trades r) d' /\
     (0 < result_remaining_quantity r ->
        d' = [] \/ exists p l rest, d' = (p, l) :: rest /\ ~ within_limit o p)) /\
  (forall t, In t (result_trades r) -> within_limit o (trade_price t)) /\
  result_remaining_quantity r = quantity o - sum_qty (result_trades r) /\
  0 <= result_remaining_quantity r /\
  (result_remaining_quantity r = 0 -> result_status r = "filled") /\
  (0 < result_remaining_quantity r ->
     status o' = CANCELLED /\
     result_status r = match result_trades r with [] => "new" | _ => "partial" end) /\
  (forall x, rests_in (book_of e' (symbol o)) x -> ~ same_order o x).
Proof.
  intros Hreach H Hty Hq Hfresh Hwp. apply reachable_distinct_reachable in Hreach.
  assert (Hrest : forall x, rests_in (book_of e' (symbol o)) x -> ~ same_order o x).
  { intros x (sd & kv & Hkv & Hx) (_&_&Htx&_).
    unfold book_of in Hkv.
    destruct (order_books e' !! symbol o) as [b'|] eqn:Hb'; simpl in Hkv.
    2:{ destruct sd; destruct Hkv. }
    assert (Hr' : reachable pe qe e') by (eapply reach_process; eassumption).
    pose proof (reachable_all_books_wf _ Hr' _ _ Hb') as (_ & Hok & _).
    pose proof (book_ok_levels sd b' Hok) as Hl. apply levels_ok_spec in Hl.
    destruct Hl as [_ Hl]. destruct (Hl _ Hkv _ Hx) as [Hlim _]. congruence. }
  destruct (process_order_match _ _ _ _ _ H) as (ea & o1 & d' & idx' & Hm & Hrem & Hso & Hcases);
    [rewrite Hty; reflexivity|congruence|].
  apply match_levels_Ok in Hm. simpl in Hm.
  destruct Hm as (new & Hnew & Hbf & Hr & Hnn & Htk & _ & Hcm & _ & _ & _ & Hstop).
  rewrite Hfresh in Hr, Hnn. specialize (Hr Hwp). rewrite Hnew, Hrem.
  assert (Hty1 : order_type o1 = IOC) by (destruct Hso as (_&_&E&_); congruence).
  assert (Hq1 : quantity o1 = quantity o) by (destruct Hso as (_&_&_&_&E&_); exact E).
  split.
  { exists d'. split; [assumption|]. intros Hpos.
    destruct (Hstop Hpos) as [->|(p & l & rest & -> & Hno)]; [left; reflexivity|].
    right. exists p, l, rest. split; [reflexivity|]. apply can_match_false_limit. assumption. }
  split.
  { intros t Hin. rewrite Forall_forall in Hcm. apply list_elem_of_In in Hin.
    apply can_match_true_limit; [congruence|]. apply Hcm. assumption. }
  split; [assumption|]. split; [apply Hnn; lia|].
  split; [|split; [|assumption]].
  - intros Hz. destruct Hcases as [(_&_&Hstat)|[(Hpos&_)|(Hpos&_)]]; try lia.
    rewrite Hstat. unfold status_after_match, is_filled. rewrite Hz. reflexivity.
  - intros Hpos. destruct Hcases as [(Hle&_)|[(_&Hl&_)|(_&_&->&Hstat)]];
      [lia|congruence|].
    split; [reflexivity|]. rewrite Hstat. unfold status_after_match, is_filled.
    destruct (remaining_quantity o1 =? 0) eqn:E0; [apply Z.eqb_eq in E0; lia|].
    rewrite Hq1. destruct new as [|t new].
    + simpl in Hr. destruct (remaining_quantity o1 <? quantity o) eqn:E1;
        [apply Z.ltb_lt in E1; lia|reflexivity].
    + pose proof (sum_qty_pos o (t :: new) Htk ltac:(discriminate)) as Hs.
      destruct (remaining_quantity o1 <? quantity o) eqn:E1;
        [reflexivity|apply Z.ltb_ge in E1; lia].
Qed.

(** ** Trade identifiers *)

Lemma match_level_ids os : forall e o p total idx trades e' o' os' total' idx' trades',
  match_level pe qe e o p os total idx trades
    = Ok (e', o', os', total', idx', trades') ->
  exists new,
    trades' = trades ++ new /\
    map trade_id new = seqZ (trade_id_counter e + 1) (Z.of_nat (length new)) /\
    trade_id_counter e' = trade_id_counter e + Z.of_nat (length new).
Proof.
  induction os as [|m rest IH];
    intros e o p total idx trades e' o' os' total' idx' trades' H.
  - simpl in H. inversion H; subst. exists []. rewrite app_nil_r. simpl.
    split; [reflexivity|]. split; [reflexivity|lia].
  - simpl in H. destruct (0 <? remaining_quantity o).
    2:{ inversion H; subst. exists []. rewrite app_nil_r. simpl.
        split; [reflexivity|]. split; [reflexivity|lia]. }
    inv_ok H. destruct a as [e1 t].
    apply create_trade_Ok in Hstep. destruct Hstep as (He1 & Htid & _).
    assert (Hc1 : trade_id_counter e1 = trade_id_counter e + 1) by (subst e1; reflexivity).
    destruct (is_filled _).
    + apply IH in H. destruct H as (new & -> & Hids & Hctr).
      exists (t :: new). rewrite <- app_assoc. split; [reflexivity|].
      simpl length. rewrite Nat2Z.inj_succ.
      rewrite seqZ_cons by lia. simpl. rewrite Htid, Hids, Hc1, Hctr.
      split; [|lia]. f_equal. f_equal; lia.
    + inversion H; subst e' o' os' total' idx' trades'; clear H.
      exists [t]. split; [reflexivity|]. simpl.
      rewrite Htid, Hc1. split; [reflexivity|lia].
Qed.

Lemma match_levels_ids d : forall e o idx trades e' o' d' idx' trades',
  match_levels pe qe e o d idx trades = Ok (e', o', d', idx', trades') ->
  exists new,
    trades' = trades ++ new /\
    map trade_id new = seqZ (trade_id_counter e + 1) (Z.of_nat (length new)) /\
    trade_id_counter e' = trade_id_counter e + Z.of_nat (length new).
Proof.
  induction d as [|[p l] rest IH]; intros e o idx trades e' o' d' idx' trades' H.
  - simpl in H. inversion H; subst. exists []. rewrite app_nil_r. simpl.
    split; [reflexivity|]. split; [reflexivity|lia].
  - simpl in H. destruct (0 <? remaining_quantity o).
    2:{ inversion H; subst. exists []. rewrite app_nil_r. simpl.
        split; [reflexivity|]. split; [reflexivity|lia]. }
    inv_ok H. rename a into ok. destruct ok; simpl in H.
    2:{ inversion H; subst. exists []. rewrite app_nil_r. simpl.
        split; [reflexivity|]. split; [reflexivity|lia]. }
    inv_ok H. destruct a as [[[[[e1 o1] os1] total1] idx1] trades1].
    apply match_level_ids in Hstep0. destruct Hstep0 as (new1 & -> & Hids1 & Hctr1).
    destruct (PriceLevel.is_empty _).
    + apply IH in H. destruct H as (new2 & -> & Hids2 & Hctr2).
      exists (new1 ++ new2). rewrite app_assoc. split; [reflexivity|].
      rewrite map_app, length_app, Nat2Z.inj_add, Hids1, Hids2, Hctr1.
      split; [|lia].
      rewrite seqZ_app by lia. f_equal. f_equal. lia.
    + inversion H; subst. exists new1. auto.
Qed.

Lemma trade_counter_grows : forall e o e' o' r,
  process_order pe qe e o = Ok (e', o', r) ->
  trade_id_counter e <= trade_id_counter e'.
Proof.
  apply (process_order_rel (fun e0 e1 => trade_id_counter e0 <= trade_id_counter e1)).
  - intros; lia.
  - intros; lia.
  - intros e sym. destruct (get_or_create_spec e sym) as (_ & _ & _ & E & _). lia.
  - intros e o bk book e1 o1 d' idx' ts _ Hm. apply match_levels_ids in Hm.
    destruct Hm as (new & _ & _ & E). unfold write_back. simpl. lia.
  - intros. simpl. lia.
  - intros e o bk e' Hadd _ _. apply add_to_book_Ok in Hadd.
    destruct Hadd as (book & book' & _ & _ & ->). simpl. lia.
  - intros. simpl. lia.
Qed.

Lemma match_order_counter f : forall e o bk e' o' ts,
  match_order pe qe f e o bk = Ok (e', o', ts) ->
  map trade_id ts = seqZ (trade_id_counter e + 1) (Z.of_nat (length ts)) /\
  trade_id_counter e + Z.of_nat (length ts) <= trade_id_counter e'.
Proof.
  intros e o bk e' o' ts H. destruct f as [|f]; [discriminate|].
  apply match_order_Ok in H.
  destruct H as (f' & book & e1 & d' & idx' & Hf & Hb & Hm & Hc).
  inversion Hf; subst f'; clear Hf.
  apply match_levels_ids in Hm. destruct Hm as (new & Hnew & Hids & Hctr).
  simpl in Hnew. subst new. split; [assumption|].
  assert (Hwb : trade_id_counter (write_back e1 bk book (opposite (side o)) d' idx')
                = trade_id_counter e + Z.of_nat (length ts)) by (simpl; lia).
  destruct (last ts) as [t|]; [|inversion Hc; subst; lia].
  rewrite <- Hwb. revert Hc. generalize (write_back e1 bk book (opposite (side o)) d' idx').
  intros e2 Hc. unfold check_stop_orders, check_stop_orders_with in Hc.
  destruct (stop_orders e2 !! symbol o') as [pending|]; [|inversion Hc; subst; lia].
  inv_ok Hc. destruct a as [pending' trig].
  assert (Hp : trade_id_counter e2
               = trade_id_counter (set_stop_orders e2 (<[symbol o' := pending']> (stop_orders e2))))
    by reflexivity.
  rewrite Hp.
  eapply (process_triggered_rel (fun e0 e1 => trade_id_counter e0 <= trade_id_counter e1));
    [intros; lia|intros; lia| | | |exact Hc].
  - intros e0 sym. destruct (get_or_create_spec e0 sym) as (_ & _ & _ & E & _). lia.
  - intros e0 o0 bk0 e0' Hadd _ _. apply add_to_book_Ok in Hadd.
    destruct Hadd as (book0 & book0' & _ & _ & ->). simpl. lia.
  - apply (match_order_rel (fun e0 e1 => trade_id_counter e0 <= trade_id_counter e1)).
    + intros; lia.
    + intros; lia.
    + intros e0 sym. destruct (get_or_create_spec e0 sym) as (_ & _ & _ & E & _). lia.
    + intros e0 o0 bk0 book0 e3 o3 d3 idx3 ts3 _ Hm. apply match_levels_ids in Hm.
      destruct Hm as (new & _ & _ & E). unfold write_back. simpl. lia.
    + intros. simpl. lia.
    + intros e0 o0 bk0 e0' Hadd _ _. apply add_to_book_Ok in Hadd.
      destruct Hadd as (book0 & book0' & _ & _ & ->). simpl. lia.
Qed.

(** X10. The trades returned by [process_order] carry consecutive
    identifiers, in their order, starting right after the trade counter of
    the engine; the counter afterwards has passed them all (it is further
    on when triggered stop orders traded as well), so no identifier is
    issued twice. *)
Theorem trade_ids_consecutive e o e' o' r :
  process_order pe qe e o = Ok (e', o', r) ->
  map trade_id (result_trades r)
    = seqZ (trade_id_counter e + 1) (Z.of_nat (length (result_trades r))) /\
  trade_id_counter e + Z.of_nat (length (result_trades r)) <= trade_id_counter e' /\
  (forall t, In t (result_trades r) ->
     trade_id_counter e < trade_id t <= trade_id_counter e').
Proof.
  intros H.
  assert (Hmain : map trade_id (result_trades r)
            = seqZ (trade_id_counter e + 1) (Z.of_nat (length (result_trades r))) /\
          trade_id_counter e + Z.of_nat (length (result_trades r)) <= trade_id_counter e').
  { pose proof (trade_counter_grows _ _ _ _ _ H) as Hgrow.
    apply process_order_Ok in H. cbv zeta in H.
    destruct (get_or_create_spec e (symbol o)) as (_ & _ & _ & E0 & _).
    destruct H as [(_&_&_&_&Ht)|[(_&_&_&_&_&_&Ht&_)|(_&_&e1&o1&Hm&_&_&Hcases)]].
    - rewrite Ht. simpl. split; [reflexivity|lia].
    - rewrite Ht. simpl. split; [reflexivity|lia].
    - apply match_order_counter in Hm. rewrite E0 in Hm. destruct Hm as [Hids Hle].
      split; [assumption|].
      destruct Hcases as [(_&->&_)|[(_&_&Hadd&_)|(_&_&->&_)]]; try lia.
      apply add_to_book_Ok in Hadd. destruct Hadd as (book & book' & _ & _ & ->).
      simpl. lia. }
  destruct Hmain as [Hids Hle]. split; [assumption|]. split; [assumption|].
  intros t Hin. assert (Hid : In (trade_id t) (map trade_id (result_trades r)))
    by (apply in_map; assumption).
  rewrite Hids in Hid. apply list_elem_of_In, elem_of_seqZ in Hid. lia.
Qed.

(** ** Marketable orders *)

Lemma match_level_first_trade m rest :
  forall e o p total idx trades e' o' os' total' idx' trades',
  match_level pe qe e o p (m :: rest) total idx trades
    = Ok (e', o', os', total', idx', trades') ->
  0 < remaining_quantity o ->
  exists t new, trades' = trades ++ t :: new.
Proof.
  intros e o p total idx trades e' o' os' total' idx' trades' H Hpos.
  simpl in H. apply Z.ltb_lt in Hpos. rewrite Hpos in H.
  inv_ok H. destruct a as [e1 t].
  destruct (is_filled _).
  - apply match_level_Ok in H. destruct H as (new & -> & _).
    exists t, new. rewrite <- app_assoc. reflexivity.
  - inversion H; subst. exists t, []. reflexivity.
Qed.

Lemma is_marketable_can_match o b p l :
  head (OrderBook.levels (opposite (side o)) b) = Some (p, l) ->
  is_marketable o (fst <$> OrderBook.get_best_bid b) (fst <$> OrderBook.get_best_ask b)
  = _can_match o p.
Proof.
  unfold is_marketable, _can_match, OrderBook.get_best_bid, OrderBook.get_best_ask.
  intros Hh. destruct (decide (order_type o = MARKET)); [reflexivity|].
  destruct (side o); simpl in Hh; rewrite Hh; simpl; reflexivity.
Qed.

(** X11. [Order.is_marketable], asked with the best bid and the best ask
    of the book, tells whether the order trades: in a reachable state a
    market, limit or IOC order with something to fill receives at least
    one trade from [process_order] exactly when the opposite side is not
    empty and [is_marketable] answers [True]. *)
Theorem is_marketable_iff_trades e o e' o' r :
  reachable pe qe e ->
  process_order pe qe e o = Ok (e', o', r) ->
  is_stop_type (order_type o) = false ->
  order_type o <> FOK ->
  0 < remaining_quantity o ->
  let b := book_of e (symbol o) in
  result_trades r <> [] <->
  OrderBook.levels (opposite (side o)) b <> [] /\
  is_marketable o (fst <$> OrderBook.get_best_bid b) (fst <$> OrderBook.get_best_ask b)
  = Ok true.
Proof.
  intros Hreach H Hst Hfok Hpos. cbv zeta.
  destruct (process_order_match _ _ _ _ _ H Hst Hfok)
    as (ea & o1 & d' & idx' & Hm & _).
  assert (Hwf : forall p l, In (p, l) (OrderBook.levels (opposite (side o))
                                          (book_of e (symbol o))) ->
                PriceLevel.orders l <> []).
  { intros p l Hin. unfold book_of in Hin.
    destruct (order_books e !! symbol o) as [b|] eqn:Hb; simpl in Hin.
    - pose proof (reachable_all_books_wf _ Hreach _ _ Hb) as Hwf.
      destruct (book_wf_level _ _ _ _ _ Hwf Hin) as (_ & _ & Hne & _). assumption.
    - destruct (opposite (side o)); destruct Hin. }
  destruct (OrderBook.levels (opposite (side o)) (book_of e (symbol o)))
    as [|[p l] rest] eqn:El.
  - simpl in Hm. inversion Hm; subst. split; [intros Hn; contradiction|].
    intros [Hn _]. contradiction.
  - rewrite (is_marketable_can_match o _ p l) by (rewrite El; reflexivity).
    simpl in Hm. apply Z.ltb_lt in Hpos. rewrite Hpos in Hm. apply Z.ltb_lt in Hpos.
    inv_ok Hm. rename a into ok. rewrite Hstep. destruct ok; simpl in Hm.
    + inv_ok Hm. destruct a as [[[[[e1 o2] os1] total1] idx1] trades1].
      specialize (Hwf p l (or_introl eq_refl)).
      destruct (PriceLevel.orders l) as [|m os] eqn:Eo; [contradiction|].
      apply match_level_first_trade in Hstep0; [|assumption].
      destruct Hstep0 as (t & new & ->). simpl in Hm.
      assert (Hne : result_trades r <> []).
      { destruct (PriceLevel.is_empty _).
        - apply match_levels_Ok in Hm. destruct Hm as (new2 & E & _).
          rewrite E. discriminate.
        - inversion Hm; subst. discriminate. }
      split; [intros _; split; [discriminate|reflexivity]|intros _; exact Hne].
    + inversion Hm; subst. split; [intros Hn; contradiction|].
      intros [_ Hn]. discriminate.
Qed.

(** ** The liquidity check of a FOK order *)

Lemma can_match_accepts o p :
  order_type o = MARKET \/ price o <> None -> _can_match o p = Ok (accepts o p).
Proof.
  unfold _can_match, accepts. intros Hp.
  destruct (decide (order_type o = MARKET)) as [->|Hne]; [reflexivity|].
  destruct Hp as [Hp|Hp]; [contradiction|].
  destruct (price o) as [limit|]; [|contradiction].
  destruct (order_type o); try contradiction; destruct (side o); reflexivity.
Qed.

Lemma accepts_monotone o p q :
  OrderBook.key_of (opposite (side o)) p < OrderBook.key_of (opposite (side o)) q ->
  accepts o p = false -> accepts o q = false.
Proof.
  unfold accepts. destruct (order_type o); try discriminate;
    destruct (price o) as [limit|]; try reflexivity;
    destruct (side o); simpl; intros Hlt H;
    apply Z.leb_gt in H; apply Z.leb_gt; lia.
Qed.

Lemma liquidity_within_nonneg o d :
  (forall kv, In kv d -> 0 < PriceLevel.total_quantity (snd kv)) ->
  0 <= liquidity_within o d.
Proof.
  induction d as [|kv d IH]; simpl; intros H; [lia|].
  assert (0 < PriceLevel.total_quantity (snd kv)) by (apply H; left; reflexivity).
  assert (0 <= liquidity_within o d) by (apply IH; intros; apply H; right; assumption).
  unfold liquidity_within in *. simpl. destruct (accepts o (fst kv)); lia.
Qed.

Lemma liquidity_within_none o d :
  (forall kv, In kv d -> accepts o (fst kv) = false) -> liquidity_within o d = 0.
Proof.
  induction d as [|kv d IH]; simpl; intros H; [reflexivity|].
  unfold liquidity_within in *. simpl. rewrite (H kv (or_introl eq_refl)).
  apply IH. intros; apply H; right; assumption.
Qed.

Lemma can_fill_levels_spec o d :
  order_type o = MARKET \/ price o <> None ->
  sorted_keys (OrderBook.key_of (opposite (side o))) d = true ->
  (forall kv, In kv d -> 0 < PriceLevel.total_quantity (snd kv)) ->
  forall rtf, 0 < rtf -> within_precision rtf ->
    can_fill_levels o d rtf = Ok (rtf <=? liquidity_within o d).
Proof.
  intros Hp. induction d as [|[p l] d IH]; intros Hs Hpos rtf Hrtf Hwp.
  - simpl. f_equal. destruct (rtf =? 0) eqn:E; [apply Z.eqb_eq in E; lia|].
    symmetry. apply Z.leb_gt. unfold liquidity_within. simpl. lia.
  - simpl. rewrite (can_match_accepts _ _ Hp). simpl.
    apply sorted_keys_cons in Hs. destruct Hs as [Hmin Hs].
    assert (Hl : 0 < PriceLevel.total_quantity l) by (apply (Hpos (p, l)); left; reflexivity).
    assert (Hpos' : forall kv, In kv d -> 0 < PriceLevel.total_quantity (snd kv))
      by (intros; apply Hpos; right; assumption).
    pose proof (liquidity_within_nonneg o d Hpos') as Hnn.
    unfold liquidity_within at 1. simpl. fold (liquidity_within o d).
    destruct (accepts o p) eqn:Ea; simpl.
    + rewrite minus_exact by (assumption || lia).
      destruct (rtf - Z.min rtf (PriceLevel.total_quantity l) =? 0) eqn:E.
      * apply Z.eqb_eq in E. f_equal. symmetry. apply Z.leb_le. lia.
      * apply Z.eqb_neq in E.
        assert (Hmin' : Z.min rtf (PriceLevel.total_quantity l) = PriceLevel.total_quantity l)
          by lia.
        rewrite Hmin'.
        assert (Hwp' : within_precision (rtf - PriceLevel.total_quantity l))
          by (apply (within_precision_le rtf); [assumption|lia]).
        rewrite IH by (assumption || lia). f_equal.
        destruct (rtf - PriceLevel.total_quantity l <=? liquidity_within o d) eqn:E1.
        -- apply Z.leb_le in E1. symmetry. apply Z.leb_le. lia.
        -- apply Z.leb_gt in E1. symmetry. apply Z.leb_gt. lia.
    + rewrite liquidity_within_none.
      2:{ intros [q lq] Hin. simpl. eapply accepts_monotone; [|exact Ea].
          eapply Hmin. exact Hin. }
      f_equal. destruct (rtf =? 0) eqn:E; [apply Z.eqb_eq in E; lia|].
      symmetry. apply Z.leb_gt. lia.
Qed.

(** X12. In a state reached by admissible orders (accepted by the
    constructor, submitted once, prices within the precision), with the
    aggregates of the opposite side in step with their queues, the
    liquidity check of a FOK order with a
    limit price and a positive quantity that fits the precision answers
    whether the quantity resting on the opposite side at prices within
    the limit is at least the quantity of the order. *)
Theorem can_fill_fok_iff_liquidity e o limit :
  reachable_distinct pe qe e ->
  price o = Some limit ->
  0 < quantity o ->
  within_precision (quantity o) ->
  levels_consistent
    (OrderBook.levels (opposite (side o)) (book_of e (symbol o))) = true ->
  _can_fill_fok o (book_of e (symbol o))
  = Ok (quantity o <=?
          liquidity_within o
            (OrderBook.levels (opposite (side o)) (book_of e (symbol o)))).
Proof.
  intros Hreach Hp Hq Hwp Hcons. apply reachable_distinct_reachable in Hreach.
  unfold _can_fill_fok.
  assert (Hwf : book_wf (symbol o) (book_of e (symbol o))).
  { unfold book_of. destruct (order_books e !! symbol o) as [b|] eqn:Hb; simpl.
    - exact (reachable_all_books_wf _ Hreach _ _ Hb).
    - apply book_wf_new. }
  apply can_fill_levels_spec.
  - right. congruence.
  - eapply book_wf_sorted; eassumption.
  - intros [p l] Hin. simpl.
    destruct (book_wf_level _ _ _ _ _ Hwf Hin) as (_ & _ & _ & Hpos).
    rewrite levels_consistent_spec in Hcons. specialize (Hcons _ Hin).
    simpl in Hcons. rewrite Hcons. exact Hpos.
  - assumption.
  - assumption.
Qed.

(** ** Conservation of quantity *)

Lemma levels_fit_cons kv d :
  levels_fit (kv :: d) = true ->
  within_precision (PriceLevel.total_quantity (snd kv)) /\ levels_fit d = true.
Proof.
  unfold levels_fit. simpl. rewrite !andb_true_iff. intros [[_ H1] H2].
  split; [apply Z.leb_le; exact H1|exact H2].
Qed.

(** The aggregates of the side that the matching loop walks, when they
    are in step with their queues and fit the precision. *)
Lemma match_levels_side_quantity d : forall e o idx trades e' o' d' idx' trades',
  match_levels pe qe e o d idx trades = Ok (e', o', d', idx', trades') ->
  levels_consistent d = true ->
  levels_fit d = true ->
  (forall kv x, In kv d -> In x (PriceLevel.orders (snd kv)) ->
                0 <= remaining_quantity x) ->
  exists new,
    trades' = trades ++ new /\
    side_quantity d' = side_quantity d - sum_qty new.
Proof.
  induction d as [|[p l] rest IH]; intros e o idx trades e' o' d' idx' trades' H Hc Hf Hnn.
  - simpl in H. inversion H; subst; clear H. exists []. rewrite app_nil_r.
    split; [reflexivity|simpl; lia].
  - simpl in H. destruct (0 <? remaining_quantity o) eqn:Hrem.
    2:{ inversion H; subst; clear H. exists []. rewrite app_nil_r.
        split; [reflexivity|simpl; lia]. }
    inv_ok H. rename a into ok. destruct ok; simpl in H.
    2:{ inversion H; subst; clear H. exists []. rewrite app_nil_r.
        split; [reflexivity|simpl; lia]. }
    inv_ok H. destruct a as [[[[[e1 o1] os1] total1] idx1] trades1].
    apply match_level_Ok in Hstep0.
    destruct Hstep0 as (new1 & -> & Hff & _ & Htot1 & _).
    apply levels_consistent_cons in Hc. destruct Hc as [Hl Hc].
    apply levels_fit_cons in Hf. destruct Hf as [Hw Hf]. simpl in Hw.
    assert (Hall : Forall (fun m => 0 <= remaining_quantity m) (PriceLevel.orders l)).
    { apply Forall_forall. intros x Hx. apply list_elem_of_In in Hx.
      apply (Hnn (p, l)); [left; reflexivity|exact Hx]. }
    specialize (Htot1 Hw Hall ltac:(lia)).
    unfold PriceLevel.is_empty in H. simpl in H.
    destruct os1 as [|m1 os1]; simpl in H.
    + apply IH in H; [|assumption|assumption|].
      2:{ intros kv x Hkv Hx. apply (Hnn kv); [right; assumption|assumption]. }
      destruct H as (new2 & -> & Hs). exists (new1 ++ new2). rewrite app_assoc.
      split; [reflexivity|]. rewrite Hs, sum_qty_app. simpl.
      pose proof (fifo_fills_sum_emptied _ _ _ Hff). lia.
    + inversion H; subst e' o' d' idx' trades'; clear H.
      exists new1. split; [reflexivity|]. simpl. lia.
Qed.

Lemma side_quantity_set sd p l d :
  sorted_keys (OrderBook.key_of sd) d = true ->
  side_quantity (SortedDict.set (OrderBook.key_of sd) p l d)
  = side_quantity d
    - default 0 (PriceLevel.total_quantity <$> SortedDict.get p d)
    + PriceLevel.total_quantity l.
Proof.
  induction d as [|[q m] d IH]; simpl; intros Hs; [lia|].
  apply andb_true_iff in Hs. destruct Hs as [Hhd Htl].
  destruct (p =? q) eqn:E; simpl; [lia|].
  destruct (OrderBook.key_of sd p <? OrderBook.key_of sd q) eqn:E'; simpl.
  - rewrite SortedDict_get_None; [simpl; lia|].
    intros l0 Hin. rewrite forallb_forall in Hhd. specialize (Hhd _ Hin).
    simpl in Hhd. apply Z.ltb_lt in Hhd, E'. lia.
  - rewrite IH by assumption. lia.
Qed.

(** X13. Quantity is conserved by [process_order] on a symbol without
    pending stop orders, in a state reached by admissible orders, as long
    as no aggregate is rounded: for an order that is not a stop order,
    with the aggregates of the opposite side in step with their queues
    and within the precision, and the aggregate of the level where a limit order comes
    to rest within the precision, the quantity resting on the opposite
    side goes down by the sum of the quantities of the returned trades,
    and the quantity resting on the side of the order goes up by what is
    left of a limit order and stays the same for any other type. *)
Theorem process_order_conserves_quantity e o e' o' r :
  reachable_distinct pe qe e ->
  pending_of e (symbol o) = [] ->
  process_order pe qe e o = Ok (e', o', r) ->
  is_stop_type (order_type o) = false ->
  levels_consistent
    (OrderBook.levels (opposite (side o)) (book_of e (symbol o))) = true ->
  levels_fit
    (OrderBook.levels (opposite (side o)) (book_of e (symbol o))) = true ->
  (forall p, price o = Some p ->
     within_precision
       (default 0 (PriceLevel.total_quantity <$>
                     SortedDict.get p (OrderBook.levels (side o) (book_of e (symbol o))))
        + remaining_quantity o')) ->
  side_quantity (OrderBook.levels (opposite (side o)) (book_of e' (symbol o)))
  = side_quantity (OrderBook.levels (opposite (side o)) (book_of e (symbol o)))
    - sum_qty (result_trades r) /\
  side_quantity (OrderBook.levels (side o) (book_of e' (symbol o)))
  = side_quantity (OrderBook.levels (side o) (book_of e (symbol o)))
    + (if decide (order_type o = LIMIT)
       then Z.max 0 (remaining_quantity o') else 0).
Proof.
  intros Hreach Hnone H Hst Hcons Hfit Hown.
  apply reachable_distinct_reachable in Hreach.
  assert (Hwf : book_wf (symbol o) (book_of e (symbol o))).
  { unfold book_of. destruct (order_books e !! symbol o) as [b|] eqn:Hb; simpl.
    - exact (reachable_all_books_wf _ Hreach _ _ Hb).
    - apply book_wf_new. }
  destruct (get_or_create_spec e (symbol o)) as (Hb0 & _ & Hs0 & _).
  apply process_order_Ok in H. cbv zeta in H.
  destruct H as [(Hs&_)|[(_&Hf&_&->&->&_&Ht&_)|(_&_&e1&o1&Hm&_&Hso&Hcases)]];
    [congruence| |].
  - rewrite Ht. simpl. rewrite (book_of_insert _ _ _ _ Hb0), Hf.
    destruct (decide (FOK = LIMIT)); [discriminate|]. split; lia.
  - apply match_order_no_pending in Hm; [|unfold pending_of; rewrite Hs0; exact Hnone].
    destruct Hm as (book & ea & d' & idx' & Hb & Hm & Hbooks).
    rewrite book_of_get_or_create in Hb. inversion Hb; subst book; clear Hb.
    pose proof (match_levels_side_quantity _ _ _ _ _ _ _ _ _ _ Hm Hcons Hfit) as Hside0.
    destruct Hside0 as (new0 & Hnew0 & Hside0).
    { intros kv x Hkv Hx. pose proof Hwf as (_ & Hok & _).
      pose proof (book_ok_levels (opposite (side o)) _ Hok) as Hl.
      apply levels_ok_spec in Hl. destruct Hl as [_ Hl].
      destruct (Hl _ Hkv _ Hx) as [_ Hpos]. lia. }
    simpl in Hnew0. subst new0.
    apply match_levels_Ok in Hm. simpl in Hm.
    destruct Hm as (new & Hnew & Hbf & _). subst new.
    set (sd := opposite (side o)) in *.
    assert (Hside : side o <> sd) by (subst sd; destruct (side o); discriminate).
    set (B1 := OrderBook.set_order_index idx'
                 (OrderBook.set_levels sd d' (book_of e (symbol o)))) in *.
    assert (Hbo1 : book_of e1 (symbol o) = B1).
    { unfold book_of. rewrite Hbooks, lookup_insert_eq. reflexivity. }
    assert (Hopp1 : side_quantity (OrderBook.levels sd B1)
              = side_quantity (OrderBook.levels sd (book_of e (symbol o)))
                - sum_qty (result_trades r)).
    { unfold B1. rewrite levels_set_order_index, levels_set_levels.
      destruct (decide (sd = sd)); [|contradiction]. exact Hside0. }
    assert (Hown1 : OrderBook.levels (side o) B1
                    = OrderBook.levels (side o) (book_of e (symbol o))).
    { unfold B1. rewrite levels_set_order_index, levels_set_levels.
      destruct (decide (side o = sd)); [contradiction|reflexivity]. }
    assert (Hty1 : order_type o1 = order_type o) by (destruct Hso as (_&_&E&_); exact E).
    destruct Hcases as [(Hle&->&->&_)|[(Hpos&Hl&Hadd&->&_)|(Hpos&Hn&->&->&_)]].
    + rewrite Hbo1, Hown1. split; [assumption|].
      destruct (decide (order_type o = LIMIT)); lia.
    + apply add_to_book_Ok in Hadd. destruct Hadd as (book & b' & Hbk & Hstep & ->).
      assert (Hbo' : book_of (set_order_books e1 (<[symbol o := b']> (order_books e1)))
                       (symbol o) = b').
      { unfold book_of. simpl. rewrite lookup_insert_eq. reflexivity. }
      assert (book = B1).
      { unfold book_of in Hbo1. rewrite Hbk in Hbo1. exact Hbo1. }
      subst book.
      rewrite Hbo'. apply add_order_Ok in Hstep.
      destruct Hstep as (p & Hp & _ & _ & Hlv & Hoppv).
      destruct Hso as (_&_&_&Hsd&_&Hpr&_). rewrite Hsd in Hlv, Hoppv. fold sd in Hoppv.
      rewrite Hoppv, Hlv. split; [assumption|].
      rewrite side_quantity_set.
      2:{ rewrite Hown1. eapply book_wf_sorted; eassumption. }
      rewrite <- Hty1. destruct (decide (order_type o1 = LIMIT)); [|contradiction].
      rewrite Hown1. simpl.
      specialize (Hown p ltac:(congruence)).
      destruct (SortedDict.get p (OrderBook.levels (side o) (book_of e (symbol o))))
        as [l0|]; cbn in *; rewrite (plus_exact _ _ Hown); lia.
    + rewrite Hbo1, Hown1. split; [assumption|].
      rewrite <- Hty1. destruct (decide (order_type o1 = LIMIT)); [contradiction|lia].
Qed.

(** ** The pending stop orders *)

Lemma process_order_pending_ok : forall e o e' o' r,
  process_order pe qe e o = Ok (e', o', r) -> pending_ok e -> pending_ok e'.
Proof.
  apply (process_order_rel (fun e0 e1 => pending_ok e0 -> pending_ok e1)).
  - auto.
  - auto.
  - intros e sym H. destruct (get_or_create_spec e sym) as (_ & _ & Hs & _).
    unfold pending_ok. rewrite Hs. exact H.
  - intros e o bk book e1 o1 d' idx' ts _ Hm H. apply match_levels_Ok in Hm.
    destruct Hm as (new & _ & _ & _ & _ & _ & _ & _ & _ & (_ & Hs & _) & _).
    unfold pending_ok, write_back. simpl. rewrite Hs. exact H.
  - intros e sym pending last Hp H s pd x Hs Hin. simpl in Hs.
    destruct (decide (s = sym)) as [->|Hne].
    + rewrite lookup_insert_eq in Hs. inversion Hs; subst pd.
      apply filter_In in Hin. destruct Hin as [Hin _]. eapply H; eassumption.
    + rewrite lookup_insert_ne in Hs by congruence. eapply H; eassumption.
  - intros e o bk e' Hadd _ _ H. apply add_to_book_Ok in Hadd.
    destruct Hadd as (book & book' & _ & _ & ->). exact H.
  - intros e o Hst H s pd x Hs Hin. simpl in Hs.
    destruct (decide (s = symbol o)) as [->|Hne].
    + rewrite lookup_insert_eq in Hs. inversion Hs; subst pd.
      apply in_app_or in Hin. destruct Hin as [Hin|[<-|[]]]; [|auto].
      unfold pending_of in Hin.
      destruct (stop_orders e !! symbol o) as [p0|] eqn:E0; [|destruct Hin].
      eapply H; eassumption.
    + rewrite lookup_insert_ne in Hs by congruence. eapply H; eassumption.
Qed.

(** X14. In every reachable state the pending list of a symbol holds stop
    orders only (stop-loss, stop-limit, take-profit), each carrying that
    symbol; no market or limit order, converted or not, is pending. *)
Theorem reachable_pending_stop_orders e sym pending o :
  reachable pe qe e ->
  stop_orders e !! sym = Some pending -> In o pending ->
  symbol o = sym /\ is_stop_type (order_type o) = true.
Proof.
  intros Hr. revert sym pending o. change (pending_ok e).
  induction Hr as [fees maker taker|e o e' o' r _ IH H|e oid sym e' b _ IH H].
  - intros s pd x Hs. simpl in Hs. rewrite lookup_empty in Hs. discriminate.
  - eapply process_order_pending_ok; eassumption.
  - unfold cancel_order in H.
    destruct (order_books e !! sym) as [book|]; [|inversion H; subst; assumption].
    destruct (negb (OrderBook.has_order book oid)); [inversion H; subst; assumption|].
    inv_ok H. destruct a as [book' order]. inversion H; subst. exact IH.
Qed.

(** ** Snapshots: what is saved is restored *)

Lemma str_if_truthy_nonzero x : nonzero x = true -> str_if_truthy x = x.
Proof.
  destruct x as [v|]; simpl; [|reflexivity].
  destruct (v =? 0); [discriminate|reflexivity].
Qed.

Lemma deserialize_serialize o :
  order_restorable o = true -> _deserialize_order (_serialize_order o) = Ok o.
Proof.
  unfold order_restorable. rewrite !andb_true_iff. intros [[Hv Hp] Hs].
  unfold _deserialize_order, _serialize_order. simpl.
  rewrite (str_if_truthy_nonzero _ Hp), (str_if_truthy_nonzero _ Hs).
  replace {| order_id := order_id o; symbol := symbol o; order_type := order_type o;
             side := side o; quantity := quantity o; price := price o;
             timestamp := timestamp o; remaining_quantity := remaining_quantity o;
             status := status o; stop_price := stop_price o;
             is_triggered := is_triggered o |} with o by (destruct o; reflexivity).
  unfold Order_new. rewrite Hv. reflexivity.
Qed.

Lemma deserialize_orders_serialize os :
  forallb order_restorable os = true ->
  deserialize_orders (map _serialize_order os) = Ok os.
Proof.
  induction os as [|o os IH]; simpl; [reflexivity|].
  intros H. apply andb_true_iff in H. destruct H as [Ho Hos].
  rewrite (deserialize_serialize _ Ho). simpl. rewrite (IH Hos). reflexivity.
Qed.

Lemma serialized_levels_orders d :
  concat (map snd (_serialize_price_levels d)) = map _serialize_order (all_orders d).
Proof.
  unfold _serialize_price_levels, all_orders.
  induction d as [|kv d IH]; simpl; [reflexivity|].
  rewrite map_app, IH. reflexivity.
Qed.

(** *** The stable sort by time stamp *)

Lemma insert_by_timestamp_In o l x :
  In x (insert_by_timestamp o l) <-> x = o \/ In x l.
Proof.
  induction l as [|y l IH]; simpl.
  - split; [intros [<-|[]]; auto|intros [->|[]]; auto].
  - destruct (timestamp o <=? timestamp y); simpl.
    + split; [intros [<-|H]; auto|intros [->|H]; auto].
    + rewrite IH. split; [intros [<-|[->|H]]; auto|intros [->|[<-|H]]; auto].
Qed.

Lemma sort_by_timestamp_In l x : In x (sort_by_timestamp l) <-> In x l.
Proof.
  unfold sort_by_timestamp. induction l as [|y l IH]; simpl; [tauto|].
  rewrite insert_by_timestamp_In, IH. split; intros [H|H]; auto.
Qed.

(** All of [l] is at or after the time stamp [t]. *)
Lemma insert_front o l :
  forallb (fun x => timestamp o <=? timestamp x) l = true ->
  insert_by_timestamp o l = o :: l.
Proof.
  destruct l as [|y l]; simpl; [reflexivity|].
  intros H. apply andb_true_iff in H. destruct H as [H _]. rewrite H. reflexivity.
Qed.

Lemma timestamps_sorted_insert o l :
  timestamps_sorted l = true -> timestamps_sorted (insert_by_timestamp o l) = true.
Proof.
  induction l as [|y l IH]; simpl; [reflexivity|].
  intros H. apply andb_true_iff in H. destruct H as [Hy Hl].
  destruct (timestamp o <=? timestamp y) eqn:E; simpl.
  - rewrite E, Hy, Hl. simpl. rewrite andb_true_r.
    apply forallb_forall. intros x Hx. rewrite forallb_forall in Hy.
    specialize (Hy _ Hx). apply Z.leb_le in E, Hy. apply Z.leb_le. lia.
  - rewrite (IH Hl), andb_true_r. apply forallb_forall. intros x Hx.
    apply insert_by_timestamp_In in Hx. destruct Hx as [->|Hx].
    + apply Z.leb_gt in E. apply Z.leb_le. lia.
    + rewrite forallb_forall in Hy. apply Hy. assumption.
Qed.

Lemma timestamps_sorted_sort l : timestamps_sorted (sort_by_timestamp l) = true.
Proof.
  unfold sort_by_timestamp. induction l as [|y l IH]; simpl; [reflexivity|].
  apply timestamps_sorted_insert. exact IH.
Qed.

(** Selecting from a sorted list and inserting commute. *)
Lemma filter_insert_by_timestamp (f : Order -> bool) o l :
  timestamps_sorted l = true ->
  List.filter f (insert_by_timestamp o l)
  = if f o then insert_by_timestamp o (List.filter f l) else List.filter f l.
Proof.
  induction l as [|y l IH]; simpl; intros Hs.
  - destruct (f o); reflexivity.
  - apply andb_true_iff in Hs. destruct Hs as [Hy Hl].
    destruct (timestamp o <=? timestamp y) eqn:E; simpl.
    + destruct (f o) eqn:Fo; [|reflexivity].
      destruct (f y) eqn:Fy; simpl.
      * rewrite E. reflexivity.
      * symmetry. apply insert_front. apply forallb_forall. intros x Hx.
        apply filter_In in Hx. destruct Hx as [Hx _].
        rewrite forallb_forall in Hy. specialize (Hy _ Hx).
        apply Z.leb_le in E, Hy. apply Z.leb_le. lia.
    + rewrite (IH Hl). destruct (f y) eqn:Fy; destruct (f o) eqn:Fo; simpl;
        try rewrite E; reflexivity.
Qed.

Lemma filter_sort_by_timestamp (f : Order -> bool) l :
  List.filter f (sort_by_timestamp l) = sort_by_timestamp (List.filter f l).
Proof.
  unfold sort_by_timestamp. induction l as [|y l IH]; simpl; [reflexivity|].
  rewrite filter_insert_by_timestamp by apply (timestamps_sorted_sort l).
  fold (sort_by_timestamp l). unfold sort_by_timestamp at 1 2. rewrite IH.
  destruct (f y); reflexivity.
Qed.

Lemma sort_sorted l : timestamps_sorted l = true -> sort_by_timestamp l = l.
Proof.
  unfold sort_by_timestamp. induction l as [|y l IH]; simpl; [reflexivity|].
  intros H. apply andb_true_iff in H. destruct H as [Hy Hl].
  rewrite (IH Hl). apply insert_front. exact Hy.
Qed.

(** *** Adding a list of orders to a book *)

Lemma level_with_cons p old o q :
  level_with p old (o :: q)
  = level_with p (Some (PriceLevel.add_order (default (PriceLevel.new p) old) o)) q.
Proof. destruct q; reflexivity. Qed.

Lemma foldl_add_order q : forall l0,
  foldl PriceLevel.add_order l0 q
  = PriceLevel.mk (PriceLevel.price l0) (PriceLevel.orders l0 ++ q)
      (foldl (fun t o => Dec.plus t (remaining_quantity o))
         (PriceLevel.total_quantity l0) q).
Proof.
  induction q as [|o q IH]; intros l0; simpl.
  - rewrite app_nil_r. destruct l0; reflexivity.
  - rewrite IH. simpl. rewrite <- app_assoc. reflexivity.
Qed.

(** Adding up a queue order by order rounds nowhere when the sum fits the
    precision. *)
Lemma foldl_plus_exact q : forall t,
  0 <= t -> (forall o, In o q -> 0 <= remaining_quantity o) ->
  within_precision (t + sum_remaining q) ->
  foldl (fun t o => Dec.plus t (remaining_quantity o)) t q = t + sum_remaining q.
Proof.
  induction q as [|o q IH]; intros t Ht Hq Hw; simpl; [lia|].
  assert (Ho : 0 <= remaining_quantity o) by (apply Hq; left; reflexivity).
  assert (Hs : 0 <= sum_remaining q).
  { clear -Hq. induction q as [|x q IH]; simpl; [lia|].
    assert (0 <= remaining_quantity x) by (apply Hq; right; left; reflexivity).
    assert (0 <= sum_remaining q); [|lia].
    apply IH. intros y [<-|Hy]; apply Hq; [left|right; right]; auto. }
  simpl in Hw.
  assert (Hw1 : within_precision (t + remaining_quantity o))
    by (eapply within_precision_le; [exact Hw|lia]).
  rewrite (plus_exact _ _ Hw1).
  rewrite IH; [lia|lia| |].
  - intros x Hx. apply Hq. right. assumption.
  - replace (t + remaining_quantity o + sum_remaining q)
      with (t + (remaining_quantity o + sum_remaining q)) by lia. exact Hw.
Qed.

Lemma queued_cons sd p o os :
  queued sd p (o :: os)
  = if decide (side o = sd /\ price o = Some p) then o :: queued sd p os
    else queued sd p os.
Proof.
  unfold queued. simpl.
  destruct (decide (side o = sd /\ price o = Some p)) as [[-> ->]|Hn].
  - rewrite !bool_decide_eq_true_2 by reflexivity. reflexivity.
  - destruct (bool_decide (side o = sd)) eqn:E1;
      destruct (bool_decide (price o = Some p)) eqn:E2; simpl; try reflexivity.
    apply bool_decide_eq_true in E1, E2. exfalso. auto.
Qed.

(** The book after [add_orders]: every level holds, behind what it held,
    the orders of its price and side, in their order. *)
Lemma add_orders_Ok os : forall b,
  (forall o, In o os -> price o <> None) ->
  exists b',
    add_orders b os = Ok b' /\
    OrderBook.symbol b' = OrderBook.symbol b /\
    OrderBook.order_index b' = index_with os (OrderBook.order_index b) /\
    (forall sd,
       sorted_keys (OrderBook.key_of sd) (OrderBook.levels sd b) = true ->
       sorted_keys (OrderBook.key_of sd) (OrderBook.levels sd b') = true) /\
    (forall sd p,
       SortedDict.get p (OrderBook.levels sd b')
       = level_with p (SortedDict.get p (OrderBook.levels sd b)) (queued sd p os)).
Proof.
  induction os as [|o os IH]; intros b Hp.
  - exists b. simpl. repeat split; auto.
  - cbn [add_orders]. destruct (price o) as [p0|] eqn:Ep.
    2:{ exfalso. apply (Hp o); [left; reflexivity|assumption]. }
    destruct (OrderBook.add_order b o) as [b1| |] eqn:Hadd;
      try (unfold OrderBook.add_order in Hadd; rewrite Ep in Hadd; discriminate).
    cbn [mbind Res_bind]. destruct (IH b1) as (b' & Hb' & Hsym & Hidx & Hsorted & Hget).
    { intros x Hx. apply Hp. right. assumption. }
    apply add_order_Ok in Hadd.
    destruct Hadd as (p & Hp' & Hsym1 & Hidx1 & Hl1 & Hopp1).
    rewrite Ep in Hp'. inversion Hp'; subst p0; clear Hp'.
    exists b'. split; [assumption|]. split; [congruence|].
    split; [rewrite Hidx, Hidx1; reflexivity|]. split.
    + intros sd Hs. apply Hsorted. destruct (side_cases (side o) sd) as [->| ->].
      * rewrite Hl1. apply SortedDict_set_sorted. assumption.
      * rewrite Hopp1. assumption.
    + intros sd q. rewrite Hget, queued_cons.
      destruct (decide (side o = sd /\ price o = Some q)) as [[<- E]|Hn].
      * rewrite Ep in E. inversion E; subst q.
        rewrite level_with_cons, Hl1, SortedDict_get_set_eq. reflexivity.
      * f_equal. destruct (side_cases (side o) sd) as [->| ->].
        -- rewrite Hl1. apply SortedDict_get_set_ne. intros ->. apply Hn. auto.
        -- rewrite Hopp1. reflexivity.
Qed.

(** *** The orders of a well-formed side *)

Lemma queued_app sd p l1 l2 : queued sd p (l1 ++ l2) = queued sd p l1 ++ queued sd p l2.
Proof. unfold queued. apply List.filter_app. Qed.

Lemma queued_all sd p os :
  (forall o, In o os -> price o = Some p /\ side o = sd) -> queued sd p os = os.
Proof.
  induction os as [|o os IH]; intros H; [reflexivity|].
  rewrite queued_cons. destruct (H o (or_introl eq_refl)) as [A B].
  destruct (decide _) as [_|Hn]; [|exfalso; auto].
  rewrite IH; [reflexivity|]. intros x Hx. apply H. right. assumption.
Qed.

Lemma queued_none sd p os :
  (forall o, In o os -> ~ (price o = Some p /\ side o = sd)) -> queued sd p os = [].
Proof.
  induction os as [|o os IH]; intros H; [reflexivity|].
  rewrite queued_cons. destruct (decide _) as [[A B]|_].
  - exfalso. apply (H o (or_introl eq_refl)). auto.
  - apply IH. intros x Hx. apply H. right. assumption.
Qed.

Lemma queued_all_orders sd' sd p d :
  levels_keyed sd' d = true ->
  sorted_keys (OrderBook.key_of sd') d = true ->
  queued sd p (all_orders d)
  = if decide (sd' = sd)
    then match SortedDict.get p d with
         | Some l => PriceLevel.orders l
         | None => []
         end
    else [].
Proof.
  unfold all_orders. induction d as [|[q l] d IH]; simpl; intros Hk Hs.
  - destruct (decide (sd' = sd)); reflexivity.
  - apply andb_true_iff in Hk. destruct Hk as [Hkl Hk].
    pose proof (sorted_keys_cons _ q l d Hs) as [Hmin Hsd].
    rewrite queued_app, (IH Hk Hsd).
    assert (Hl : forall o, In o (PriceLevel.orders l) -> price o = Some q /\ side o = sd').
    { assert (Hk1 : levels_keyed sd' [(q, l)] = true) by (simpl; rewrite Hkl; reflexivity).
      rewrite levels_keyed_spec in Hk1.
      destruct (Hk1 (q, l) (or_introl eq_refl)) as (_ & _ & H3). exact H3. }
    destruct (decide (sd' = sd)) as [->|Hne].
    + destruct (p =? q) eqn:E.
      * apply Z.eqb_eq in E. subst q. rewrite (queued_all _ _ _ Hl).
        rewrite SortedDict_get_None; [apply app_nil_r|].
        intros l0 Hin. specialize (Hmin _ _ Hin). lia.
      * apply Z.eqb_neq in E. rewrite queued_none; [reflexivity|].
        intros o Ho [A B]. destruct (Hl _ Ho) as [A' _]. congruence.
    + rewrite queued_none; [reflexivity|].
      intros o Ho [A B]. destruct (Hl _ Ho) as [_ B']. congruence.
Qed.

(** Two sorted sides with the same lookups are equal. *)
Lemma sorted_ext sd d1 : forall d2,
  sorted_keys (OrderBook.key_of sd) d1 = true ->
  sorted_keys (OrderBook.key_of sd) d2 = true ->
  (forall p, SortedDict.get p d1 = SortedDict.get p d2) ->
  d1 = d2.
Proof.
  induction d1 as [|[p1 l1] d1 IH]; intros [|[p2 l2] d2] Hs1 Hs2 H.
  - reflexivity.
  - specialize (H p2). simpl in H. rewrite Z.eqb_refl in H. discriminate.
  - specialize (H p1). simpl in H. rewrite Z.eqb_refl in H. discriminate.
  - apply sorted_keys_cons in Hs1 as Hs1'. destruct Hs1' as [Hmin1 Hsd1].
    apply sorted_keys_cons in Hs2 as Hs2'. destruct Hs2' as [Hmin2 Hsd2].
    assert (Hp : p1 = p2).
    { destruct (Z.eq_dec p1 p2) as [E|Hne]; [assumption|]. exfalso.
      pose proof (H p1) as H1. pose proof (H p2) as H2. simpl in H1, H2.
      rewrite Z.eqb_refl in H1, H2.
      assert (E12 : (p1 =? p2) = false) by (apply Z.eqb_neq; assumption).
      assert (E21 : (p2 =? p1) = false) by (apply Z.eqb_neq; congruence).
      rewrite E12 in H1. rewrite E21 in H2.
      symmetry in H1. apply SortedDict_get_In in H1. apply SortedDict_get_In in H2.
      specialize (Hmin2 _ _ H1). specialize (Hmin1 _ _ H2). lia. }
    subst p2. pose proof (H p1) as H1. simpl in H1. rewrite Z.eqb_refl in H1.
    inversion H1; subst l2. f_equal. apply IH; try assumption.
    intros p. destruct (Z.eq_dec p p1) as [->|Hne].
    + rewrite !SortedDict_get_None; [reflexivity| |].
      * intros l Hin. specialize (Hmin2 _ _ Hin). lia.
      * intros l Hin. specialize (Hmin1 _ _ Hin). lia.
    + specialize (H p). simpl in H.
      assert (E : (p =? p1) = false) by (apply Z.eqb_neq; assumption).
      rewrite E in H. exact H.
Qed.

(** *** The index after [add_orders] *)

Lemma index_with_notin os : forall idx oid,
  (forall o, In o os -> order_id o <> oid) ->
  index_with os idx !! oid = idx !! oid.
Proof.
  unfold index_with. induction os as [|o os IH]; intros idx oid H; simpl; [reflexivity|].
  rewrite IH by (intros x Hx; apply H; right; assumption).
  apply lookup_insert_ne. apply H. left. reflexivity.
Qed.

Lemma index_with_in os : forall idx oid,
  (exists o, In o os /\ order_id o = oid) ->
  exists o, In o os /\ order_id o = oid /\
            index_with os idx !! oid = Some (o, side o).
Proof.
  induction os as [|o os IH]; intros idx oid (x & Hx & Hid); [destruct Hx|].
  destruct (existsb (fun y => bool_decide (order_id y = oid)) os) eqn:E.
  - apply existsb_exists in E. destruct E as (y & Hy & Ey).
    apply bool_decide_eq_true in Ey.
    destruct (IH (<[order_id o := (o, side o)]> idx) oid) as (z & Hz & Hzid & Hl); [eauto|].
    exists z. split; [right; assumption|]. split; [assumption|exact Hl].
  - assert (Hn : forall y, In y os -> order_id y <> oid).
    { intros y Hy Ey. assert (existsb (fun y => bool_decide (order_id y = oid)) os = true);
        [|congruence].
      apply existsb_exists. exists y. split; [assumption|].
      apply bool_decide_eq_true. assumption. }
    destruct Hx as [<-|Hx]; [|exfalso; eapply Hn; eassumption].
    exists o. split; [left; reflexivity|]. split; [assumption|].
    unfold index_with. simpl. fold (index_with os (<[order_id o := (o, side o)]> idx)).
    rewrite index_with_notin by assumption. rewrite <- Hid. apply lookup_insert_eq.
Qed.

(** *** A book is restored *)

Lemma book_restorable_spec b :
  book_restorable b = true ->
  forall sd kv, In kv (OrderBook.levels sd b) ->
    timestamps_sorted (PriceLevel.orders (snd kv)) = true /\
    forall o, In o (PriceLevel.orders (snd kv)) ->
      order_restorable o = true /\
      OrderBook.order_index b !! order_id o = Some (o, sd).
Proof.
  unfold book_restorable, level_restorable. rewrite andb_true_iff, !forallb_forall.
  intros [HB HS] sd kv Hkv.
  assert (H : timestamps_sorted (PriceLevel.orders (snd kv))
              && forallb (fun o => order_restorable o
                   && bool_decide (OrderBook.order_index b !! order_id o = Some (o, sd)))
                   (PriceLevel.orders (snd kv)) = true)
    by (destruct sd; [apply HB|apply HS]; exact Hkv).
  apply andb_true_iff in H. destruct H as [H1 H2]. split; [assumption|].
  intros o Ho. rewrite forallb_forall in H2. specialize (H2 _ Ho).
  apply andb_true_iff in H2. destruct H2 as [A B].
  apply bool_decide_eq_true in B. auto.
Qed.

Lemma all_orders_In d o :
  In o (all_orders d) <-> exists kv, In kv d /\ In o (PriceLevel.orders (snd kv)).
Proof.
  unfold all_orders. rewrite in_concat. split.
  - intros (l & Hl & Ho). apply in_map_iff in Hl. destruct Hl as (kv & <- & Hkv). eauto.
  - intros (kv & Hkv & Ho). exists (PriceLevel.orders (snd kv)).
    split; [apply in_map_iff; eauto|assumption].
Qed.

(** The orders a snapshot of [b] lists, in the order of their restoring. *)
Lemma restored_orders_In b o :
  In o (sort_by_timestamp
          (all_orders (OrderBook.bids b) ++ all_orders (OrderBook.asks b)))
  <-> exists sd, rests_on b sd o.
Proof.
  rewrite sort_by_timestamp_In, in_app_iff, !all_orders_In. unfold rests_on. split.
  - intros [H|H]; [exists BUY|exists SELL]; exact H.
  - intros ([|] & H); [left|right]; exact H.
Qed.

Lemma book_exact_spec b sd kv :
  book_exact b = true -> In kv (OrderBook.levels sd b) ->
  PriceLevel.total_quantity (snd kv) = sum_remaining (PriceLevel.orders (snd kv)) /\
  within_precision (PriceLevel.total_quantity (snd kv)).
Proof.
  unfold book_exact, levels_fit. rewrite !andb_true_iff, !levels_consistent_spec.
  rewrite !forallb_forall. intros [[[H1 H2] H3] H4] Hin.
  destruct sd; simpl in Hin.
  - split; [apply H1; assumption|].
    specialize (H2 _ Hin). apply andb_true_iff in H2. apply Z.leb_le. apply H2.
  - split; [apply H3; assumption|].
    specialize (H4 _ Hin). apply andb_true_iff in H4. apply Z.leb_le. apply H4.
Qed.

Lemma add_restored_orders sym b :
  book_wf sym b -> book_restorable b = true -> book_exact b = true ->
  add_orders (OrderBook.new sym)
    (sort_by_timestamp
       (all_orders (OrderBook.bids b) ++ all_orders (OrderBook.asks b)))
  = Ok b.
Proof.
  intros Hwf Hres Hex. pose proof (book_restorable_spec _ Hres) as Hr.
  pose proof Hwf as (Hsym & Hok & HkB & HkS & Hir).
  set (L := sort_by_timestamp
              (all_orders (OrderBook.bids b) ++ all_orders (OrderBook.asks b))).
  assert (Hside : forall sd o, rests_on b sd o -> side o = sd /\ price o <> None).
  { intros sd o (kv & Hkv & Ho).
    pose proof (book_wf_keyed _ _ sd Hwf) as Hk. rewrite levels_keyed_spec in Hk.
    destruct (Hk _ Hkv) as (_ & _ & H3). destruct (H3 _ Ho) as [A B].
    split; [assumption|congruence]. }
  destruct (add_orders_Ok L (OrderBook.new sym)) as (b' & Hb' & Hs' & Hidx & Hsorted & Hget).
  { intros o Ho. apply restored_orders_In in Ho. destruct Ho as (sd & Ho).
    apply (Hside _ _ Ho). }
  rewrite Hb'. f_equal. apply book_ext.
  - rewrite Hs'. simpl. congruence.
  - intros sd. apply (sorted_ext sd).
    + apply Hsorted. destruct sd; reflexivity.
    + eapply book_wf_sorted; eassumption.
    + intros p. rewrite Hget.
      assert (Enew : SortedDict.get p (OrderBook.levels sd (OrderBook.new sym)) = None)
        by (destruct sd; reflexivity).
      rewrite Enew. unfold L, queued. rewrite filter_sort_by_timestamp.
      fold (queued sd p (all_orders (OrderBook.bids b) ++ all_orders (OrderBook.asks b))).
      rewrite queued_app.
      rewrite (queued_all_orders BUY sd p _ HkB (book_wf_sorted _ _ BUY Hwf)).
      rewrite (queued_all_orders SELL sd p _ HkS (book_wf_sorted _ _ SELL Hwf)).
      assert (Hq : (if decide (BUY = sd)
                    then match SortedDict.get p (OrderBook.bids b) with
                         | Some l => PriceLevel.orders l | None => [] end
                    else [])
                   ++ (if decide (SELL = sd)
                       then match SortedDict.get p (OrderBook.asks b) with
                            | Some l => PriceLevel.orders l | None => [] end
                       else [])
                   = match SortedDict.get p (OrderBook.levels sd b) with
                     | Some l => PriceLevel.orders l | None => [] end).
      { destruct sd; simpl; [apply app_nil_r|reflexivity]. }
      rewrite Hq. clear Hq.
      destruct (SortedDict.get p (OrderBook.levels sd b)) as [l|] eqn:Hg; [|reflexivity].
      pose proof (SortedDict_get_In _ _ _ Hg) as Hin.
      destruct (Hr _ _ Hin) as [Hts _]. simpl in Hts.
      rewrite (sort_sorted _ Hts).
      destruct (book_wf_level _ _ _ _ _ Hwf Hin) as (_ & _ & Hne & _).
      destruct (book_exact_spec _ _ _ Hex Hin) as [Ht Hw]. simpl in Ht, Hw.
      assert (Hnn : forall o, In o (PriceLevel.orders l) -> 0 <= remaining_quantity o).
      { intros o Ho. pose proof (book_ok_levels sd b Hok) as Hl.
        apply levels_ok_spec in Hl. destruct Hl as [_ Hl].
        destruct (Hl _ Hin _ Ho) as [_ Hpos]. lia. }
      destruct (levels_keyed_get _ _ _ _ (book_wf_keyed _ _ sd Hwf) Hg) as (Hp & _).
      unfold level_with. destruct (PriceLevel.orders l) as [|x os] eqn:El; [contradiction|].
      rewrite <- El in *. f_equal. rewrite foldl_add_order. simpl.
      rewrite foldl_plus_exact; [|lia|assumption|simpl; rewrite <- Ht; exact Hw].
      simpl. rewrite <- Ht, <- Hp. destruct l; reflexivity.
  - rewrite Hidx. simpl. apply map_eq. intros oid.
    destruct (OrderBook.order_index b !! oid) as [[o sd]|] eqn:Hi.
    + destruct (Hir _ _ _ Hi) as (Hid & Hsd & Hrest).
      destruct (index_with_in L ∅ oid) as (o' & Ho' & Hid' & Hl).
      { exists o. split; [|assumption]. apply restored_orders_In. eauto. }
      rewrite Hl. apply restored_orders_In in Ho'. destruct Ho' as (sd' & kv & Hkv & Hin').
      destruct (Hr _ _ Hkv) as [_ Hc]. destruct (Hc _ Hin') as [_ Hc'].
      rewrite Hid', Hi in Hc'. inversion Hc'; subst. reflexivity.
    + rewrite index_with_notin; [apply lookup_empty|].
      intros o Ho Hid. apply restored_orders_In in Ho. destruct Ho as (sd' & kv & Hkv & Hin').
      destruct (Hr _ _ Hkv) as [_ Hc]. destruct (Hc _ Hin') as [_ Hc'].
      rewrite Hid, Hi in Hc'. discriminate.
Qed.

Lemma all_orders_restorable b :
  book_restorable b = true ->
  forall sd, forallb order_restorable (all_orders (OrderBook.levels sd b)) = true.
Proof.
  intros Hres sd. pose proof (book_restorable_spec _ Hres) as Hr.
  apply forallb_forall. intros o Ho. apply all_orders_In in Ho.
  destruct Ho as (kv & Hkv & Hin). destruct (Hr _ _ Hkv) as [_ Hc].
  apply (Hc _ Hin).
Qed.

Lemma restore_order_book_saved sym b :
  book_wf sym b -> book_restorable b = true -> book_exact b = true ->
  restore_order_book sym
    {| data_bids := _serialize_price_levels (OrderBook.bids b);
       data_asks := _serialize_price_levels (OrderBook.asks b);
       data_order_index := _serialize_order_index (OrderBook.order_index b) |}
  = Ok b.
Proof.
  intros Hwf Hres Hex. unfold restore_order_book. simpl.
  rewrite !serialized_levels_orders.
  pose proof (deserialize_orders_serialize _ (all_orders_restorable _ Hres BUY)) as HB.
  pose proof (deserialize_orders_serialize _ (all_orders_restorable _ Hres SELL)) as HS.
  simpl in HB, HS. rewrite HB, HS.
  simpl. apply add_restored_orders; assumption.
Qed.

(** X15. An order that the constructor accepts and whose price and stop
    price are absent or not zero is read back from its serialized form as
    it was.  A price of zero is written as absent: the order read back,
    if the constructor accepts it, has no price. *)
Theorem order_snapshot_round_trip o :
  (order_restorable o = true ->
   _deserialize_order (_serialize_order o) = Ok o) /\
  (price o = Some 0 ->
   forall o', _deserialize_order (_serialize_order o) = Ok o' -> price o' = None).
Proof.
  split; [apply deserialize_serialize|].
  intros Hp o'. unfold _deserialize_order, _serialize_order, Order_new. simpl.
  rewrite Hp. simpl. destruct (Order_post_init _); [|discriminate].
  intros H. inversion H; subst. reflexivity.
Qed.

(** X16. A well-formed book whose queues are in the order of their time
    stamps, whose orders survive serialization, whose index holds every
    resting order under its id, and whose aggregates are the sums of
    their queues and fit the precision, as its prices do, is restored by
    [load_order_book]
    from what [save_order_book] wrote: same symbol, same levels, same
    queues in the same order, same aggregates, same index. *)
Theorem load_save_order_book b :
  book_wf (OrderBook.symbol b) b ->
  book_restorable b = true ->
  book_exact b = true ->
  load_order_book (save_order_book b) = Ok b.
Proof.
  intros Hwf Hres Hex. unfold load_order_book, save_order_book. simpl.
  rewrite !serialized_levels_orders.
  pose proof (deserialize_orders_serialize _ (all_orders_restorable _ Hres BUY)) as HB.
  pose proof (deserialize_orders_serialize _ (all_orders_restorable _ Hres SELL)) as HS.
  simpl in HB, HS. rewrite HB, HS.
  simpl. apply add_restored_orders; assumption.
Qed.

(** *** The engine state is restored *)

Lemma foldl_insert_lookup {A} (l : list (string * A)) :
  forall (acc : gmap string A) (k : string),
  NoDup (map fst l) ->
  (forall v, In (k, v) l ->
     foldl (fun m kv => <[fst kv := snd kv]> m) acc l !! k = Some v) /\
  ((forall v, ~ In (k, v) l) ->
     foldl (fun m kv => <[fst kv := snd kv]> m) acc l !! k = acc !! k).
Proof.
  induction l as [|[k0 v0] l IH]; intros acc k Hnd.
  - simpl. split; [intros v []|reflexivity].
  - change (NoDup (k0 :: map fst l)) in Hnd.
    apply NoDup_cons in Hnd. destruct Hnd as [Hk0 Hnd].
    destruct (IH (<[k0 := v0]> acc) k Hnd) as [IH1 IH2].
    cbn [foldl fst snd]. split.
    + intros v [E|Hin]; [|auto]. inversion E; subst k0 v0.
      rewrite IH2; [apply lookup_insert_eq|].
      intros v' Hin. apply Hk0. apply list_elem_of_In. apply in_map_iff.
      exists (k, v'). split; [reflexivity|assumption].
    + intros Hn. rewrite IH2 by (intros v Hin; apply (Hn v); right; assumption).
      apply lookup_insert_ne. intros ->. apply (Hn v0). left. reflexivity.
Qed.

Lemma foldl_insert_map_to_list {A} (m : gmap string A) :
  foldl (fun acc kv => <[fst kv := snd kv]> acc) ∅ (map_to_list m) = m.
Proof.
  apply map_eq. intros k.
  destruct (foldl_insert_lookup (map_to_list m) ∅ k (NoDup_fst_map_to_list m)) as [H1 H2].
  destruct (m !! k) as [v|] eqn:E.
  - apply H1. apply list_elem_of_In, elem_of_map_to_list. assumption.
  - rewrite H2; [apply lookup_empty|].
    intros v Hin. apply list_elem_of_In, elem_of_map_to_list in Hin. congruence.
Qed.

Lemma restore_order_books_saved l : forall acc,
  (forall kv, In kv l -> book_wf (fst kv) (snd kv) /\ book_restorable (snd kv) = true /\
                         book_exact (snd kv) = true) ->
  restore_order_books
    (map (fun kv =>
            (fst kv,
             {| data_bids := _serialize_price_levels (OrderBook.bids (snd kv));
                data_asks := _serialize_price_levels (OrderBook.asks (snd kv));
                data_order_index :=
                  _serialize_order_index (OrderBook.order_index (snd kv)) |})) l)
    acc
  = Ok (foldl (fun m kv => <[fst kv := snd kv]> m) acc l).
Proof.
  induction l as [|[sym b] l IH]; intros acc H; simpl; [reflexivity|].
  destruct (H (sym, b) (or_introl eq_refl)) as (Hwf & Hres & Hex). simpl in Hwf, Hres, Hex.
  rewrite (restore_order_book_saved _ _ Hwf Hres Hex). simpl.
  apply IH. intros kv Hkv. apply H. right. assumption.
Qed.

Lemma restore_stop_orders_saved l : forall acc,
  (forall kv, In kv l -> forallb order_restorable (snd kv) = true) ->
  restore_stop_orders
    (map (fun kv : string * list Order => (fst kv, map _serialize_order (snd kv))) l) acc
  = Ok (foldl (fun m kv => <[fst kv := snd kv]> m) acc l).
Proof.
  induction l as [|[sym os] l IH]; intros acc H; simpl; [reflexivity|].
  pose proof (deserialize_orders_serialize _ (H (sym, os) (or_introl eq_refl))) as Hd.
  simpl in Hd. rewrite Hd. simpl.
  apply IH. intros kv Hkv. apply H. right. assumption.
Qed.

(** X17. Saving the state of an engine and loading it into an engine
    restores the counters, the books (levels, queues in their order,
    aggregates, index) and the pending stop orders, provided the books are
    well formed and restorable, their aggregates are the sums of their
    queues and fit the precision, as their prices do, and the pending
    stop orders survive
    serialization; the fee configuration is not part of the snapshot and
    stays as the loading engine has it.  Loaded into the engine it was
    saved from, the snapshot gives the engine back. *)
Theorem load_save_engine_state e0 e :
  all_books_wf e ->
  engine_restorable e = true ->
  engine_exact e = true ->
  load_engine_state e0 (save_engine_state e) = Ok (restored_into e0 e) /\
  load_engine_state e (save_engine_state e) = Ok e.
Proof.
  intros Hwf Hres Hex. unfold engine_restorable in Hres. unfold engine_exact in Hex.
  apply andb_true_iff in Hres. destruct Hres as [Hb Hs].
  rewrite forallb_forall in Hb, Hs, Hex.
  assert (Hload : forall e1,
            load_engine_state e1 (save_engine_state e) = Ok (restored_into e1 e)).
  { intros e1. unfold load_engine_state, save_engine_state. simpl.
    rewrite restore_order_books_saved.
    2:{ intros [sym b] Hin. split; [|split; [apply (Hb _ Hin)|apply (Hex _ Hin)]].
        simpl. apply Hwf. apply elem_of_map_to_list, list_elem_of_In. assumption. }
    simpl. rewrite restore_stop_orders_saved by (intros kv Hin; apply (Hs _ Hin)).
    simpl. rewrite !foldl_insert_map_to_list. reflexivity. }
  split; [apply Hload|]. rewrite Hload. destruct e; reflexivity.
Qed.

(** ** The fee calculator *)


Lemma digits_aux_pos f n : 1 <= Dec.digits_aux f n.
Proof.
  revert n. induction f as [|f IH]; intros n; simpl; [lia|].
  destruct (n <? 10); [lia|]. specialize (IH (n / 10)). lia.
Qed.

Lemma digits_pos n : 1 <= Dec.digits n.
Proof. apply digits_aux_pos. Qed.

(** X19. The fee of a non-negative trade value at a non-negative rate,
    when the product of their coefficients fits the precision of the
    context: it has 8 fractional digits and is not negative; it is the
    exact product when that has at most 8 fractional digits, and otherwise
    the product rounded to 8 fractional digits, at most half a unit of the
    last digit away, a tie going to the even digit. *)
Theorem fee_rounding v rate fee :
  0 <= Dec.coef v -> 0 <= Dec.coef rate ->
  within_precision (Dec.coef v * Dec.coef rate) ->
  Dec.quantize (Dec.mul v rate) fee_quantum_exp = Ok fee ->
  let exact := Dec.coef v * Dec.coef rate in
  let e := Dec.expo v + Dec.expo rate in
  Dec.expo fee = -8 /\ 0 <= Dec.coef fee /\
  (-8 <= e -> Dec.coef fee = exact * 10 ^ (e + 8)) /\
  (e < -8 ->
     2 * Z.abs (exact - Dec.coef fee * 10 ^ (-8 - e)) <= 10 ^ (-8 - e) /\
     (2 * Z.abs (exact - Dec.coef fee * 10 ^ (-8 - e)) = 10 ^ (-8 - e) ->
      Z.even (Dec.coef fee) = true)).
Proof.
  intros Hv Hr Hprec Hq. cbv zeta.
  rewrite (mul_exact _ _ Hprec) in Hq.
  apply quantize_Ok in Hq. destruct Hq as [-> _].
  unfold Dec.rescale, fee_quantum_exp. simpl.
  set (exact := Dec.coef v * Dec.coef rate) in *.
  set (e := Dec.expo v + Dec.expo rate) in *.
  assert (Hex : 0 <= exact) by (subst exact; nia).
  destruct (-8 <=? e) eqn:E; simpl.
  - apply Z.leb_le in E. split; [reflexivity|].
    assert (0 < 10 ^ (e - -8)) by (apply Z.pow_pos_nonneg; lia).
    split; [nia|]. split; [|intros; lia].
    intros _. replace (e - -8) with (e + 8) by lia. reflexivity.
  - apply Z.leb_gt in E. split; [reflexivity|].
    assert (Hd : 0 < 10 ^ (-8 - e)) by (apply Z.pow_pos_nonneg; lia).
    rewrite Z.abs_eq by assumption.
    pose proof (round_half_even_spec exact (10 ^ (-8 - e)) Hex Hd) as Hspec.
    cbv zeta in Hspec. set (c := Dec.round_half_even exact (10 ^ (-8 - e))) in *.
    assert (Hc : 0 <= c).
    { subst c. unfold Dec.round_half_even.
      assert (0 <= exact / 10 ^ (-8 - e)) by (apply Z.div_pos; lia).
      repeat match goal with |- context [if ?b then _ else _] => destruct b end; lia. }
    assert (Hs : Z.sgn exact * c = c).
    { destruct (Z.eq_dec exact 0) as [E0|E0].
      - assert (c = 0); [|lia]. subst c. rewrite E0. unfold Dec.round_half_even.
        rewrite Z.div_0_l, Zmod_0_l by lia.
        replace (2 * 0 <? 10 ^ (-8 - e)) with true by (symmetry; apply Z.ltb_lt; lia).
        reflexivity.
      - rewrite Z.sgn_pos by lia. lia. }
    rewrite Hs. split; [assumption|]. split; [intros; lia|]. intros _. exact Hspec.
Qed.

(** X20. For a trade value given with 8 decimals the net proceeds are the
    trade value less the fee, to the last digit, when that difference fits
    the precision of the context. *)
Theorem net_proceeds_exact fc v is_maker n :
  Dec.expo v = -8 ->
  get_net_proceeds fc v is_maker = Ok n ->
  exists fee,
    (if is_maker then calculate_maker_fee fc v else calculate_taker_fee fc v) = Ok fee /\
    Dec.expo fee = -8 /\
    (within_precision (Dec.coef v - Dec.coef fee) ->
     n = Dec.mk (Dec.coef v - Dec.coef fee) (-8)).
Proof.
  intros He H. unfold get_net_proceeds in H. inv_ok H. rename a into fee.
  inversion H; subst n; clear H. exists fee. split; [assumption|].
  assert (Hfe : Dec.expo fee = -8).
  { destruct is_maker; unfold calculate_maker_fee, calculate_taker_fee in Hstep;
      apply quantize_Ok in Hstep; apply Hstep. }
  split; [assumption|]. intros Hprec.
  unfold Dec.sub, Dec.add. simpl. rewrite He, Hfe. simpl.
  assert (Hm : Z.max (Z.min (-8) (-8)) (-8 - Dec.prec - 1) = -8) by reflexivity.
  destruct (Dec.coef v =? 0) eqn:Ev; destruct (- Dec.coef fee =? 0) eqn:Ef; simpl.
  - apply Z.eqb_eq in Ev, Ef. rewrite Ev. replace (Dec.coef fee) with 0 by lia.
    reflexivity.
  - apply Z.eqb_eq in Ev. unfold Dec.rescale. simpl. rewrite Hm. simpl.
    rewrite Z.mul_1_r. rewrite Ev in *.
    rewrite fix_within_precision; [f_equal; lia|].
    simpl. replace (- Dec.coef fee) with (0 - Dec.coef fee) by lia. assumption.
  - apply Z.eqb_eq in Ef. unfold Dec.rescale. rewrite He. simpl. rewrite Hm. simpl.
    rewrite Z.mul_1_r.
    rewrite fix_within_precision; [f_equal; lia|].
    simpl. replace (Dec.coef v) with (Dec.coef v - Dec.coef fee) by lia. assumption.
  - unfold Dec.normalize. simpl. rewrite !He. simpl. rewrite !He.
    pose proof (digits_pos (Z.abs (- Dec.coef fee))) as Hd.
    assert (Hno : (Dec.digits (Z.abs (- Dec.coef fee)) + -8 - 1
                   <? -8 + Z.min (-1) (Dec.digits (Z.abs (Dec.coef v)) - Dec.prec - 2))
                  = false) by (apply Z.ltb_ge; lia).
    rewrite Hno. simpl. rewrite ?He. simpl.
    change (10 ^ (-8 - -8)) with 1. rewrite Z.mul_1_r.
    replace (Dec.coef v + - Dec.coef fee) with (Dec.coef v - Dec.coef fee) by lia.
    destruct (Dec.coef v - Dec.coef fee =? 0) eqn:E0.
    + apply Z.eqb_eq in E0. rewrite E0. reflexivity.
    + apply fix_within_precision. assumption.
Qed.

(** ** When the best bid and offer change *)

Lemma bbo_changed_sides b b' :
  _bbo_changed (OrderBook.calculate_bbo b) (OrderBook.calculate_bbo b') = false <->
  forall sd,
    fst <$> head (OrderBook.levels sd b) = fst <$> head (OrderBook.levels sd b') /\
    default 0 (PriceLevel.total_quantity ∘ snd <$> head (OrderBook.levels sd b))
    = default 0 (PriceLevel.total_quantity ∘ snd <$> head (OrderBook.levels sd b')).
Proof.
  unfold _bbo_changed, OrderBook.calculate_bbo, OrderBook.get_best_bid,
    OrderBook.get_best_ask.
  rewrite !orb_false_iff, !bool_decide_eq_false.
  split.
  - intros [[[H1 H2] H3] H4] sd.
    destruct sd; simpl.
    + destruct (head (OrderBook.bids b)) as [[p l]|], (head (OrderBook.bids b')) as [[p' l']|];
        destruct (head (OrderBook.asks b)) as [[q m]|], (head (OrderBook.asks b')) as [[q' m']|];
        simpl in *; split;
        first [ destruct (decide (Some p = Some p')); [assumption|contradiction]
              | destruct (decide (@None Z = Some p')); [assumption|contradiction]
              | destruct (decide (Some p = @None Z)); [assumption|contradiction]
              | reflexivity
              | apply dec_stable; assumption ].
    + destruct (head (OrderBook.bids b)) as [[p l]|], (head (OrderBook.bids b')) as [[p' l']|];
        destruct (head (OrderBook.asks b)) as [[q m]|], (head (OrderBook.asks b')) as [[q' m']|];
        simpl in *; split;
        first [ reflexivity | apply dec_stable; assumption ].
  - intros H. destruct (H BUY) as [B1 B2], (H SELL) as [S1 S2]. simpl in *.
    destruct (head (OrderBook.bids b)) as [[p l]|], (head (OrderBook.bids b')) as [[p' l']|];
      destruct (head (OrderBook.asks b)) as [[q m]|], (head (OrderBook.asks b')) as [[q' m']|];
      simpl in *; try discriminate; repeat split; intros E; apply E; congruence.
Qed.

(** X21. [OrderBook.add_order] of an order with a price that fits the
    precision and a remaining quantity, the aggregate of the level of
    that price fitting the precision with the order added, changes the best bid and offer, as
    [_bbo_changed] sees it on the BBO computed before and after, exactly
    when the side of the order was empty or the price of the order is at
    least as good as the best price of its side. *)
Theorem bbo_changed_on_add b o p b' :
  price o = Some p -> within_precision p -> remaining_quantity o <> 0 ->
  (forall l, SortedDict.get p (OrderBook.levels (side o) b) = Some l ->
     within_precision (PriceLevel.total_quantity l + remaining_quantity o)) ->
  OrderBook.add_order b o = Ok b' ->
  _bbo_changed (OrderBook.calculate_bbo b) (OrderBook.calculate_bbo b')
  = match head (OrderBook.levels (side o) b) with
    | None => true
    | Some (q, _) => match side o with BUY => q <=? p | SELL => p <=? q end
    end.
Proof.
  intros Hp _ Hrem Hfit H. apply add_order_Ok in H.
  destruct H as (p' & Hp' & _ & _ & Hl & Hopp).
  rewrite Hp in Hp'. inversion Hp'; subst p'; clear Hp'.
  destruct (_bbo_changed _ _) eqn:E.
  - destruct (OrderBook.levels (side o) b) as [|[q m] d] eqn:Ed; simpl; [reflexivity|].
    destruct (match side o with BUY => q <=? p | SELL => p <=? q end) eqn:Eb;
      [reflexivity|].
    exfalso. apply not_false_iff_true in E. apply E. apply bbo_changed_sides.
    intros sd. destruct (side_cases (side o) sd) as [->| ->];
      [|rewrite Hopp; split; reflexivity].
    rewrite Hl, Ed. simpl.
    assert (Hne : (p =? q) = false) by (destruct (side o); apply Z.eqb_neq; lia).
    assert (Hlt : (OrderBook.key_of (side o) p <? OrderBook.key_of (side o) q) = false)
      by (destruct (side o); simpl; apply Z.ltb_ge; lia).
    rewrite Hne, Hlt. split; reflexivity.
  - destruct (proj1 (bbo_changed_sides b b') E (side o)) as [E1 E2].
    rewrite Hl in E1, E2.
    destruct (OrderBook.levels (side o) b) as [|[q m] d] eqn:Ed; simpl in E1, E2;
      [discriminate|].
    destruct (p =? q) eqn:Hpq.
    + apply Z.eqb_eq in Hpq. subst q. simpl in E2, Hfit. rewrite Z.eqb_refl in Hfit.
      rewrite (plus_exact _ _ (Hfit m eq_refl)) in E2. lia.
    + destruct (OrderBook.key_of (side o) p <? OrderBook.key_of (side o) q) eqn:Hlt;
        simpl in E1.
      * inversion E1. subst q. rewrite Z.eqb_refl in Hpq. discriminate.
      * apply Z.eqb_neq in Hpq. apply Z.ltb_ge in Hlt. symmetry.
        destruct (side o); simpl in Hlt; [apply Z.leb_gt|apply Z.leb_gt]; lia.
Qed.

(** X22. [OrderBook.remove_order] of a resting order from a well-formed
    book, the aggregate of its level fitting the precision with the order
    taken out, changes the best bid and offer, as [_bbo_changed] sees it
    on the BBO computed before and after, exactly when the order was
    queued at the best price of its side. *)
Theorem bbo_changed_on_remove sym b oid b' o :
  book_wf sym b ->
  (forall p l, price o = Some p ->
     SortedDict.get p (OrderBook.levels (side o) b) = Some l ->
     within_precision (PriceLevel.total_quantity l - remaining_quantity o)) ->
  OrderBook.remove_order b oid = Ok (b', o) ->
  _bbo_changed (OrderBook.calculate_bbo b) (OrderBook.calculate_bbo b')
  = bool_decide (fst <$> head (OrderBook.levels (side o) b) = price o).
Proof.
  intros Hwf Hfit H. apply remove_order_Ok in H.
  destruct H as (sd & p & l & os1 & os2 & Hi & Hp & Hg & Ho & _ & _ & _ & Hl & Hopp).
  pose proof Hwf as (_ & Hok & _ & _ & Hir).
  destruct (Hir _ _ _ Hi) as (_ & Hsd & _). subst sd.
  pose proof (Hfit p l Hp Hg) as Hw.
  pose proof (book_wf_sorted _ _ (side o) Hwf) as Hs.
  assert (Hin : In (p, l) (OrderBook.levels (side o) b)) by (apply SortedDict_get_In; assumption).
  assert (Hpos : 0 < remaining_quantity o).
  { pose proof (book_ok_levels (side o) b Hok) as Hlv. apply levels_ok_spec in Hlv.
    destruct Hlv as [_ Hlv]. apply (Hlv _ Hin). simpl.
    rewrite Ho. apply in_or_app. right. left. reflexivity. }
  rewrite Hp.
  destruct (OrderBook.levels (side o) b) as [|[q m] d] eqn:Ed; [destruct Hin|].
  apply sorted_keys_cons in Hs. destruct Hs as [Hmin Hs].
  simpl in Hg, Hl |- *.
  destruct (p =? q) eqn:Hpq.
  - apply Z.eqb_eq in Hpq. subst q. inversion Hg; subst m; clear Hg.
    rewrite bool_decide_eq_true_2 by reflexivity.
    destruct (_bbo_changed _ _) eqn:E; [reflexivity|exfalso].
    destruct (proj1 (bbo_changed_sides b b') E (side o)) as [E1 E2].
    rewrite Hl, Ed in E1, E2. simpl in E1, E2.
    destruct (decide (os1 ++ os2 = [])).
    + destruct d as [|[q2 m2] d2]; simpl in E1; [discriminate|].
      inversion E1; subst q2. specialize (Hmin p m2 (or_introl eq_refl)). lia.
    + simpl in E2. unfold Dec.minus in E2. rewrite (round_exact _ Hw) in E2. lia.
  - rewrite bool_decide_eq_false_2
      by (intros E; inversion E; subst; rewrite Z.eqb_refl in Hpq; discriminate).
    apply bbo_changed_sides. intros sd.
    destruct (side_cases (side o) sd) as [->| ->];
      [|rewrite Hopp; split; reflexivity].
    rewrite Hl, Ed.
    assert (Hlt : (OrderBook.key_of (side o) p <? OrderBook.key_of (side o) q) = false).
    { apply Z.ltb_ge. destruct Hin as [Ein|Hin].
      - inversion Ein; subst. rewrite Z.eqb_refl in Hpq. discriminate.
      - specialize (Hmin _ _ Hin). lia. }
    destruct (decide (os1 ++ os2 = [])); simpl; rewrite ?Hpq, ?Hlt; split; reflexivity.
Qed.

Lemma fifo_fills_sum_pos p os ts os' :
  fifo_fills p os ts os' -> ts <> [] -> 0 < sum_qty ts.
Proof.
  induction 1 as [os|m os t ts os' Hp Hm Hq Hfull Hff IH|m os t Hp Hm Hq]; intros Hne.
  - contradiction.
  - pose proof (fifo_fills_sum_nonneg _ _ _ _ Hff). simpl. lia.
  - simpl. lia.
Qed.

Lemma book_fills_keys d ts d' :
  book_fills d ts d' -> forall q l', In (q, l') d' -> exists l, In (q, l) d.
Proof.
  induction 1 as [d|p l d ts1 ts2 d' Hff Hbf IH|p l d ts os' total' Hff Hne]; intros q l' Hin.
  - eauto.
  - destruct (IH _ _ Hin) as (l0 & Hl0). exists l0. right. assumption.
  - destruct Hin as [E|Hin].
    + inversion E; subst. exists l. left. reflexivity.
    + exists l'. right. assumption.
Qed.

(** Without a trade the matching loop leaves the side as it is; with a
    trade the first level is gone, or its aggregate is smaller, when that
    aggregate was the sum of its queue and fits the precision. *)
Lemma match_levels_top key d e o idx e' o' d' idx' new :
  match_levels pe qe e o d idx [] = Ok (e', o', d', idx', new) ->
  sorted_keys key d = true ->
  (forall kv, In kv d ->
     PriceLevel.orders (snd kv) <> [] /\
     forall x, In x (PriceLevel.orders (snd kv)) -> 0 <= remaining_quantity x) ->
  (forall p l, head d = Some (p, l) ->
     PriceLevel.total_quantity l = sum_remaining (PriceLevel.orders l) /\
     within_precision (PriceLevel.total_quantity l)) ->
  (new = [] -> d' = d) /\
  (new <> [] ->
   fst <$> head d' <> fst <$> head d \/
   default 0 (PriceLevel.total_quantity ∘ snd <$> head d')
   < default 0 (PriceLevel.total_quantity ∘ snd <$> head d)).
Proof.
  intros H Hs Hq Hd. destruct d as [|[p l] rest].
  { simpl in H. inversion H; subst. split; [reflexivity|contradiction]. }
  simpl in H. destruct (0 <? remaining_quantity o) eqn:Hrem.
  2:{ inversion H; subst. split; [reflexivity|contradiction]. }
  inv_ok H. rename a into ok. destruct ok; simpl in H.
  2:{ inversion H; subst. split; [reflexivity|contradiction]. }
  inv_ok H. destruct a as [[[[[e1 o1] os1] total1] idx1] trades1].
  apply match_level_Ok in Hstep0.
  destruct Hstep0 as (new1 & Ht1 & Hff & _ & Htot1 & _). simpl in Ht1. subst trades1.
  destruct (Hq (p, l) (or_introl eq_refl)) as [Hne Hnn]. simpl in Hne, Hnn.
  destruct (Hd p l eq_refl) as [Hc Hw].
  assert (Hall : Forall (fun m => 0 <= remaining_quantity m) (PriceLevel.orders l)).
  { apply Forall_forall. intros x Hx. apply list_elem_of_In in Hx. auto. }
  specialize (Htot1 Hw Hall ltac:(lia)).
  unfold PriceLevel.is_empty in H. simpl in H.
  destruct os1 as [|m1 os1]; simpl in H.
  - assert (Hts1 : new1 <> []).
    { intros E. subst new1. inversion Hff as [os E1 E2| |]. congruence. }
    apply match_levels_Ok in H.
    destruct H as (new2 & -> & Hbf & _).
    split; [intros E; apply app_eq_nil in E; destruct E; contradiction|].
    intros _. left. simpl. apply sorted_keys_cons in Hs. destruct Hs as [Hmin _].
    destruct d' as [|[q l'] d'']; simpl; [discriminate|].
    destruct (book_fills_keys _ _ _ Hbf q l' (or_introl eq_refl)) as (l0 & Hl0).
    specialize (Hmin _ _ Hl0). intros E. inversion E; subst. lia.
  - inversion H; subst e' o' d' idx' new; clear H. split.
    + intros ->. inversion Hff; subst.
      destruct l; simpl in *. repeat f_equal. lia.
    + intros Hts. right. simpl. pose proof (fifo_fills_sum_pos _ _ _ _ Hff Hts). lia.
Qed.

(** X23. The matching loop changes the best bid and offer exactly when it
    trades: on a well-formed book where the aggregate of the best level
    of the side that the loop walks is the sum of its queue and fits the
    precision, [_bbo_changed] on the BBO computed before the loop and
    after it answers [True] when the loop made a trade, and the side
    that the loop walks is as before when it made none. *)
Theorem bbo_changed_by_matching sym b e o e1 o1 d' idx' trades :
  book_wf sym b ->
  (forall p l, head (OrderBook.levels (opposite (side o)) b) = Some (p, l) ->
     PriceLevel.total_quantity l = sum_remaining (PriceLevel.orders l) /\
     within_precision (PriceLevel.total_quantity l)) ->
  match_levels pe qe e o (OrderBook.levels (opposite (side o)) b)
    (OrderBook.order_index b) [] = Ok (e1, o1, d', idx', trades) ->
  let b' := OrderBook.set_order_index idx'
              (OrderBook.set_levels (opposite (side o)) d' b) in
  _bbo_changed (OrderBook.calculate_bbo b) (OrderBook.calculate_bbo b')
  = negb (bool_decide (trades = [])) /\
  (trades = [] -> OrderBook.levels (opposite (side o)) b' = OrderBook.levels (opposite (side o)) b).
Proof.
  intros Hwf Hd H. cbv zeta. rename trades into new.
  pose proof (book_wf_sorted _ _ (opposite (side o)) Hwf) as Hs.
  assert (Hq : forall kv, In kv (OrderBook.levels (opposite (side o)) b) ->
                 PriceLevel.orders (snd kv) <> [] /\
                 forall x, In x (PriceLevel.orders (snd kv)) -> 0 <= remaining_quantity x).
  { intros [q l] Hin. split; [apply (book_wf_level _ _ _ _ _ Hwf Hin)|].
    intros x Hx. pose proof Hwf as (_ & Hok & _).
    pose proof (book_ok_levels (opposite (side o)) b Hok) as Hl.
    apply levels_ok_spec in Hl. destruct Hl as [_ Hl].
    destruct (Hl _ Hin _ Hx) as [_ Hpos]. lia. }
  destruct (match_levels_top _ _ _ _ _ _ _ _ _ _ H Hs Hq Hd) as [Hnil Hcons].
  rewrite levels_set_order_index, levels_set_levels.
  destruct (decide (opposite (side o) = opposite (side o))); [|contradiction].
  split; [|exact Hnil].
  destruct (decide (new = [])) as [E|E].
  - rewrite bool_decide_eq_true_2 by assumption. simpl.
    apply bbo_changed_sides. intros sd.
    rewrite levels_set_order_index, levels_set_levels.
    destruct (decide (sd = opposite (side o))) as [->|]; [|split; reflexivity].
    rewrite (Hnil E). split; reflexivity.
  - rewrite bool_decide_eq_false_2 by assumption. simpl.
    destruct (_bbo_changed _ _) eqn:Ec; [reflexivity|exfalso].
    destruct (proj1 (bbo_changed_sides _ _) Ec (opposite (side o))) as [E1 E2].
    rewrite levels_set_order_index, levels_set_levels in E1, E2.
    destruct (decide (opposite (side o) = opposite (side o))); [|contradiction].
    destruct (Hcons E) as [C|C]; [congruence|lia].
Qed.

(** ** No exception on sound orders *)




















Lemma order_sound_quantity o : order_sound o = true -> 0 < quantity o.
Proof.
  unfold order_sound, Order_post_init. intros H. rewrite !andb_true_iff in H.
  destruct H as [[[[[[H _] _] _] _] _] _]. lia.
Qed.








End Coverage.

(** * The further properties at concrete inputs *)

Import Scenario3.

Lemma run_failed {pe qe : Z} (r : Res MatchingEngine) os :
  (forall e, r <> Ok e) ->
  foldl (fun r o => e ← r; '(e, _, _) ← process_order pe qe e o; Ok e) r os = r.
Proof.
  induction os as [|o os IH]; intros Hr; [reflexivity|].
  simpl. destruct r as [e| |]; [destruct (Hr e); reflexivity|..]; simpl;
    apply IH; discriminate.
Qed.

(** The states that [run] passes through are reachable. *)
Lemma run_reachable pe qe os : forall e e',
  reachable pe qe e -> run pe qe e os = Ok e' -> reachable pe qe e'.
Proof.
  unfold run. induction os as [|o os IH]; intros e e' He H.
  - simpl in H. inversion H; subst. exact He.
  - simpl in H. destruct (process_order pe qe e o) as [[[e1 o1] r]| |] eqn:Hp; simpl in H.
    + eapply IH; [|exact H]. eapply reach_process; eassumption.
    + rewrite run_failed in H by discriminate. discriminate.
    + rewrite run_failed in H by discriminate. discriminate.
Qed.

Lemma engine_after_reachable pe qe e os :
  reachable pe qe e -> reachable pe qe (engine_after pe qe e os).
Proof.
  intros He. unfold engine_after.
  destruct (run pe qe e os) as [e'| |] eqn:H; [|assumption..].
  eapply run_reachable; eassumption.
Qed.

Lemma engine0_reachable pe qe os : reachable pe qe (engine_after pe qe engine0 os).
Proof. apply engine_after_reachable. apply reach_new. Qed.

Lemma two_asks_book :
  order_books (engine_after 0 0 engine0 two_asks) !! sym
  = Some (book_of (engine_after 0 0 engine0 two_asks) sym).
Proof.
  unfold book_of.
  destruct (order_books (engine_after 0 0 engine0 two_asks) !! sym) eqn:H;
    [reflexivity|vm_compute in H; discriminate H].
Qed.

Lemma two_asks_book_wf : book_wf sym (book_of (engine_after 0 0 engine0 two_asks) sym).
Proof.
  exact (reachable_all_books_wf 0 0 _ (engine0_reachable 0 0 two_asks) _ _ two_asks_book).
Qed.

Lemma engine_after_cons pe qe e o os e1 o1 r :
  process_order pe qe e o = Ok (e1, o1, r) ->
  run pe qe e (o :: os) = run pe qe e1 os.
Proof. intros H. unfold run. simpl. rewrite H. reflexivity. Qed.

(** Orders submitted once, processed one after the other. *)
Lemma run_distinct_Ok pe qe os : forall e,
  reachable_distinct pe qe e -> submitted_once pe qe e os = true ->
  exists e', run pe qe e os = Ok e' /\ reachable_distinct pe qe e'.
Proof.
  induction os as [|o os IH]; intros e He H; [exists e; split; [reflexivity|exact He]|].
  simpl in H. rewrite andb_true_iff in H. destruct H as [Ha H].
  destruct (process_order pe qe e o) as [[[e1 o1] r]| |] eqn:Hpo; try discriminate.
  rewrite (engine_after_cons _ _ _ _ _ _ _ _ Hpo).
  apply IH; [|exact H]. eapply distinct_process; eassumption.
Qed.

Lemma run_distinct pe qe os e :
  reachable_distinct pe qe e -> submitted_once pe qe e os = true ->
  reachable_distinct pe qe (engine_after pe qe e os).
Proof.
  intros He H. destruct (run_distinct_Ok pe qe os e He H) as (e' & Hr & Hd).
  unfold engine_after. rewrite Hr. exact Hd.
Qed.

Lemma engine0_distinct pe qe os :
  submitted_once pe qe engine0 os = true ->
  reachable_distinct pe qe (engine_after pe qe engine0 os).
Proof. apply run_distinct. apply distinct_new. Qed.



Lemma two_asks_distinct : reachable_distinct 0 0 (engine_after 0 0 engine0 two_asks).
Proof. apply engine0_distinct. vm_compute. reflexivity. Qed.

(** The book that holds the two asks. *)
Lemma reachable_book_wf_witness :
  let e := engine_after 0 0 engine0 two_asks in
  let b := book_of e sym in
  reachable_distinct 0 0 e /\ order_books e !! sym = Some b /\
  OrderBook.symbol b = sym /\
  index_rests b /\
  forall sd,
    sorted_keys (OrderBook.key_of sd) (OrderBook.levels sd b) = true /\
    forall p l, In (p, l) (OrderBook.levels sd b) ->
      SortedDict.get p (OrderBook.levels sd b) = Some l /\
      PriceLevel.price l = p /\
      PriceLevel.orders l <> [] /\
      forall o, In o (PriceLevel.orders l) ->
        order_type o = LIMIT /\ 0 < remaining_quantity o /\
        price o = Some p /\ side o = sd.
Proof.
  cbv zeta. split; [exact two_asks_distinct|].
  split; [exact two_asks_book|].
  exact (reachable_book_wf 0 0 _ _ _ two_asks_distinct two_asks_book).
Defined.

(** The ask S1 is cancelled. *)
Lemma cancel_order_spec_witness :
  let e := engine_after 0 0 engine0 two_asks in
  reachable 0 0 e /\
  exists o, OrderBook.get_order (book_of e sym) "S1" = Some o /\
    exists b' p os1 os2,
      cancel_order e "S1" sym
        = Ok (set_order_books e (<[sym := b']> (order_books e)), true) /\
      order_id o = "S1" /\ price o = Some p /\
      queue_at (book_of e sym) (side o) p = os1 ++ o :: os2 /\
      ~ In o os1 /\
      queue_at b' (side o) p = os1 ++ os2 /\
      (forall sd q, (sd, q) <> (side o, p) ->
         SortedDict.get q (OrderBook.levels sd b')
         = SortedDict.get q (OrderBook.levels sd (book_of e sym))) /\
      OrderBook.has_order b' "S1" = false /\
      (forall oid', oid' <> "S1" ->
         OrderBook.get_order b' oid' = OrderBook.get_order (book_of e sym) oid').
Proof.
  cbv zeta. split; [exact (engine0_reachable 0 0 two_asks)|].
  pose proof (cancel_order_spec 0 0 _ "S1" sym (engine0_reachable 0 0 two_asks)) as H.
  destruct (OrderBook.get_order (book_of (engine_after 0 0 engine0 two_asks) sym) "S1")
    as [o|] eqn:E; [|vm_compute in E; discriminate E].
  exists o. split; [reflexivity|exact H].
Defined.

(** The BBO of the book that holds the two asks. *)
Lemma calculate_bbo_best_witness :
  let e := engine_after 0 0 engine0 two_asks in
  let b := book_of e sym in
  reachable_distinct 0 0 e /\ order_books e !! sym = Some b /\
  bbo_symbol (OrderBook.calculate_bbo b) = sym /\
  best_of b BUY (best_bid (OrderBook.calculate_bbo b))
    (best_bid_quantity (OrderBook.calculate_bbo b)) /\
  best_of b SELL (best_ask (OrderBook.calculate_bbo b))
    (best_ask_quantity (OrderBook.calculate_bbo b)).
Proof.
  cbv zeta. split; [exact two_asks_distinct|].
  split; [exact two_asks_book|].
  exact (calculate_bbo_best 0 0 _ _ _ two_asks_distinct two_asks_book).
Defined.

(** The first level of each side of that book. *)
Lemma get_order_book_snapshot_spec_witness :
  let e := engine_after 0 0 engine0 two_asks in
  reachable_distinct 0 0 e /\
  exists s, get_order_book_snapshot e sym 1 = Some s /\
    exists b, order_books e !! sym = Some b /\
      snapshot_symbol s = sym /\
      (snapshot_bids s, snapshot_asks s) = OrderBook.get_depth b 1 /\
      depth_of b BUY 1 (snapshot_bids s) /\
      depth_of b SELL 1 (snapshot_asks s).
Proof.
  cbv zeta. split; [exact two_asks_distinct|].
  pose proof (get_order_book_snapshot_spec 0 0 _ sym 1 two_asks_distinct) as H.
  destruct (get_order_book_snapshot (engine_after 0 0 engine0 two_asks) sym 1)
    as [s|] eqn:E; [|vm_compute in E; discriminate E].
  exists s. split; [reflexivity|exact H].
Defined.

(** A third ask joins the queue at 50000. *)
Lemma add_order_queues_last_witness :
  let b := book_of (engine_after 0 0 engine0 two_asks) sym in
  exists b',
    price added_ask = Some 50000 /\
    OrderBook.add_order b added_ask = Ok b' /\
    queue_at b' (side added_ask) 50000 = queue_at b (side added_ask) 50000 ++ [added_ask] /\
    (forall sd q, (sd, q) <> (side added_ask, 50000) ->
       SortedDict.get q (OrderBook.levels sd b')
       = SortedDict.get q (OrderBook.levels sd b)) /\
    OrderBook.get_order b' (order_id added_ask) = Some added_ask /\
    OrderBook.has_order b' (order_id added_ask) = true /\
    (forall oid, oid <> order_id added_ask ->
       OrderBook.get_order b' oid = OrderBook.get_order b oid).
Proof.
  cbv zeta.
  destruct (OrderBook.add_order (book_of (engine_after 0 0 engine0 two_asks) sym) added_ask)
    as [b'| |] eqn:H; [|vm_compute in H; discriminate H ..].
  exists b'. split; [reflexivity|]. split; [reflexivity|].
  exact (add_order_queues_last _ added_ask 50000 _ eq_refl H).
Defined.

(** The third ask is added and removed again. *)
Lemma add_remove_round_trip_witness :
  let b := book_of (engine_after 0 0 engine0 two_asks) sym in
  exists b',
    book_wf sym b /\
    price added_ask = Some 50000 /\
    OrderBook.has_order b (order_id added_ask) = false /\
    ~ In added_ask (queue_at b (side added_ask) 50000) /\
    (forall l, SortedDict.get 50000 (OrderBook.levels (side added_ask) b) = Some l ->
       within_precision (PriceLevel.total_quantity l) /\
       within_precision (PriceLevel.total_quantity l + remaining_quantity added_ask)) /\
    OrderBook.add_order b added_ask = Ok b' /\
    OrderBook.remove_order b' (order_id added_ask) = Ok (b, added_ask).
Proof.
  cbv zeta.
  destruct (OrderBook.add_order (book_of (engine_after 0 0 engine0 two_asks) sym) added_ask)
    as [b'| |] eqn:H; [|vm_compute in H; discriminate H ..].
  assert (Hnew : OrderBook.has_order (book_of (engine_after 0 0 engine0 two_asks) sym)
                   (order_id added_ask) = false) by (vm_compute; reflexivity).
  assert (Hnot : ~ In added_ask
                   (queue_at (book_of (engine_after 0 0 engine0 two_asks) sym)
                      (side added_ask) 50000)).
  { vm_compute. intros [E|[]]. discriminate E. }
  assert (Hfit : forall l,
            SortedDict.get 50000
              (OrderBook.levels (side added_ask)
                 (book_of (engine_after 0 0 engine0 two_asks) sym)) = Some l ->
            within_precision (PriceLevel.total_quantity l) /\
            within_precision (PriceLevel.total_quantity l + remaining_quantity added_ask)).
  { intros l Hl. vm_compute in Hl. inversion Hl; subst l.
    split; vm_compute; discriminate. }
  exists b'. split; [exact two_asks_book_wf|]. split; [reflexivity|].
  split; [exact Hnew|]. split; [exact Hnot|]. split; [exact Hfit|].
  split; [reflexivity|].
  exact (add_remove_round_trip _ _ added_ask 50000 _ two_asks_book_wf eq_refl Hnew Hnot
           Hfit H).
Defined.

(** The aggregate 50 of a level whose only order went from 50 to 30. *)
Lemma update_order_quantity_spec_witness :
  price reduced_ask = Some 50000 /\
  SortedDict.get 50000 (OrderBook.levels (side reduced_ask) stale_book)
    = Some stale_level /\
  In reduced_ask (PriceLevel.orders stale_level) /\
  PriceLevel.total_quantity stale_level
    = sum_remaining (PriceLevel.orders stale_level) - remaining_quantity reduced_ask + 50 /\
  within_precision
    (sum_remaining (PriceLevel.orders stale_level) - remaining_quantity reduced_ask) /\
  within_precision (sum_remaining (PriceLevel.orders stale_level)) /\
  SortedDict.get 50000
    (OrderBook.levels (side reduced_ask)
       (OrderBook.update_order_quantity stale_book reduced_ask 50))
    = Some (PriceLevel.mk 50000 [reduced_ask] 30).
Proof.
  assert (Hin : In reduced_ask (PriceLevel.orders stale_level))
    by (left; reflexivity).
  assert (Hw1 : within_precision
                  (sum_remaining (PriceLevel.orders stale_level)
                   - remaining_quantity reduced_ask)) by (vm_compute; discriminate).
  assert (Hw2 : within_precision (sum_remaining (PriceLevel.orders stale_level)))
    by (vm_compute; discriminate).
  split; [reflexivity|]. split; [reflexivity|]. split; [exact Hin|].
  split; [reflexivity|]. split; [exact Hw1|]. split; [exact Hw2|].
  exact (proj1 (update_order_quantity_spec stale_book reduced_ask 50 50000 stale_level
                  eq_refl eq_refl Hin eq_refl Hw1 Hw2)).
Defined.

(** A limit buy of 1.50 at 50010 takes both asks and rests with 0.50. *)
Lemma limit_order_outcome_witness :
  let e := engine_after 0 0 engine0 two_asks in
  let o := big_limit_buy in
  exists e' o' r,
    process_order 0 0 e o = Ok (e', o', r) /\
    order_type o = LIMIT /\ 0 < quantity o /\ remaining_quantity o = quantity o /\
    within_precision (quantity o) /\
    same_order o o' /\
    remaining_quantity o' = quantity o - sum_qty (result_trades r) /\
    result_remaining_quantity r = remaining_quantity o' /\
    0 <= remaining_quantity o' /\
    (remaining_quantity o' = 0 -> result_status r = "filled") /\
    (0 < remaining_quantity o' ->
       result_status r
         = match result_trades r with [] => "accepted" | _ => "partial" end /\
       exists p os,
         price o = Some p /\
         queue_at (book_of e' (symbol o)) (side o) p = os ++ [o'] /\
         OrderBook.get_order (book_of e' (symbol o)) (order_id o) = Some o').
Proof.
  cbv zeta.
  destruct (process_order 0 0 (engine_after 0 0 engine0 two_asks) big_limit_buy)
    as [[[e' o'] r]| |] eqn:H; [|vm_compute in H; discriminate H ..].
  assert (Hw : within_precision (quantity big_limit_buy)) by (vm_compute; discriminate).
  exists e', o', r. split; [reflexivity|]. split; [reflexivity|].
  split; [reflexivity|]. split; [reflexivity|]. split; [exact Hw|].
  exact (limit_order_outcome 0 0 _ _ _ _ _ H eq_refl eq_refl eq_refl Hw).
Defined.

(** An IOC buy of 1.50 at 50000 takes the first ask; the rest is
    cancelled. *)
Lemma ioc_order_outcome_witness :
  let e := engine_after 0 0 engine0 two_asks in
  let o := ioc_buy in
  exists e' o' r,
    reachable_distinct 0 0 e /\
    process_order 0 0 e o = Ok (e', o', r) /\
    order_type o = IOC /\ 0 < quantity o /\ remaining_quantity o = quantity o /\
    within_precision (quantity o) /\
    (exists d',
       book_fills (OrderBook.levels (opposite (side o)) (book_of e (symbol o)))
         (result_trades r) d' /\
       (0 < result_remaining_quantity r ->
          d' = [] \/ exists p l rest, d' = (p, l) :: rest /\ ~ within_limit o p)) /\
    (forall t, In t (result_trades r) -> within_limit o (trade_price t)) /\
    result_remaining_quantity r = quantity o - sum_qty (result_trades r) /\
    0 <= result_remaining_quantity r /\
    (result_remaining_quantity r = 0 -> result_status r = "filled") /\
    (0 < result_remaining_quantity r ->
       status o' = CANCELLED /\
       result_status r = match result_trades r with [] => "new" | _ => "partial" end) /\
    (forall x, rests_in (book_of e' (symbol o)) x -> ~ same_order o x).
Proof.
  cbv zeta.
  destruct (process_order 0 0 (engine_after 0 0 engine0 two_asks) ioc_buy)
    as [[[e' o'] r]| |] eqn:H; [|vm_compute in H; discriminate H ..].
  assert (Hw : within_precision (quantity ioc_buy)) by (vm_compute; discriminate).
  exists e', o', r. split; [exact two_asks_distinct|].
  split; [reflexivity|]. split; [reflexivity|].
  split; [reflexivity|]. split; [reflexivity|]. split; [exact Hw|].
  exact (ioc_order_outcome 0 0 _ _ _ _ _ two_asks_distinct H
           eq_refl eq_refl eq_refl Hw).
Defined.

(** The two trades of the limit buy of 1.00 at 50010. *)
Lemma trade_ids_consecutive_witness :
  let e := engine_after 0 0 engine0 two_asks in
  exists e' o' r,
    process_order 0 0 e limit_buy = Ok (e', o', r) /\
    map trade_id (result_trades r)
      = seqZ (trade_id_counter e + 1) (Z.of_nat (length (result_trades r))) /\
    trade_id_counter e + Z.of_nat (length (result_trades r)) <= trade_id_counter e' /\
    (forall t, In t (result_trades r) ->
       trade_id_counter e < trade_id t <= trade_id_counter e').
Proof.
  cbv zeta.
  destruct (process_order 0 0 (engine_after 0 0 engine0 two_asks) limit_buy)
    as [[[e' o'] r]| |] eqn:H; [|vm_compute in H; discriminate H ..].
  exists e', o', r. split; [reflexivity|].
  exact (trade_ids_consecutive 0 0 _ _ _ _ _ H).
Defined.

(** The limit buy at 50010 is marketable against the asks, and trades. *)
Lemma is_marketable_iff_trades_witness :
  let e := engine_after 0 0 engine0 two_asks in
  let o := limit_buy in
  let b := book_of e (symbol o) in
  exists e' o' r,
    reachable 0 0 e /\
    process_order 0 0 e o = Ok (e', o', r) /\
    is_stop_type (order_type o) = false /\
    order_type o <> FOK /\
    0 < remaining_quantity o /\
    (result_trades r <> [] <->
     OrderBook.levels (opposite (side o)) b <> [] /\
     is_marketable o (fst <$> OrderBook.get_best_bid b)
       (fst <$> OrderBook.get_best_ask b) = Ok true).
Proof.
  cbv zeta.
  destruct (process_order 0 0 (engine_after 0 0 engine0 two_asks) limit_buy)
    as [[[e' o'] r]| |] eqn:H; [|vm_compute in H; discriminate H ..].
  assert (Hty : order_type limit_buy <> FOK) by discriminate.
  exists e', o', r. split; [exact (engine0_reachable 0 0 two_asks)|].
  split; [reflexivity|]. split; [reflexivity|]. split; [exact Hty|].
  split; [reflexivity|].
  exact (is_marketable_iff_trades 0 0 _ _ _ _ _ (engine0_reachable 0 0 two_asks) H
           eq_refl Hty eq_refl).
Defined.

(** The liquidity check of the FOK buy of 1.00 at 50010. *)
Lemma can_fill_fok_iff_liquidity_witness :
  let e := engine_after 0 0 engine0 two_asks in
  let o := fok_buy in
  reachable_distinct 0 0 e /\ price o = Some 50010 /\ 0 < quantity o /\
  within_precision (quantity o) /\
  levels_consistent
    (OrderBook.levels (opposite (side o)) (book_of e (symbol o))) = true /\
  _can_fill_fok o (book_of e (symbol o))
  = Ok (quantity o <=?
          liquidity_within o
            (OrderBook.levels (opposite (side o)) (book_of e (symbol o)))).
Proof.
  cbv zeta.
  assert (Hw : within_precision (quantity fok_buy)) by (vm_compute; discriminate).
  assert (Hc : levels_consistent
                 (OrderBook.levels (opposite (side fok_buy))
                    (book_of (engine_after 0 0 engine0 two_asks) (symbol fok_buy))) = true)
    by (vm_compute; reflexivity).
  split; [exact two_asks_distinct|].
  split; [reflexivity|]. split; [reflexivity|]. split; [exact Hw|]. split; [exact Hc|].
  exact (can_fill_fok_iff_liquidity 0 0 _ fok_buy 50010
           two_asks_distinct eq_refl eq_refl Hw Hc).
Defined.

(** The limit buy of 1.50: the asks lose 1.00, the bids gain 0.50. *)
Lemma process_order_conserves_quantity_witness :
  let e := engine_after 0 0 engine0 two_asks in
  let o := big_limit_buy in
  exists e' o' r,
    reachable_distinct 0 0 e /\
    pending_of e (symbol o) = [] /\
    process_order 0 0 e o = Ok (e', o', r) /\
    is_stop_type (order_type o) = false /\
    levels_consistent
      (OrderBook.levels (opposite (side o)) (book_of e (symbol o))) = true /\
    levels_fit
      (OrderBook.levels (opposite (side o)) (book_of e (symbol o))) = true /\
    (forall p, price o = Some p ->
       within_precision
         (default 0 (PriceLevel.total_quantity <$>
                       SortedDict.get p (OrderBook.levels (side o) (book_of e (symbol o))))
          + remaining_quantity o')) /\
    side_quantity (OrderBook.levels (opposite (side o)) (book_of e' (symbol o)))
    = side_quantity (OrderBook.levels (opposite (side o)) (book_of e (symbol o)))
      - sum_qty (result_trades r) /\
    side_quantity (OrderBook.levels (side o) (book_of e' (symbol o)))
    = side_quantity (OrderBook.levels (side o) (book_of e (symbol o)))
      + (if decide (order_type o = LIMIT)
         then Z.max 0 (remaining_quantity o') else 0).
Proof.
  cbv zeta.
  destruct (process_order 0 0 (engine_after 0 0 engine0 two_asks) big_limit_buy)
    as [[[e' o'] r]| |] eqn:H; [|vm_compute in H; discriminate H ..].
  assert (Hnone : pending_of (engine_after 0 0 engine0 two_asks) (symbol big_limit_buy) = [])
    by (vm_compute; reflexivity).
  assert (Hc : levels_consistent
                 (OrderBook.levels (opposite (side big_limit_buy))
                    (book_of (engine_after 0 0 engine0 two_asks) (symbol big_limit_buy)))
               = true) by (vm_compute; reflexivity).
  assert (Hf : levels_fit
                 (OrderBook.levels (opposite (side big_limit_buy))
                    (book_of (engine_after 0 0 engine0 two_asks) (symbol big_limit_buy)))
               = true) by (vm_compute; reflexivity).
  assert (Hown : forall p, price big_limit_buy = Some p ->
            within_precision
              (default 0 (PriceLevel.total_quantity <$>
                            SortedDict.get p
                              (OrderBook.levels (side big_limit_buy)
                                 (book_of (engine_after 0 0 engine0 two_asks)
                                    (symbol big_limit_buy))))
               + remaining_quantity o')).
  { intros p Hp. inversion Hp; subst p. vm_compute in H. inversion H; subst.
    vm_compute. discriminate. }
  exists e', o', r. split; [exact two_asks_distinct|].
  split; [exact Hnone|]. split; [reflexivity|]. split; [reflexivity|].
  split; [exact Hc|]. split; [exact Hf|]. split; [exact Hown|].
  exact (process_order_conserves_quantity 0 0 _ _ _ _ _
           two_asks_distinct Hnone H eq_refl Hc Hf Hown).
Defined.

(** The pending stop-limit sell. *)
Lemma reachable_pending_stop_orders_witness :
  let e := engine_after 0 0 engine0 ask_and_stop in
  exists pending o,
    reachable 0 0 e /\ stop_orders e !! sym = Some pending /\ In o pending /\
    symbol o = sym /\ is_stop_type (order_type o) = true.
Proof.
  cbv zeta.
  destruct (stop_orders (engine_after 0 0 engine0 ask_and_stop) !! sym)
    as [pending|] eqn:H; [|vm_compute in H; discriminate H].
  destruct pending as [|o rest]; [vm_compute in H; discriminate H|].
  exists (o :: rest), o. split; [exact (engine0_reachable 0 0 ask_and_stop)|].
  split; [reflexivity|]. split; [left; reflexivity|].
  exact (reachable_pending_stop_orders 0 0 _ _ _ _
           (engine0_reachable 0 0 ask_and_stop) H (or_introl eq_refl)).
Defined.

(** A limit order read back as it was, and a market order that loses its
    price of zero. *)
Lemma order_snapshot_round_trip_witness :
  (order_restorable limit_buy = true /\
   _deserialize_order (_serialize_order limit_buy) = Ok limit_buy) /\
  (price zero_priced = Some 0 /\
   exists o', _deserialize_order (_serialize_order zero_priced) = Ok o' /\
              price o' = None).
Proof.
  split.
  - split; [vm_compute; reflexivity|].
    apply (proj1 (order_snapshot_round_trip limit_buy)). vm_compute. reflexivity.
  - split; [reflexivity|].
    destruct (_deserialize_order (_serialize_order zero_priced)) as [o'| |] eqn:H;
      [|vm_compute in H; discriminate H ..].
    exists o'. split; [reflexivity|].
    exact (proj2 (order_snapshot_round_trip zero_priced) eq_refl o' H).
Defined.

(** The book that holds the two asks, saved and loaded. *)
Lemma load_save_order_book_witness :
  let b := book_of (engine_after 0 0 engine0 two_asks) sym in
  book_wf (OrderBook.symbol b) b /\ book_restorable b = true /\
  book_exact b = true /\
  load_order_book (save_order_book b) = Ok b.
Proof.
  cbv zeta.
  assert (Hwf : book_wf (OrderBook.symbol (book_of (engine_after 0 0 engine0 two_asks) sym))
                  (book_of (engine_after 0 0 engine0 two_asks) sym)).
  { pose proof two_asks_book_wf as Hwf. pose proof Hwf as (Hs & _).
    rewrite Hs. exact Hwf. }
  assert (Hr : book_restorable (book_of (engine_after 0 0 engine0 two_asks) sym) = true)
    by (vm_compute; reflexivity).
  assert (Hx : book_exact (book_of (engine_after 0 0 engine0 two_asks) sym) = true)
    by (vm_compute; reflexivity).
  split; [exact Hwf|]. split; [exact Hr|]. split; [exact Hx|].
  exact (load_save_order_book _ Hwf Hr Hx).
Defined.

(** An engine with a resting ask and a pending stop order, saved and
    loaded into an engine with fees. *)
Lemma load_save_engine_state_witness :
  let e := engine_after 0 0 engine0 ask_and_stop in
  all_books_wf e /\ engine_restorable e = true /\ engine_exact e = true /\
  load_engine_state engine_fees (save_engine_state e) = Ok (restored_into engine_fees e) /\
  load_engine_state e (save_engine_state e) = Ok e.
Proof.
  cbv zeta.
  assert (Hwf : all_books_wf (engine_after 0 0 engine0 ask_and_stop))
    by exact (reachable_all_books_wf 0 0 _ (engine0_reachable 0 0 ask_and_stop)).
  assert (Hr : engine_restorable (engine_after 0 0 engine0 ask_and_stop) = true)
    by (vm_compute; reflexivity).
  assert (Hx : engine_exact (engine_after 0 0 engine0 ask_and_stop) = true)
    by (vm_compute; reflexivity).
  split; [exact Hwf|]. split; [exact Hr|]. split; [exact Hx|].
  exact (load_save_engine_state engine_fees _ Hwf Hr Hx).
Defined.

(** The fee on 123.456789 at the rate 0.001: 0.123456789 is rounded to
    0.12345679. *)
Lemma fee_rounding_witness :
  let v := odd_value in
  let rate := Dec.mk 1 (-3) in
  exists fee,
    0 <= Dec.coef v /\ 0 <= Dec.coef rate /\
    within_precision (Dec.coef v * Dec.coef rate) /\
    Dec.quantize (Dec.mul v rate) fee_quantum_exp = Ok fee /\
    fee = Dec.mk 12345679 (-8) /\
    Dec.expo fee = -8 /\ 0 <= Dec.coef fee /\
    (-8 <= Dec.expo v + Dec.expo rate ->
       Dec.coef fee = Dec.coef v * Dec.coef rate * 10 ^ (Dec.expo v + Dec.expo rate + 8)) /\
    (Dec.expo v + Dec.expo rate < -8 ->
       2 * Z.abs (Dec.coef v * Dec.coef rate
                  - Dec.coef fee * 10 ^ (-8 - (Dec.expo v + Dec.expo rate)))
         <= 10 ^ (-8 - (Dec.expo v + Dec.expo rate)) /\
       (2 * Z.abs (Dec.coef v * Dec.coef rate
                   - Dec.coef fee * 10 ^ (-8 - (Dec.expo v + Dec.expo rate)))
          = 10 ^ (-8 - (Dec.expo v + Dec.expo rate)) ->
        Z.even (Dec.coef fee) = true)).
Proof.
  cbv zeta.
  destruct (Dec.quantize (Dec.mul odd_value (Dec.mk 1 (-3))) fee_quantum_exp)
    as [fee| |] eqn:H; [|vm_compute in H; discriminate H ..].
  assert (Hv : 0 <= Dec.coef odd_value) by (vm_compute; discriminate).
  assert (Hr : 0 <= Dec.coef (Dec.mk 1 (-3))) by (vm_compute; discriminate).
  assert (Hp : within_precision (Dec.coef odd_value * Dec.coef (Dec.mk 1 (-3))))
    by (vm_compute; discriminate).
  assert (Hfee : fee = Dec.mk 12345679 (-8))
    by (pose proof H as Hc; vm_compute in Hc; inversion Hc; reflexivity).
  exists fee. split; [exact Hv|]. split; [exact Hr|]. split; [exact Hp|].
  split; [reflexivity|]. split; [exact Hfee|].
  exact (fee_rounding odd_value (Dec.mk 1 (-3)) fee Hv Hr Hp H).
Defined.

(** The maker's net proceeds of 50000.00000000 at the default rate:
    49950.00000000. *)
Lemma net_proceeds_exact_witness :
  exists n,
    Dec.expo round_value = -8 /\
    get_net_proceeds default_fees round_value true = Ok n /\
    exists fee,
      calculate_maker_fee default_fees round_value = Ok fee /\
      Dec.expo fee = -8 /\
      (within_precision (Dec.coef round_value - Dec.coef fee) ->
       n = Dec.mk (Dec.coef round_value - Dec.coef fee) (-8)).
Proof.
  destruct (get_net_proceeds default_fees round_value true) as [n| |] eqn:H;
    [|vm_compute in H; discriminate H ..].
  exists n. split; [reflexivity|]. split; [reflexivity|].
  exact (net_proceeds_exact default_fees round_value true n eq_refl H).
Defined.

(** A third ask at the best price changes the BBO. *)
Lemma bbo_changed_on_add_witness :
  let b := book_of (engine_after 0 0 engine0 two_asks) sym in
  exists b',
    price added_ask = Some 50000 /\ within_precision 50000 /\
    remaining_quantity added_ask <> 0 /\
    (forall l, SortedDict.get 50000 (OrderBook.levels (side added_ask) b) = Some l ->
       within_precision (PriceLevel.total_quantity l + remaining_quantity added_ask)) /\
    OrderBook.add_order b added_ask = Ok b' /\
    _bbo_changed (OrderBook.calculate_bbo b) (OrderBook.calculate_bbo b')
    = match head (OrderBook.levels (side added_ask) b) with
      | None => true
      | Some (q, _) => match side added_ask with BUY => q <=? 50000 | SELL => 50000 <=? q end
      end.
Proof.
  cbv zeta.
  destruct (OrderBook.add_order (book_of (engine_after 0 0 engine0 two_asks) sym) added_ask)
    as [b'| |] eqn:H; [|vm_compute in H; discriminate H ..].
  assert (Hrem : remaining_quantity added_ask <> 0) by discriminate.
  assert (Hfit : forall l,
            SortedDict.get 50000
              (OrderBook.levels (side added_ask)
                 (book_of (engine_after 0 0 engine0 two_asks) sym)) = Some l ->
            within_precision (PriceLevel.total_quantity l + remaining_quantity added_ask)).
  { intros l Hl. vm_compute in Hl. inversion Hl; subst l. vm_compute. discriminate. }
  assert (Hw : within_precision 50000) by (vm_compute; discriminate).
  exists b'. split; [reflexivity|]. split; [exact Hw|]. split; [exact Hrem|].
  split; [exact Hfit|]. split; [reflexivity|].
  exact (bbo_changed_on_add _ added_ask 50000 _ eq_refl Hw Hrem Hfit H).
Defined.

(** Removing the ask at 50010, behind the best price, leaves the BBO. *)
Lemma bbo_changed_on_remove_witness :
  let b := book_of (engine_after 0 0 engine0 two_asks) sym in
  exists b' o,
    book_wf sym b /\
    (forall p l, price o = Some p ->
       SortedDict.get p (OrderBook.levels (side o) b) = Some l ->
       within_precision (PriceLevel.total_quantity l - remaining_quantity o)) /\
    OrderBook.remove_order b "S2" = Ok (b', o) /\
    _bbo_changed (OrderBook.calculate_bbo b) (OrderBook.calculate_bbo b')
    = bool_decide (fst <$> head (OrderBook.levels (side o) b) = price o).
Proof.
  cbv zeta.
  destruct (OrderBook.remove_order (book_of (engine_after 0 0 engine0 two_asks) sym) "S2")
    as [[b' o]| |] eqn:H; [|vm_compute in H; discriminate H ..].
  assert (Hfit : forall p l, price o = Some p ->
            SortedDict.get p
              (OrderBook.levels (side o)
                 (book_of (engine_after 0 0 engine0 two_asks) sym)) = Some l ->
            within_precision (PriceLevel.total_quantity l - remaining_quantity o)).
  { pose proof H as Hc. vm_compute in Hc. inversion Hc; subst b' o.
    intros p l Hp Hl. vm_compute in Hp. inversion Hp; subst p.
    vm_compute in Hl. inversion Hl; subst l. vm_compute. discriminate. }
  exists b', o. split; [exact two_asks_book_wf|]. split; [exact Hfit|].
  split; [reflexivity|].
  exact (bbo_changed_on_remove _ _ _ _ _ two_asks_book_wf Hfit H).
Defined.

(** The matching loop for the limit buy of 1.00 at 50010. *)
Lemma bbo_changed_by_matching_witness :
  let e := engine_after 0 0 engine0 two_asks in
  let b := book_of e sym in
  let o := limit_buy in
  exists e1 o1 d' idx' trades,
    book_wf sym b /\
    (forall p l, head (OrderBook.levels (opposite (side o)) b) = Some (p, l) ->
       PriceLevel.total_quantity l = sum_remaining (PriceLevel.orders l) /\
       within_precision (PriceLevel.total_quantity l)) /\
    match_levels 0 0 e o (OrderBook.levels (opposite (side o)) b)
      (OrderBook.order_index b) [] = Ok (e1, o1, d', idx', trades) /\
    _bbo_changed (OrderBook.calculate_bbo b)
      (OrderBook.calculate_bbo
         (OrderBook.set_order_index idx'
            (OrderBook.set_levels (opposite (side o)) d' b)))
    = negb (bool_decide (trades = [])) /\
    (trades = [] ->
     OrderBook.levels (opposite (side o))
       (OrderBook.set_order_index idx'
          (OrderBook.set_levels (opposite (side o)) d' b))
     = OrderBook.levels (opposite (side o)) b).
Proof.
  cbv zeta.
  destruct (match_levels 0 0 (engine_after 0 0 engine0 two_asks) limit_buy
              (OrderBook.levels (opposite (side limit_buy))
                 (book_of (engine_after 0 0 engine0 two_asks) sym))
              (OrderBook.order_index (book_of (engine_after 0 0 engine0 two_asks) sym)) [])
    as [[[[[e1 o1] d'] idx'] trades]| |] eqn:H; [|vm_compute in H; discriminate H ..].
  assert (Hd : forall p l,
            head (OrderBook.levels (opposite (side limit_buy))
                    (book_of (engine_after 0 0 engine0 two_asks) sym)) = Some (p, l) ->
            PriceLevel.total_quantity l = sum_remaining (PriceLevel.orders l) /\
            within_precision (PriceLevel.total_quantity l)).
  { intros p l Hl. vm_compute in Hl. inversion Hl; subst p l.
    split; [reflexivity|vm_compute; discriminate]. }
  exists e1, o1, d', idx', trades. split; [exact two_asks_book_wf|].
  split; [exact Hd|]. split; [reflexivity|].
  exact (bbo_changed_by_matching 0 0 _ _ _ _ _ _ _ _ _ two_asks_book_wf Hd H).
Defined.

(** The limit buy through the ask, with a stop order pending. *)
Lemma process_order_fuel_enough_witness :
  let e := engine_after 0 0 engine0 ask_and_stop in
  stops_keyed e /\ process_order 0 0 e crossing_buy <> NoFuel.
Proof.
  cbv zeta.
  assert (Hk : stops_keyed (engine_after 0 0 engine0 ask_and_stop))
    by (apply stops_keyedb_keyed; vm_compute; reflexivity).
  split; [exact Hk|]. exact (process_order_fuel_enough 0 0 _ crossing_buy Hk).
Defined.

(** A market buy of 1.50 against two asks of 1.00 at one price. *)
Lemma market_order_outcome_witness :
  let e := engine_after 0 0 engine0 same_price_asks in
  let o := market_buy in
  exists e' o' r,
    process_order 0 0 e o = Ok (e', o', r) /\
    order_type o = MARKET /\ 0 < quantity o /\ remaining_quantity o = quantity o /\
    within_precision (quantity o) /\
    exists d',
      book_fills (OrderBook.levels (opposite (side o)) (book_of e (symbol o)))
        (result_trades r) d' /\
      result_remaining_quantity r = quantity o - sum_qty (result_trades r) /\
      0 <= result_remaining_quantity r /\
      (0 < result_remaining_quantity r -> d' = []) /\
      (result_remaining_quantity r = 0 -> result_status r = "filled") /\
      (0 < result_remaining_quantity r ->
         status o' = CANCELLED /\
         result_status r =
           match result_trades r with [] => "new" | _ => "partial" end).
Proof.
  cbv zeta.
  destruct (process_order 0 0 (engine_after 0 0 engine0 same_price_asks) market_buy)
    as [[[e' o'] r]| |] eqn:H; [|vm_compute in H; discriminate H ..].
  assert (Hw : within_precision (quantity market_buy)) by (vm_compute; discriminate).
  exists e', o', r. split; [reflexivity|]. split; [reflexivity|].
  split; [reflexivity|]. split; [reflexivity|]. split; [exact Hw|].
  exact (market_order_outcome 0 0 _ _ _ _ _ H eq_refl eq_refl eq_refl Hw).
Defined.

(** The matching loop of a market buy over the two asks. *)
Lemma match_levels_no_ValueError_witness :
  let e := engine_after 0 0 engine0 two_asks in
  let d := OrderBook.levels SELL (book_of e sym) in
  Forall (fun kv => 0 < fst kv) d /\
  levels_positive d = true /\
  match_levels 0 0 e market_buy d (OrderBook.order_index (book_of e sym)) []
  <> Raise ValueError.
Proof.
  cbv zeta.
  assert (Hp : Forall (fun kv : Z * PriceLevel.t => 0 < fst kv)
                 (OrderBook.levels SELL (book_of (engine_after 0 0 engine0 two_asks) sym)))
    by (vm_compute; repeat constructor).
  assert (Hl : levels_positive
                 (OrderBook.levels SELL (book_of (engine_after 0 0 engine0 two_asks) sym))
               = true) by (vm_compute; reflexivity).
  split; [exact Hp|]. split; [exact Hl|].
  exact (match_levels_no_ValueError 0 0 _ _ _ _ _ Hp Hl).
Defined.

(** A limit buy below the asks comes to rest; the book stays uncrossed. *)
Lemma process_order_uncrossed_without_stops_witness :
  let e := engine_after 0 0 engine0 two_asks in
  let o := resting_bid in
  exists e' o' r,
    engine_ok e /\
    book_uncrossed (book_of e (symbol o)) /\
    pending_of e (symbol o) = [] /\
    process_order 0 0 e o = Ok (e', o', r) /\
    book_uncrossed (book_of e' (symbol o)).
Proof.
  cbv zeta.
  destruct (process_order 0 0 (engine_after 0 0 engine0 two_asks) resting_bid)
    as [[[e' o'] r]| |] eqn:H; [|vm_compute in H; discriminate H ..].
  assert (Hok : engine_ok (engine_after 0 0 engine0 two_asks))
    by exact (reachable_engine_ok 0 0 _ (engine0_reachable 0 0 two_asks)).
  assert (Hu : book_uncrossed
                 (book_of (engine_after 0 0 engine0 two_asks) (symbol resting_bid)))
    by (vm_compute; exact I).
  assert (Hnone : pending_of (engine_after 0 0 engine0 two_asks) (symbol resting_bid) = [])
    by (vm_compute; reflexivity).
  exists e', o', r. split; [exact Hok|]. split; [exact Hu|]. split; [exact Hnone|].
  split; [reflexivity|].
  exact (process_order_uncrossed_without_stops 0 0 _ _ _ _ _ Hok Hu Hnone H).
Defined.

(** The best ask is cancelled in a book with a bid below it. *)
Lemma cancel_order_uncrossed_witness :
  let e := engine_after 0 0 engine0 (two_asks ++ [resting_bid]) in
  exists e' b,
    engine_ok e /\
    book_uncrossed (book_of e sym) /\
    cancel_order e "S1" sym = Ok (e', b) /\
    book_uncrossed (book_of e' sym).
Proof.
  cbv zeta.
  destruct (cancel_order (engine_after 0 0 engine0 (two_asks ++ [resting_bid])) "S1" sym)
    as [[e' b]| |] eqn:H; [|vm_compute in H; discriminate H ..].
  assert (Hok : engine_ok (engine_after 0 0 engine0 (two_asks ++ [resting_bid])))
    by exact (reachable_engine_ok 0 0 _ (engine0_reachable 0 0 _)).
  assert (Hu : book_uncrossed
                 (book_of (engine_after 0 0 engine0 (two_asks ++ [resting_bid])) sym))
    by (vm_compute; reflexivity).
  exists e', b. split; [exact Hok|]. split; [exact Hu|]. split; [reflexivity|].
  exact (cancel_order_uncrossed _ _ _ _ _ Hok Hu H).
Defined.


